(** * PyOdin Web: a shallow embedding of the Odin flashing core

    The development follows the JavaScript sources:
    - [js/utils.js]            little-endian packers, [structPack], [readString];
    - [js/pit-parser.js]       the PIT codec;
    - [js/lz4-streaming.js]    the LZ4 block decoder;
    - [js/download-engine.js]  handshake, PIT retrieval, partition matching,
                               skip policy and the two transfer paths.

    A [Uint8Array] is a [list byte]; a JavaScript number that holds an
    integer is a [Z], and the 32-bit conversions that the bit operators
    perform are written out in [JS]. *)

From Stdlib Require Import ZArith Lia Bool String Ascii List.
From coqutil Require Import Byte Z.bitblast.
From coqutil Require Import Word.Interface Word.Properties Word.Naive.
Import ListNotations.
Local Open Scope Z_scope.

(** ** JavaScript 32-bit integer operators *)

Module JS.

  (** [ToInt32]: reduce modulo 2^32 into [-2^31, 2^31). *)
Definition ToInt32 (z : Z) : Z := (z + 2 ^ 31) mod 2 ^ 32 - 2 ^ 31.

  (** [ToUint32]: reduce modulo 2^32 into [0, 2^32). *)
Definition ToUint32 (z : Z) : Z := z mod 2 ^ 32.

  (** [a << n]: the shift count is taken modulo 32, the result is an int32. *)
Definition shl (a n : Z) : Z := ToInt32 (Z.shiftl (ToInt32 a) (n mod 32)).

  (** [a >> n]: sign-propagating right shift of the int32 value of [a]. *)
Definition sar (a n : Z) : Z := Z.shiftr (ToInt32 a) (n mod 32).

  (** [a & b] and [a | b] on the int32 values of the operands. *)
Definition band (a b : Z) : Z := Z.land (ToInt32 a) (ToInt32 b).
Definition bor (a b : Z) : Z := Z.lor (ToInt32 a) (ToInt32 b).

  (** [a >>> 0]. *)
Definition ushr0 (a : Z) : Z := ToUint32 a.

End JS.

(** ** Results of fallible code *)

(** A JavaScript call either returns or throws.  Loops that the model runs
    on fuel report [OutOfFuel] when the fuel is used up; the totality
    lemmas below show that the fuel handed out by the callers is enough. *)
Inductive Result (A : Type) : Type :=
| Ok (a : A)
| Throw (msg : string)
| OutOfFuel.
Arguments Ok {A} a.
Arguments Throw {A} msg.
Arguments OutOfFuel {A}.

Definition rbind {A B} (r : Result A) (k : A -> Result B) : Result B :=
  match r with
  | Ok a => k a
  | Throw m => Throw m
  | OutOfFuel => OutOfFuel
  end.

Declare Scope result_scope.
Delimit Scope result_scope with result.
Notation "x <- r ;; k" := (rbind r (fun x => k))
  (at level 61, r at next level, right associativity) : result_scope.

(** ** Typed arrays *)

Module TA.

  (** [new Uint8Array(n)] *)
Definition zeros (n : nat) : list byte := repeat Byte.x00 n.

  (** [buf.set(src, off)]: a [RangeError] when [src] does not fit. *)
Definition set (buf src : list byte) (off : nat) : Result (list byte) :=
    if (off + length src <=? length buf)%nat
    then Ok (firstn off buf ++ src ++ skipn (off + length src) buf)
    else Throw "RangeError: offset is out of bounds"%string.

  (** [buf[i] = v]: the value is stored modulo 256; an index outside the
      array is ignored. *)
Definition put (buf : list byte) (i : nat) (v : Z) : list byte :=
    if (i <? length buf)%nat
    then firstn i buf ++ byte.of_Z v :: skipn (S i) buf
    else buf.

  (** [buf.slice(a, b)] for [0 <= a]. *)
Definition slice (buf : list byte) (a b : nat) : list byte :=
    firstn (b - a) (skipn a buf).

  (** [buf.fill(0)] *)
Definition fill0 (buf : list byte) : list byte := zeros (length buf).

End TA.

(** ** js/utils.js *)

Module Utils.

  (** [arr[i]] used as an operand of a bit operator: an index outside the
      array gives [undefined], which [ToInt32] turns into 0. *)
Definition at0 (arr : list byte) (i : nat) : Z :=
    match nth_error arr i with
    | Some b => byte.unsigned b
    | None => 0
    end.

  (** [numberToLE(num, bytes)]: [arr[i] = (num >> (i * 8)) & 0xFF]. *)
Definition numberToLE (num : Z) (bytes : nat) : list byte :=
    map (fun i => byte.of_Z (JS.band (JS.sar num (Z.of_nat i * 8)) 255))
        (seq 0 bytes).

  (** [LEToNumber(arr, offset, bytes)]:
      [num |= arr[offset + i] << (i * 8)], then [num >>> 0]. *)
Definition LEToNumber (arr : list byte) (offset : nat) (bytes : nat) : Z :=
    JS.ushr0
      (fold_left
         (fun num i => JS.bor num (JS.shl (at0 arr (offset + i)) (Z.of_nat i * 8)))
         (seq 0 bytes) 0).

  (** The format characters of [structPack] and [structUnpack]. *)
Inductive Fmt := fI | fQ | fH | fB.

  (** [values[valueIndex++]]: a missing value is [undefined], which the
      bit operators of [numberToLE] read as 0. *)
Definition value_at (values : list Z) (i : nat) : Z := nth i values 0.

  (** [structPack('<...', ...values)] *)
Fixpoint structPack_from (format : list Fmt) (values : list Z) (valueIndex : nat)
    : list byte :=
    match format with
    | [] => []
    | ty :: rest =>
        let value := value_at values valueIndex in
        (match ty with
         | fI => numberToLE value 4
         | fQ => let low := JS.band value 4294967295 in
                 let high := value / 4294967296 in
                 numberToLE low 4 ++ numberToLE high 4
         | fH => numberToLE value 2
         | fB => [byte.of_Z (JS.band value 255)]
         end) ++ structPack_from rest values (S valueIndex)
    end.

Definition structPack (format : list Fmt) (values : list Z) : list byte :=
    structPack_from format values 0.

  (** [structUnpack('<...', buffer, offset)] for the integer formats. *)
Fixpoint structUnpack (format : list Fmt) (buffer : list byte) (pos : nat) : list Z :=
    match format with
    | [] => []
    | fI :: rest => LEToNumber buffer pos 4 :: structUnpack rest buffer (pos + 4)
    | fQ :: rest =>
        let low := LEToNumber buffer pos 4 in
        let high := LEToNumber buffer (pos + 4) 4 in
        (low + high * 4294967296) :: structUnpack rest buffer (pos + 8)
    | fH :: rest => LEToNumber buffer pos 2 :: structUnpack rest buffer (pos + 2)
    | fB :: rest => at0 buffer pos :: structUnpack rest buffer (pos + 1)
    end.

  (** [concatUint8Arrays(...arrays)] *)
Definition concatUint8Arrays (arrays : list (list byte)) : list byte :=
    concat arrays.

  (** [readString(buffer, offset, maxLength)]: stops at the first zero
      byte.  An index past the end gives [undefined], which is not [=== 0]
      and which [String.fromCharCode] turns into the character of code 0. *)
Fixpoint readString (buffer : list byte) (offset : nat) (maxLength : nat) : string :=
    match maxLength with
    | O => EmptyString
    | S n =>
        match nth_error buffer offset with
        | Some b =>
            if Byte.eqb b Byte.x00 then EmptyString
            else String (ascii_of_byte b) (readString buffer (S offset) n)
        | None => String Ascii.zero (readString buffer (S offset) n)
        end
    end.

End Utils.

(** ** js/pit-parser.js *)

Module Pit.
Import Utils.
  Local Open Scope result_scope.

Definition PIT_MAGIC : Z := 0x12349876.
Definition PIT_HEADER_SIZE : nat := 28.
Definition PIT_ENTRY_SIZE : nat := 132.

Record PitEntry := mkPitEntry {
    binaryType : Z;
    deviceType : Z;
    partitionId : Z;
    partitionType : Z;
    filesystem : Z;
    startBlock : Z;
    numBlocks : Z;
    fileOffset : Z;
    fileSize : Z;
    partitionName : string;
    flashFilename : string;
    fotaFilename : string
  }.

Record PitData := mkPitData {
    magic : Z;
    count : Z;
    entries : list PitEntry
  }.

  (** [parseEntry(data, offset)] *)
Definition parseEntry (data : list byte) (offset : nat) : PitEntry :=
    {| binaryType := LEToNumber data (offset + 0) 4;
       deviceType := LEToNumber data (offset + 4) 4;
       partitionId := LEToNumber data (offset + 8) 4;
       partitionType := LEToNumber data (offset + 12) 4;
       filesystem := LEToNumber data (offset + 16) 4;
       startBlock := LEToNumber data (offset + 20) 4;
       numBlocks := LEToNumber data (offset + 24) 4;
       fileOffset := LEToNumber data (offset + 28) 4;
       fileSize := LEToNumber data (offset + 32) 4;
       partitionName := readString data (offset + 36) 32;
       flashFilename := readString data (offset + 68) 32;
       fotaFilename := readString data (offset + 100) 32 |}.

  (** The entry loop of [parse]: [for (i = 0; i < count; i++)], left by
      [break] at the first entry that does not fit.  [n] counts the
      iterations still to run. *)
Fixpoint parseEntries (pitData : list byte) (n : nat) (offset : nat) : list PitEntry :=
    match n with
    | O => []
    | S n' =>
        if (length pitData <? offset + PIT_ENTRY_SIZE)%nat then []
        else parseEntry pitData offset
               :: parseEntries pitData n' (offset + PIT_ENTRY_SIZE)
    end.

  (** [parse(pitData)] *)
Definition parse (pitData : list byte) : Result PitData :=
    if (length pitData <? PIT_HEADER_SIZE)%nat then Throw "PIT data too small"%string
    else
      let magic := LEToNumber pitData 0 4 in
      let count := LEToNumber pitData 4 4 in
      if negb (magic =? PIT_MAGIC) then Throw "Invalid PIT magic"%string
      else Ok {| magic := magic;
                 count := count;
                 entries := parseEntries pitData (Z.to_nat count) PIT_HEADER_SIZE |}.

  (** [TextEncoder.encode] on a string of 8-bit code units: one byte below
      0x80, two bytes from 0x80 on. *)
Definition encodeChar (c : ascii) : list byte :=
    let n := Z.of_N (N_of_ascii c) in
    if n <? 128 then [byte_of_ascii c]
    else [byte.of_Z (Z.lor 192 (Z.shiftr n 6)); byte.of_Z (Z.lor 128 (Z.land n 63))].

Fixpoint encode (s : string) : list byte :=
    match s with
    | EmptyString => []
    | String c rest => encodeChar c ++ encode rest
    end.

  (** [writeString(buffer, offset, str, maxLength)] *)
Definition writeString (buffer : list byte) (offset : nat) (str : string)
             (maxLength : nat) : Result (list byte) :=
    let bytes := encode str in
    let len := Nat.min (length bytes) (maxLength - 1) in
    buffer <- TA.set buffer (TA.slice bytes 0 len) offset ;;
    Ok (TA.put buffer (offset + len) 0).

  (** [serializeEntry(entry, buffer, offset)] *)
Definition serializeEntry (entry : PitEntry) (buffer : list byte) (offset : nat)
    : Result (list byte) :=
    buffer <- TA.set buffer (numberToLE (binaryType entry) 4) (offset + 0) ;;
    buffer <- TA.set buffer (numberToLE (deviceType entry) 4) (offset + 4) ;;
    buffer <- TA.set buffer (numberToLE (partitionId entry) 4) (offset + 8) ;;
    buffer <- TA.set buffer (numberToLE (partitionType entry) 4) (offset + 12) ;;
    buffer <- TA.set buffer (numberToLE (filesystem entry) 4) (offset + 16) ;;
    buffer <- TA.set buffer (numberToLE (startBlock entry) 4) (offset + 20) ;;
    buffer <- TA.set buffer (numberToLE (numBlocks entry) 4) (offset + 24) ;;
    buffer <- TA.set buffer (numberToLE (fileOffset entry) 4) (offset + 28) ;;
    buffer <- TA.set buffer (numberToLE (fileSize entry) 4) (offset + 32) ;;
    buffer <- writeString buffer (offset + 36) (partitionName entry) 32 ;;
    buffer <- writeString buffer (offset + 68) (flashFilename entry) 32 ;;
    writeString buffer (offset + 100) (fotaFilename entry) 32.

  (** The entry loop of [serialize]. *)
Fixpoint serializeEntries (es : list PitEntry) (buffer : list byte) (offset : nat)
    : Result (list byte) :=
    match es with
    | [] => Ok buffer
    | entry :: rest =>
        buffer <- serializeEntry entry buffer offset ;;
        serializeEntries rest buffer (offset + PIT_ENTRY_SIZE)
    end.

  (** [serialize(pitData)] *)
Definition serialize (pitData : PitData) : Result (list byte) :=
    let totalSize := (PIT_HEADER_SIZE + length (entries pitData) * PIT_ENTRY_SIZE)%nat in
    let buffer := TA.zeros totalSize in
    buffer <- TA.set buffer (numberToLE (magic pitData) 4) 0 ;;
    buffer <- TA.set buffer (numberToLE (count pitData) 4) 4 ;;
    serializeEntries (entries pitData) buffer PIT_HEADER_SIZE.

End Pit.

(** ** Vocabulary of the PIT properties *)

Module PitSpec.
Import Utils Pit.

  (** The 32-byte field that [writeString] leaves in a zeroed buffer. *)
Definition field32 (s : string) : list byte :=
    firstn 31 (encode s) ++ TA.zeros (32 - Nat.min (length (encode s)) 31).

  (** The 132 bytes of one entry and the 28 bytes of the header. *)
Definition entry_bytes (e : PitEntry) : list byte :=
    numberToLE (binaryType e) 4 ++ numberToLE (deviceType e) 4 ++
    numberToLE (partitionId e) 4 ++ numberToLE (partitionType e) 4 ++
    numberToLE (filesystem e) 4 ++ numberToLE (startBlock e) 4 ++
    numberToLE (numBlocks e) 4 ++ numberToLE (fileOffset e) 4 ++
    numberToLE (fileSize e) 4 ++
    field32 (partitionName e) ++ field32 (flashFilename e) ++ field32 (fotaFilename e).

Definition header_bytes (p : PitData) : list byte :=
    numberToLE (magic p) 4 ++ numberToLE (count p) 4 ++ TA.zeros 20.

  (** A numeric field is a u32. *)
Definition is_u32 (z : Z) : bool := (0 <=? z) && (z <? 2 ^ 32).

  (** A character of a PIT string: ASCII, and not the terminator of the
      null-padded field. *)
Definition text_char (c : ascii) : bool :=
    let n := N_of_ascii c in (0 <? n)%N && (n <? 128)%N.

Fixpoint all_chars (f : ascii -> bool) (s : string) : bool :=
    match s with
    | EmptyString => true
    | String c rest => f c && all_chars f rest
    end.

  (** At most 31 ASCII characters. *)
Definition wf_string (s : string) : bool :=
    (String.length s <=? 31)%nat && all_chars text_char s.

Definition wf_entry (e : PitEntry) : bool :=
    is_u32 (binaryType e) && is_u32 (deviceType e) && is_u32 (partitionId e) &&
    is_u32 (partitionType e) && is_u32 (filesystem e) && is_u32 (startBlock e) &&
    is_u32 (numBlocks e) && is_u32 (fileOffset e) && is_u32 (fileSize e) &&
    wf_string (partitionName e) && wf_string (flashFilename e) &&
    wf_string (fotaFilename e).

  (** A well-formed PIT value: the magic, a u32 count equal to the number
      of entries, well-formed entries. *)
Definition wf_pit (p : PitData) : bool :=
    (magic p =? PIT_MAGIC) && is_u32 (count p) &&
    (count p =? Z.of_nat (length (entries p))) && forallb wf_entry (entries p).

End PitSpec.

(** ** Sample PIT values *)

Module PitSamples.
Import Pit.

  (** Two entries, [BOOTLOADER] and [BOOT]. *)
Definition bootloader_entry : PitEntry :=
    {| binaryType := 0; deviceType := 2; partitionId := 80; partitionType := 0;
       filesystem := 0; startBlock := 0; numBlocks := 2048; fileOffset := 0;
       fileSize := 0;
       partitionName := "BOOTLOADER"; flashFilename := "sboot.bin";
       fotaFilename := "" |}.

Definition boot_entry : PitEntry :=
    {| binaryType := 0; deviceType := 2; partitionId := 3; partitionType := 0;
       filesystem := 0; startBlock := 2048; numBlocks := 16384; fileOffset := 0;
       fileSize := 0;
       partitionName := "BOOT"; flashFilename := "boot.img";
       fotaFilename := "" |}.

Definition sample_pit : PitData :=
    {| magic := PIT_MAGIC; count := 2; entries := [bootloader_entry; boot_entry] |}.

  (** A 28-byte header that announces one entry and carries none. *)
Definition truncated_pit : list byte :=
    Utils.numberToLE PIT_MAGIC 4 ++ Utils.numberToLE 1 4 ++ TA.zeros 20.

End PitSamples.
(** ** The transport boundary: [usbDevice.write] and [usbDevice.read] *)

(** The device is a script: the outcome of each successive [write] call
    and of each successive [read] call.  A script that has run out behaves
    like a link that is down: the call throws.  Every call made is
    recorded.  Pauses ([sleep]) and logging are not represented. *)
Module Usb.

  (** What is handed to [write].  Member bodies are never inspected by the
      engine, it only slices them: a data block is recorded as the byte
      range of the body it carries, with the length before padding and
      the length that is written. *)
Inductive Payload :=
  | Bytes (b : list byte)
  | Block (start actual padded : Z).

Definition payload_length (p : Payload) : Z :=
    match p with
    | Bytes b => Z.of_nat (length b)
    | Block _ _ padded => padded
    end.

Inductive Call :=
  | Write (p : Payload)
  | Read (size timeout : Z).

  (** A [write] returns the number of bytes written or throws. *)
Inductive WriteOutcome :=
  | Complete
  | Partial (n : Z)
  | WriteError.

  (** A [read] returns the bytes received, at most the number asked for,
      or throws (timeout or failure). *)
Inductive ReadOutcome :=
  | Data (b : list byte)
  | ReadError.

Record Device := mkDevice {
    writes : list WriteOutcome;
    reads : list ReadOutcome
  }.

  (** [done]: the calls made so far, the most recent first. *)
Record State := mkState {
    dev : Device;
    done : list Call
  }.

Definition calls (s : State) : list Call := rev (done s).

Definition start (d : Device) : State := {| dev := d; done := [] |}.

  (** Code that talks to the device: it returns or throws, and leaves a
      state behind in both cases. *)
Definition M (A : Type) : Type := State -> Result A * State.

Definition ret {A} (a : A) : M A := fun s => (Ok a, s).

Definition throw {A} (msg : string) : M A := fun s => (Throw msg, s).

Definition outOfFuel {A} : M A := fun s => (OutOfFuel, s).

Definition bind {A B} (m : M A) (k : A -> M B) : M B :=
    fun s =>
      match m s with
      | (Ok a, s') => k a s'
      | (Throw msg, s') => (Throw msg, s')
      | (OutOfFuel, s') => (OutOfFuel, s')
      end.

  (** A [Result] computed without the device. *)
Definition lift {A} (r : Result A) : M A := fun s => (r, s).

  (** [try { m } catch (error) { h error }] *)
Definition try_catch {A} (m : M A) (h : string -> M A) : M A :=
    fun s =>
      match m s with
      | (Throw msg, s') => h msg s'
      | other => other
      end.

  (** [await usbDevice.write(data)] *)
Definition write (p : Payload) : M Z :=
    fun s =>
      let s' := fun ws => {| dev := {| writes := ws; reads := reads (dev s) |};
                             done := Write p :: done s |} in
      match writes (dev s) with
      | [] => (Throw "USB write failed"%string, s' [])
      | Complete :: ws => (Ok (payload_length p), s' ws)
      | Partial n :: ws => (Ok n, s' ws)
      | WriteError :: ws => (Throw "USB write failed"%string, s' ws)
      end.

  (** [await usbDevice.read(size, timeout)] *)
Definition read (size timeout : Z) : M (list byte) :=
    fun s =>
      let s' := fun rs => {| dev := {| writes := writes (dev s); reads := rs |};
                             done := Read size timeout :: done s |} in
      match reads (dev s) with
      | [] => (Throw "USB read timeout"%string, s' [])
      | Data b :: rs => (Ok (firstn (Z.to_nat size) b), s' rs)
      | ReadError :: rs => (Throw "USB read timeout"%string, s' rs)
      end.

  (** [try { await usbDevice.write(new Uint8Array(0)); } catch (e) {}] *)
Definition emptyTransfer : M unit :=
    try_catch (bind (write (Bytes [])) (fun _ => ret tt)) (fun _ => ret tt).

End Usb.

Declare Scope usb_scope.
Delimit Scope usb_scope with usb.
Notation "x <- m ;; k" := (Usb.bind m (fun x => k))
  (at level 61, m at next level, right associativity) : usb_scope.
Notation "' pat <- m ;; k" := (Usb.bind m (fun x => match x with pat => k end))
  (at level 61, pat pattern, m at next level, right associativity) : usb_scope.
(** ** js/download-engine.js: handshake, PIT retrieval, session commands *)

Module Engine.
Import Utils Usb.
  Local Open Scope usb_scope.

  (** [this.packetSize] and [this.fileTransferPacketSize] of the
      constructor; the timeouts of the constants file, in seconds. *)
Definition packetSize : nat := 1024.
Definition fileTransferPacketSize : Z := 131072.
Definition TIMEOUT_HANDSHAKE : Z := 60.
Definition TIMEOUT_TRANSFER : Z := 60.

  (** [new TextEncoder().encode("ODIN")] *)
Definition odinBytes : list byte := [Byte.x4f; Byte.x44; Byte.x49; Byte.x4e].

  (** [arr[i] === n] *)
Definition elem_is (arr : list byte) (i : nat) (n : Z) : bool :=
    match nth_error arr i with
    | Some b => byte.unsigned b =? n
    | None => false
    end.

Definition len (arr : list byte) : Z := Z.of_nat (length arr).

  (** [handshake()] *)
Definition handshake : M bool :=
    try_catch
      (written <- write (Bytes odinBytes) ;;
       if negb (written =? 4) then ret false
       else
         resp <- read 64 TIMEOUT_HANDSHAKE ;;
         if len resp <? 4 then ret false
         else if elem_is resp 0 76 && elem_is resp 1 79 &&
                 elem_is resp 2 75 && elem_is resp 3 69
              then ret true
              else ret false)
      (fun _ => ret false).

  (** [buf.set(structPack(format, ...values), at); ] *)
Definition pack_into (buf : list byte) (format : list Fmt) (values : list Z)
             (at_ : nat) : M (list byte) :=
    lift (TA.set buf (structPack format values) at_).

  (** [await this.usbDevice.write(buf.slice(0, this.packetSize))] *)
Definition write_packet (buf : list byte) : M Z :=
    write (Bytes (TA.slice buf 0 packetSize)).

  (** The size request of [receivePitData]: up to two reads, the first
      one of at least 8 bytes is kept. *)
Fixpoint readSizeReply (tries : nat) (resp : option (list byte))
    : M (option (list byte)) :=
    match tries with
    | O => ret resp
    | S tries' =>
        r <- read 64 60 ;;
        if 8 <=? len r then ret (Some r)
        else readSizeReply tries' (Some r)
    end.

  (** The chunk loop of [receivePitData], [while (remaining > 0)].  It
      returns [pitData], [counter] and [remaining]. *)
Fixpoint readPitChunks (fuel : nat) (buf : list byte) (pitData : list (list byte))
           (counter remaining : Z) : M (list (list byte) * Z * Z) :=
    match fuel with
    | O => outOfFuel
    | S fuel' =>
        if remaining >? 0 then
          buf <- pack_into (TA.fill0 buf) [fI; fI; fI] [101; 2; counter] 0 ;;
          _ <- write_packet buf ;;
          let readSize := Z.min 500 remaining in
          chunk <- read readSize 60 ;;
          if len chunk =? 0 then ret (pitData, counter, remaining)
          else readPitChunks fuel' buf (pitData ++ [chunk]) (counter + 1)
                             (remaining - len chunk)
        else ret (pitData, counter, remaining)
    end.

  (** [receivePitData()], from the check of the size reply on. *)
Definition receivePitBody (buf : list byte) (resp : option (list byte))
    : M (list byte) :=
    match resp with
    | None => throw "PIT request timeout"
    | Some resp =>
        if len resp <? 8 then throw "PIT request timeout"
        else
          let respCmd := nth 0 (structUnpack [fI; fI] resp 0) 0 in
          let respData := nth 1 (structUnpack [fI; fI] resp 0) 0 in
          if negb (respCmd =? 101) then throw "PIT cmd, expected 101"
          else
            let pitSize := respData in
            if (pitSize =? 0) || (pitSize >? 0x100000) then throw "Invalid PIT size"
            else
              '(pitData, _, _) <-
                 readPitChunks (S (Z.to_nat pitSize)) buf [] 0 pitSize ;;
              buf <- pack_into (TA.fill0 buf) [fI; fI; fI] [101; 3; 0] 0 ;;
              _ <- write_packet buf ;;
              _ <- read 64 60 ;;
              ret (concatUint8Arrays pitData)
    end.

  (** [receivePitData()].  The [catch] of the source logs and rethrows. *)
Definition receivePitData : M (list byte) :=
    let buf := TA.zeros 1024 in
    buf <- pack_into buf [fI; fI; fI] [101; 1; 0] 0 ;;
    _ <- write_packet buf ;;
    resp <- readSizeReply 2 None ;;
    receivePitBody buf resp.

  (** Steps 2 and 3 of [connectDevice()]: the protocol version query
      [(100, 0, 4)] and, when the device names a packet size, the part
      size [(100, 5, 0x100000)].  It returns the protocol version. *)
Definition negotiate : M Z :=
    let buf := TA.zeros 1024 in
    buf <- pack_into buf [fI; fI; fI] [100; 0; 4] 0 ;;
    _ <- write_packet buf ;;
    resp <- read 64 60 ;;
    if len resp <? 8 then throw "No valid response to protocol version request"
    else
      let data := nth 1 (structUnpack [fI; fI] resp 0) 0 in
      let version := JS.band (JS.sar data 16) 65535 in
      let deviceDefaultPacketSize := JS.band data 65535 in
      if negb (deviceDefaultPacketSize =? 0) then
        buf <- pack_into (TA.fill0 buf) [fI; fI; fI] [100; 5; 0x100000] 0 ;;
        _ <- write_packet buf ;;
        resp2 <- read 64 TIMEOUT_HANDSHAKE ;;
        if 8 <=? len resp2 then
          let result := nth 1 (structUnpack [fI; fI] resp2 0) 0 in
          if negb (result =? 0) then throw "Device rejected file part size"
          else ret version
        else ret version
      else ret version.

  (** The session open of [flash()]: [(100, 2)] followed by the total
      byte count as a u64. *)
Definition sessionOpen (totalBytes : Z) : M unit :=
    let buf := TA.zeros 1024 in
    buf <- pack_into buf [fI; fI] [100; 2] 0 ;;
    buf <- pack_into buf [fQ] [totalBytes] 8 ;;
    _ <- write_packet buf ;;
    resp <- read 64 TIMEOUT_TRANSFER ;;
    if len resp <? 8 then throw "No response to 100/2 packet"
    else
      let respCmd := nth 0 (structUnpack [fI; fI] resp 0) 0 in
      let respData := nth 1 (structUnpack [fI; fI] resp 0) 0 in
      if negb (respCmd =? 100) || negb (respData =? 0)
      then throw "Device rejected 100/2"
      else ret tt.

  (** [closeConnection()] *)
Definition closeConnection : M unit :=
    try_catch
      (let buf := TA.zeros 1024 in
       buf <- pack_into buf [fI; fI; fI] [103; 0; 0] 0 ;;
       _ <- write_packet buf ;;
       _ <- read 64 TIMEOUT_TRANSFER ;;
       ret tt)
      (fun _ => ret tt).

  (** [rebootDevice()] *)
Definition rebootDevice : M unit :=
    try_catch
      (let buf := TA.zeros 1024 in
       buf <- pack_into buf [fI; fI; fI] [103; 1; 0] 0 ;;
       _ <- write_packet buf ;;
       ret tt)
      (fun _ => ret tt).

End Engine.
(** ** Vocabulary of the session properties *)

Module EngineSpec.
Import Utils Usb Engine.

  (** Every call leaves the earlier calls in place: [s'] is [s] after
      the calls [new]. *)
Definition extends (s s' : State) (new : list Call) : Prop :=
    calls s' = calls s ++ new.

  (** ['L' 'O' 'K' 'E'] *)
Definition lokeBytes : list byte := [Byte.x4c; Byte.x4f; Byte.x4b; Byte.x45].

  (** The number of bytes a format packs. *)
Fixpoint fmt_size (format : list Fmt) : nat :=
    match format with
    | [] => 0
    | fI :: rest => 4 + fmt_size rest
    | fQ :: rest => 8 + fmt_size rest
    | fH :: rest => 2 + fmt_size rest
    | fB :: rest => 1 + fmt_size rest
    end.

  (** A command frame: the packed payload, zero-padded to 1024 bytes. *)
Definition frame (format : list Fmt) (values : list Z) : list byte :=
    structPack format values ++ TA.zeros (1024 - length (structPack format values)).

  (** What the first [write] of a device script reports for [n] bytes. *)
Definition reports (w : WriteOutcome) (n : Z) : option Z :=
    match w with
    | Complete => Some n
    | Partial k => Some k
    | WriteError => None
    end.

  (** A chunk kept by the loop of [receivePitData]. *)
Definition chunk_ok (c : list byte) : Prop := 0 < len c <= 500.

  (** The requests of the chunk loop of [receivePitData] that were
      answered by the non-empty [chunks]. *)
Fixpoint pit_requests (counter remaining : Z) (chunks : list (list byte))
    : list Call :=
    match chunks with
    | [] => []
    | c :: cs =>
        Write (Bytes (frame [fI; fI; fI] [101; 2; counter]))
          :: Read (Z.min 500 remaining) 60
          :: pit_requests (counter + 1) (remaining - len c) cs
    end.

  (** What the chunk loop of [receivePitData] keeps of the replies
      [raws] of the device, one reply per request: of each one the first
      [min(500, remaining)] bytes. *)
Fixpoint takes (remaining : Z) (raws : list (list byte)) : list (list byte) :=
    match raws with
    | [] => []
    | raw :: rest =>
        let chunk := firstn (Z.to_nat (Z.min 500 remaining)) raw in
        chunk :: takes (remaining - len chunk) rest
    end.

  (** What a successful [receivePitData] leaves behind, on a device
      whose reads were [reads0] and after the calls [tr0].  The reads of
      the device were, in this order: at most one reply of which less
      than 8 bytes arrive ([early]), the size reply [reply], the replies
      [raws] to the chunk requests, one empty reply when the loop ended
      before [pitSize] bytes were there, and the reply [final] to the
      terminator; [rest] is left unread.  The size reply is
      [(101, pitSize)] with [0 < pitSize <= 0x100000].  The result is the
      concatenation of what the loop kept of [raws], chunks of 1 to 500
      bytes, at most [pitSize] bytes in all.  The calls made are the
      size request, one read per reply in [early] and for [reply], one
      [(101, 2, counter)] request and one read of [min(500, remaining)]
      bytes per chunk, one more such pair when the empty reply came,
      then [(101, 3, 0)] and one read. *)
Definition pit_post (reads0 : list ReadOutcome) (tr0 : list Call)
             (out : list byte) (s' : State) : Prop :=
    exists early reply raws final rest,
      let resp := firstn 64 reply in
      let pitSize := LEToNumber resp 4 4 in
      let chunks := takes pitSize raws in
      let short := len out <? pitSize in
      (early = [] \/ exists r1, early = [r1] /\ len (firstn 64 r1) < 8) /\
      reads0 = map Data early ++ Data reply :: map Data raws ++
               (if short then [Data []] else []) ++ Data final :: rest /\
      reads (dev s') = rest /\
      8 <= len resp /\ LEToNumber resp 0 4 = 101 /\
      0 < pitSize <= 0x100000 /\
      out = concat chunks /\ Forall chunk_ok chunks /\ len out <= pitSize /\
      rev (done s') =
        rev tr0 ++ [Write (Bytes (frame [fI; fI; fI] [101; 1; 0]))] ++
        map (fun _ => Read 64 60) (early ++ [reply]) ++
        pit_requests 0 pitSize chunks ++
        (if short
         then [Write (Bytes (frame [fI; fI; fI] [101; 2; Z.of_nat (length chunks)]));
               Read (Z.min 500 (pitSize - len out)) 60]
         else []) ++
        [Write (Bytes (frame [fI; fI; fI] [101; 3; 0])); Read 64 60].

  (** A device that announces a PIT of 10 bytes and then sends nothing. *)
Definition silent_pit_device : Device :=
    {| writes := [Complete; Complete; Complete];
       reads := [Data (structPack [fI; fI] [101; 10]); Data [];
                 Data (structPack [fI; fI] [101; 0])] |}.

  (** The payloads of the commands of the protocol: three 32-bit words
      for a command, its sub-command and one argument; the session
      total as a 64-bit number after [(100, 2)]; the eight words of a
      finalizer [(102, 3)]. *)
Inductive payload : list byte -> Prop :=
  | three_words cmd sub arg :
      In cmd [100; 101; 102; 103] ->
      payload (structPack [fI; fI; fI] [cmd; sub; arg])
  | session_total total :
      payload (structPack [fI; fI; fQ] [100; 2; total])
  | finalizer_words actual deviceType partitionId completionStatus :
      payload (structPack [fI; fI; fI; fI; fI; fI; fI; fI]
                 [102; 3; 0; actual; 0; deviceType; partitionId; completionStatus]).

  (** A command frame: exactly 1024 bytes that start with the number
      of a command, the payload of a command, of 12, 16 or 32 bytes, and
      after it nothing but zeros. *)
Definition command_frame (b : list byte) : Prop :=
    length b = 1024%nat /\
    In (LEToNumber b 0 4) [100; 101; 102; 103] /\
    exists p, payload p /\ (length p <= 32)%nat /\
              b = p ++ repeat Byte.x00 (1024 - length p).

  (** A finalizer frame. *)
Definition finalizer_frame (b : list byte) : Prop :=
    length b = 1024%nat /\
    exists actual deviceType partitionId completionStatus,
      b = structPack [fI; fI; fI; fI; fI; fI; fI; fI]
            [102; 3; 0; actual; 0; deviceType; partitionId; completionStatus]
          ++ repeat Byte.x00 (1024 - 32).

  (** What the session operations hand to the transport, in order:
      command frames, reads and blocks of member bodies, and
      zero-length transfers only right before a block and right before
      and after a finalizer frame. *)
Inductive session_calls : list Call -> Prop :=
  | sc_nil : session_calls []
  | sc_frame b rest :
      command_frame b -> session_calls rest ->
      session_calls (Write (Bytes b) :: rest)
  | sc_read size timeout rest :
      session_calls rest -> session_calls (Read size timeout :: rest)
  | sc_block start actual padded rest :
      session_calls rest -> session_calls (Write (Block start actual padded) :: rest)
  | sc_gap start actual padded rest :
      session_calls rest ->
      session_calls (Write (Bytes []) :: Write (Block start actual padded) :: rest)
  | sc_finalizer b rest :
      finalizer_frame b -> session_calls rest ->
      session_calls (Write (Bytes []) :: Write (Bytes b) :: Write (Bytes []) :: rest)
  | sc_finalizer_alone b rest :
      finalizer_frame b -> session_calls rest ->
      session_calls (Write (Bytes []) :: Write (Bytes b) :: rest).

  (** [m] adds calls that are in [L] to the calls made before. *)
Definition emits (L : list Call -> Prop) {A} (m : M A) : Prop :=
    forall s, exists new, calls (snd (m s)) = calls s ++ new /\ L new.

  (** Code that hands nothing else to the transport, from any state. *)
Definition sends_frames {A} (m : M A) : Prop := emits session_calls m.

End EngineSpec.
(** ** JavaScript string methods *)

(** A string is a sequence of 8-bit code units, which is what
    [readString] builds with [String.fromCharCode] from the bytes of a
    TAR header or of a PIT entry. *)
Module Str.

  (** [c.toLowerCase()] on a code unit below 256: the letters [A]-[Z] and
      the capital letters of the Latin-1 block (0xC0 to 0xDE, without the
      multiplication sign 0xD7) move up by 32. *)
Definition lowerChar (c : ascii) : ascii :=
    let n := N_of_ascii c in
    if ((65 <=? n) && (n <=? 90))%N then ascii_of_N (n + 32)
    else if ((192 <=? n) && (n <=? 222) && negb (n =? 215))%N then ascii_of_N (n + 32)
    else c.

  (** [s.toLowerCase()] *)
Fixpoint toLowerCase (s : string) : string :=
    match s with
    | EmptyString => EmptyString
    | String c rest => String (lowerChar c) (toLowerCase rest)
    end.

  (** [s.startsWith(p)] *)
Definition startsWith (s p : string) : bool := String.prefix p s.

  (** [s.includes(p)] *)
Fixpoint includes (s p : string) : bool :=
    String.prefix p s ||
    match s with
    | EmptyString => false
    | String _ rest => includes rest p
    end.

  (** [s.endsWith(p)] *)
Definition endsWith (s p : string) : bool :=
    (String.length p <=? String.length s)%nat &&
    String.eqb (String.substring (String.length s - String.length p)
                                 (String.length p) s) p.

  (** [s.replace(p, r)] with a string pattern: the first occurrence of
      [p] only, from the left. *)
Fixpoint replace (s p r : string) : string :=
    if String.prefix p s
    then String.append r (String.substring (String.length p)
                                           (String.length s - String.length p) s)
    else match s with
         | EmptyString => EmptyString
         | String c rest => String c (replace rest p r)
         end.

  (** The white space that [trim] and [parseInt] skip, below 256. *)
Definition isSpace (c : ascii) : bool :=
    let n := N_of_ascii c in
    (((9 <=? n) && (n <=? 13)) || (n =? 32) || (n =? 160))%N.

Fixpoint trimStart (s : string) : string :=
    match s with
    | EmptyString => EmptyString
    | String c rest => if isSpace c then trimStart rest else s
    end.

  (** [s.trimEnd()]: keep a character when it is not a space or when
      something is kept after it. *)
Fixpoint trimEnd (s : string) : string :=
    match s with
    | EmptyString => EmptyString
    | String c rest =>
        match trimEnd rest with
        | EmptyString => if isSpace c then EmptyString else String c EmptyString
        | kept => String c kept
        end
    end.

  (** [s.trim()] *)
Definition trim (s : string) : string := trimEnd (trimStart s).

  (** An octal digit. *)
Definition octalDigit (c : ascii) : option Z :=
    let n := N_of_ascii c in
    if ((48 <=? n) && (n <=? 55))%N then Some (Z.of_N n - 48) else None.

  (** The longest run of octal digits at the front of [s], read with
      [acc] as the value so far; [seen] tells whether a digit was read. *)
Fixpoint octalRun (s : string) (acc : Z) (seen : bool) : option Z :=
    match s with
    | EmptyString => if seen then Some acc else None
    | String c rest =>
        match octalDigit c with
        | Some d => octalRun rest (acc * 8 + d) true
        | None => if seen then Some acc else None
        end
    end.

  (** [parseInt(s, 8)]: leading white space, an optional sign, then the
      longest run of octal digits; [None] is [NaN]. *)
Definition parseInt8 (s : string) : option Z :=
    match trimStart s with
    | String "-"%char rest => option_map Z.opp (octalRun rest 0 false)
    | String "+"%char rest => octalRun rest 0 false
    | t => octalRun t 0 false
    end.

End Str.
(** ** Firmware items *)

Module Firmware.

  (** [item.info].  A field that the parser which built the item did not
      set is [undefined]: [None] for the numbers, [false] for the flags,
      the empty string for [compression_type]. *)
Record ItemInfo := mkInfo {
    size : Z;
    partition_id : option Z;
    device_type : option Z;
    is_compressed : bool;
    compression_type : string;
    isLargeFile : bool;
    fileHandle : bool;
    fileOffset : option Z;
    actualSize : Z
  }.

  (** [FirmwareItem]: [data] is [null] for an item that is read from the
      file on demand. *)
Record FirmwareItem := mkItem {
    filename : string;
    data : option (list byte);
    info : ItemInfo
  }.

  (** [FirmwareData] *)
Record FirmwareData := mkFirmware {
    items : list FirmwareItem;
    md5Hash : option string;
    pitData : option (list byte)
  }.

Definition set_partition (item : FirmwareItem) (pid dtype : option Z) : FirmwareItem :=
    {| filename := filename item;
       data := data item;
       info := {| size := size (info item);
                  partition_id := pid;
                  device_type := dtype;
                  is_compressed := is_compressed (info item);
                  compression_type := compression_type (info item);
                  isLargeFile := isLargeFile (info item);
                  fileHandle := fileHandle (info item);
                  fileOffset := fileOffset (info item);
                  actualSize := actualSize (info item) |} |}.

  (** [!x] and [x || d] on a number that may be [undefined]. *)
Definition falsy (x : option Z) : bool :=
    match x with
    | Some v => v =? 0
    | None => true
    end.

Definition or_else (x : option Z) (d : Z) : Z :=
    match x with
    | Some v => if v =? 0 then d else v
    | None => d
    end.

End Firmware.

(** ** js/download-engine.js: partition matching and the transfer paths *)

Module Upload.
Import Utils Usb Engine Firmware.
  Local Open Scope usb_scope.

  (** *** Matching against the PIT ([uploadBinaries], first loop) *)

  (** [fname.replace('.lz4', '').replace('.gz', '').replace('.img', '').replace('.bin', '')] *)
Definition fnameBase (fname : string) : string :=
    Str.replace (Str.replace (Str.replace (Str.replace fname ".lz4" "") ".gz" "")
                             ".img" "") ".bin" "".

  (** The condition of the [if] in the entry loop. *)
Definition entryMatches (fname : string) (entry : Pit.PitEntry) : bool :=
    let fnameBase := fnameBase fname in
    let partName := Str.toLowerCase (Pit.partitionName entry) in
    let flashName := Str.toLowerCase (Pit.flashFilename entry) in
    let flashNameBase := Str.replace (Str.replace flashName ".img" "") ".bin" "" in
    String.eqb fname flashName ||
    String.eqb fnameBase flashNameBase ||
    String.eqb fnameBase partName ||
    String.eqb (Str.replace fnameBase "-" "_") (Str.replace partName "-" "_").

  (** [for (const entry of pit.entries)], left by [break] at the first
      entry that matches. *)
Fixpoint findEntry (fname : string) (entries : list Pit.PitEntry)
    : option Pit.PitEntry :=
    match entries with
    | [] => None
    | entry :: rest =>
        if entryMatches fname entry then Some entry else findEntry fname rest
    end.

  (** The body of the item loop when a PIT is given. *)
Definition matchItem (pit : Pit.PitData) (item : FirmwareItem) : FirmwareItem :=
    let fname := Str.toLowerCase (filename item) in
    match findEntry fname (Pit.entries pit) with
    | Some entry =>
        set_partition item (Some (Pit.partitionId entry)) (Some (Pit.deviceType entry))
    | None =>
        if falsy (device_type (info item))
        then set_partition item (partition_id (info item)) (Some 2)
        else item
    end.

  (** The body of the item loop when no PIT is given. *)
Definition guessItem (item : FirmwareItem) : FirmwareItem :=
    let fname := Str.toLowerCase (filename item) in
    if Str.includes fname "boot" && negb (Str.includes fname "recovery")
    then set_partition item (Some 3) (Some 2)
    else if Str.includes fname "recovery"
    then set_partition item (Some 10) (Some 2)
    else if Str.includes fname "sboot" || Str.startsWith fname "bl" ||
            Str.includes fname "bootloader"
    then set_partition item (Some 80) (Some 2)
    else if Str.includes fname "modem" || Str.includes fname "radio" ||
            Str.includes fname "cp"
    then set_partition item (Some 11) (Some 2)
    else
      let pid := if falsy (partition_id (info item)) then Some 0
                 else partition_id (info item) in
      let dtype := if falsy (device_type (info item)) then Some 2
                   else device_type (info item) in
      set_partition item pid dtype.

  (** The first half of [uploadBinaries]: the items with their partition
      fields filled in.  [parse] may throw. *)
Definition assignPartitions (items : list FirmwareItem) (pitData : option (list byte))
    : Result (list FirmwareItem) :=
    match pitData with
    | Some bytes =>
        rbind (Pit.parse bytes) (fun pit => Ok (map (matchItem pit) items))
    | None => Ok (map guessItem items)
    end.

  (** *** The transfer of one member from memory or from the file *)

Definition MAX_CHUNK_SIZE : Z := 0x1E00000.

  (** The block loop of a chunk, [while (chunkOffset < chunkSize)].
      [dataLen] is [data.length] when the body is in memory and [None]
      when blocks are read from the file at [fileOff]; a file read is
      taken to give the bytes asked for.  It returns [chunkOffset]. *)
Fixpoint sendBlocks (fuel : nat) (dataLen : option Z) (fileOff : Z)
           (offset chunkSize chunkOffset blockCount : Z) : M Z :=
    match fuel with
    | O => outOfFuel
    | S fuel' =>
        if chunkOffset <? chunkSize then
          let blockSize := Z.min fileTransferPacketSize (chunkSize - chunkOffset) in
          '(start, actual) <-
            match dataLen with
            | Some dl =>
                let blockStart := offset + chunkOffset in
                let blockEnd := blockStart + blockSize in
                if blockStart >=? dl then throw "Reading beyond data array"
                else ret (blockStart, Z.min blockEnd dl - blockStart)
            | None => ret (fileOff + offset + chunkOffset, blockSize)
            end ;;
          let padded := if actual <? fileTransferPacketSize
                        then fileTransferPacketSize else actual in
          _ <- (if blockCount >? 0 then emptyTransfer else ret tt) ;;
          written <- write (Block start actual padded) ;;
          if negb (written =? fileTransferPacketSize)
          then throw "Expected to write a full block"
          else
            blockResp <- read 64 60 ;;
            if negb (len blockResp =? 8) then throw "Expected 8-byte response"
            else sendBlocks fuel' dataLen fileOff offset chunkSize
                            (chunkOffset + blockSize) (blockCount + 1)
        else ret chunkOffset
    end.

  (** [try { finalResp = await this.usbDevice.read(64, 120) } catch {}] *)
Definition readFinal : M (option (list byte)) :=
    try_catch (r <- read 64 120 ;; ret (Some r)) (fun _ => ret None).

  (** The finalizer [(102, 3)] of a chunk, between two empty transfers. *)
Definition sendFinalizer (buf : list byte) (actual deviceType partitionId
             completionStatus : Z) : M (list byte) :=
    buf <- pack_into (TA.fill0 buf) [fI; fI] [102; 3] 0 ;;
    buf <- pack_into buf [fI; fI; fI; fI; fI; fI]
             [0; actual; 0; deviceType; partitionId; completionStatus] 8 ;;
    _ <- emptyTransfer ;;
    _ <- write_packet buf ;;
    _ <- emptyTransfer ;;
    ret buf.

  (** The chunk loop, [while (offset < fileSize)]. *)
Fixpoint sendChunks (fuel : nat) (buf : list byte) (dataLen : option Z) (fileOff : Z)
           (fileSize deviceType partitionId offset : Z) : M unit :=
    match fuel with
    | O => outOfFuel
    | S fuel' =>
        if offset <? fileSize then
          let remaining := fileSize - offset in
          let chunkSize := Z.min remaining MAX_CHUNK_SIZE in
          buf <- pack_into (TA.fill0 buf) [fI; fI; fI] [102; 2; chunkSize] 0 ;;
          _ <- write_packet buf ;;
          resp2 <- read 64 60 ;;
          if len resp2 <? 8 then throw "Sequence begin timeout"
          else if negb (nth 0 (structUnpack [fI; fI] resp2 0) 0 =? 102)
          then throw "Sequence begin rejected"
          else
            chunkOffset <-
              sendBlocks (S (Z.to_nat (chunkSize / fileTransferPacketSize + 1)))
                         dataLen fileOff offset chunkSize 0 0 ;;
            let remainingAfter := fileSize - (offset + chunkSize) in
            let completionStatus := if remainingAfter <=? 0 then 1 else 0 in
            buf <- sendFinalizer buf chunkOffset deviceType partitionId completionStatus ;;
            finalResp <- readFinal ;;
            _ <- match finalResp with
                 | Some r =>
                     if 8 <=? len r then
                       let finalCmd := nth 0 (structUnpack [fI; fI] r 0) 0 in
                       if finalCmd =? 0xFFFFFFFF then throw "Finalize rejected"
                       else if negb (finalCmd =? 102) then throw "Unexpected response"
                       else ret tt
                     else if completionStatus =? 1 then ret tt
                          else throw "No response on intermediate chunk"
                 | None =>
                     if completionStatus =? 1 then ret tt
                     else throw "No response on intermediate chunk"
                 end ;;
            sendChunks fuel' buf dataLen fileOff fileSize deviceType partitionId
                       (offset + chunkSize)
        else ret tt
    end.

  (** [transferFile], from the activation [(102, 0, 0)] on, for a body of
      [fileSize] bytes. *)
Definition transferBody (dataLen : option Z) (fileOff fileSize deviceType
             partitionId : Z) : M bool :=
    let buf := TA.zeros 1024 in
    buf <- pack_into buf [fI; fI; fI] [102; 0; 0] 0 ;;
    _ <- write_packet buf ;;
    resp <- read 64 60 ;;
    if len resp <? 8 then throw "File transfer activation timeout"
    else if negb (nth 0 (structUnpack [fI; fI] resp 0) 0 =? 102)
    then throw "File transfer activation rejected"
    else
      _ <- sendChunks (S (Z.to_nat (fileSize / MAX_CHUNK_SIZE + 1))) buf dataLen fileOff
                      fileSize deviceType partitionId 0 ;;
      ret true.

  (** *** The streaming LZ4 path *)

Definition SEND_BUFFER_SIZE : Z := 30 * 1024 * 1024.

  (** The variables that [flushBuffer] and the block callback share; the
      bytes of [sendBuffer] are the bytes of the decompressed stream from
      [totalSent] on. *)
Record Stream := mkStream {
    cmdBuf : list byte;
    bufferPos : Z;
    totalDecompressed : Z;
    totalSent : Z;
    sequenceNum : Z
  }.

  (** The block loop of [flushBuffer], [while (offset < bufferPos)]. *)
Fixpoint flushBlocks (fuel : nat) (sent pos offset blockCount : Z) : M unit :=
    match fuel with
    | O => outOfFuel
    | S fuel' =>
        if offset <? pos then
          let blockSize := Z.min fileTransferPacketSize (pos - offset) in
          let padded := if blockSize <? fileTransferPacketSize
                        then fileTransferPacketSize else blockSize in
          _ <- (if blockCount >? 0 then emptyTransfer else ret tt) ;;
          _ <- write (Block (sent + offset) blockSize padded) ;;
          _ <- read 64 60 ;;
          flushBlocks fuel' sent pos (offset + blockSize) (blockCount + 1)
        else ret tt
    end.

  (** [flushBuffer(isFinal)] *)
Definition flushBuffer (deviceType partitionId : Z) (isFinal : bool) (st : Stream)
    : M Stream :=
    if bufferPos st =? 0 then ret st
    else
      buf <- pack_into (TA.fill0 (cmdBuf st)) [fI; fI; fI] [102; 2; bufferPos st] 0 ;;
      _ <- write_packet buf ;;
      _ <- read 64 60 ;;
      _ <- flushBlocks (S (Z.to_nat (bufferPos st / fileTransferPacketSize + 1)))
                       (totalSent st) (bufferPos st) 0 0 ;;
      let completionStatus := if isFinal then 1 else 0 in
      buf <- sendFinalizer buf (bufferPos st) deviceType partitionId completionStatus ;;
      _ <- read 64 120 ;;
      ret {| cmdBuf := buf;
             bufferPos := 0;
             totalDecompressed := totalDecompressed st;
             totalSent := totalSent st + bufferPos st;
             sequenceNum := sequenceNum st + 1 |}.

  (** The copy loop of the block callback,
      [while (blockOffset < decompressedBlock.length)]. *)
Fixpoint fillBuffer (fuel : nat) (deviceType partitionId : Z) (blockLen blockOffset : Z)
           (st : Stream) : M Stream :=
    match fuel with
    | O => outOfFuel
    | S fuel' =>
        if blockOffset <? blockLen then
          let copySize := Z.min (SEND_BUFFER_SIZE - bufferPos st) (blockLen - blockOffset) in
          let st := {| cmdBuf := cmdBuf st;
                       bufferPos := bufferPos st + copySize;
                       totalDecompressed := totalDecompressed st;
                       totalSent := totalSent st;
                       sequenceNum := sequenceNum st |} in
          st <- (if bufferPos st >=? SEND_BUFFER_SIZE
                 then flushBuffer deviceType partitionId false st
                 else ret st) ;;
          fillBuffer fuel' deviceType partitionId blockLen (blockOffset + copySize) st
        else ret st
    end.

  (** The callback handed to the decoder, for a decompressed block of
      [blockLen] bytes. *)
Definition onChunk (deviceType partitionId : Z) (blockLen : Z) (st : Stream) : M Stream :=
    let st := {| cmdBuf := cmdBuf st;
                 bufferPos := bufferPos st;
                 totalDecompressed := totalDecompressed st + blockLen;
                 totalSent := totalSent st;
                 sequenceNum := sequenceNum st |} in
    fillBuffer (S (Z.to_nat (blockLen / SEND_BUFFER_SIZE + 2))) deviceType partitionId
               blockLen 0 st.

  (** What [decoder.decompressStreaming] does with its callback: it hands
      over decompressed blocks, given here by their lengths, one after the
      other, and then returns or throws. *)
Record Decoding := mkDecoding {
    blocks : list Z;
    failure : option string
  }.

Fixpoint feedBlocks (deviceType partitionId : Z) (bs : list Z) (st : Stream) : M Stream :=
    match bs with
    | [] => ret st
    | b :: rest =>
        st <- onChunk deviceType partitionId b st ;;
        feedBlocks deviceType partitionId rest st
    end.

  (** [transferFileStreamingLZ4(item, partitionId, deviceType)] *)
Definition transferFileStreamingLZ4 (dec : Decoding) (partitionId deviceType : Z)
    : M bool :=
    let buf := TA.zeros 1024 in
    buf <- pack_into buf [fI; fI; fI] [102; 0; 0] 0 ;;
    _ <- write_packet buf ;;
    resp <- read 64 60 ;;
    if len resp <? 8 then throw "File transfer activation timeout"
    else if negb (nth 0 (structUnpack [fI; fI] resp 0) 0 =? 102)
    then throw "File transfer activation rejected"
    else
      let st := {| cmdBuf := buf; bufferPos := 0; totalDecompressed := 0;
                   totalSent := 0; sequenceNum := 0 |} in
      _ <- try_catch
             (st <- feedBlocks deviceType partitionId (blocks dec) st ;;
              _ <- match failure dec with
                   | Some msg => throw msg
                   | None => ret tt
                   end ;;
              if bufferPos st >? 0
              then (_ <- flushBuffer deviceType partitionId true st ;; ret tt)
              else ret tt)
             (fun msg => throw (String.append "Streaming decompression failed: " msg)) ;;
      ret true.

  (** *** [transferFile(item)] *)

  (** The libraries and the file behind an item: [lz4.decode],
      [pako.inflate], the bytes of a slice of the file handle, and the
      streaming decoder run on the item. *)
Record Ext := mkExt {
    lz4_decode : list byte -> Result (list byte);
    pako_inflate : list byte -> Result (list byte);
    file_slice : FirmwareItem -> Z -> Z -> Result (list byte);
    lz4_stream : FirmwareItem -> Decoding
  }.

Definition transferFile (ext : Ext) (item : FirmwareItem) : M bool :=
    let i := info item in
    (* where the bytes come from *)
    source <-
      match data item with
      | Some d => ret (Some d, len d)
      | None =>
          match isLargeFile i && fileHandle i, fileOffset i with
          | true, Some off =>
              if is_compressed i then
                if actualSize i >? 4 * 1024 * 1024 * 1024
                then ret (None, actualSize i)
                else d <- lift (file_slice ext item off (off + actualSize i)) ;;
                     ret (Some d, len d)
              else ret (None, actualSize i)
          | _, _ => throw "No data available"
          end
      end ;;
    let '(data0, fileSize0) := source in
    (* decompression *)
    resolved <-
      (if is_compressed i then
         let compressionType :=
           if String.eqb (compression_type i) "none" || String.eqb (compression_type i) ""
           then if Str.endsWith (filename item) ".lz4" then "lz4"%string
                else if Str.endsWith (filename item) ".gz" then "gzip"%string
                else compression_type i
           else compression_type i in
         match data0 with
         | Some d =>
             d' <- (if String.eqb compressionType "gzip" then lift (pako_inflate ext d)
                    else if String.eqb compressionType "lz4" then
                      dec <- lift (lz4_decode ext d) ;;
                      if len dec =? 0 then throw "LZ4 decompression returned empty data"
                      else ret dec
                    else ret d) ;;
             ret (Some d', len d', false)
         | None => ret (None, fileSize0, true)
         end
       else ret (data0, fileSize0, false)) ;;
    let '(data1, fileSize, isStreamingCompressed) := resolved in
    let partitionId := or_else (partition_id i) 0 in
    let deviceType := or_else (device_type i) 2 in
    if isStreamingCompressed
    then transferFileStreamingLZ4 (lz4_stream ext item) partitionId deviceType
    else transferBody (option_map len data1) (or_else (fileOffset i) 0) fileSize
                      deviceType partitionId.

  (** *** The second half of [uploadBinaries] *)

  (** The three [continue] tests of the transfer loop. *)
Definition skipped (item : FirmwareItem) : bool :=
    match data item with
    | None => negb (isLargeFile (info item))
    | Some d => len d =? 0
    end
    || Str.includes (filename item) "meta-data/"
    || Str.endsWith (filename item) ".zip".

Fixpoint transferItems (ext : Ext) (items : list FirmwareItem) : M bool :=
    match items with
    | [] => ret true
    | item :: rest =>
        if skipped item then transferItems ext rest
        else
          success <- transferFile ext item ;;
          if negb success then throw "Failed to transfer"
          else transferItems ext rest
    end.

  (** [uploadBinaries(firmwareData, pitData)] *)
Definition uploadBinaries (ext : Ext) (items : list FirmwareItem)
             (pitData : option (list byte)) : M bool :=
    items <- lift (assignPartitions items pitData) ;;
    transferItems ext items.

End Upload.
(** ** Vocabulary of the transfer properties *)

Module UploadSpec.
Import Utils Usb Engine EngineSpec Firmware Upload.

  (** The command buffer of the streaming path stays 1024 bytes long. *)
Definition stream_ok (st : Stream) : Prop := length (cmdBuf st) = 1024%nat.

  (** The [(102, 2, size)] frames among the calls: the sizes announced. *)
Definition sequence_size (c : Call) : option Z :=
    match c with
    | Write (Bytes b) =>
        if (length b =? 1024)%nat then
          if LEToNumber b 0 4 =? 102 then
            if LEToNumber b 4 4 =? 2 then Some (LEToNumber b 8 4) else None
          else None
        else None
    | _ => None
    end.

  (** The [(102, 3)] finalizers among the calls: [(actual bytes,
      completion status)]. *)
Definition finalizer (c : Call) : option (Z * Z) :=
    match c with
    | Write (Bytes b) =>
        if (length b =? 1024)%nat then
          if LEToNumber b 0 4 =? 102 then
            if LEToNumber b 4 4 =? 3 then Some (LEToNumber b 12 4, LEToNumber b 28 4)
            else None
          else None
        else None
    | _ => None
    end.

Fixpoint collect {A B} (f : A -> option B) (l : list A) : list B :=
    match l with
    | [] => []
    | x :: rest =>
        match f x with
        | Some y => y :: collect f rest
        | None => collect f rest
        end
    end.

Definition sequences (cs : list Call) : list Z := collect sequence_size cs.
Definition finalizers (cs : list Call) : list (Z * Z) := collect finalizer cs.

  (** A device that accepts everything: every write completes and every
      read brings the 8-byte reply [(102, 0)]. *)
Definition ack : list byte := structPack [fI; fI] [102; 0].

Definition willing (n : nat) : Device :=
    {| writes := repeat Complete n; reads := repeat (Data ack) n |}.

Definition MiB : Z := 1024 * 1024.

  (** The decoder of a compressed member of more than 4 GiB that
      delivers 1530 blocks of 4 MiB: 6120 MiB, 204 times 30 MiB. *)
Definition even_stream : Decoding :=
    {| blocks := repeat (4 * MiB) 1530; failure := None |}.

  (** Such a member, as the header-only TAR parser records it, with its
      partition filled in; [lz4.decode], [pako.inflate] and the slice of
      the file are not used for it. *)
Definition even_item : FirmwareItem :=
    {| filename := "super.img.lz4";
       data := None;
       info := {| size := 5 * 1024 * MiB; partition_id := Some 26; device_type := Some 2;
                  is_compressed := true; compression_type := "none";
                  isLargeFile := true; fileHandle := true;
                  fileOffset := Some 512; actualSize := 5 * 1024 * MiB |} |}.

Definition even_ext : Ext :=
    {| lz4_decode := fun _ => Throw "not used";
       pako_inflate := fun _ => Throw "not used";
       file_slice := fun _ _ _ => Throw "not used";
       lz4_stream := fun _ => even_stream |}.

End UploadSpec.
(** ** The in-memory TAR parsers *)

(** [FirmwareParser.parseTAR] and [parseTARData] of the application are
    the same loop but for the test of the terminating zero block;
    [parseSingleTarFile] is the header-only variant that leaves the
    bodies in the file. *)
Module Tar.
Import Utils Firmware.

(** [buf.slice(a, b)] on numbers: a negative index counts from the end,
    both ends are clamped to the array. *)
Definition sliceZ (buf : list byte) (a b : Z) : list byte :=
  let n := Z.of_nat (length buf) in
  let from := if a <? 0 then Z.max (n + a) 0 else Z.min a n in
  let to := if b <? 0 then Z.max (n + b) 0 else Z.min b n in
  firstn (Z.to_nat (to - from)) (skipn (Z.to_nat from) buf).

(** [isZeroBlock(block)]: the first [min(block.length, 512)] bytes are 0. *)
Definition isZeroBlock (block : list byte) : bool :=
  forallb (fun b => Byte.eqb b Byte.x00) (firstn 512 block).

(** The test written out in [parseTARData] and [parseSingleTarFile]:
    [header[i] === 0] for every [i < 512]; a missing byte is [undefined]
    and not 0. *)
Definition allZero (header : list byte) : bool :=
  (512 <=? length header)%nat && forallb (fun b => Byte.eqb b Byte.x00) (firstn 512 header).

(** [arrayStartsWith(array, pattern)] *)
Definition arrayStartsWith (array pattern : list byte) : bool :=
  if (length array <? length pattern)%nat then false
  else forallb (fun p => Byte.eqb (fst p) (snd p))
               (combine (firstn (length pattern) array) pattern).

Definition GZIP_SIGNATURE : list byte := [Byte.x1f; Byte.x8b].
Definition LZ4_SIGNATURE : list byte := [Byte.x04; Byte.x22; Byte.x4d; Byte.x18].

(** [detectCompressionType(data)] *)
Definition detectCompressionType (data : list byte) : string :=
  if arrayStartsWith data GZIP_SIGNATURE then "gzip"
  else if arrayStartsWith data LZ4_SIGNATURE then "lz4"
  else "none".

(** [Math.ceil(size / 512) * 512] *)
Definition paddedSize (size : Z) : Z := - ((- size) / 512) * 512.

(** The item that the in-memory parsers build: only [size],
    [compression_type] and [is_compressed] are set. *)
Definition memberItem (filename : string) (fileData : list byte) (size : Z)
  : FirmwareItem :=
  let compressionType := detectCompressionType fileData in
  {| filename := filename;
     data := Some fileData;
     info := {| size := size;
                partition_id := None;
                device_type := None;
                is_compressed := negb (String.eqb compressionType "none");
                compression_type := compressionType;
                isLargeFile := false;
                fileHandle := false;
                fileOffset := None;
                actualSize := 0 |} |}.

(** [firmwareData.items.push(item)], after [pitData] was set for a name
    that ends in [.pit]. *)
Definition addMember (fw : FirmwareData) (filename : string) (fileData : list byte)
           (size : Z) : FirmwareData :=
  {| items := items fw ++ [memberItem filename fileData size];
     md5Hash := md5Hash fw;
     pitData := if Str.endsWith (Str.toLowerCase filename) ".pit"
                then Some fileData else pitData fw |}.

(** The loop of both parsers, [while (offset < data.length)], with the
    test of the zero block as a parameter. *)
Fixpoint tarLoop (zeroBlock : list byte -> bool) (fuel : nat) (data : list byte)
         (offset : Z) (fw : FirmwareData) : Result FirmwareData :=
  match fuel with
  | O => OutOfFuel
  | S fuel' =>
      let n := Z.of_nat (length data) in
      if offset <? n then
        if offset + 512 >? n then Ok fw
        else
          let header := sliceZ data offset (offset + 512) in
          if zeroBlock header then Ok fw
          else
            let filename := Str.trim (readString header 0 100) in
            let sizeStr := Str.trim (readString header 124 12) in
            match filename, Str.parseInt8 sizeStr with
            | EmptyString, _ => tarLoop zeroBlock fuel' data (offset + 512) fw
            | _, None => tarLoop zeroBlock fuel' data (offset + 512) fw
            | _, Some size =>
                let offset := offset + 512 in
                let fileData := sliceZ data offset (offset + size) in
                tarLoop zeroBlock fuel' data (offset + paddedSize size)
                         (addMember fw filename fileData size)
            end
      else Ok fw
  end.

(** [FirmwareParser.parseTAR(data, firmwareData)] *)
Definition parseTAR (data : list byte) (fw : FirmwareData) : Result FirmwareData :=
  tarLoop isZeroBlock (S (length data)) data 0 fw.

(** [parseTARData(data, firmwareData)] of the application. *)
Definition parseTARData (data : list byte) (fw : FirmwareData) : Result FirmwareData :=
  tarLoop allZero (S (length data)) data 0 fw.

(** [new FirmwareData()] *)
Definition emptyFirmware : FirmwareData :=
  {| items := []; md5Hash := None; pitData := None |}.

(** The item that the header-only parser builds: no data, the place of
    the body in the file. *)
Definition fileItem (filename : string) (size fileDataOffset : Z) : FirmwareItem :=
  {| filename := filename;
     data := None;
     info := {| size := size;
                partition_id := None;
                device_type := None;
                is_compressed := Str.endsWith (Str.toLowerCase filename) ".lz4" ||
                                 Str.endsWith (Str.toLowerCase filename) ".gz";
                compression_type := "none";
                isLargeFile := true;
                fileHandle := true;
                fileOffset := Some fileDataOffset;
                actualSize := size |} |}.

(** The header loop of [parseSingleTarFile],
    [while (currentOffset < tarEndOffset && filesFound < 1000)], over the
    bytes of the file; [tarEndOffset] is the file size unless the name
    ends in [.md5].  It returns the firmware and [filesFound]. *)
Fixpoint parseHeaders (fuel : nat) (file : list byte) (tarEndOffset : Z)
         (currentOffset filesFound : Z) (fw : FirmwareData)
  : Result (FirmwareData * Z) :=
  match fuel with
  | O => OutOfFuel
  | S fuel' =>
      let fsize := Z.of_nat (length file) in
      if (currentOffset <? tarEndOffset) && (filesFound <? 1000) then
        if currentOffset + 512 >? fsize then Ok (fw, filesFound)
        else
          let headerData := sliceZ file currentOffset (currentOffset + 512) in
          if allZero headerData then Ok (fw, filesFound)
          else
            let filename := Str.trim (readString headerData 0 100) in
            let sizeStr := Str.trim (readString headerData 124 12) in
            match filename, Str.parseInt8 sizeStr with
            | EmptyString, _ =>
                parseHeaders fuel' file tarEndOffset (currentOffset + 512) filesFound fw
            | _, None =>
                parseHeaders fuel' file tarEndOffset (currentOffset + 512) filesFound fw
            | _, Some size =>
                if size <? 0
                then parseHeaders fuel' file tarEndOffset (currentOffset + 512)
                                  filesFound fw
                else
                  let fileDataOffset := currentOffset + 512 in
                  let fw := {| items := items fw ++ [fileItem filename size fileDataOffset];
                               md5Hash := md5Hash fw;
                               pitData := pitData fw |} in
                  parseHeaders fuel' file tarEndOffset
                               (currentOffset + 512 + paddedSize size)
                               (filesFound + 1) fw
            end
      else Ok (fw, filesFound)
  end.

(** [parseSingleTarFile(file, firmwareData)] for a file whose name does
    not end in [.md5]: it returns [filesFound]. *)
Definition parseSingleTarFile (file : list byte) (fw : FirmwareData)
  : Result (FirmwareData * Z) :=
  parseHeaders (S (length file)) file (Z.of_nat (length file)) 0 0 fw.

End Tar.
(** ** js/lz4-streaming.js: the block decoder *)

Module Lz4.
Import Utils.

(** The maximum block size that [decompressStreaming] reads from the BD
    byte of the frame and hands to [decompressBlock]. *)
Definition blockSizeTable : list Z :=
  [0; 0; 0; 0; 64 * 1024; 256 * 1024; 1024 * 1024; 4 * 1024 * 1024].

Definition maxBlockSize (bd : Z) : Z :=
  nth (Z.to_nat (JS.band (JS.sar bd 4) 7)) blockSizeTable 0.

(** [do { len = src[srcPos++]; length += len } while (len === 255)] on the
    bytes from [srcPos] on.  It returns the length, [None] for the [NaN]
    that adding [undefined] gives when the bytes run out, and the number
    of positions [srcPos] moved. *)
Fixpoint readExtra (rest : list byte) (acc : Z) : option Z * nat :=
  match rest with
  | [] => (None, 1%nat)
  | b :: rest' =>
      let l := byte.unsigned b in
      if l =? 255
      then let '(v, n) := readExtra rest' (acc + l) in (v, S n)
      else (Some (acc + l), 1%nat)
  end.

(** The variables of [decompressBlock]; [copies] is not in the source:
    it records, for every match copy that is started, the offset and the
    output position at that moment. *)
Record State := mkState {
  srcPos : nat;
  dst : list byte;
  dstPos : nat;
  copies : list (Z * nat)
}.

(** [for (i = 0; i < literalLength; i++) dst[dstPos++] = src[srcPos++]]:
    a byte past the end of [src] is [undefined] and is stored as 0, a
    store past the end of [dst] is dropped. *)
Fixpoint copyLiterals (n : nat) (src : list byte) (st : State) : State :=
  match n with
  | O => st
  | S n' =>
      copyLiterals n' src
        {| srcPos := S (srcPos st);
           dst := TA.put (dst st) (dstPos st) (at0 src (srcPos st));
           dstPos := S (dstPos st);
           copies := copies st |}
  end.

(** [for (i = 0; i < matchLength; i++) dst[dstPos++] = dst[matchPos++]] *)
Fixpoint copyMatch (n : nat) (matchPos : nat) (st : State) : State :=
  match n with
  | O => st
  | S n' =>
      copyMatch n' (S matchPos)
        {| srcPos := srcPos st;
           dst := TA.put (dst st) (dstPos st) (at0 (dst st) matchPos);
           dstPos := S (dstPos st);
           copies := copies st |}
  end.

Definition moveSrc (st : State) (n : nat) : State :=
  {| srcPos := srcPos st + n; dst := dst st; dstPos := dstPos st; copies := copies st |}.

(** A length that is [NaN] fails both [literalLength > 0] and
    [i < matchLength]: nothing is copied. *)
Definition count (length : option Z) : nat :=
  match length with
  | Some n => Z.to_nat n
  | None => O
  end.

(** How one turn of the loop [while (srcPos < src.length)] ends: at the
    end of its body, by a [break] or the failed loop test, or by a
    [throw].  The message of the second [throw] is given without the
    number that the source appends to it. *)
Inductive Turn :=
| Again (st : State)
| Break (st : State)
| Raise (msg : string).

(** The first half of a turn, up to the check for the end of the
    block: the token is read, then the literal length, and the literals
    are copied.  It gives the token and the variables. *)
Definition literals (src : list byte) (st : State) : Z * State :=
  let token := at0 src (srcPos st) in
  let st := moveSrc st 1 in
  (* literal length *)
  let '(literalLength, used) :=
    if JS.sar token 4 =? 15
    then readExtra (skipn (srcPos st) src) (JS.sar token 4)
    else (Some (JS.sar token 4), O) in
  let st := moveSrc st used in
  (* copy literals *)
  (token, copyLiterals (count literalLength) src st).

(** [src[srcPos] | (src[srcPos + 1] << 8)] *)
Definition offsetAt (src : list byte) (st : State) : Z :=
  JS.bor (at0 src (srcPos st)) (JS.shl (at0 src (S (srcPos st))) 8).

Definition turn (src : list byte) (st : State) : Turn :=
  if (srcPos st <? length src)%nat then
    let '(token, st) := literals src st in
    (* end of block *)
    if (length src <=? srcPos st)%nat then Break st
    else
      let offset := offsetAt src st in
      let st := moveSrc st 2 in
      if offset =? 0 then Raise "Invalid offset (0)"
      else
        let '(matchLength, used) :=
          if JS.band token 15 =? 15
          then readExtra (skipn (srcPos st) src) (JS.band token 15 + 4)
          else (Some (JS.band token 15 + 4), O) in
        let st := moveSrc st used in
        let matchPos := Z.of_nat (dstPos st) - offset in
        if matchPos <? 0 then Raise "Invalid match position"
        else
          let st := {| srcPos := srcPos st; dst := dst st; dstPos := dstPos st;
                       copies := copies st ++ [(offset, dstPos st)] |} in
          Again (copyMatch (count matchLength) (Z.to_nat matchPos) st)
  else Break st.

(** The loop of [decompressBlock]. *)
Fixpoint blockLoop (fuel : nat) (src : list byte) (st : State) : Result State :=
  match fuel with
  | O => OutOfFuel
  | S fuel' =>
      match turn src st with
      | Again st' => blockLoop fuel' src st'
      | Break st' => Ok st'
      | Raise msg => Throw msg
      end
  end.

(** The variables at the start: [dst = new Uint8Array(maxSize)]. *)
Definition initial (maxSize : nat) : State :=
  {| srcPos := 0; dst := TA.zeros maxSize; dstPos := 0; copies := [] |}.

(** [decompressBlock(src, maxSize)] with the final variables. *)
Definition decompressRun (src : list byte) (maxSize : nat) : Result State :=
  blockLoop (S (length src)) src (initial maxSize).

(** [decompressBlock(src, maxSize)]: [dst.slice(0, dstPos)]. *)
Definition decompressBlock (src : list byte) (maxSize : nat) : Result (list byte) :=
  rbind (decompressRun src maxSize) (fun st => Ok (TA.slice (dst st) 0 (dstPos st))).

End Lz4.
(** ** Vocabulary of the loading and skipping properties *)

Module SkipSpec.
Import Utils Firmware.

(** The members that the transfer loop leaves out by name or because
    their body, held in memory, is empty. *)
Definition left_out (item : FirmwareItem) : bool :=
  Str.includes (filename item) "meta-data/" ||
  Str.endsWith (filename item) ".zip" ||
  match data item with
  | Some d => (length d =? 0)%nat
  | None => false
  end.

(** A member that carries a PIT file name. *)
Definition pit_named (item : FirmwareItem) : bool :=
  Str.endsWith (Str.toLowerCase (filename item)) ".pit".

(** The body of the last member of [items] with a PIT file name, after
    [before]. *)
Definition embedded_pit (before : option (list byte)) (items : list FirmwareItem)
  : option (list byte) :=
  fold_left (fun acc item => if pit_named item then data item else acc) items before.

End SkipSpec.

(** ** Sample archives *)

Module TarSamples.
Import Utils Firmware.

(** The bytes of a string of 8-bit characters. *)
Definition bytes_of (s : string) : list byte :=
  map byte_of_ascii (list_ascii_of_string s).

(** A 512-byte header: the name at 0 and the size, in octal, at 124. *)
Definition header (name sizeOctal : string) : list byte :=
  bytes_of name ++ TA.zeros (124 - String.length name) ++
  bytes_of sizeOctal ++ TA.zeros (388 - String.length sizeOctal).

(** A member: its header and its body, padded to a multiple of 512 bytes. *)
Definition member (name sizeOctal : string) (body : list byte) : list byte :=
  header name sizeOctal ++ body ++
  TA.zeros (Z.to_nat (Tar.paddedSize (Z.of_nat (length body))) - length body).

(** The 28 bytes of a PIT without entries. *)
Definition empty_pit : list byte :=
  numberToLE Pit.PIT_MAGIC 4 ++ numberToLE 0 4 ++ TA.zeros 20.

(** An archive with the one member [GT-I9500.pit] and the two zero blocks
    that end it. *)
Definition pit_archive : list byte :=
  member "GT-I9500.pit" "00000000034" empty_pit ++ TA.zeros 1024.

(** The libraries are not needed for a body that is not compressed. *)
Definition no_ext : Upload.Ext :=
  {| Upload.lz4_decode := fun _ => Throw "not loaded";
     Upload.pako_inflate := fun _ => Throw "not loaded";
     Upload.file_slice := fun _ _ _ => Throw "no file";
     Upload.lz4_stream := fun _ => {| Upload.blocks := []; Upload.failure := None |} |}.

(** The blocks of member bodies among the calls. *)
Definition body_block (c : Usb.Call) : option (Z * Z * Z) :=
  match c with
  | Usb.Write (Usb.Block start actual padded) => Some (start, actual, padded)
  | _ => None
  end.

End TarSamples.

(** ** Vocabulary of the partition matcher *)

Module MatchSpec.
Import Firmware.

(** Rule 4 as the specification words it: every [-] becomes [_]. *)
Fixpoint normalize (s : string) : string :=
  match s with
  | EmptyString => EmptyString
  | String c rest =>
      String (if Ascii.eqb c "-" then "_"%char else c) (normalize rest)
  end.

Definition rule4 (fname : string) (entry : Pit.PitEntry) : bool :=
  String.eqb (normalize (Upload.fnameBase fname))
             (normalize (Str.toLowerCase (Pit.partitionName entry))).

(** A partition whose name has two separators, and the PIT that holds
    only it. *)
Definition vbmeta_entry : Pit.PitEntry :=
  {| Pit.binaryType := 0; Pit.deviceType := 2; Pit.partitionId := 21;
     Pit.partitionType := 0; Pit.filesystem := 0; Pit.startBlock := 4096;
     Pit.numBlocks := 128; Pit.fileOffset := 0; Pit.fileSize := 0;
     Pit.partitionName := "VBMETA_SYSTEM_A";
     Pit.flashFilename := "vbmeta_system_a.img";
     Pit.fotaFilename := "" |}.

Definition vbmeta_pit : Pit.PitData :=
  {| Pit.magic := Pit.PIT_MAGIC; Pit.count := 1; Pit.entries := [vbmeta_entry] |}.

(** The member [vbmeta-system-a.img] as the in-memory parser builds it. *)
Definition vbmeta_item : FirmwareItem :=
  Tar.memberItem "vbmeta-system-a.img" [Byte.x41; Byte.x56; Byte.x42; Byte.x30] 4.

End MatchSpec.

(** ** Vocabulary of the LZ4 properties *)

Module Lz4Spec.
Import Lz4.

(** A match copy within the output written so far. *)
Definition copy_ok (c : Z * nat) : Prop := 0 < fst c <= Z.of_nat (snd c).

(** Two states that differ in the output buffer only. *)
Definition same_positions (a b : State) : Prop :=
  srcPos a = srcPos b /\ dstPos a = dstPos b /\ copies a = copies b.

(** The state after [k] sequences decoded in full, literals and match,
    from [st] on; [None] when the block ended or an error was raised
    before. *)
Fixpoint after_turns (k : nat) (src : list byte) (st : State) : option State :=
  match k with
  | O => Some st
  | S k' =>
      match turn src st with
      | Again st' => after_turns k' src st'
      | _ => None
      end
  end.

(** The match that the sequence starting in [st] comes to, when the
    block does not end with its literals: the offset read and the
    output position at that moment. *)
Definition next_match (src : list byte) (st : State) : option (Z * nat) :=
  if (srcPos st <? length src)%nat then
    let '(_, st1) := literals src st in
    if (length src <=? srcPos st1)%nat then None
    else Some (offsetAt src st1, dstPos st1)
  else None.

(** The decoder refuses [src] with [msg]: after some sequences decoded
    in full it comes to a match whose offset is 0, or is greater than
    the output position. *)
Definition refused (src : list byte) (maxSize : nat) (msg : string) : Prop :=
  exists k st offset pos,
    after_turns k src (initial maxSize) = Some st /\
    next_match src st = Some (offset, pos) /\
    ((offset = 0 /\ msg = "Invalid offset (0)"%string) \/
     (Z.of_nat pos < offset /\ msg = "Invalid match position"%string)).

(** Two runs on buffers of different sizes: the same positions, and
    the smaller buffer holds the first bytes of the larger one. *)
Definition clipped (m : nat) (a b : State) : Prop :=
  same_positions a b /\ length (dst a) = m /\ (m <= length (dst b))%nat /\
  dst a = firstn m (dst b).

(** A block of 5 bytes: one literal [a], then a match of offset 1 and
    length 19. *)
Definition long_run : list byte :=
  [Byte.x1f; Byte.x61; Byte.x01; Byte.x00; Byte.x00].

(** A block of 262 bytes: one literal [a], then a match of offset 1 whose
    length is 19 and 257 extension bytes of 255, 65554 in all. *)
Definition overlong : list byte :=
  [Byte.x1f; Byte.x61; Byte.x01; Byte.x00] ++ repeat Byte.xff 257 ++ [Byte.x00].

End Lz4Spec.
(** ** Vocabulary of the codec properties *)

Module CodecSpec.
Import Utils.

(** A value that a format character can carry: an unsigned integer of
    the width of the field; for [Q], an integer that a JavaScript number
    holds exactly. *)
Definition fits (ty : Fmt) (v : Z) : bool :=
  (0 <=? v) &&
  match ty with
  | fI => v <? 2 ^ 32
  | fQ => v <? 2 ^ 53
  | fH => v <? 2 ^ 16
  | fB => v <? 2 ^ 8
  end.

(** One value for each format character, each one fitting. *)
Fixpoint all_fit (format : list Fmt) (values : list Z) : bool :=
  match format, values with
  | [], [] => true
  | ty :: format', v :: values' => fits ty v && all_fit format' values'
  | _, _ => false
  end.

(** The bytes of one packed value. *)
Definition field (ty : Fmt) (v : Z) : list byte := structPack [ty] [v].

End CodecSpec.
(** ** Vocabulary of the in-memory transfer *)

Module TransferSpec.
Import Utils Usb Engine EngineSpec Firmware Upload UploadSpec.

(** The calls [tr], most recent first, followed by [added], oldest
    first. *)
Definition after (tr : list Call) (added : list Call) : list Call := rev added ++ tr.

(** A device that accepts everything, with [a] writes and [b] reads left
    to serve, after the calls [tr]. *)
Definition served (a b : nat) (tr : list Call) : State :=
  {| dev := {| writes := repeat Complete a; reads := repeat (Data ack) b |};
     done := tr |}.

(** The chunks of a body of [n] bytes: as many of 30 MiB as fit, then
    the rest. *)
Definition chunk_sizes (n : Z) : list Z :=
  repeat MAX_CHUNK_SIZE (Z.to_nat (n / MAX_CHUNK_SIZE)) ++
  (if n mod MAX_CHUNK_SIZE =? 0 then [] else [n mod MAX_CHUNK_SIZE]).

(** The finalizers of these chunks: the bytes of the chunk, and
    completion status 1 on the last one only. *)
Fixpoint marked (sizes : list Z) : list (Z * Z) :=
  match sizes with
  | [] => []
  | c :: rest =>
      (c, match rest with [] => 1 | _ => 0 end) :: marked rest
  end.

(** The blocks of member bodies among the calls: where each one starts
    in the body and how many of its bytes it carries. *)
Definition block_range (c : Call) : option (Z * Z) :=
  match c with
  | Write (Block start actual _) => Some (start, actual)
  | _ => None
  end.

(** The device type and the partition that a [(102, 3)] finalizer
    names. *)
Definition target (c : Call) : option (Z * Z) :=
  match c with
  | Write (Bytes b) =>
      if (length b =? 1024)%nat then
        if LEToNumber b 0 4 =? 102 then
          if LEToNumber b 4 4 =? 3 then Some (LEToNumber b 20 4, LEToNumber b 24 4)
          else None
        else None
      else None
  | _ => None
  end.

(** A call that neither begins nor ends a sequence. *)
Definition quiet (c : Call) : Prop :=
  sequence_size c = None /\ finalizer c = None /\ target c = None.

(** The ranges [(start, bytes)] lie one after the other from [from] to
    [to], each of 1 to 131072 bytes. *)
Fixpoint tiles (from : Z) (ranges : list (Z * Z)) (to : Z) : Prop :=
  match ranges with
  | [] => from = to
  | (start, n) :: rest =>
      start = from /\ 0 < n <= fileTransferPacketSize /\ tiles (from + n) rest to
  end.

(** A member as [parseTARData] builds it from a body that is not
    compressed, with its partition filled in. *)
Definition plain_item (name : string) (body : list byte) (pid dtype : Z) : FirmwareItem :=
  {| filename := name;
     data := Some body;
     info := {| size := len body; partition_id := Some pid; device_type := Some dtype;
                is_compressed := false; compression_type := "none";
                isLargeFile := false; fileHandle := false;
                fileOffset := None; actualSize := 0 |} |}.

End TransferSpec.
(** ** Vocabulary of the PIT properties: long names *)

Module PitClip.
Import Utils Pit PitSpec.

(** The first 31 characters of a string. *)
Definition clip (s : string) : string := String.substring 0 31 s.

Definition clip_entry (e : PitEntry) : PitEntry :=
  {| binaryType := binaryType e; deviceType := deviceType e;
     partitionId := partitionId e; partitionType := partitionType e;
     filesystem := filesystem e; startBlock := startBlock e;
     numBlocks := numBlocks e; fileOffset := fileOffset e; fileSize := fileSize e;
     partitionName := clip (partitionName e);
     flashFilename := clip (flashFilename e);
     fotaFilename := clip (fotaFilename e) |}.

Definition clip_pit (p : PitData) : PitData :=
  {| magic := magic p; count := count p; entries := map clip_entry (entries p) |}.

(** An entry with u32 fields and names of ASCII characters, of any
    length. *)
Definition text_entry (e : PitEntry) : bool :=
  is_u32 (binaryType e) && is_u32 (deviceType e) && is_u32 (partitionId e) &&
  is_u32 (partitionType e) && is_u32 (filesystem e) && is_u32 (startBlock e) &&
  is_u32 (numBlocks e) && is_u32 (fileOffset e) && is_u32 (fileSize e) &&
  all_chars text_char (partitionName e) && all_chars text_char (flashFilename e) &&
  all_chars text_char (fotaFilename e).

Definition text_pit (p : PitData) : bool :=
  (magic p =? PIT_MAGIC) && is_u32 (count p) &&
  (count p =? Z.of_nat (length (entries p))) && forallb text_entry (entries p).

(** An entry whose partition name has 40 characters. *)
Definition long_entry : PitEntry :=
  {| binaryType := 0; deviceType := 2; partitionId := 7; partitionType := 0;
     filesystem := 0; startBlock := 0; numBlocks := 64; fileOffset := 0; fileSize := 0;
     partitionName := "PARTITION_WITH_A_NAME_OF_FORTY_CHARACTER";
     flashFilename := "long.img"; fotaFilename := "" |}.

Definition long_pit : PitData :=
  {| magic := PIT_MAGIC; count := 1; entries := [long_entry] |}.

End PitClip.
(** ** js/download-engine.js: sending a PIT *)

Module PitSend.
Import Utils Usb Engine.
Local Open Scope usb_scope.

(** The chunk loop of [sendPitData], [while (offset < pitData.length)]:
    the value that [write] returns is not looked at. *)
Fixpoint sendPitChunks (fuel : nat) (pitData : list byte) (offset : Z) : M unit :=
  match fuel with
  | O => outOfFuel
  | S fuel' =>
      if offset <? len pitData then
        let end_ := Z.min (offset + 0x100000) (len pitData) in
        let chunk := TA.slice pitData (Z.to_nat offset) (Z.to_nat end_) in
        _ <- write (Bytes chunk) ;;
        sendPitChunks fuel' pitData end_
      else ret tt
  end.

(** [sendPitData(pitData)] *)
Definition sendPitData (pitData : list byte) : M bool :=
  try_catch
    (_ <- sendPitChunks (S (length pitData)) pitData 0 ;;
     resp <- read 64 TIMEOUT_TRANSFER ;;
     if 8 <=? len resp
     then ret (nth 1 (structUnpack [fI; fI] resp 0) 0 =? 0)
     else ret true)
    (fun _ => ret false).

End PitSend.

(** ** The flasher: [OdinFlasher.flash] *)

Module Flasher.
Import Utils Usb Engine Firmware Upload PitSend.
Local Open Scope usb_scope.

(** What one item adds to [totalBytes]. *)
Definition itemBytes (item : FirmwareItem) : Z :=
  if Str.includes (filename item) "meta-data/" || Str.endsWith (filename item) ".zip"
  then 0
  else
    match data item with
    | None =>
        if isLargeFile (info item) then
          if Str.endsWith (filename item) ".lz4" then actualSize (info item) * 4
          else if Str.endsWith (filename item) ".gz" then actualSize (info item) * 3
          else actualSize (info item)
        else 0
    | Some d => len d
    end.

(** [totalBytes] of [flash]: the loop over [firmwareData.items]. *)
Definition totalBytes (items : list FirmwareItem) : Z :=
  fold_left (fun total item => total + itemBytes item) items 0.

(** The PIT that [flash] sends: the one given, else the one embedded in
    the firmware. *)
Definition sendAnyPit (fw : FirmwareData) (pitData : option (list byte))
  : M (option (list byte)) :=
  match pitData with
  | Some p =>
      ok <- sendPitData p ;;
      if negb ok then throw "Failed to send PIT data" else ret (Some p)
  | None =>
      match Firmware.pitData fw with
      | Some p =>
          ok <- sendPitData p ;;
          if negb ok then throw "Failed to send embedded PIT data" else ret (Some p)
      | None => ret None
      end
  end.

(** [flash(firmwareData, pitData, reboot)] on a connected flasher whose
    device reported [protocolVersion]; the [catch] of the source logs
    and rethrows. *)
Definition flash (ext : Ext) (protocolVersion : option Z) (fw : FirmwareData)
           (pitData : option (list byte)) (reboot : bool) : M bool :=
  _ <- sessionOpen (totalBytes (items fw)) ;;
  pitForMatching <-
    (if or_else protocolVersion 2 <=? 3 then
       _ <- sendAnyPit fw pitData ;;
       received <- receivePitData ;;
       ret (Some received)
     else sendAnyPit fw pitData) ;;
  ok <- uploadBinaries ext (items fw) pitForMatching ;;
  if negb ok then throw "Failed to upload firmware binaries"
  else
    _ <- closeConnection ;;
    _ <- (if reboot then rebootDevice else ret tt) ;;
    ret true.

End Flasher.

(** ** Vocabulary of the session properties, continued *)

Module SessionSpec.
Import Utils Usb Engine Firmware.

(** The pieces of at most 1 MiB that [sendPitData] cuts a PIT into. *)
Definition PIECE : nat := Z.to_nat 0x100000.

Fixpoint pieces (size fuel : nat) (pitData : list byte) : list (list byte) :=
  match fuel with
  | O => []
  | S fuel' =>
      match pitData with
      | [] => []
      | _ => firstn size pitData :: pieces size fuel' (skipn size pitData)
      end
  end.

Definition pit_pieces (pitData : list byte) : list (list byte) :=
  pieces PIECE (length pitData) pitData.

(** What [sendPitData] hands to the transport when nothing fails: one
    write per piece, then one read. *)
Definition pit_calls (pitData : list byte) : list Call :=
  map (fun c => Write (Bytes c)) (pit_pieces pitData) ++ [Read 64 TIMEOUT_TRANSFER].

(** The next [k] writes of a device do not fail. *)
Definition accepts (ws : list WriteOutcome) (k : nat) : Prop :=
  (k <= length ws)%nat /\ Forall (fun w => w <> WriteError) (firstn k ws).

(** The bytes that the finalizers among the calls account for. *)
Definition bytes_finalized (cs : list Call) : Z :=
  fold_right Z.add 0 (map fst (UploadSpec.finalizers cs)).

(** A member as the in-memory parser builds it, not compressed. *)
Definition plain (item : FirmwareItem) : bool :=
  match data item with
  | Some _ => negb (is_compressed (info item))
  | None => false
  end &&
  match partition_id (info item), device_type (info item) with
  | None, None => true
  | _, _ => false
  end.

(** Writes and reads that are enough for the upload of [items]. *)
Definition budget (items : list FirmwareItem) : Z :=
  fold_right (fun item total =>
                500 * (match data item with Some d => len d | None => 0 end
                       / Upload.MAX_CHUNK_SIZE + 2) + 1 + total)
             1 items.

End SessionSpec.
(** ** Vocabulary of the archive properties *)

Module TarSpec.
Import Utils Firmware Tar.

(** The octal digit of value [d]. *)
Definition digit (d : Z) : ascii := ascii_of_N (Z.to_N (48 + d)).

(** [n] written with [k] octal digits, the most significant first. *)
Fixpoint octal (k : nat) (n : Z) : string :=
  match k with
  | O => EmptyString
  | S k' => String (digit ((n / 8 ^ Z.of_nat k') mod 8)) (octal k' n)
  end.

(** A character of a member name: printable ASCII, no space. *)
Definition name_char (c : ascii) : bool :=
  let n := N_of_ascii c in ((33 <=? n) && (n <=? 126))%N.

(** A character that is neither the terminator of a field nor white
    space. *)
Definition solid (c : ascii) : bool :=
  negb (Ascii.eqb c Ascii.zero) && negb (Str.isSpace c).

(** A member of an archive: its name and its body.  The name has 1 to
    100 characters and the size of the body fits in 11 octal digits. *)
Definition wf_member (m : string * list byte) : bool :=
  (1 <=? String.length (fst m))%nat && (String.length (fst m) <=? 100)%nat &&
  PitSpec.all_chars name_char (fst m) &&
  (Z.of_nat (length (snd m)) <? 8 ^ 11).

(** The bytes of a member in the archive: the 512-byte header with the
    name at 0 and the size in octal at 124, the body, and zeros up to a
    multiple of 512 bytes. *)
Definition member_bytes (m : string * list byte) : list byte :=
  TarSamples.member (fst m) (octal 11 (Z.of_nat (length (snd m)))) (snd m).

(** An archive: the members and the two zero blocks that end it. *)
Definition archive (ms : list (string * list byte)) : list byte :=
  flat_map member_bytes ms ++ TA.zeros 1024.

(** The item that the in-memory parsers build for a member. *)
Definition item_of (m : string * list byte) : FirmwareItem :=
  memberItem (fst m) (snd m) (Z.of_nat (length (snd m))).

(** The items that the header-only parser builds for the members of an
    archive, the first header being at [offset] of the file. *)
Fixpoint file_items (offset : Z) (ms : list (string * list byte)) : list FirmwareItem :=
  match ms with
  | [] => []
  | m :: rest =>
      fileItem (fst m) (Z.of_nat (length (snd m))) (offset + 512)
        :: file_items (offset + Z.of_nat (length (member_bytes m))) rest
  end.

(** The archive of the specification's example: [boot.img.lz4] of 1000
    bytes and [modem.bin] of 4000 bytes. *)
Definition two_members : list (string * list byte) :=
  [("boot.img.lz4"%string, repeat Byte.x5a 1000); ("modem.bin"%string, repeat Byte.xa5 4000)].

End TarSpec.

Module TarEdge.
Import Utils Firmware Tar.



End TarEdge.
(** ** Vocabulary of the whole session *)

Module FlashSpec.
Import Utils Usb Engine EngineSpec UploadSpec.

(** The reply [(100, 0)] that accepts the session. *)
Definition accepted : list byte := structPack [fI; fI] [100; 0].

(** A device that accepts the session and then everything: every write
    completes, the first read brings [(100, 0)] and every later one
    [(102, 0)]. *)
Definition accepting (n : nat) : Device :=
  {| writes := repeat Complete n; reads := Data accepted :: repeat (Data ack) n |}.

(** The end of a session: [(103, 0)] and its read, then [(103, 1)] when
    a reboot was asked for. *)
Definition closing (reboot : bool) : list Call :=
  Write (Bytes (frame [fI; fI; fI] [103; 0; 0])) :: Read 64 TIMEOUT_TRANSFER ::
  (if reboot then [Write (Bytes (frame [fI; fI; fI] [103; 1; 0]))] else []).

End FlashSpec.
(** ** js/lz4-streaming.js: the frame decoder *)

Module Lz4Stream.
Import Utils Tar Lz4.

(** [new DataView(buffer).getUint32(0, true)]: a [RangeError] when the
    buffer holds less than 4 bytes. *)
Definition getUint32 (buffer : list byte) : Result Z :=
  match buffer with
  | b0 :: b1 :: b2 :: b3 :: _ =>
      Ok (byte.unsigned b0 + 256 * byte.unsigned b1 + 65536 * byte.unsigned b2
          + 16777216 * byte.unsigned b3)
  | _ => Throw "RangeError: Offset is outside the bounds of the DataView"
  end.

Definition LZ4_MAGIC : Z := 0x184D2204.

(** [if (x)] on a number. *)
Definition truthy (x : Z) : bool := negb (x =? 0).

(** The block loop of [decompressStreaming],
    [while (fileOffset < endOffset)].  [tarFile.slice] is the slice of
    the bytes of the file.  The chunks handed to [onChunk] are collected,
    the oldest first; they are returned with the total, or with the
    error, of the loop.  The message of the size error is given without
    its numbers. *)
Fixpoint streamLoop (fuel : nat) (tarFile : list byte) (endOffset maxBlockSize : Z)
         (blockChecksum : bool) (fileOffset : Z) (chunks : list (list byte))
         (totalDecompressed : Z) : list (list byte) * Result Z :=
  match fuel with
  | O => (chunks, OutOfFuel)
  | S fuel' =>
      if fileOffset <? endOffset then
        match getUint32 (sliceZ tarFile fileOffset (fileOffset + 4)) with
        | Ok blockSize =>
            let fileOffset := fileOffset + 4 in
            if blockSize =? 0 then (chunks, Ok totalDecompressed)
            else
              let isUncompressed := negb (JS.band blockSize 0x80000000 =? 0) in
              let actualBlockSize := JS.band blockSize 0x7FFFFFFF in
              if actualBlockSize >? maxBlockSize
              then (chunks, Throw "Block size exceeds max")
              else
                let blockData := sliceZ tarFile fileOffset (fileOffset + actualBlockSize) in
                let fileOffset := fileOffset + actualBlockSize in
                let fileOffset := if blockChecksum then fileOffset + 4 else fileOffset in
                match (if isUncompressed then Ok blockData
                       else decompressBlock blockData (Z.to_nat maxBlockSize)) with
                | Ok decompressed =>
                    streamLoop fuel' tarFile endOffset maxBlockSize blockChecksum fileOffset
                              (chunks ++ [decompressed])
                              (totalDecompressed + Z.of_nat (length decompressed))
                | Throw msg => (chunks, Throw msg)
                | OutOfFuel => (chunks, OutOfFuel)
                end
        | Throw msg => (chunks, Throw msg)
        | OutOfFuel => (chunks, OutOfFuel)
        end
      else (chunks, Ok totalDecompressed)
  end.

(** The frame descriptor that [decompressStreaming] reads after the
    magic number: the 16 bytes from [offset + 4]. *)
Definition descriptor (tarFile : list byte) (offset : Z) : list byte :=
  sliceZ tarFile (offset + 4) (offset + 4 + 16).

(** [fdSize]: FLG and BD, the content size and the dictionary id when
    their flags are set, and the header checksum. *)
Definition fdSize (flg : Z) : Z :=
  2 + (if truthy (JS.band (JS.sar flg 3) 1) then 8 else 0)
    + (if truthy (JS.band flg 1) then 4 else 0) + 1.

(** [decompressStreaming(tarFile, offset, compressedSize, onChunk)] with
    an [onChunk] that does not throw: the chunks handed to it, and the
    total returned or the error thrown.  The message of the magic error
    is given without its number. *)
Definition decompressStreaming (tarFile : list byte) (offset compressedSize : Z)
  : list (list byte) * Result Z :=
  let endOffset := offset + compressedSize in
  match getUint32 (sliceZ tarFile offset (offset + 4)) with
  | Ok magic =>
      if negb (magic =? LZ4_MAGIC) then ([], Throw "Invalid LZ4 magic number")
      else
        let fdView := descriptor tarFile offset in
        let flg := at0 fdView 0 in
        let bd := at0 fdView 1 in
        let blockChecksum := truthy (JS.band (JS.sar flg 4) 1) in
        streamLoop (S (Z.to_nat compressedSize)) tarFile endOffset (maxBlockSize bd)
                  blockChecksum (offset + 4 + fdSize flg) [] 0
  | Throw msg => ([], Throw msg)
  | OutOfFuel => ([], OutOfFuel)
  end.

End Lz4Stream.

(** ** Vocabulary of the frame properties *)

Module FrameSpec.
Import Utils Lz4 Lz4Stream.

(** The four bytes of a 32-bit number, the lowest first. *)
Definition le32 (v : Z) : list byte :=
  [byte.of_Z v; byte.of_Z (v / 256); byte.of_Z (v / 65536); byte.of_Z (v / 16777216)].

(** A block that is stored as it is: its length with the highest bit
    set, then its bytes. *)
Definition stored_block (b : list byte) : list byte :=
  le32 (0x80000000 + Z.of_nat (length b)) ++ b.

(** A frame of stored blocks: the magic number, FLG [0x60] (version 1,
    independent blocks, no checksums, no content size, no dictionary),
    the BD byte, a header checksum, the blocks and the end mark. *)
Definition stored_frame (bd hc : byte) (blocks : list (list byte)) : list byte :=
  le32 LZ4_MAGIC ++ [Byte.x60; bd; hc] ++ concat (map stored_block blocks) ++ le32 0.

(** The bytes of all chunks. *)
Definition total (chunks : list (list byte)) : Z :=
  fold_right Z.add 0 (map (fun c => Z.of_nat (length c)) chunks).

(** The largest block that the frame at [offset] allows. *)
Definition frame_max (tarFile : list byte) (offset : Z) : Z :=
  maxBlockSize (at0 (descriptor tarFile offset) 1).

End FrameSpec.
(** ** The transport: [UsbDevice.write] *)

Module UsbDevice.
Import Utils Usb Engine.

(** [await this.device.transferOut(endpoint, chunk)] on a link that is a
    script of outcomes: all bytes written, [n] bytes written, or a
    rejection; a script that has run out rejects.  It returns
    [result.bytesWritten] and what is left of the script. *)
Definition transferOut (chunk : list byte) (link : list WriteOutcome)
  : Result Z * list WriteOutcome :=
  match link with
  | [] => (Throw "NetworkError", [])
  | Complete :: rest => (Ok (len chunk), rest)
  | Partial n :: rest => (Ok n, rest)
  | WriteError :: rest => (Throw "NetworkError", rest)
  end.

(** The loop of a large write, [while (offset < data.length)], inside
    the [try] of [write]: the chunks handed to [transferOut] are
    collected, the oldest first. *)
Fixpoint writeChunks (fuel : nat) (data : list byte) (offset totalWritten : Z)
         (link : list WriteOutcome) (sent : list (list byte))
  : Result Z * list (list byte) :=
  match fuel with
  | O => (OutOfFuel, sent)
  | S fuel' =>
      if offset <? len data then
        let chunkEnd := Z.min (offset + 65536) (len data) in
        let chunk := TA.slice data (Z.to_nat offset) (Z.to_nat chunkEnd) in
        match transferOut chunk link with
        | (Ok bytesWritten, link') =>
            let totalWritten := totalWritten + bytesWritten in
            if negb (bytesWritten =? len chunk)
            then (Ok totalWritten, sent ++ [chunk])
            else writeChunks fuel' data chunkEnd totalWritten link' (sent ++ [chunk])
        | (Throw msg, _) => (Throw ("USB write failed: " ++ msg), sent ++ [chunk])
        | (OutOfFuel, _) => (OutOfFuel, sent ++ [chunk])
        end
      else (Ok totalWritten, sent)
  end.

(** [write(data)] on a device whose [endpointOut] is set or not: what it
    returns or throws, and the chunks it handed to [transferOut]. *)
Definition write (endpointOut : bool) (data : list byte) (link : list WriteOutcome)
  : Result Z * list (list byte) :=
  if negb endpointOut then (Throw "Device not connected", [])
  else if len data >? 65536
       then writeChunks (S (length data)) data 0 0 link []
       else match transferOut data link with
            | (Ok bytesWritten, _) => (Ok bytesWritten, [data])
            | (Throw msg, _) => (Throw ("USB write failed: " ++ msg), [data])
            | (OutOfFuel, _) => (OutOfFuel, [data])
            end.

End UsbDevice.

(** ** Vocabulary of the transport properties *)

Module UsbSpec.
Import Utils Usb Engine SessionSpec.

Definition CHUNK : nat := Z.to_nat 65536.

(** The transfers of a write that is not cut short: the data as they
    are when they are at most 64 KiB, and cut every 64 KiB otherwise. *)
Definition transfers (data : list byte) : list (list byte) :=
  if len data >? 65536 then pieces CHUNK (length data) data else [data].

End UsbSpec.
(** ** js/utils.js: hexadecimal text *)

Module Hex.
Import Utils.
Local Open Scope string_scope.

(** The digits of [Number.prototype.toString(16)]. *)
Definition digitChar (d : Z) : ascii :=
  match String.get (Z.to_nat d) "0123456789abcdef" with
  | Some c => c
  | None => "0"%char
  end.

(** [b.toString(16)] for an element of a [Uint8Array]. *)
Definition toString16 (b : Z) : string :=
  if (b <? 16)%Z then String (digitChar b) ""
  else String (digitChar (b / 16)%Z) (String (digitChar (b mod 16)%Z) "").

(** [s.padStart(2, '0')] *)
Definition padStart2 (s : string) : string :=
  match s with
  | "" => "00"
  | String c "" => String "0" s
  | _ => s
  end.

(** [bytesToHex(bytes)] *)
Fixpoint bytesToHex (bytes : list byte) : string :=
  match bytes with
  | [] => ""
  | b :: rest => padStart2 (toString16 (byte.unsigned b)) ++ bytesToHex rest
  end.

(** A digit of radix 16, in either case. *)
Definition hexDigit (c : ascii) : option Z :=
  let n := N_of_ascii c in
  if ((48 <=? n) && (n <=? 57))%N then Some (Z.of_N n - 48)%Z
  else if ((97 <=? n) && (n <=? 102))%N then Some (Z.of_N n - 87)%Z
  else if ((65 <=? n) && (n <=? 70))%N then Some (Z.of_N n - 55)%Z
  else None.

(** The longest run of hexadecimal digits at the front of [s]. *)
Fixpoint hexRun (s : string) (acc : Z) (seen : bool) : option Z :=
  match s with
  | "" => if seen then Some acc else None
  | String c rest =>
      match hexDigit c with
      | Some d => hexRun rest (acc * 16 + d)%Z true
      | None => if seen then Some acc else None
      end
  end.

(** [parseInt(s, 16)]: leading white space, an optional sign, an
    optional [0x] or [0X], then the longest run of digits; [None] is
    [NaN]. *)
Definition parseInt16 (s : string) : option Z :=
  let t := Str.trimStart s in
  let '(negative, t) :=
    match t with
    | String "-"%char rest => (true, rest)
    | String "+"%char rest => (false, rest)
    | _ => (false, t)
    end in
  let t :=
    match t with
    | String "0"%char (String "x"%char rest) => rest
    | String "0"%char (String "X"%char rest) => rest
    | _ => t
    end in
  if negative then option_map Z.opp (hexRun t 0 false) else hexRun t 0 false.

(** What [new Uint8Array(bytes)] stores for a number: [NaN] is 0, an
    integer is taken modulo 256. *)
Definition toUint8 (v : option Z) : byte :=
  match v with
  | Some n => byte.of_Z n
  | None => Byte.x00
  end.

(** [hexToBytes(hex)]: [parseInt(hex.substr(i, 2), 16)] for
    [i = 0, 2, 4, ...]; the last piece is one character when the length
    is odd. *)
Fixpoint hexToBytes (hex : string) : list byte :=
  match hex with
  | "" => []
  | String a "" => [toUint8 (parseInt16 (String a ""))]
  | String a (String b rest) =>
      toUint8 (parseInt16 (String a (String b ""))) :: hexToBytes rest
  end.

End Hex.
(** * Properties *)

(** ** 32-bit operators, bit by bit *)

Section JSFacts.

  (** [ToInt32] keeps the low 32 bits and copies bit 31 upwards. *)
Lemma ToInt32_testbit z i :
    Z.testbit (JS.ToInt32 z) i =
    if i <? 32 then Z.testbit (z mod 2 ^ 32) i else Z.testbit (z mod 2 ^ 32) 31.
  Proof.
    exact (@word.testbit_swrap 32 Naive.word32 Naive.word32_ok z i).
  Qed.

Lemma ToInt32_small z : - 2 ^ 31 <= z < 2 ^ 31 -> JS.ToInt32 z = z.
  Proof. intros H. unfold JS.ToInt32. rewrite Z.mod_small; lia. Qed.

Lemma ToInt32_range z : - 2 ^ 31 <= JS.ToInt32 z < 2 ^ 31.
  Proof.
    unfold JS.ToInt32.
    pose proof (Z.mod_pos_bound (z + 2 ^ 31) (2 ^ 32) eq_refl). lia.
  Qed.

End JSFacts.

#[local] Hint Rewrite ToInt32_testbit : z_bitwise_no_hyps.

Ltac js_unfold :=
  unfold JS.ushr0, JS.bor, JS.band, JS.shl, JS.sar, JS.ToUint32.

(** ** Little-endian packers *)

Section LittleEndian.
Import Utils.

  (** Byte [k / 8] of a number, as [numberToLE] stores it. *)
Lemma numberToLE_byte v k :
    0 <= k <= 24 ->
    byte.unsigned (byte.of_Z (JS.band (JS.sar v k) 255)) = (v / 2 ^ k) mod 2 ^ 8.
  Proof.
    intros Hk. rewrite byte.unsigned_of_Z. unfold byte.wrap. js_unfold.
    rewrite (Z.mod_small k 32) by lia.
    change (JS.ToInt32 255) with (Z.ones 8).
    Z.bitblast.
  Qed.

Lemma numberToLE_length v n : length (numberToLE v n) = n.
  Proof. unfold numberToLE. now rewrite length_map, length_seq. Qed.

  (** What [LEToNumber] computes from four, two and one bytes. *)
Lemma LEToNumber_4 a b c d :
    0 <= a < 2 ^ 8 -> 0 <= b < 2 ^ 8 -> 0 <= c < 2 ^ 8 -> 0 <= d < 2 ^ 8 ->
    JS.ushr0 (JS.bor (JS.bor (JS.bor (JS.bor 0 (JS.shl a 0)) (JS.shl b 8))
                             (JS.shl c 16)) (JS.shl d 24))
    = Z.lor (Z.lor (Z.lor a (Z.shiftl b 8)) (Z.shiftl c 16)) (Z.shiftl d 24).
  Proof.
    intros Ha Hb Hc Hd.
    rewrite <- (Z.mod_small a (2 ^ 8)), <- (Z.mod_small b (2 ^ 8)),
      <- (Z.mod_small c (2 ^ 8)), <- (Z.mod_small d (2 ^ 8)) by assumption.
    js_unfold.
    change (0 mod 32) with 0. change (8 mod 32) with 8.
    change (16 mod 32) with 16. change (24 mod 32) with 24.
    Z.bitblast.
  Qed.

End LittleEndian.
(** ** Round trip of the little-endian packers *)

#[local] Hint Rewrite ToInt32_testbit : z_bitwise_no_hyps.

Section LittleEndianRoundTrip.
Import Utils.

Lemma fold_left_ext_in {A B} (f g : A -> B -> A) l :
    (forall a x, In x l -> f a x = g a x) ->
    forall a, fold_left f l a = fold_left g l a.
  Proof.
    induction l as [|x l IH]; intros H a; cbn; [reflexivity|].
    rewrite H by now left. apply IH. intros; apply H; now right.
  Qed.

Lemma at0_app_mid pre l post i :
    (i < length l)%nat -> at0 (pre ++ l ++ post) (length pre + i) = at0 l i.
  Proof.
    intros Hi. unfold at0.
    rewrite nth_error_app2 by lia.
    replace (length pre + i - length pre)%nat with i by lia.
    now rewrite nth_error_app1 by lia.
  Qed.

  (** [LEToNumber] only looks at the [bytes] bytes from [offset] on. *)
Lemma LEToNumber_app pre l post n :
    (n <= length l)%nat ->
    LEToNumber (pre ++ l ++ post) (length pre) n = LEToNumber l 0 n.
  Proof.
    intros Hn. unfold LEToNumber. f_equal.
    apply fold_left_ext_in. intros a i Hi. apply in_seq in Hi.
    rewrite at0_app_mid by lia. reflexivity.
  Qed.

Lemma numberToLE_LEToNumber_4 v :
    LEToNumber (numberToLE v 4) 0 4 = v mod 2 ^ 32.
  Proof.
    unfold LEToNumber, numberToLE. cbn [seq map fold_left Nat.add at0 nth_error].
    change (Z.of_nat 0 * 8) with 0. change (Z.of_nat 1 * 8) with 8.
    change (Z.of_nat 2 * 8) with 16. change (Z.of_nat 3 * 8) with 24.
    rewrite !numberToLE_byte by lia.
    rewrite LEToNumber_4 by (apply Z.mod_pos_bound; reflexivity).
    Z.bitblast.
  Qed.

Lemma numberToLE_LEToNumber_2 v :
    LEToNumber (numberToLE v 2) 0 2 = v mod 2 ^ 16.
  Proof.
    unfold LEToNumber, numberToLE. cbn [seq map fold_left Nat.add at0 nth_error].
    change (Z.of_nat 0 * 8) with 0. change (Z.of_nat 1 * 8) with 8.
    rewrite !numberToLE_byte by lia.
    js_unfold. change (0 mod 32) with 0. change (8 mod 32) with 8.
    Z.bitblast.
  Qed.

Lemma numberToLE_LEToNumber_1 v :
    LEToNumber (numberToLE v 1) 0 1 = v mod 2 ^ 8.
  Proof.
    unfold LEToNumber, numberToLE. cbn [seq map fold_left Nat.add at0 nth_error].
    change (Z.of_nat 0 * 8) with 0.
    rewrite !numberToLE_byte by lia.
    js_unfold. change (0 mod 32) with 0. 
    Z.bitblast.
  Qed.
End LittleEndianRoundTrip.

(** C10.  For every integer [v] with [0 <= v < 2^32] and every width [w]
    among 1, 2 and 4, writing [v] as [w] little-endian bytes with
    [numberToLE] and reading them back with [LEToNumber] gives
    [v mod 2^(8w)]. *)
Theorem LEToNumber_numberToLE (v : Z) (w : nat) :
  0 <= v < 2 ^ 32 -> In w [1; 2; 4]%nat ->
  Utils.LEToNumber (Utils.numberToLE v w) 0 w = v mod 2 ^ (8 * Z.of_nat w).
Proof.
  intros _ Hw. cbn [In] in Hw.
  destruct Hw as [<- | [<- | [<- | []]]].
  - apply numberToLE_LEToNumber_1.
  - apply numberToLE_LEToNumber_2.
  - apply numberToLE_LEToNumber_4.
Qed.

Lemma LEToNumber_numberToLE_witness :
  Utils.LEToNumber (Utils.numberToLE 305419896 2) 0 2 = 305419896 mod 2 ^ (8 * Z.of_nat 2).
Proof.
  apply (LEToNumber_numberToLE 305419896 2).
  - lia.
  - simpl. auto.
Defined.
(** ** Typed arrays *)

Section TypedArrays.

Lemma zeros_length n : length (TA.zeros n) = n.
  Proof. apply repeat_length. Qed.

Lemma zeros_app n m : TA.zeros (n + m) = TA.zeros n ++ TA.zeros m.
  Proof. apply repeat_app. Qed.

Lemma zeros_split n k : (k <= n)%nat -> TA.zeros n = TA.zeros k ++ TA.zeros (n - k).
  Proof. intros H. rewrite <- zeros_app. f_equal. lia. Qed.

  (** Writing [src] where the zero tail of a buffer starts. *)
Lemma set_here d n src off :
    off = length d -> (length src <= n)%nat ->
    TA.set (d ++ TA.zeros n) src off = Ok ((d ++ src) ++ TA.zeros (n - length src)).
  Proof.
    intros -> Hn. unfold TA.set.
    rewrite length_app, zeros_length.
    destruct (Nat.leb_spec (length d + length src) (length d + n)); [|lia].
    f_equal. rewrite firstn_app, firstn_all, Nat.sub_diag, firstn_O, app_nil_r.
    rewrite skipn_app, skipn_all2 by lia.
    replace (length d + length src - length d)%nat with (length src) by lia.
    rewrite (zeros_split n (length src)) by lia.
    rewrite skipn_app, zeros_length, skipn_all2 by (rewrite zeros_length; lia).
    rewrite Nat.sub_diag. cbn [skipn app]. now rewrite <- app_assoc.
  Qed.

Lemma firstn_repeat {A} (a : A) k n : firstn k (repeat a n) = repeat a (Nat.min k n).
  Proof. revert n; induction k; intros [|n]; cbn; f_equal; auto. Qed.

Lemma skipn_repeat {A} (a : A) k n : skipn k (repeat a n) = repeat a (n - k).
  Proof. revert n; induction k; intros [|n]; cbn; auto. Qed.

Lemma byte_of_Z_0 : byte.of_Z 0 = Byte.x00.
  Proof. apply byte.unsigned_inj. rewrite byte.unsigned_of_Z. reflexivity. Qed.

  (** Storing 0 in the zero tail of a buffer, or past its end, changes
      nothing. *)
Lemma put_zero_tail d n i :
    (length d <= i)%nat -> TA.put (d ++ TA.zeros n) i 0 = d ++ TA.zeros n.
  Proof.
    intros Hi. unfold TA.put. rewrite length_app, zeros_length.
    destruct (Nat.ltb_spec i (length d + n)); [|reflexivity].
    rewrite byte_of_Z_0.
    rewrite firstn_app, (firstn_all2 d) by lia.
    rewrite skipn_app, (skipn_all2 d) by lia. cbn [app].
    rewrite <- app_assoc. f_equal.
    unfold TA.zeros. rewrite firstn_repeat, skipn_repeat.
    change (Byte.x00 :: repeat Byte.x00 (n - (S i - length d)))
      with (repeat Byte.x00 (S (n - (S i - length d)))).
    rewrite <- repeat_app. f_equal. lia.
  Qed.

End TypedArrays.
(** ** The PIT codec *)

Section PitCodec.
Import Utils Pit PitSpec.

Lemma field32_length s : length (field32 s) = 32%nat.
  Proof.
    unfold field32. rewrite length_app, length_firstn, zeros_length. lia.
  Qed.

Lemma entry_bytes_length e : length (entry_bytes e) = PIT_ENTRY_SIZE.
  Proof.
    unfold entry_bytes. rewrite !length_app, !numberToLE_length, !field32_length.
    reflexivity.
  Qed.

Lemma writeString_here d n s off :
    off = length d -> (32 <= n)%nat ->
    writeString (d ++ TA.zeros n) off s 32 = Ok ((d ++ field32 s) ++ TA.zeros (n - 32)).
  Proof.
    intros -> Hn. unfold writeString, TA.slice.
    cbn [skipn]. rewrite Nat.sub_0_r.
    change (32 - 1)%nat with 31%nat.
    assert (Hlen : length (firstn (Nat.min (length (encode s)) 31) (encode s))
                   = Nat.min (length (encode s)) 31)
      by (rewrite length_firstn; lia).
    rewrite set_here by (try reflexivity; rewrite Hlen; lia).
    cbn [rbind]. rewrite Hlen.
    rewrite put_zero_tail by (rewrite length_app, Hlen; lia).
    f_equal. unfold field32.
    replace (firstn (Nat.min (length (encode s)) 31) (encode s)) with (firstn 31 (encode s)).
    2:{ destruct (Nat.le_ge_cases (length (encode s)) 31).
        - rewrite Nat.min_l by lia. now rewrite !firstn_all2 by lia.
        - now rewrite Nat.min_r by lia. }
    rewrite <- !app_assoc. do 2 f_equal.
    rewrite <- zeros_app. f_equal. lia.
  Qed.

Lemma serializeEntry_here d n e off :
    off = length d -> (PIT_ENTRY_SIZE <= n)%nat ->
    serializeEntry e (d ++ TA.zeros n) off
    = Ok ((d ++ entry_bytes e) ++ TA.zeros (n - PIT_ENTRY_SIZE)).
  Proof.
    unfold PIT_ENTRY_SIZE. intros -> Hn. unfold serializeEntry.
    repeat (rewrite set_here
              by (rewrite ?length_app, ?numberToLE_length; lia);
            cbn [rbind]; rewrite numberToLE_length).
    repeat (rewrite writeString_here
              by (rewrite ?length_app, ?numberToLE_length, ?field32_length; lia);
            cbn [rbind]).
    unfold entry_bytes. rewrite <- !app_assoc.
    replace (n - 4 - 4 - 4 - 4 - 4 - 4 - 4 - 4 - 4 - 32 - 32 - 32)%nat with (n - 132)%nat by lia.
    reflexivity.
  Qed.

Lemma serializeEntries_here es : forall d n off,
    off = length d -> (length es * PIT_ENTRY_SIZE <= n)%nat ->
    serializeEntries es (d ++ TA.zeros n) off
    = Ok ((d ++ flat_map entry_bytes es) ++ TA.zeros (n - length es * PIT_ENTRY_SIZE)).
  Proof.
    induction es as [|e es IH]; intros d n off -> Hn; cbn [serializeEntries flat_map length].
    - now rewrite app_nil_r, Nat.sub_0_r.
    - cbn [length] in Hn.
      rewrite serializeEntry_here by (try reflexivity; unfold PIT_ENTRY_SIZE in *; lia).
      cbn [rbind].
      rewrite IH by (rewrite ?length_app, ?entry_bytes_length; unfold PIT_ENTRY_SIZE in *; lia).
      rewrite <- !app_assoc.
      replace (n - PIT_ENTRY_SIZE - length es * PIT_ENTRY_SIZE)%nat
        with (n - S (length es) * PIT_ENTRY_SIZE)%nat by lia.
      reflexivity.
  Qed.

  (** [serialize] never throws, and its output is the header followed by
      the entries, 132 bytes each. *)
Lemma serialize_closed p :
    serialize p = Ok (header_bytes p ++ flat_map entry_bytes (entries p)).
  Proof.
    unfold serialize, PIT_HEADER_SIZE.
    change (TA.zeros (28 + length (entries p) * PIT_ENTRY_SIZE))
      with ([] ++ TA.zeros (28 + length (entries p) * PIT_ENTRY_SIZE)).
    rewrite set_here by (rewrite ?numberToLE_length; cbn [length]; lia).
    cbn [rbind]. rewrite numberToLE_length.
    rewrite set_here by (rewrite ?length_app, ?numberToLE_length; cbn [length]; lia).
    cbn [rbind]. rewrite numberToLE_length.
    replace (28 + length (entries p) * PIT_ENTRY_SIZE - 4 - 4)%nat
      with (20 + length (entries p) * PIT_ENTRY_SIZE)%nat by lia.
    rewrite zeros_app, app_assoc.
    rewrite serializeEntries_here
      by (rewrite ?length_app, ?numberToLE_length, ?zeros_length; cbn [length]; lia).
    replace (20 + length (entries p) * PIT_ENTRY_SIZE - 20)%nat
      with (length (entries p) * PIT_ENTRY_SIZE)%nat by lia.
    rewrite Nat.sub_diag. unfold header_bytes. cbn [TA.zeros repeat app].
    now rewrite app_nil_r, <- !app_assoc.
  Qed.

End PitCodec.

Section PitParse.
Import Utils Pit PitSpec.


Lemma at0_skip x rest i : (length x <= i)%nat -> at0 (x ++ rest) i = at0 rest (i - length x).
  Proof. intros H. unfold at0. now rewrite nth_error_app2 by lia. Qed.

Lemma at0_prefix l post i : (i < length l)%nat -> at0 (l ++ post) i = at0 l i.
  Proof. intros H. unfold at0. now rewrite nth_error_app1 by lia. Qed.

Lemma LEToNumber_skip x rest off n :
    (length x <= off)%nat ->
    LEToNumber (x ++ rest) off n = LEToNumber rest (off - length x) n.
  Proof.
    intros H. unfold LEToNumber. f_equal.
    apply fold_left_ext_in. intros a i _.
    rewrite at0_skip by lia. do 3 f_equal. lia.
  Qed.

Lemma LEToNumber_prefix l post n :
    (n <= length l)%nat -> LEToNumber (l ++ post) 0 n = LEToNumber l 0 n.
  Proof.
    intros H. unfold LEToNumber. f_equal.
    apply fold_left_ext_in. intros a i Hi. apply in_seq in Hi.
    now rewrite at0_prefix by lia.
  Qed.

Lemma readString_skip x rest n : forall off,
    (length x <= off)%nat ->
    readString (x ++ rest) off n = readString rest (off - length x) n.
  Proof.
    induction n as [|n IH]; intros off H; cbn [readString]; [reflexivity|].
    rewrite nth_error_app2 by lia.
    rewrite IH by lia. now replace (S off - length x)%nat with (S (off - length x)) by lia.
  Qed.

Lemma encode_text s :
    all_chars text_char s = true ->
    encode s = map byte_of_ascii (list_ascii_of_string s).
  Proof.
    induction s as [|c s IH]; cbn [all_chars encode list_ascii_of_string map]; [reflexivity|].
    intros H. apply andb_prop in H as [Hc Hs]. rewrite IH by assumption.
    unfold encodeChar. unfold text_char in Hc. apply andb_prop in Hc as [_ Hc].
    apply N.ltb_lt in Hc.
    destruct (Z.ltb_spec (Z.of_N (N_of_ascii c)) 128); [reflexivity|lia].
  Qed.

Lemma encode_text_length s :
    all_chars text_char s = true -> length (encode s) = String.length s.
  Proof.
    intros H. rewrite encode_text by assumption.
    rewrite length_map. induction s; cbn; auto.
    cbn in H. apply andb_prop in H as [_ H]. auto.
  Qed.

Lemma text_char_nonzero c :
    text_char c = true -> Byte.eqb (byte_of_ascii c) Byte.x00 = false.
  Proof.
    intros H. destruct (Byte.eqb (byte_of_ascii c) Byte.x00) eqn:E; [|reflexivity].
    apply Byte.byte_dec_bl in E.
    apply (f_equal ascii_of_byte) in E. rewrite ascii_of_byte_of_ascii in E.
    subst c. discriminate H.
  Qed.

  (** Reading back a string that was written before a zero byte. *)
Lemma readString_text s : forall post n,
    all_chars text_char s = true -> (String.length s < n)%nat ->
    readString (encode s ++ Byte.x00 :: post) 0 n = s.
  Proof.
    induction s as [|c s IH]; intros post n Hs Hn.
    - destruct n; [inversion Hn|]. reflexivity.
    - destruct n; [inversion Hn|]. cbn [String.length] in Hn.
      cbn [all_chars] in Hs. apply andb_prop in Hs as [Hc Hs].
      cbn [encode]. unfold encodeChar at 1.
      assert (Hlt : (Z.of_N (N_of_ascii c) <? 128) = true).
      { unfold text_char in Hc. apply andb_prop in Hc as [_ Hc].
        apply N.ltb_lt in Hc. apply Z.ltb_lt. lia. }
      rewrite Hlt. cbn [app readString nth_error].
      rewrite text_char_nonzero by assumption.
      rewrite ascii_of_byte_of_ascii. f_equal.
      change (byte_of_ascii c :: encode s ++ Byte.x00 :: post)
        with ([byte_of_ascii c] ++ (encode s ++ Byte.x00 :: post)).
      rewrite readString_skip by (cbn; lia). cbn [length Nat.sub].
      apply IH; [assumption|lia].
  Qed.

Lemma readString_field32 s post :
    wf_string s = true -> readString (field32 s ++ post) 0 32 = s.
  Proof.
    intros H. apply andb_prop in H as [Hl Hc]. apply Nat.leb_le in Hl.
    unfold field32. pose proof (encode_text_length s Hc) as Hlen.
    rewrite firstn_all2 by lia. rewrite Hlen, Nat.min_l by lia.
    destruct (32 - String.length s)%nat as [|k] eqn:Hk; [lia|].
    cbn [TA.zeros repeat]. rewrite <- app_assoc. cbn [app].
    apply readString_text; [assumption|lia].
  Qed.

Lemma is_u32_mod v : is_u32 v = true -> v mod 2 ^ 32 = v.
  Proof.
    intros H. apply andb_prop in H as [H1 H2].
    apply Z.leb_le in H1. apply Z.ltb_lt in H2. apply Z.mod_small. lia.
  Qed.

Lemma LEToNumber_numberToLE_here v post :
    is_u32 v = true -> LEToNumber (numberToLE v 4 ++ post) 0 4 = v.
  Proof.
    intros H. rewrite LEToNumber_prefix by (rewrite numberToLE_length; lia).
    rewrite numberToLE_LEToNumber_4. now apply is_u32_mod.
  Qed.

Ltac skip_fields :=
    repeat (first [ rewrite LEToNumber_skip
                      by (rewrite ?numberToLE_length, ?field32_length; cbn; lia)
                  | rewrite readString_skip
                      by (rewrite ?numberToLE_length, ?field32_length; cbn; lia) ];
            rewrite ?numberToLE_length, ?field32_length; cbn [Nat.sub Nat.add]).

  (** [parseEntry] reads back what [serializeEntry] wrote. *)
Lemma parseEntry_entry_bytes e post :
    wf_entry e = true -> parseEntry (entry_bytes e ++ post) 0 = e.
  Proof.
    intros H. unfold wf_entry in H. rewrite !andb_true_iff in H.
    destruct H as [[[[[[[[[[[? ?] ?] ?] ?] ?] ?] ?] ?] ?] ?] ?].
    destruct e as [f1 f2 f3 f4 f5 f6 f7 f8 f9 s1 s2 s3]. cbn [binaryType deviceType partitionId partitionType filesystem startBlock numBlocks fileOffset fileSize partitionName flashFilename fotaFilename] in *.
    unfold parseEntry, entry_bytes. cbn [binaryType deviceType partitionId partitionType filesystem startBlock numBlocks fileOffset fileSize partitionName flashFilename fotaFilename Nat.add].
    rewrite <- !app_assoc.
    f_equal; skip_fields;
      first [ now apply LEToNumber_numberToLE_here | now apply readString_field32 ].
  Qed.


Lemma parseEntry_shift pre rest :
    parseEntry (pre ++ rest) (length pre) = parseEntry rest 0.
  Proof.
    unfold parseEntry.
    f_equal; first [ rewrite LEToNumber_skip by lia | rewrite readString_skip by lia ];
      f_equal; lia.
  Qed.

Lemma parseEntries_flat_map es : forall pre post,
    forallb wf_entry es = true ->
    parseEntries (pre ++ flat_map entry_bytes es ++ post) (length es) (length pre)
    = es.
  Proof.
    induction es as [|e es IH]; intros pre post H; [reflexivity|].
    cbn [forallb] in H. apply andb_prop in H as [He Hes].
    cbn [length parseEntries flat_map].
    rewrite !length_app, entry_bytes_length.
    match goal with
    | |- context [Nat.ltb ?a ?b] => destruct (Nat.ltb_spec a b); [lia|]
    end.
    f_equal.
    - rewrite parseEntry_shift, <- app_assoc. now apply parseEntry_entry_bytes.
    - pose proof (IH (pre ++ entry_bytes e) post Hes) as P.
      rewrite length_app, entry_bytes_length, <- !app_assoc in P.
      rewrite <- !app_assoc. exact P.
  Qed.

Lemma header_bytes_length p : length (header_bytes p) = PIT_HEADER_SIZE.
  Proof.
    unfold header_bytes. now rewrite !length_app, !numberToLE_length, zeros_length.
  Qed.

  (** Round trip, from the value. *)
Lemma parse_serialize p :
    wf_pit p = true ->
    exists b, serialize p = Ok b /\ parse b = Ok p.
  Proof.
    intros H. unfold wf_pit in H. rewrite !andb_true_iff in H.
    destruct H as [[[Hm Hc] Hn] He]. apply Z.eqb_eq in Hm, Hn.
    eexists. split; [apply serialize_closed|].
    unfold parse. rewrite length_app, header_bytes_length.
    destruct (Nat.ltb_spec (PIT_HEADER_SIZE + length (flat_map entry_bytes (entries p)))
                PIT_HEADER_SIZE); [lia|].
    assert (M : LEToNumber (header_bytes p ++ flat_map entry_bytes (entries p)) 0 4 = magic p).
    { unfold header_bytes. rewrite <- !app_assoc.
      apply LEToNumber_numberToLE_here. rewrite Hm. reflexivity. }
    assert (C : LEToNumber (header_bytes p ++ flat_map entry_bytes (entries p)) 4 4 = count p).
    { unfold header_bytes. rewrite <- !app_assoc.
      rewrite LEToNumber_skip by (rewrite numberToLE_length; lia).
      rewrite numberToLE_length. cbn [Nat.sub].
      now apply LEToNumber_numberToLE_here. }
    rewrite M, C, Hm. rewrite Z.eqb_refl. cbn [negb].
    rewrite Hn at 2. rewrite Nat2Z.id.
    rewrite <- (header_bytes_length p).
    rewrite <- (app_nil_r (flat_map entry_bytes (entries p))).
    rewrite parseEntries_flat_map by assumption.
    destruct p; cbn in *; now subst.
  Qed.

End PitParse.

(** C2.  For every well-formed PIT value (magic 0x12349876, count equal to
    the number of entries, u32 fields, strings of at most 31 ASCII
    characters) [serialize] returns bytes that [parse] turns back into the
    same value; and a byte string that is the serialization of a
    well-formed PIT is what [serialize] gives on its [parse]. *)
Theorem pit_roundtrip (p : Pit.PitData) :
  PitSpec.wf_pit p = true ->
  exists b, Pit.serialize p = Ok b /\ Pit.parse b = Ok p /\
            (forall p', Pit.parse b = Ok p' -> Pit.serialize p' = Ok b).
Proof.
  intros H. destruct (parse_serialize p H) as (b & Hs & Hp).
  exists b. repeat split; try assumption.
  intros p' Hp'. rewrite Hp in Hp'. now inversion Hp'; subst.
Qed.

Lemma pit_roundtrip_witness :
  exists b, Pit.serialize PitSamples.sample_pit = Ok b /\
            Pit.parse b = Ok PitSamples.sample_pit /\
            (forall p', Pit.parse b = Ok p' -> Pit.serialize p' = Ok b).
Proof.
  apply (pit_roundtrip PitSamples.sample_pit). vm_compute. reflexivity.
Defined.

Section PitTruncation.
Import Utils Pit PitSpec.

Lemma parseEntries_length b n : forall off,
    length (parseEntries b n off) = Nat.min n ((length b - off) / PIT_ENTRY_SIZE).
  Proof.
    unfold PIT_ENTRY_SIZE.
    induction n as [|n IH]; intros off; cbn [parseEntries]; [reflexivity|].
    unfold PIT_ENTRY_SIZE.
    destruct (Nat.ltb_spec (length b) (off + 132)).
    - rewrite Nat.div_small by lia. now rewrite Nat.min_0_r.
    - cbn [length]. rewrite IH.
      replace (length b - off)%nat with ((length b - (off + 132)) + 1 * 132)%nat by lia.
      rewrite Nat.div_add by lia. lia.
  Qed.

Lemma parseEntries_whole b n : forall off e,
    In e (parseEntries b n off) ->
    exists k, (k < n)%nat /\ (off + (k + 1) * PIT_ENTRY_SIZE <= length b)%nat /\
              e = parseEntry b (off + k * PIT_ENTRY_SIZE).
  Proof.
    unfold PIT_ENTRY_SIZE.
    induction n as [|n IH]; intros off e; cbn [parseEntries]; [intros []|].
    unfold PIT_ENTRY_SIZE.
    destruct (Nat.ltb_spec (length b) (off + 132)); [intros []|].
    intros [<- | Hin].
    - exists 0%nat. repeat split; try lia. f_equal. lia.
    - destruct (IH _ _ Hin) as (k & Hk & Hb & ->).
      exists (S k). repeat split; try lia. f_equal. lia.
  Qed.

End PitTruncation.

(** C3, the claim as stated fails: a 28-byte input whose header announces
    one entry is parsed without error into a [PitData] with no entry. *)
Lemma parse_truncated_returns :
  (length PitSamples.truncated_pit < Pit.PIT_HEADER_SIZE + 1 * Pit.PIT_ENTRY_SIZE)%nat /\
  Pit.parse PitSamples.truncated_pit
  = Ok {| Pit.magic := Pit.PIT_MAGIC; Pit.count := 1; Pit.entries := [] |}.
Proof. split; vm_compute; [lia | reflexivity]. Qed.

(** C3, amended.  [parse] throws exactly when the input is shorter than the
    28-byte header or the magic is wrong.  Otherwise it returns the magic
    and the [count] read from the header, and the entries that fit whole
    in the input: [min count ((length - 28) / 132)] of them, so never more
    than [count], each one read from its own 132 bytes. *)
Theorem parse_outcome (b : list byte) :
  ((exists msg, Pit.parse b = Throw msg) <->
   (length b < Pit.PIT_HEADER_SIZE)%nat \/ Utils.LEToNumber b 0 4 <> Pit.PIT_MAGIC) /\
  Pit.parse b <> OutOfFuel /\
  (forall pit, Pit.parse b = Ok pit ->
     Pit.magic pit = Pit.PIT_MAGIC /\
     Pit.count pit = Utils.LEToNumber b 4 4 /\
     length (Pit.entries pit)
     = Nat.min (Z.to_nat (Pit.count pit))
               ((length b - Pit.PIT_HEADER_SIZE) / Pit.PIT_ENTRY_SIZE) /\
     (Z.of_nat (length (Pit.entries pit)) <= Pit.count pit) /\
     (Pit.PIT_HEADER_SIZE + length (Pit.entries pit) * Pit.PIT_ENTRY_SIZE <= length b)%nat).
Proof.
  unfold Pit.parse.
  destruct (Nat.ltb_spec (length b) Pit.PIT_HEADER_SIZE) as [Hs | Hs].
  { repeat split; try discriminate; eauto. }
  destruct (Z.eqb_spec (Utils.LEToNumber b 0 4) Pit.PIT_MAGIC) as [Hm | Hm]; cbn [negb].
  2:{ repeat split; try discriminate; eauto. }
  split; [|split].
  - split; [intros [msg Hx]; discriminate | intros [Hx | Hx]; [lia | contradiction]].
  - discriminate.
  - intros pit Hp.
    apply (f_equal (fun r => match r with Ok p => p | _ => pit end)) in Hp.
    cbv beta iota in Hp. subst pit. cbn [Pit.magic Pit.count Pit.entries].
    rewrite parseEntries_length.
    assert (Hc : 0 <= Utils.LEToNumber b 4 4).
    { unfold Utils.LEToNumber, JS.ushr0, JS.ToUint32.
      apply Z.mod_pos_bound. reflexivity. }
    repeat split; try assumption; try reflexivity.
    + lia.
    + pose proof (Nat.Div0.mul_div_le (length b - Pit.PIT_HEADER_SIZE) Pit.PIT_ENTRY_SIZE).
      unfold Pit.PIT_ENTRY_SIZE, Pit.PIT_HEADER_SIZE in *.
      nia.
Qed.
(** ** Stepping through device code *)

Section UsbSteps.
Import Usb EngineSpec.

Lemma calls_write s p ws :
    calls {| dev := {| writes := ws; reads := reads (dev s) |};
             done := Write p :: done s |} = calls s ++ [Write p].
  Proof. reflexivity. Qed.


Lemma extends_refl s : extends s s [].
  Proof. unfold extends. now rewrite app_nil_r. Qed.

Lemma extends_trans s1 s2 s3 a b :
    extends s1 s2 a -> extends s2 s3 b -> extends s1 s3 (a ++ b).
  Proof. unfold extends. intros H1 H2. now rewrite H2, H1, app_assoc. Qed.

Lemma write_step p s :
    exists s', write p s =
      (match writes (dev s) with
       | Complete :: _ => Ok (payload_length p)
       | Partial n :: _ => Ok n
       | _ => Throw "USB write failed"%string
       end, s') /\
      extends s s' [Write p] /\
      reads (dev s') = reads (dev s) /\ writes (dev s') = tl (writes (dev s)).
  Proof.
    unfold write, extends.
    destruct (writes (dev s)) as [|[| n |] ws]; eexists; repeat split.
  Qed.

Lemma read_step size timeout s :
    exists s', read size timeout s =
      (match reads (dev s) with
       | Data b :: _ => Ok (firstn (Z.to_nat size) b)
       | _ => Throw "USB read timeout"%string
       end, s') /\
      extends s s' [Read size timeout] /\
      writes (dev s') = writes (dev s) /\ reads (dev s') = tl (reads (dev s)).
  Proof.
    unfold read, extends.
    destruct (reads (dev s)) as [|[b|] rs]; eexists; repeat split.
  Qed.

End UsbSteps.

(** ** Handshake *)

Section Handshake.
Import Usb Engine EngineSpec.

Lemma byte_is b (c : byte) : (byte.unsigned b =? byte.unsigned c) = true <-> b = c.
  Proof.
    rewrite Z.eqb_eq. split; [apply byte.unsigned_inj | now intros ->].
  Qed.

Lemma loke_check resp :
    (len resp <? 4) = false ->
    (elem_is resp 0 76 && elem_is resp 1 79 && elem_is resp 2 75 && elem_is resp 3 69 = true
     <-> firstn 4 resp = lokeBytes).
  Proof.
    intros _. unfold elem_is, lokeBytes.
    destruct resp as [|a [|b [|c [|d rest]]]]; cbn [nth_error firstn andb];
      try (split; [intros; discriminate | intros; discriminate]).
    - split; [|discriminate]. rewrite ?andb_false_r. discriminate.
    - split; [|discriminate]. rewrite ?andb_false_r. discriminate.
    - split; [|discriminate]. rewrite ?andb_false_r. discriminate.
    - rewrite !andb_true_iff.
      change 76 with (byte.unsigned Byte.x4c). change 79 with (byte.unsigned Byte.x4f).
      change 75 with (byte.unsigned Byte.x4b). change 69 with (byte.unsigned Byte.x45).
      rewrite !byte_is. split.
      + intros [[[-> ->] ->] ->]. reflexivity.
      + intros H. inversion H. auto.
  Qed.

Lemma loke_short resp : (len resp <? 4) = true -> firstn 4 resp <> lokeBytes.
  Proof.
    unfold len. intros H. apply Z.ltb_lt in H.
    destruct resp as [|a [|b [|c [|d rest]]]]; cbn in *; try discriminate. lia.
  Qed.

Lemma firstn_4_64 (r : list byte) : firstn 4 (firstn (Z.to_nat 64) r) = firstn 4 r.
  Proof. rewrite firstn_firstn. reflexivity. Qed.

End Handshake.

(** C7.  The handshake never throws.  Its first call writes exactly the
    four bytes [4F 44 49 4E], ['O' 'D' 'I' 'N'].  When that write reports
    four bytes written it asks once for a reply of up to 64 bytes, and
    otherwise it makes no further call.  It succeeds if and only if the
    write reported four bytes and the first four bytes of the reply are
    [4C 4F 4B 45], ['L' 'O' 'K' 'E']; a missing reply, a reply of fewer
    than four bytes and any other reply make it fail. *)
Theorem handshake_spec (s : Usb.State) :
  let odin := [Byte.x4f; Byte.x44; Byte.x49; Byte.x4e] in
  let loke := [Byte.x4c; Byte.x4f; Byte.x4b; Byte.x45] in
  let written :=
    exists w ws, Usb.writes (Usb.dev s) = w :: ws /\ EngineSpec.reports w 4 = Some 4 in
  exists ok s',
    Engine.handshake s = (Ok ok, s') /\
    (written ->
     Usb.calls s' = Usb.calls s ++ [Usb.Write (Usb.Bytes odin);
                                    Usb.Read 64 Engine.TIMEOUT_HANDSHAKE]) /\
    (~ written -> Usb.calls s' = Usb.calls s ++ [Usb.Write (Usb.Bytes odin)]) /\
    (ok = true <->
     written /\
     exists reply rs, Usb.reads (Usb.dev s) = Usb.Data reply :: rs /\
                      firstn 4 reply = loke).
Proof.
  intros odin loke written.
  destruct s as [[ws rs] tr]. unfold Usb.calls. subst written.
  cbn [Usb.dev Usb.done Usb.writes Usb.reads].
  change loke with EngineSpec.lokeBytes. change odin with Engine.odinBytes.
  clear odin loke.
  assert (Hw : forall w ws', ws = w :: ws' -> EngineSpec.reports w 4 <> Some 4 ->
     ~ (exists w0 ws0, ws = w0 :: ws0 /\ EngineSpec.reports w0 4 = Some 4)).
  { intros w ws' -> Hn (w0 & ws0 & E & R). injection E as <- <-. contradiction. }
  assert (Hr : (forall reply rs0, rs = Usb.Data reply :: rs0 ->
                                  firstn 4 reply <> EngineSpec.lokeBytes) ->
     false = true <->
     (exists w0 ws0, ws = w0 :: ws0 /\ EngineSpec.reports w0 4 = Some 4) /\
     (exists reply rs0, rs = Usb.Data reply :: rs0 /\ firstn 4 reply = EngineSpec.lokeBytes)).
  { intros Hn. split; [discriminate|].
    intros [_ (reply & rs0 & E & R)]. now apply Hn in E. }
  assert (Hstop : forall ok s',
     ~ (exists w0 ws0, ws = w0 :: ws0 /\ EngineSpec.reports w0 4 = Some 4) ->
     ok = false ->
     rev (Usb.done s') = rev tr ++ [Usb.Write (Usb.Bytes Engine.odinBytes)] ->
     ((exists w0 ws0, ws = w0 :: ws0 /\ EngineSpec.reports w0 4 = Some 4) ->
      rev (Usb.done s') = rev tr ++ [Usb.Write (Usb.Bytes Engine.odinBytes);
                                     Usb.Read 64 Engine.TIMEOUT_HANDSHAKE]) /\
     (~ (exists w0 ws0, ws = w0 :: ws0 /\ EngineSpec.reports w0 4 = Some 4) ->
      rev (Usb.done s') = rev tr ++ [Usb.Write (Usb.Bytes Engine.odinBytes)]) /\
     (ok = true <->
      (exists w0 ws0, ws = w0 :: ws0 /\ EngineSpec.reports w0 4 = Some 4) /\
      (exists reply rs0, rs = Usb.Data reply :: rs0 /\
                         firstn 4 reply = EngineSpec.lokeBytes))).
  { intros ok s' Hnot -> Htr. split; [intros H; contradiction|]. split; [auto|].
    split; [discriminate|]. intros [H _]. contradiction. }
  unfold Engine.handshake, Usb.try_catch, Usb.bind, Usb.write.
  cbn [Usb.dev Usb.done Usb.writes Usb.reads].
  destruct ws as [|w ws'].
  { eexists _, _. split; [reflexivity|]. apply Hstop; [|reflexivity|reflexivity].
    intros (w0 & ws0 & E & _). discriminate. }
  assert (Hgo : EngineSpec.reports w 4 = Some 4 ->
    let s1 := {| Usb.dev := {| Usb.writes := ws'; Usb.reads := rs |};
                 Usb.done := Usb.Write (Usb.Bytes Engine.odinBytes) :: tr |} in
    exists ok s',
      (match
         (resp <- Usb.read 64 Engine.TIMEOUT_HANDSHAKE ;;
          if Engine.len resp <? 4 then Usb.ret false
          else if Engine.elem_is resp 0 76 && Engine.elem_is resp 1 79 &&
                  Engine.elem_is resp 2 75 && Engine.elem_is resp 3 69
               then Usb.ret true else Usb.ret false)%usb s1
       with
       | (Throw msg, s') => Usb.ret false s'
       | other => other
       end) = (Ok ok, s') /\
      ((exists w0 ws0, w :: ws' = w0 :: ws0 /\ EngineSpec.reports w0 4 = Some 4) ->
       rev (Usb.done s') = rev tr ++ [Usb.Write (Usb.Bytes Engine.odinBytes);
                                      Usb.Read 64 Engine.TIMEOUT_HANDSHAKE]) /\
      (~ (exists w0 ws0, w :: ws' = w0 :: ws0 /\ EngineSpec.reports w0 4 = Some 4) ->
       rev (Usb.done s') = rev tr ++ [Usb.Write (Usb.Bytes Engine.odinBytes)]) /\
      (ok = true <->
       (exists w0 ws0, w :: ws' = w0 :: ws0 /\ EngineSpec.reports w0 4 = Some 4) /\
       (exists reply rs0, rs = Usb.Data reply :: rs0 /\
                          firstn 4 reply = EngineSpec.lokeBytes))).
  { intros Hrep s1. subst s1. unfold Usb.bind, Usb.read, Usb.ret.
    cbn [Usb.dev Usb.done Usb.writes Usb.reads].
    assert (Hwr : exists w0 ws0, w :: ws' = w0 :: ws0 /\ EngineSpec.reports w0 4 = Some 4)
      by eauto.
    assert (Htr : rev (Usb.Read 64 Engine.TIMEOUT_HANDSHAKE
                         :: Usb.Write (Usb.Bytes Engine.odinBytes) :: tr)
                  = rev tr ++ [Usb.Write (Usb.Bytes Engine.odinBytes);
                               Usb.Read 64 Engine.TIMEOUT_HANDSHAKE]).
    { cbn [rev]. now rewrite <- app_assoc. }
    assert (Hfin : forall ok s',
      rev (Usb.done s') = rev tr ++ [Usb.Write (Usb.Bytes Engine.odinBytes);
                                     Usb.Read 64 Engine.TIMEOUT_HANDSHAKE] ->
      (ok = true <->
       (exists w0 ws0, w :: ws' = w0 :: ws0 /\ EngineSpec.reports w0 4 = Some 4) /\
       (exists reply rs0, rs = Usb.Data reply :: rs0 /\
                          firstn 4 reply = EngineSpec.lokeBytes)) ->
      ((exists w0 ws0, w :: ws' = w0 :: ws0 /\ EngineSpec.reports w0 4 = Some 4) ->
       rev (Usb.done s') = rev tr ++ [Usb.Write (Usb.Bytes Engine.odinBytes);
                                      Usb.Read 64 Engine.TIMEOUT_HANDSHAKE]) /\
      (~ (exists w0 ws0, w :: ws' = w0 :: ws0 /\ EngineSpec.reports w0 4 = Some 4) ->
       rev (Usb.done s') = rev tr ++ [Usb.Write (Usb.Bytes Engine.odinBytes)]) /\
      (ok = true <->
       (exists w0 ws0, w :: ws' = w0 :: ws0 /\ EngineSpec.reports w0 4 = Some 4) /\
       (exists reply rs0, rs = Usb.Data reply :: rs0 /\
                          firstn 4 reply = EngineSpec.lokeBytes))).
    { intros ok s' H1 H2. split; [auto|]. split; [intros Hn; contradiction | exact H2]. }
    destruct rs as [|[reply|] rs0].
    - eexists _, _. split; [reflexivity|]. apply Hfin; [exact Htr|].
      apply Hr. intros ? ? E. discriminate.
    - destruct (Engine.len (firstn (Z.to_nat 64) reply) <? 4) eqn:Hlen.
      + eexists _, _. split; [reflexivity|]. apply Hfin; [exact Htr|].
        apply Hr. intros ? ? E. injection E as <- <-.
        rewrite <- firstn_4_64. now apply loke_short.
      + pose proof (loke_check _ Hlen) as Hck. rewrite firstn_4_64 in Hck.
        destruct (Engine.elem_is (firstn (Z.to_nat 64) reply) 0 76 &&
                  Engine.elem_is (firstn (Z.to_nat 64) reply) 1 79 &&
                  Engine.elem_is (firstn (Z.to_nat 64) reply) 2 75 &&
                  Engine.elem_is (firstn (Z.to_nat 64) reply) 3 69) eqn:Hel.
        * eexists _, _. split; [reflexivity|]. apply Hfin; [exact Htr|].
          split; [|reflexivity]. intros _. split; [exact Hwr|].
          exists reply, rs0. split; [reflexivity|]. now apply Hck.
        * eexists _, _. split; [reflexivity|]. apply Hfin; [exact Htr|].
          apply Hr. intros ? ? E. injection E as <- <-.
          intros Hc. apply Hck in Hc. discriminate.
    - eexists _, _. split; [reflexivity|]. apply Hfin; [exact Htr|].
      apply Hr. intros ? ? E. discriminate. }
  destruct w as [| n |]; cbn [Usb.payload_length Engine.odinBytes length Z.of_nat].
  - change (Z.pos (Pos.of_succ_nat 3) =? 4) with true. cbn [negb].
    apply Hgo. reflexivity.
  - destruct (Z.eqb_spec n 4) as [-> | Hn]; cbn [negb].
    + apply Hgo. reflexivity.
    + eexists _, _. split; [reflexivity|]. apply Hstop; [|reflexivity|reflexivity].
      apply (Hw _ _ eq_refl). cbn. congruence.
  - eexists _, _. split; [reflexivity|]. apply Hstop; [|reflexivity|reflexivity].
    apply (Hw _ _ eq_refl). discriminate.
Qed.
(** ** Command frames *)

Section Frames.
Import Utils Usb Engine EngineSpec.

Lemma structPack_from_length format : forall values i,
    length (structPack_from format values i) = fmt_size format.
  Proof.
    induction format as [|ty rest IH]; intros values i; cbn [structPack_from fmt_size];
      [reflexivity|].
    rewrite length_app, IH.
    destruct ty; cbn [length]; rewrite ?length_app, ?numberToLE_length; reflexivity.
  Qed.

Lemma structPack_length format values :
    length (structPack format values) = fmt_size format.
  Proof. apply structPack_from_length. Qed.

Lemma value_at_app_l (v1 v2 : list Z) i :
    (i < length v1)%nat -> value_at (v1 ++ v2) i = value_at v1 i.
  Proof. intros H. unfold value_at. now rewrite app_nth1. Qed.

Lemma structPack_from_app f1 : forall f2 values i,
    structPack_from (f1 ++ f2) values i
    = structPack_from f1 values i ++ structPack_from f2 values (i + length f1).
  Proof.
    induction f1 as [|ty f1 IH]; intros f2 values i; cbn [app structPack_from length].
    - now rewrite Nat.add_0_r.
    - rewrite IH, <- app_assoc. do 2 f_equal. f_equal. lia.
  Qed.

Lemma structPack_from_shift format : forall v1 v2 i,
    structPack_from format (v1 ++ v2) (length v1 + i) = structPack_from format v2 i.
  Proof.
    induction format as [|ty rest IH]; intros v1 v2 i; cbn [structPack_from]; [reflexivity|].
    replace (S (length v1 + i)) with (length v1 + S i)%nat by lia.
    rewrite IH. f_equal. unfold value_at.
    rewrite app_nth2 by lia. now replace (length v1 + i - length v1)%nat with i by lia.
  Qed.

Lemma structPack_from_app_values format : forall v1 v2 i,
    (i + length format <= length v1)%nat ->
    structPack_from format (v1 ++ v2) i = structPack_from format v1 i.
  Proof.
    induction format as [|ty rest IH]; intros v1 v2 i H; cbn [structPack_from];
      [reflexivity|].
    cbn [length] in H. rewrite IH by lia.
    now rewrite value_at_app_l by lia.
  Qed.

Lemma frame_length format values :
    (fmt_size format <= 1024)%nat -> length (frame format values) = 1024%nat.
  Proof.
    intros H. unfold frame. rewrite length_app, zeros_length, structPack_length. lia.
  Qed.

Lemma set_length buf src off buf' :
    TA.set buf src off = Ok buf' -> length buf' = length buf.
  Proof.
    unfold TA.set. destruct (Nat.leb_spec (off + length src) (length buf)); [|discriminate].
    intros E. injection E as <-.
    rewrite !length_app, length_firstn, length_skipn. lia.
  Qed.

  (** Packing into a cleared 1024-byte buffer gives the frame. *)
Lemma pack_into_zeros format values s :
    (fmt_size format <= 1024)%nat ->
    pack_into (TA.zeros 1024) format values 0 s = (Ok (frame format values), s).
  Proof.
    intros H. unfold pack_into, lift. f_equal.
    change (TA.zeros 1024) with ([] ++ TA.zeros 1024).
    rewrite set_here by (rewrite ?structPack_length; cbn [length]; lia).
    reflexivity.
  Qed.

  (** Packing a second group right after the first gives the frame of
      both. *)
Lemma pack_into_frame f1 v1 f2 v2 s :
    length v1 = length f1 -> (fmt_size f1 + fmt_size f2 <= 1024)%nat ->
    pack_into (frame f1 v1) f2 v2 (fmt_size f1) s
    = (Ok (frame (f1 ++ f2) (v1 ++ v2)), s).
  Proof.
    intros Hv H. unfold pack_into, lift. f_equal. unfold frame.
    rewrite set_here by (rewrite ?structPack_length; lia).
    rewrite !structPack_length. f_equal.
    assert (Hsz : fmt_size (f1 ++ f2) = (fmt_size f1 + fmt_size f2)%nat).
    { clear. induction f1 as [|[] f1 IH]; cbn; rewrite ?IH; lia. }
    rewrite Hsz. replace (1024 - fmt_size f1 - fmt_size f2)%nat
      with (1024 - (fmt_size f1 + fmt_size f2))%nat by lia.
    f_equal. unfold structPack. rewrite structPack_from_app. cbn [Nat.add].
    f_equal.
    - symmetry. apply structPack_from_app_values. lia.
    - rewrite <- Hv. rewrite <- (Nat.add_0_r (length v1)).
      now rewrite structPack_from_shift.
  Qed.

End Frames.

Section FrameBuffers.
Import Utils Usb Engine EngineSpec.

Lemma fill0_1024 buf : length buf = 1024%nat -> TA.fill0 buf = TA.zeros 1024.
  Proof. unfold TA.fill0. now intros ->. Qed.

Lemma slice_packet buf : length buf = 1024%nat -> TA.slice buf 0 packetSize = buf.
  Proof.
    intros H. unfold TA.slice, packetSize. cbn [skipn Nat.sub].
    apply firstn_all2. lia.
  Qed.

  (** [buf.fill(0); buf.set(structPack(...), 0)] on the 1024-byte buffer. *)
Lemma pack_into_cleared buf format values s :
    length buf = 1024%nat -> (fmt_size format <= 1024)%nat ->
    pack_into (TA.fill0 buf) format values 0 s = (Ok (frame format values), s).
  Proof. intros Hb Hf. rewrite fill0_1024 by assumption. now apply pack_into_zeros. Qed.

Lemma write_packet_frame format values :
    (fmt_size format <= 1024)%nat ->
    write_packet (frame format values) = write (Bytes (frame format values)).
  Proof.
    intros H. unfold write_packet. now rewrite slice_packet by now apply frame_length.
  Qed.

End FrameBuffers.
(** ** PIT retrieval *)

Section ReceivePit.
Import Utils Usb Engine EngineSpec.


Lemma len_firstn_le (b : list byte) n : 0 <= n -> len (firstn (Z.to_nat n) b) <= n.
  Proof. intros H. unfold len. rewrite length_firstn. lia. Qed.

Lemma len_nonneg (b : list byte) : 0 <= len b.
  Proof. unfold len. lia. Qed.

Lemma len_concat_app (a : list (list byte)) c :
    len (concat (a ++ [c])) = len (concat a) + len c.
  Proof. unfold len. rewrite concat_app, length_app. cbn [concat]. rewrite app_nil_r. lia. Qed.

Lemma takes_app remaining a : forall b,
    takes remaining (a ++ b)
    = takes remaining a ++ takes (remaining - len (concat (takes remaining a))) b.
  Proof.
    revert remaining. induction a as [|x a IH]; intros remaining b.
    - cbn [app takes concat]. change (len []) with 0. now rewrite Z.sub_0_r.
    - cbn [app takes concat]. rewrite IH. f_equal. f_equal. f_equal.
      unfold len. rewrite length_app. lia.
  Qed.

  (** The chunk loop: what it returns, what it has read from the device
      and what it has asked for. *)
Lemma readPitChunks_spec fuel : forall buf pd counter remaining ws rs tr,
    length buf = 1024%nat -> 0 <= remaining -> (Z.to_nat remaining < fuel)%nat ->
    match readPitChunks fuel buf pd counter remaining
            {| dev := {| writes := ws; reads := rs |}; done := tr |} with
    | (OutOfFuel, _) => False
    | (Throw _, _) => True
    | (Ok (pd', c', rem'), s') =>
        exists raws,
          let chunks := takes remaining raws in
          pd' = pd ++ chunks /\ Forall chunk_ok chunks /\
          rem' = remaining - len (concat chunks) /\ 0 <= rem' /\
          c' = counter + Z.of_nat (length chunks) /\
          rs = map Data raws ++ (if rem' >? 0 then [Data []] else []) ++ reads (dev s') /\
          rev (done s') =
            rev tr ++ pit_requests counter remaining chunks ++
            (if rem' >? 0
             then [Write (Bytes (frame [fI; fI; fI] [101; 2; c']));
                   Read (Z.min 500 rem') 60]
             else [])
    end.
  Proof.
    induction fuel as [|fuel IH]; intros buf pd counter remaining ws rs tr Hb Hr Hf; [lia|].
    cbn [readPitChunks].
    destruct (Z.gtb_spec remaining 0) as [Hpos | Hz].
    { (* a request is made *)
      unfold bind at 1. rewrite pack_into_cleared by (assumption || cbn; lia).
      unfold bind at 1. rewrite write_packet_frame by (cbn; lia).
      assert (Hstep : forall ws',
        match
          (chunk <- read (Z.min 500 remaining) 60 ;;
           (if len chunk =? 0 then ret (pd, counter, remaining)
            else readPitChunks fuel (frame [fI; fI; fI] [101; 2; counter])
                               (pd ++ [chunk]) (counter + 1) (remaining - len chunk)))%usb
            {| dev := {| writes := ws'; reads := rs |};
               done := Write (Bytes (frame [fI; fI; fI] [101; 2; counter])) :: tr |}
        with
        | (OutOfFuel, _) => False
        | (Throw _, _) => True
        | (Ok (pd', c', rem'), s') =>
            exists raws,
              let chunks := takes remaining raws in
              pd' = pd ++ chunks /\ Forall chunk_ok chunks /\
              rem' = remaining - len (concat chunks) /\ 0 <= rem' /\
              c' = counter + Z.of_nat (length chunks) /\
              rs = map Data raws ++ (if rem' >? 0 then [Data []] else [])
                     ++ reads (dev s') /\
              rev (done s') =
                rev tr ++ pit_requests counter remaining chunks ++
                (if rem' >? 0
                 then [Write (Bytes (frame [fI; fI; fI] [101; 2; c']));
                       Read (Z.min 500 rem') 60]
                 else [])
        end).
      { intros ws'. unfold bind at 1. unfold read. cbn [dev done writes reads].
        destruct rs as [|[b|] rs']; try exact I.
        set (chunk := firstn (Z.to_nat (Z.min 500 remaining)) b).
        assert (Hc1 : len chunk <= Z.min 500 remaining) by (apply len_firstn_le; lia).
        pose proof (len_nonneg chunk) as Hc0.
        destruct (Z.eqb_spec (len chunk) 0) as [Hz | Hnz].
        - (* an empty reply ends the loop *)
          assert (Hb0 : b = []).
          { subst chunk. unfold len in Hz.
            destruct b as [|x b]; [reflexivity|].
            destruct (Z.to_nat (Z.min 500 remaining)) eqn:En; [lia|].
            cbn [firstn length] in Hz. lia. }
          unfold ret. exists []. cbv zeta.
          cbn [takes length concat pit_requests Z.of_nat app map done rev dev reads].
          change (len []) with 0. rewrite Z.sub_0_r, Z.add_0_r, app_nil_r.
          destruct (Z.gtb_spec remaining 0); [|lia].
          split; [reflexivity|]. split; [constructor|]. split; [reflexivity|].
          split; [lia|]. split; [reflexivity|]. split; [now rewrite Hb0|].
          cbn [app]. now rewrite <- app_assoc.
        - specialize (IH (frame [fI; fI; fI] [101; 2; counter]) (pd ++ [chunk])
                         (counter + 1) (remaining - len chunk) ws' rs'
                         (Read (Z.min 500 remaining) 60
                            :: Write (Bytes (frame [fI; fI; fI] [101; 2; counter])) :: tr)
                         ltac:(apply frame_length; cbn; lia) ltac:(lia) ltac:(lia)).
          destruct (readPitChunks _ _ _ _ _ _) as [[[[pd' c'] rem'] | msg | ] s'];
            [|exact I|exact IH].
          destruct IH as (raws & Hpd & Hall & Hrem & Hrem0 & Hc & Hrs & Htr).
          cbv zeta in Hpd, Hall, Hrem, Hc, Hrs, Htr.
          exists (b :: raws). cbv zeta. cbn [takes]. fold chunk.
          cbn [length concat pit_requests map].
          assert (Hlen : len (chunk ++ concat (takes (remaining - len chunk) raws))
                         = len chunk + len (concat (takes (remaining - len chunk) raws)))
            by (unfold len; rewrite length_app; lia).
          rewrite Hlen.
          split; [rewrite Hpd, <- app_assoc; reflexivity|].
          split; [constructor; [unfold chunk_ok; lia | exact Hall]|].
          split; [lia|]. split; [exact Hrem0|]. split; [lia|].
          split; [cbn [app]; now rewrite Hrs|].
          rewrite Htr. cbn [rev]. rewrite <- !app_assoc. cbn [app]. reflexivity. }
      unfold write. cbn [dev done writes reads].
      destruct ws as [|[| n |] ws]; try exact I; apply Hstep. }
    (* nothing is left to ask for *)
    unfold ret. exists []. cbv zeta.
    cbn [takes length concat pit_requests Z.of_nat app map done rev dev reads].
    change (len []) with 0. rewrite Z.sub_0_r, Z.add_0_r, app_nil_r.
    destruct (Z.gtb_spec remaining 0); [lia|].
    cbn [app]. rewrite app_nil_r. repeat split; auto.
  Qed.

Lemma structUnpack_II resp :
    structUnpack [fI; fI] resp 0 = [LEToNumber resp 0 4; LEToNumber resp 4 4].
  Proof. reflexivity. Qed.

(** From the check of the size reply on, after the size reads
    [early ++ [reply]]. *)
Lemma receivePitBody_spec tr0 early reply ws rs :
    (early = [] \/ exists r1, early = [r1] /\ len (firstn 64 r1) < 8) ->
    match receivePitBody (frame [fI; fI; fI] [101; 1; 0]) (Some (firstn 64 reply))
            {| dev := {| writes := ws; reads := rs |};
               done := rev (map (fun _ : list byte => Read 64 60) (early ++ [reply]))
                         ++ Write (Bytes (frame [fI; fI; fI] [101; 1; 0])) :: tr0 |} with
    | (OutOfFuel, _) => False
    | (Throw _, _) => True
    | (Ok out, s') => pit_post (map Data early ++ Data reply :: rs) tr0 out s'
    end.
  Proof.
    intros Hearly. unfold receivePitBody. rewrite structUnpack_II. cbn [nth].
    set (resp := firstn 64 reply). set (pitSize := LEToNumber resp 4 4).
    destruct (Z.ltb_spec (len resp) 8) as [H8 | H8]; [exact I|].
    destruct (Z.eqb_spec (LEToNumber resp 0 4) 101) as [Hcmd | Hcmd]; [|exact I].
    cbn [negb].
    destruct (Z.eqb_spec pitSize 0) as [Hz | Hz]; [exact I|].
    destruct (Z.gtb_spec pitSize 1048576) as [Hbig | Hbig]; [exact I|].
    cbn [orb].
    assert (Hp : 0 <= pitSize).
    { unfold pitSize, LEToNumber, JS.ushr0, JS.ToUint32. apply Z.mod_pos_bound. reflexivity. }
    unfold bind at 1.
    pose proof (readPitChunks_spec (S (Z.to_nat pitSize)) (frame [fI; fI; fI] [101; 1; 0])
                  [] 0 pitSize ws rs
                  (rev (map (fun _ : list byte => Read 64 60) (early ++ [reply]))
                     ++ Write (Bytes (frame [fI; fI; fI] [101; 1; 0])) :: tr0)) as L.
    destruct (readPitChunks _ _ _ _ _ _) as [[[[pd c] rem] | msg | ] s1].
    2: exact I.
    2: { apply L; [apply frame_length; cbn; lia | lia | lia]. }
    destruct L as (raws & Hpd & Hall & Hrem & Hrem0 & Hc & Hrs & Htr);
      [apply frame_length; cbn; lia | lia | lia |].
    cbv zeta in Hpd, Hall, Hrem, Hc, Hrs, Htr. cbn [app] in Hpd. subst pd rem c.
    destruct s1 as [[ws1 rs1] tr1]. cbn [done dev reads] in Htr, Hrs.
    unfold bind at 1. rewrite pack_into_cleared by (try apply frame_length; cbn; lia).
    unfold bind at 1. rewrite write_packet_frame by (cbn; lia).
    assert (Hend : forall ws2,
      match
        (_ <- read 64 60 ;; ret (concatUint8Arrays (takes pitSize raws)))%usb
          {| dev := {| writes := ws2; reads := rs1 |};
             done := Write (Bytes (frame [fI; fI; fI] [101; 3; 0])) :: tr1 |}
      with
      | (OutOfFuel, _) => False
      | (Throw _, _) => True
      | (Ok out, s') => pit_post (map Data early ++ Data reply :: rs) tr0 out s'
      end).
    { intros ws2. unfold bind at 1. unfold read at 1. cbn [dev done writes reads].
      destruct rs1 as [|[final|] rest]; try exact I.
      unfold ret, pit_post, concatUint8Arrays.
      exists early, reply, raws, final, rest. cbv zeta. fold resp. fold pitSize.
      cbn [dev reads done].
      assert (Hsh : (len (concat (takes pitSize raws)) <? pitSize)
                    = (pitSize - len (concat (takes pitSize raws)) >? 0)).
      { destruct (Z.ltb_spec (len (concat (takes pitSize raws))) pitSize);
          destruct (Z.gtb_spec (pitSize - len (concat (takes pitSize raws))) 0);
          try reflexivity; lia. }
      rewrite Hsh.
      split; [exact Hearly|]. split; [now rewrite Hrs|]. split; [reflexivity|].
      split; [exact H8|]. split; [exact Hcmd|]. split; [lia|].
      split; [reflexivity|]. split; [exact Hall|]. split; [lia|].
      cbn [rev]. rewrite Htr. rewrite rev_app_distr, rev_involutive. cbn [rev app].
      rewrite Z.add_0_l. rewrite <- !app_assoc. cbn [app]. reflexivity. }
    unfold write. cbn [dev done writes reads].
    destruct ws1 as [|[| n |] ws1]; try exact I; apply Hend.
  Qed.

End ReceivePit.

(** C4, the claim as stated fails: the device announces 10 bytes, answers
    the first chunk request with nothing, and [receivePitData] returns an
    empty buffer without error. *)
Lemma receivePitData_short :
  exists s', Engine.receivePitData (Usb.start EngineSpec.silent_pit_device) = (Ok [], s') /\
             Utils.LEToNumber (Utils.structPack [Utils.fI; Utils.fI] [101; 10]) 4 4 = 10.
Proof. eexists. split; vm_compute; reflexivity. Qed.

Section ReceivePitTheorem.
Import Utils Usb Engine EngineSpec.

(** C4, amended.  [receivePitData] returns or throws.  When it returns,
    the size reply that the device sent, the first reply of which 8
    bytes or more arrived among its first two, was [(101, pitSize)] with
    [0 < pitSize <= 0x100000], so a reported size of 0 or above 0x100000
    makes it throw.  The buffer returned is made of the replies of the
    device to the chunk requests, in order, of each one its first
    [min(500, remaining)] bytes; these chunks are of 1 to 500 bytes, and
    the buffer holds at most [pitSize] bytes: exactly [pitSize] unless
    the device answered a chunk request with nothing, which ends the
    loop.  The requests were [(101, 1, 0)], then [(101, 2, counter)] for
    [counter = 0, 1, ...] each followed by a read of
    [min(500, remaining)] bytes, then [(101, 3, 0)] and one trailing
    read. *)
Theorem receivePitData_spec (s : Usb.State) :
  match Engine.receivePitData s with
  | (OutOfFuel, _) => False
  | (Throw _, _) => True
  | (Ok out, s') => EngineSpec.pit_post (Usb.reads (Usb.dev s)) (Usb.done s) out s'
  end.
Proof.
    destruct s as [[ws rs] tr]. cbn [dev done reads writes].
    unfold receivePitData.
    unfold bind at 1. rewrite pack_into_zeros by (cbn; lia).
    unfold bind at 1. rewrite write_packet_frame by (cbn; lia).
    assert (Hgo : forall ws',
      match
        (resp <- readSizeReply 2 None ;;
         receivePitBody (frame [fI; fI; fI] [101; 1; 0]) resp)%usb
          {| dev := {| writes := ws'; reads := rs |};
             done := Write (Bytes (frame [fI; fI; fI] [101; 1; 0])) :: tr |}
      with
      | (OutOfFuel, _) => False
      | (Throw _, _) => True
      | (Ok out, s') => pit_post rs tr out s'
      end).
    { intros ws'. unfold bind at 1; cbn [readSizeReply].
      unfold bind at 1; unfold read at 1; cbn [dev done writes reads].
      destruct rs as [|[r1|] rs]; try exact I.
      change (Z.to_nat 64) with 64%nat.
      destruct (Z.leb_spec 8 (len (firstn 64 r1))) as [H1 | H1].
      - unfold ret at 1.
        exact (receivePitBody_spec tr [] r1 ws' rs (or_introl eq_refl)).
      - unfold bind at 1; unfold read at 1; cbn [dev done writes reads].
        destruct rs as [|[r2|] rs]; try exact I.
        change (Z.to_nat 64) with 64%nat.
        assert (E : (if 8 <=? len (firstn 64 r2) then ret (Some (firstn 64 r2))
                     else ret (Some (firstn 64 r2))) = ret (Some (firstn 64 r2)) :> M _)
          by (destruct (8 <=? len (firstn 64 r2)); reflexivity).
        rewrite E. unfold ret at 1.
        exact (receivePitBody_spec tr [r1] r2 ws' rs
                 (or_intror (ex_intro _ r1 (conj eq_refl H1)))). }
    unfold write. cbn [dev done writes reads].
    destruct ws as [|[| n |] ws]; try exact I; apply Hgo.
Qed.

End ReceivePitTheorem.
(** ** Every command frame is 1024 bytes *)

Section Emits.
Import Utils Usb Engine EngineSpec.

Variable L : list Call -> Prop.
Hypothesis L_nil : L [].
Hypothesis L_app : forall a b, L a -> L b -> L (a ++ b).

Lemma emits_ret {A} (a : A) : emits L (ret a).
  Proof. intros s. exists []. split; [symmetry; apply app_nil_r | exact L_nil]. Qed.

Lemma emits_throw {A} msg : emits L (@throw A msg).
  Proof. intros s. exists []. split; [symmetry; apply app_nil_r | exact L_nil]. Qed.

Lemma emits_outOfFuel {A} : emits L (@outOfFuel A).
  Proof. intros s. exists []. split; [symmetry; apply app_nil_r | exact L_nil]. Qed.

Lemma emits_lift {A} (r : Result A) : emits L (lift r).
  Proof. intros s. exists []. split; [symmetry; apply app_nil_r | exact L_nil]. Qed.

Lemma emits_bind {A B} (m : M A) (k : A -> M B) :
    emits L m -> (forall a, emits L (k a)) -> emits L (bind m k).
  Proof.
    intros Hm Hk s. unfold bind. destruct (Hm s) as (n1 & E1 & F1).
    destruct (m s) as [[a | msg |] s1]; cbn [snd] in *.
    - destruct (Hk a s1) as (n2 & E2 & F2). exists (n1 ++ n2).
      rewrite E2, E1, app_assoc. split; [reflexivity | now apply L_app].
    - exists n1. auto.
    - exists n1. auto.
  Qed.

  (** The same, when the first step is known to return a value in [Q]. *)
Lemma emits_bind_post {A B} (Q : A -> Prop) (m : M A) (k : A -> M B) :
    emits L m -> (forall s a s', m s = (Ok a, s') -> Q a) ->
    (forall a, Q a -> emits L (k a)) -> emits L (bind m k).
  Proof.
    intros Hm HQ Hk s. unfold bind. destruct (Hm s) as (n1 & E1 & F1).
    destruct (m s) as [[a | msg |] s1] eqn:E; cbn [snd] in *.
    - destruct (Hk a (HQ _ _ _ E) s1) as (n2 & E2 & F2). exists (n1 ++ n2).
      rewrite E2, E1, app_assoc. split; [reflexivity | now apply L_app].
    - exists n1. auto.
    - exists n1. auto.
  Qed.

Lemma emits_try_catch {A} (m : M A) (h : string -> M A) :
    emits L m -> (forall msg, emits L (h msg)) -> emits L (try_catch m h).
  Proof.
    intros Hm Hh s. unfold try_catch. destruct (Hm s) as (n1 & E1 & F1).
    destruct (m s) as [[a | msg |] s1]; cbn [snd] in *.
    - exists n1. auto.
    - destruct (Hh msg s1) as (n2 & E2 & F2). exists (n1 ++ n2).
      rewrite E2, E1, app_assoc. split; [reflexivity | now apply L_app].
    - exists n1. auto.
  Qed.

End Emits.

Section FramesSent.
Import Utils Usb Engine EngineSpec Firmware Upload.

Lemma session_calls_app a : forall b,
    session_calls a -> session_calls b -> session_calls (a ++ b).
  Proof.
    intros b Ha Hb. induction Ha; cbn [app]; try (constructor; assumption).
    exact Hb.
  Qed.

  (** One call is added by a write and by a read, whatever comes of
      it. *)
Lemma write_calls p s : calls (snd (write p s)) = calls s ++ [Write p].
  Proof. unfold write. destruct (writes (dev s)) as [|[| n |] ws]; reflexivity. Qed.

Lemma read_calls size timeout s :
    calls (snd (read size timeout s)) = calls s ++ [Read size timeout].
  Proof. unfold read. destruct (reads (dev s)) as [|[b|] rs]; reflexivity. Qed.

  (** The zero-length transfer always returns. *)
Lemma emptyTransfer_run s :
    exists s', emptyTransfer s = (Ok tt, s') /\ calls s' = calls s ++ [Write (Bytes [])].
  Proof.
    unfold emptyTransfer, try_catch, bind, write, ret.
    destruct (writes (dev s)) as [|[| n |] ws]; eexists; split; reflexivity.
  Qed.

Lemma payload_length p : payload p -> (length p <= 32)%nat.
  Proof. intros [cmd sub arg H | total | a d pi c]; rewrite structPack_length; cbn; lia. Qed.

Lemma LEToNumber_frame_cmd cmd format values :
    0 <= cmd < 2 ^ 32 ->
    LEToNumber (frame (fI :: format) (cmd :: values)) 0 4 = cmd.
  Proof.
    intros H. unfold frame, structPack. cbn [structPack_from value_at nth].
    rewrite <- app_assoc.
    rewrite LEToNumber_prefix by (rewrite numberToLE_length; lia).
    rewrite numberToLE_LEToNumber_4. now apply Z.mod_small.
  Qed.

Lemma command_frame_payload cmd format values :
    In cmd [100; 101; 102; 103] ->
    payload (structPack (fI :: format) (cmd :: values)) ->
    (fmt_size (fI :: format) <= 32)%nat ->
    command_frame (frame (fI :: format) (cmd :: values)).
  Proof.
    intros Hc Hp Hs. split; [apply frame_length; lia|]. split.
    - rewrite LEToNumber_frame_cmd; [assumption|]. cbn [In] in Hc. lia.
    - exists (structPack (fI :: format) (cmd :: values)).
      split; [exact Hp|]. split; [now rewrite structPack_length | reflexivity].
  Qed.

Lemma command_frame3 cmd sub arg :
    In cmd [100; 101; 102; 103] -> command_frame (frame [fI; fI; fI] [cmd; sub; arg]).
  Proof.
    intros H. apply command_frame_payload; [assumption | now constructor | cbn; lia].
  Qed.

Lemma finalizer_is_frame actual dt pid cs :
    finalizer_frame (frame [fI; fI; fI; fI; fI; fI; fI; fI]
                           [102; 3; 0; actual; 0; dt; pid; cs]).
  Proof.
    split; [apply frame_length; cbn; lia|]. exists actual, dt, pid, cs.
    unfold frame. rewrite structPack_length. reflexivity.
  Qed.

Local Abbreviation sf := (emits session_calls).

Lemma sf_ret {A} (a : A) : sf (ret a).
  Proof. apply emits_ret. constructor. Qed.

Lemma sf_throw {A} msg : sf (@throw A msg).
  Proof. apply emits_throw. constructor. Qed.

Lemma sf_outOfFuel {A} : sf (@outOfFuel A).
  Proof. apply emits_outOfFuel. constructor. Qed.

Lemma sf_lift {A} (r : Result A) : sf (lift r).
  Proof. apply emits_lift. constructor. Qed.

Lemma sf_bind {A B} (m : M A) (k : A -> M B) :
    sf m -> (forall a, sf (k a)) -> sf (bind m k).
  Proof. apply emits_bind. apply session_calls_app. Qed.

Lemma sf_bind_post {A B} (Q : A -> Prop) (m : M A) (k : A -> M B) :
    sf m -> (forall s a s', m s = (Ok a, s') -> Q a) ->
    (forall a, Q a -> sf (k a)) -> sf (bind m k).
  Proof. apply emits_bind_post. apply session_calls_app. Qed.

Lemma sf_try_catch {A} (m : M A) (h : string -> M A) :
    sf m -> (forall msg, sf (h msg)) -> sf (try_catch m h).
  Proof. apply emits_try_catch. apply session_calls_app. Qed.

Lemma sf_read size timeout : sf (read size timeout).
  Proof.
    intros s. exists [Read size timeout]. split; [apply read_calls|].
    apply sc_read. constructor.
  Qed.

Lemma sf_block a b c : sf (write (Block a b c)).
  Proof.
    intros s. exists [Write (Block a b c)]. split; [apply write_calls|].
    apply sc_block. constructor.
  Qed.

Lemma sf_frame b : command_frame b -> sf (write (Bytes b)).
  Proof.
    intros Hb s. exists [Write (Bytes b)]. split; [apply write_calls|].
    apply sc_frame; [exact Hb | constructor].
  Qed.

  (** A block, with the zero-length transfer before it when it is not
      the first one of its chunk. *)
Lemma sf_gap_block {B} (c : bool) start actual padded (k : Z -> M B) :
    (forall w, sf (k w)) ->
    sf (bind (if c then emptyTransfer else ret tt)
             (fun _ => bind (write (Block start actual padded)) k)).
  Proof.
    intros Hk. destruct c.
    - intros s. unfold bind at 1.
      destruct (emptyTransfer_run s) as (s1 & E1 & C1). rewrite E1.
      pose proof (write_calls (Block start actual padded) s1) as C2.
      unfold bind. destruct (write (Block start actual padded) s1) as [[w | msg |] s2];
        cbn [snd] in *.
      + destruct (Hk w s2) as (n & E & Hn).
        exists (Write (Bytes []) :: Write (Block start actual padded) :: n).
        rewrite E, C2, C1, <- !app_assoc. split; [reflexivity | apply sc_gap; exact Hn].
      + exists [Write (Bytes []); Write (Block start actual padded)].
        rewrite C2, C1, <- !app_assoc. split; [reflexivity | apply sc_gap; constructor].
      + exists [Write (Bytes []); Write (Block start actual padded)].
        rewrite C2, C1, <- !app_assoc. split; [reflexivity | apply sc_gap; constructor].
    - apply sf_bind; [apply sf_ret|]. intros _.
      apply sf_bind; [apply sf_block | exact Hk].
  Qed.

  (** A first command in a cleared or fresh buffer, then the rest. *)
Lemma sf_send_fresh {B} cmd sub arg (k : list byte -> M B) :
    In cmd [100; 101; 102; 103] ->
    (forall x, length x = 1024%nat -> sf (k x)) ->
    sf (bind (pack_into (TA.zeros 1024) [fI; fI; fI] [cmd; sub; arg] 0)
             (fun buf => bind (write_packet buf) (fun _ => k buf))).
  Proof.
    intros Hc Hk s. unfold bind at 1.
    rewrite pack_into_zeros by (cbn; lia).
    rewrite write_packet_frame by (cbn; lia).
    revert s. apply sf_bind; [|intros; apply Hk; apply frame_length; cbn; lia].
    apply sf_frame. now apply command_frame3.
  Qed.

Lemma sf_send_cleared {B} buf cmd sub arg (k : list byte -> M B) :
    length buf = 1024%nat ->
    In cmd [100; 101; 102; 103] ->
    (forall x, length x = 1024%nat -> sf (k x)) ->
    sf (bind (pack_into (TA.fill0 buf) [fI; fI; fI] [cmd; sub; arg] 0)
             (fun buf => bind (write_packet buf) (fun _ => k buf))).
  Proof.
    intros Hb Hc Hk s. unfold bind at 1.
    rewrite pack_into_cleared by (assumption || cbn; lia).
    rewrite write_packet_frame by (cbn; lia).
    revert s. apply sf_bind; [|intros; apply Hk; apply frame_length; cbn; lia].
    apply sf_frame. now apply command_frame3.
  Qed.

End FramesSent.

Section OpsSendFrames.
Import Utils Usb Engine EngineSpec Firmware Upload UploadSpec.
Local Abbreviation sf := (emits session_calls).

Ltac sf_auto :=
    repeat first
      [ apply sf_ret | apply sf_throw | apply sf_outOfFuel | apply sf_lift
      | apply sf_read | apply sf_block
      | match goal with
        | |- emits _ (if ?c then _ else _) => destruct c
        | |- emits _ (match ?x with Some _ => _ | None => _ end) => destruct x
        | |- emits _ (match ?x with (_, _) => _ end) => destruct x
        end
      | apply sf_try_catch; intros
      | apply sf_bind; intros ].

Lemma sf_negotiate : sf negotiate.
  Proof.
    unfold negotiate. apply sf_send_fresh; [cbn; auto |]. intros buf Hb.
    apply sf_bind; [apply sf_read|]. intros resp.
    destruct (len resp <? 8); [apply sf_throw|].
    destruct (negb _); [|apply sf_ret].
    apply sf_send_cleared; [assumption | cbn; auto |].
    intros x Hx. sf_auto.
  Qed.

Lemma sf_sessionOpen total : sf (sessionOpen total).
  Proof.
    unfold sessionOpen. intros s. unfold bind at 1.
    rewrite pack_into_zeros by (cbn; lia).
    unfold bind at 1.
    rewrite (pack_into_frame [fI; fI] [100; 2] [fQ] [total]) by (cbn; lia || reflexivity).
    rewrite write_packet_frame by (cbn; lia).
    revert s. apply sf_bind.
    - apply sf_frame. apply command_frame_payload; [cbn; auto | constructor | cbn; lia].
    - intros _. sf_auto.
  Qed.

Lemma sf_close : sf closeConnection.
  Proof.
    unfold closeConnection. apply sf_try_catch; [|intros; apply sf_ret].
    apply sf_send_fresh; [cbn; auto |]. intros buf Hb. sf_auto.
  Qed.

Lemma sf_reboot : sf rebootDevice.
  Proof.
    unfold rebootDevice. apply sf_try_catch; [|intros; apply sf_ret].
    apply sf_send_fresh; [cbn; auto |]. intros buf Hb. sf_auto.
  Qed.

Lemma sf_readSizeReply n : forall r, sf (readSizeReply n r).
  Proof. induction n; intros r; cbn [readSizeReply]; sf_auto. apply IHn. Qed.

Lemma sf_readPitChunks fuel : forall buf pd counter remaining,
    length buf = 1024%nat -> sf (readPitChunks fuel buf pd counter remaining).
  Proof.
    induction fuel as [|fuel IH]; intros buf pd counter remaining Hb; cbn [readPitChunks].
    - apply sf_outOfFuel.
    - destruct (remaining >? 0); [|apply sf_ret].
      apply sf_send_cleared; [assumption | cbn; auto |].
      intros x Hx. apply sf_bind; [apply sf_read|]. intros chunk.
      destruct (len chunk =? 0); [apply sf_ret|]. now apply IH.
  Qed.

Lemma sf_receivePitData : sf receivePitData.
  Proof.
    unfold receivePitData. apply sf_send_fresh; [cbn; auto |]. intros buf Hb.
    apply sf_bind; [apply sf_readSizeReply|]. intros resp.
    unfold receivePitBody. destruct resp as [resp|]; [|apply sf_throw].
    destruct (len resp <? 8); [apply sf_throw|].
    destruct (negb _); [apply sf_throw|].
    destruct (_ || _); [apply sf_throw|].
    apply sf_bind; [now apply sf_readPitChunks|].
    intros [[pd c] rem].
    apply sf_send_cleared; [assumption | cbn; auto |].
    intros x Hx. sf_auto.
  Qed.

Lemma ok_inv {A S} (a b : A) (s s' : S) : (Ok a, s) = (Ok b, s') -> a = b.
  Proof. intros E. now injection E. Qed.

Lemma sendFinalizer_run buf actual dt pid cs s :
    length buf = 1024%nat ->
    sendFinalizer buf actual dt pid cs s =
    bind emptyTransfer (fun _ =>
      bind (write (Bytes (frame [fI; fI; fI; fI; fI; fI; fI; fI]
                                [102; 3; 0; actual; 0; dt; pid; cs]))) (fun _ =>
        bind emptyTransfer (fun _ =>
          ret (frame [fI; fI; fI; fI; fI; fI; fI; fI]
                     [102; 3; 0; actual; 0; dt; pid; cs])))) s.
  Proof.
    intros Hb. unfold sendFinalizer. unfold bind at 1.
    rewrite pack_into_cleared by (assumption || cbn; lia).
    unfold bind at 1.
    rewrite (pack_into_frame [fI; fI] [102; 3] [fI; fI; fI; fI; fI; fI]
               [0; actual; 0; dt; pid; cs]) by (cbn; lia || reflexivity).
    cbn [app]. rewrite write_packet_frame by (cbn; lia). reflexivity.
  Qed.

Lemma sendFinalizer_length buf actual dt pid cs s x s' :
    length buf = 1024%nat ->
    sendFinalizer buf actual dt pid cs s = (Ok x, s') -> length x = 1024%nat.
  Proof.
    intros Hb. rewrite sendFinalizer_run by assumption.
    unfold bind, ret.
    destruct (emptyTransfer s) as [[[] | |] s1]; try discriminate.
    destruct (write _ s1) as [[w | |] s2]; try discriminate.
    destruct (emptyTransfer s2) as [[[] | |] s3]; try discriminate.
    intros E. apply ok_inv in E. subst x. apply frame_length. cbn; lia.
  Qed.

Lemma sf_sendFinalizer buf actual dt pid cs :
    length buf = 1024%nat -> sf (sendFinalizer buf actual dt pid cs).
  Proof.
    intros Hb s. rewrite sendFinalizer_run by assumption.
    set (f := frame [fI; fI; fI; fI; fI; fI; fI; fI] [102; 3; 0; actual; 0; dt; pid; cs]).
    assert (Hf : finalizer_frame f) by apply finalizer_is_frame.
    unfold bind at 1. destruct (emptyTransfer_run s) as (s1 & E1 & C1). rewrite E1.
    pose proof (write_calls (Bytes f) s1) as C2.
    unfold bind at 1. destruct (write (Bytes f) s1) as [[w | msg |] s2]; cbn [snd] in *.
    - unfold bind at 1. destruct (emptyTransfer_run s2) as (s3 & E3 & C3). rewrite E3.
      unfold ret. cbn [snd].
      exists [Write (Bytes []); Write (Bytes f); Write (Bytes [])].
      rewrite C3, C2, C1, <- !app_assoc. split; [reflexivity|].
      apply sc_finalizer; [exact Hf | constructor].
    - exists [Write (Bytes []); Write (Bytes f)].
      rewrite C2, C1, <- !app_assoc. split; [reflexivity|].
      apply sc_finalizer_alone; [exact Hf | constructor].
    - exists [Write (Bytes []); Write (Bytes f)].
      rewrite C2, C1, <- !app_assoc. split; [reflexivity|].
      apply sc_finalizer_alone; [exact Hf | constructor].
  Qed.

Lemma sf_sendBlocks fuel : forall dl fo offset chunkSize chunkOffset blockCount,
    sf (sendBlocks fuel dl fo offset chunkSize chunkOffset blockCount).
  Proof.
    induction fuel as [|fuel IH]; intros; cbn [sendBlocks]; [apply sf_outOfFuel|].
    destruct (chunkOffset <? chunkSize); [|apply sf_ret].
    apply sf_bind; [destruct dl; sf_auto|]. intros [start actual].
    apply sf_gap_block. intros written.
    destruct (negb _); [apply sf_throw|].
    apply sf_bind; [apply sf_read|]. intros resp.
    destruct (negb _); [apply sf_throw|]. apply IH.
  Qed.

Lemma sf_readFinal : sf readFinal.
  Proof. unfold readFinal. sf_auto. Qed.

Lemma sf_sendChunks fuel : forall buf dl fo fileSize dt pid offset,
    length buf = 1024%nat -> sf (sendChunks fuel buf dl fo fileSize dt pid offset).
  Proof.
    induction fuel as [|fuel IH]; intros buf dl fo fileSize dt pid offset Hb;
      cbn [sendChunks]; [apply sf_outOfFuel|].
    destruct (offset <? fileSize); [|apply sf_ret].
    apply sf_send_cleared; [assumption | cbn; auto |].
    intros x Hx. apply sf_bind; [apply sf_read|]. intros resp2.
    destruct (len resp2 <? 8); [apply sf_throw|].
    destruct (negb _); [apply sf_throw|].
    apply sf_bind; [apply sf_sendBlocks|]. intros chunkOffset.
    apply (sf_bind_post (fun b => length b = 1024%nat));
      [now apply sf_sendFinalizer | intros s a s'; now apply sendFinalizer_length |].
    intros buf' Hb'.
    apply sf_bind; [apply sf_readFinal|]. intros finalResp.
    apply sf_bind; [sf_auto|]. intros _. now apply IH.
  Qed.

Lemma sf_transferBody dl fo fileSize dt pid : sf (transferBody dl fo fileSize dt pid).
  Proof.
    unfold transferBody. apply sf_send_fresh; [cbn; auto |]. intros buf Hb.
    apply sf_bind; [apply sf_read|]. intros resp.
    destruct (len resp <? 8); [apply sf_throw|].
    destruct (negb _); [apply sf_throw|].
    apply sf_bind; [now apply sf_sendChunks | intros; apply sf_ret].
  Qed.

Lemma sf_flushBlocks fuel : forall sent pos offset blockCount,
    sf (flushBlocks fuel sent pos offset blockCount).
  Proof.
    induction fuel as [|fuel IH]; intros; cbn [flushBlocks]; [apply sf_outOfFuel|].
    destruct (offset <? pos); [|apply sf_ret].
    apply sf_gap_block. intros _.
    apply sf_bind; [apply sf_read|]. intros _. apply IH.
  Qed.

Lemma flushBuffer_sf dt pid isFinal st :
    stream_ok st -> sf (flushBuffer dt pid isFinal st).
  Proof.
    intros Hst. unfold flushBuffer. destruct (bufferPos st =? 0); [apply sf_ret|].
    apply sf_send_cleared; [assumption | cbn; auto |].
    intros x Hx. apply sf_bind; [apply sf_read|]. intros _.
    apply sf_bind; [apply sf_flushBlocks|]. intros _.
    apply sf_bind; [now apply sf_sendFinalizer|]. intros buf'. sf_auto.
  Qed.

Lemma flushBuffer_ok dt pid isFinal st s st' s' :
    stream_ok st -> flushBuffer dt pid isFinal st s = (Ok st', s') -> stream_ok st'.
  Proof.
    intros Hst. unfold flushBuffer. destruct (bufferPos st =? 0).
    { unfold ret. intros E. apply ok_inv in E. now subst. }
    unfold bind at 1. rewrite pack_into_cleared by (assumption || cbn; lia).
    unfold bind at 1. rewrite write_packet_frame by (cbn; lia).
    destruct (write _ s) as [[w | |] s1]; try discriminate.
    unfold bind at 1. destruct (read 64 60 s1) as [[r | |] s2]; try discriminate.
    unfold bind at 1. destruct (flushBlocks _ _ _ _ _ s2) as [[[] | |] s3]; try discriminate.
    unfold bind at 1.
    destruct (sendFinalizer _ _ _ _ _ s3) as [[b | |] s4] eqn:E4; try discriminate.
    apply sendFinalizer_length in E4; [|apply frame_length; cbn; lia].
    unfold bind at 1. destruct (read 64 120 s4) as [[r' | |] s5]; try discriminate.
    unfold ret. intros E. apply ok_inv in E. subst st'. exact E4.
  Qed.

Lemma fillBuffer_sf fuel dt pid blockLen : forall blockOffset st,
    stream_ok st -> sf (fillBuffer fuel dt pid blockLen blockOffset st).
  Proof.
    induction fuel as [|fuel IH]; intros blockOffset st Hst; cbn [fillBuffer];
      [apply sf_outOfFuel|].
    destruct (blockOffset <? blockLen); [|apply sf_ret].
    apply (sf_bind_post stream_ok).
    - destruct (_ >=? _); [now apply flushBuffer_sf | apply sf_ret].
    - intros s a s'. destruct (_ >=? _).
      + now apply flushBuffer_ok.
      + unfold ret. intros E. apply ok_inv in E. now subst.
    - intros st' Hst'. now apply IH.
  Qed.

Lemma fillBuffer_ok fuel dt pid blockLen : forall blockOffset st s st' s',
    stream_ok st -> fillBuffer fuel dt pid blockLen blockOffset st s = (Ok st', s') ->
    stream_ok st'.
  Proof.
    induction fuel as [|fuel IH]; intros blockOffset st s st' s' Hst; cbn [fillBuffer];
      [discriminate|].
    destruct (blockOffset <? blockLen).
    2:{ unfold ret. intros E. apply ok_inv in E. now subst. }
    unfold bind at 1.
    match goal with
    | |- context [(if ?c then flushBuffer ?a ?b ?f ?t else ret ?t) s] =>
        destruct ((if c then flushBuffer a b f t else ret t) s) as [[st1 | |] s1] eqn:E1
    end; try discriminate.
    apply IH.
    destruct (_ >=? _).
    - eapply flushBuffer_ok; [|exact E1]. exact Hst.
    - unfold ret in E1. apply ok_inv in E1. now subst.
  Qed.

Lemma feedBlocks_sf dt pid bs : forall st, stream_ok st -> sf (feedBlocks dt pid bs st).
  Proof.
    induction bs as [|b bs IH]; intros st Hst; cbn [feedBlocks]; [apply sf_ret|].
    apply (sf_bind_post stream_ok).
    - unfold onChunk. now apply fillBuffer_sf.
    - intros s a s'. unfold onChunk. now apply fillBuffer_ok.
    - intros st' Hst'. now apply IH.
  Qed.

Lemma feedBlocks_ok dt pid bs : forall st s st' s',
    stream_ok st -> feedBlocks dt pid bs st s = (Ok st', s') -> stream_ok st'.
  Proof.
    induction bs as [|b bs IH]; intros st s st' s' Hst; cbn [feedBlocks].
    - unfold ret. intros E. apply ok_inv in E. now subst.
    - unfold bind. destruct (onChunk dt pid b st s) as [[st1 | |] s1] eqn:E1; try discriminate.
      apply IH. unfold onChunk in E1. eapply fillBuffer_ok; [|exact E1]. exact Hst.
  Qed.

Lemma sf_streaming dec pid dt : sf (transferFileStreamingLZ4 dec pid dt).
  Proof.
    unfold transferFileStreamingLZ4.
    apply sf_send_fresh; [cbn; auto |]. intros buf Hb.
    apply sf_bind; [apply sf_read|]. intros resp.
    destruct (len resp <? 8); [apply sf_throw|].
    destruct (negb _); [apply sf_throw|].
    apply sf_bind; [|intros; apply sf_ret].
    apply sf_try_catch; [|intros; apply sf_throw].
    apply (sf_bind_post stream_ok).
    - now apply feedBlocks_sf.
    - intros s a s'. now apply feedBlocks_ok.
    - intros st Hst. apply sf_bind; [destruct (failure dec); sf_auto|]. intros _.
      destruct (_ >? _); [|apply sf_ret].
      apply sf_bind; [now apply flushBuffer_sf | intros; apply sf_ret].
  Qed.

Lemma sf_transferFile ext item : sf (transferFile ext item).
  Proof.
    unfold transferFile.
    apply sf_bind.
    { destruct (data item); [apply sf_ret|].
      destruct (isLargeFile (info item) && fileHandle (info item));
        destruct (fileOffset (info item)); sf_auto. }
    intros [data0 fileSize0].
    apply sf_bind.
    { destruct (is_compressed (info item)); [|apply sf_ret].
      destruct data0; sf_auto. }
    intros [[data1 fileSize] streaming].
    destruct streaming; [apply sf_streaming | apply sf_transferBody].
  Qed.

Lemma sf_transferItems ext items : sf (transferItems ext items).
  Proof.
    induction items as [|item rest IH]; cbn [transferItems]; [apply sf_ret|].
    destruct (skipped item); [exact IH|].
    apply sf_bind; [apply sf_transferFile|]. intros ok.
    destruct (negb ok); [apply sf_throw | exact IH].
  Qed.

Lemma sf_uploadBinaries ext items pit : sf (uploadBinaries ext items pit).
  Proof.
    unfold uploadBinaries. apply sf_bind; [apply sf_lift|].
    intros. apply sf_transferItems.
  Qed.

End OpsSendFrames.

(** C9.  Whatever the device answers, the session operations hand to the
    transport, in order, nothing but command frames, reads, blocks of
    member bodies, and zero-length transfers that stand right before a
    block or right before and after a finalizer frame.  Every command
    frame (commands 100, 101, 102 and 103 with their sub-commands) is
    written as exactly 1024 bytes: the payload of the command, of 12, 16
    or 32 bytes, followed by zeros only. *)
Theorem command_frames_1024 :
  (forall b, EngineSpec.command_frame b ->
             length b = 1024%nat /\
             In (Utils.LEToNumber b 0 4) [100; 101; 102; 103] /\
             exists p, EngineSpec.payload p /\ (length p <= 32)%nat /\
                       firstn (length p) b = p /\
                       skipn (length p) b = repeat Byte.x00 (1024 - length p)) /\
  EngineSpec.sends_frames Engine.negotiate /\
  (forall total, EngineSpec.sends_frames (Engine.sessionOpen total)) /\
  EngineSpec.sends_frames Engine.receivePitData /\
  (forall ext item, EngineSpec.sends_frames (Upload.transferFile ext item)) /\
  (forall dec pid dt, EngineSpec.sends_frames (Upload.transferFileStreamingLZ4 dec pid dt)) /\
  (forall ext items pit, EngineSpec.sends_frames (Upload.uploadBinaries ext items pit)) /\
  EngineSpec.sends_frames Engine.closeConnection /\
  EngineSpec.sends_frames Engine.rebootDevice.
Proof.
  unfold EngineSpec.sends_frames.
  split.
  { intros b (Hl & Hc & p & Hp & Hlen & ->). split; [exact Hl|]. split; [exact Hc|].
    exists p.
    split; [exact Hp|]. split; [exact Hlen|].
    rewrite firstn_app, firstn_all, Nat.sub_diag, skipn_app, skipn_all, Nat.sub_diag.
    cbn [firstn skipn app]. split; [apply app_nil_r | reflexivity]. }
  repeat split; intros;
    auto using sf_negotiate, sf_sessionOpen, sf_receivePitData, sf_transferFile,
               sf_streaming, sf_uploadBinaries, sf_close, sf_reboot.
Qed.
(** ** The transfer paths *)

Section Collect.
Import UploadSpec.

Lemma collect_app {A B} (f : A -> option B) l1 l2 :
    collect f (l1 ++ l2) = collect f l1 ++ collect f l2.
  Proof.
    induction l1 as [|x l1 IH]; cbn [collect app]; [reflexivity|].
    destruct (f x); cbn [app]; now rewrite IH.
  Qed.

Lemma collect_rev {A B} (f : A -> option B) l :
    collect f (rev l) = rev (collect f l).
  Proof.
    induction l as [|x l IH]; cbn [collect rev]; [reflexivity|].
    rewrite collect_app, IH. cbn [collect]. destruct (f x); cbn [rev]; [reflexivity|].
    now rewrite app_nil_r.
  Qed.

Lemma rev_repeat {A} (a : A) n : rev (repeat a n) = repeat a n.
  Proof.
    induction n as [|n IH]; cbn [repeat rev]; [reflexivity|].
    rewrite IH. clear IH. induction n; cbn; [reflexivity|]. now f_equal.
  Qed.

End Collect.

Lemma even_stream_run :
  let r := Upload.transferFile UploadSpec.even_ext UploadSpec.even_item
             (Usb.start (UploadSpec.willing 200000)) in
  fst r = Ok true /\
  UploadSpec.collect UploadSpec.sequence_size (Usb.done (snd r))
  = repeat (30 * UploadSpec.MiB) 204 /\
  UploadSpec.collect UploadSpec.finalizer (Usb.done (snd r))
  = repeat (30 * UploadSpec.MiB, 0) 204.
Proof. vm_compute. split; [|split]; reflexivity. Qed.

(** C1, on the streaming path the code departs from the claim.  A
    compressed member of 5 GiB whose decoder delivers 6120 MiB, a
    multiple of 30 MiB, is sent to a device that accepts everything: the
    transfer succeeds with 204 chunk sequences of 30 MiB each, which is
    [ceil(N / 30 MiB)], but every finalizer, the one of the final chunk
    included, carries completion status 0. *)
Theorem streaming_last_chunk_unmarked :
  let r := Upload.transferFile UploadSpec.even_ext UploadSpec.even_item
             (Usb.start (UploadSpec.willing 200000)) in
  fst r = Ok true /\
  UploadSpec.sequences (Usb.calls (snd r)) = repeat (30 * UploadSpec.MiB) 204 /\
  UploadSpec.finalizers (Usb.calls (snd r)) = repeat (30 * UploadSpec.MiB, 0) 204.
Proof.
  generalize even_stream_run. cbv zeta.
  generalize (Upload.transferFile UploadSpec.even_ext UploadSpec.even_item
                (Usb.start (UploadSpec.willing 200000))).
  intros r (H1 & H2 & H3).
  unfold UploadSpec.sequences, UploadSpec.finalizers, Usb.calls.
  rewrite !collect_rev, H2, H3, !rev_repeat. auto.
Qed.
(** ** Loading and skipping members *)

Section StringFacts.

Lemma toLowerCase_length s : String.length (Str.toLowerCase s) = String.length s.
Proof. induction s as [|c s IH]; cbn; [reflexivity | now rewrite IH]. Qed.

Lemma toLowerCase_substring s : forall a n,
  String.substring a n (Str.toLowerCase s) = Str.toLowerCase (String.substring a n s).
Proof.
  induction s as [|c s IH]; intros a n.
  - destruct a, n; reflexivity.
  - destruct a as [|a]; cbn [Str.toLowerCase String.substring].
    + destruct n as [|n]; [reflexivity|]. cbn [Str.toLowerCase]. now rewrite IH.
    + apply IH.
Qed.

(** A suffix test survives lower-casing when the suffix is in lower case. *)
Lemma endsWith_lower s p :
  Str.toLowerCase p = p ->
  Str.endsWith s p = true -> Str.endsWith (Str.toLowerCase s) p = true.
Proof.
  unfold Str.endsWith. intros Hp H. rewrite toLowerCase_length.
  apply andb_true_iff in H as [H1 H2]. rewrite H1. cbn [andb].
  apply String.eqb_eq in H2. rewrite toLowerCase_substring, H2, Hp.
  apply String.eqb_refl.
Qed.

(** Two suffixes of the same length that a string ends in are equal. *)
Lemma endsWith_same_length s p q :
  String.length p = String.length q ->
  Str.endsWith s p = true -> Str.endsWith s q = true -> p = q.
Proof.
  unfold Str.endsWith. intros Hl Hp Hq.
  apply andb_true_iff in Hp as [_ Hp]. apply andb_true_iff in Hq as [_ Hq].
  apply String.eqb_eq in Hp. apply String.eqb_eq in Hq.
  rewrite <- Hp, <- Hq, Hl. reflexivity.
Qed.

Lemma pit_name_not_zip s :
  Str.endsWith (Str.toLowerCase s) ".pit" = true -> Str.endsWith s ".zip" = false.
Proof.
  intros Hp. destruct (Str.endsWith s ".zip") eqn:Hz; [|reflexivity].
  apply (endsWith_lower s ".zip" eq_refl) in Hz.
  discriminate (endsWith_same_length _ ".pit" ".zip" eq_refl Hp Hz).
Qed.

End StringFacts.

Section Skipping.
Import Utils Usb Engine Firmware Upload SkipSpec.

Lemma skipped_set_partition item p d :
  skipped (set_partition item p d) = skipped item.
Proof. reflexivity. Qed.

Lemma skipped_matchItem pit item : skipped (matchItem pit item) = skipped item.
Proof.
  unfold matchItem. destruct (findEntry _ _); [reflexivity|].
  destruct (falsy _); reflexivity.
Qed.

Lemma skipped_guessItem item : skipped (guessItem item) = skipped item.
Proof.
  unfold guessItem.
  repeat match goal with
         | |- context [if ?c then _ else _] => destruct c
         end; reflexivity.
Qed.

Lemma left_out_skipped item : left_out item = true -> skipped item = true.
Proof.
  unfold left_out, skipped. intros H.
  apply orb_true_iff in H as [H | H]; [apply orb_true_iff in H as [H | H]|].
  - rewrite H. now rewrite orb_true_r.
  - rewrite H. now rewrite orb_true_r.
  - destruct (data item) as [d|]; [|discriminate].
    apply Nat.eqb_eq in H. unfold len. rewrite H. reflexivity.
Qed.

(** The transfer loop behaves the same without the members left out,
    whatever the assignment [f] of partitions did to the items. *)
Lemma transferItems_filter ext (f : FirmwareItem -> FirmwareItem) :
  (forall item, skipped (f item) = skipped item) ->
  forall items s,
    transferItems ext (map f items) s
    = transferItems ext (map f (filter (fun i => negb (left_out i)) items)) s.
Proof.
  intros Hf items. induction items as [|item rest IH]; intros s; [reflexivity|].
  cbn [map filter]. destruct (left_out item) eqn:E; cbn [negb].
  - cbn [transferItems]. rewrite Hf, (left_out_skipped _ E). apply IH.
  - cbn [map transferItems]. destruct (skipped (f item)); [apply IH|].
    unfold bind. destruct (transferFile ext (f item) s) as [[[] | msg |] s1];
      cbn [negb]; try reflexivity. apply IH.
Qed.

Lemma uploadBinaries_filter ext items pit s :
  uploadBinaries ext items pit s
  = uploadBinaries ext (filter (fun i => negb (left_out i)) items) pit s.
Proof.
  unfold uploadBinaries, assignPartitions, bind, lift.
  destruct pit as [bytes|].
  - destruct (Pit.parse bytes) as [p | msg |]; cbn [rbind]; try reflexivity.
    apply transferItems_filter, skipped_matchItem.
  - apply transferItems_filter, skipped_guessItem.
Qed.

(** A member with a PIT file name and a body in memory that is not
    empty is not skipped. *)
Lemma pit_member_kept item d :
  pit_named item = true -> data item = Some d -> d <> [] ->
  Str.includes (filename item) "meta-data/" = false ->
  skipped item = false.
Proof.
  unfold pit_named, skipped. intros Hp Hd Hn Hm.
  rewrite Hd, Hm, (pit_name_not_zip _ Hp).
  destruct d; [contradiction | reflexivity].
Qed.

End Skipping.

Section Loading.
Import Utils Firmware SkipSpec Tar.

Lemma embedded_pit_app before l1 l2 :
  embedded_pit before (l1 ++ l2) = embedded_pit (embedded_pit before l1) l2.
Proof. apply fold_left_app. Qed.

(** The in-memory parsers only add members, and the embedded PIT they
    leave is the body of the last member added with a PIT file name. *)
Lemma tarLoop_pit zeroBlock data : forall fuel offset fw fw',
  tarLoop zeroBlock fuel data offset fw = Ok fw' ->
  exists new, items fw' = items fw ++ new /\
              pitData fw' = embedded_pit (pitData fw) new /\
              md5Hash fw' = md5Hash fw.
Proof.
  assert (Hstop : forall fw fw' : FirmwareData, Ok fw = Ok fw' ->
            exists new, items fw' = items fw ++ new /\
                        pitData fw' = embedded_pit (pitData fw) new /\
                        md5Hash fw' = md5Hash fw).
  { intros fw fw' E.
    apply (f_equal (fun r => match r with Ok x => x | _ => fw end)) in E.
    cbv beta iota in E. subst fw'. exists []. now rewrite app_nil_r. }
  induction fuel as [|fuel IH]; intros offset fw fw'; cbn [tarLoop]; [discriminate|].
  destruct (offset <? _); [|apply Hstop].
  destruct (offset + 512 >? _); [apply Hstop|].
  destruct (zeroBlock _); [apply Hstop|].
  destruct (Str.trim (readString _ 0 100)) as [|c name] eqn:En; [apply IH|].
  destruct (Str.parseInt8 _) as [size|]; [|apply IH].
  intros H. apply IH in H as (new & Hi & Hp & Hm).
  cbn [addMember items pitData md5Hash] in *.
  eexists (_ :: new). rewrite Hi, <- app_assoc. split; [reflexivity|].
  split; [|assumption]. rewrite Hp. reflexivity.
Qed.

(** The header-only parser only adds members and leaves the embedded PIT
    as it was. *)
Lemma parseHeaders_pit file tarEndOffset : forall fuel currentOffset filesFound fw fw' n,
  parseHeaders fuel file tarEndOffset currentOffset filesFound fw = Ok (fw', n) ->
  pitData fw' = pitData fw /\
  exists new, items fw' = items fw ++ new /\
              Forall (fun item => data item = None) new.
Proof.
  assert (Hstop : forall (fw fw' : FirmwareData) (k n : Z), Ok (fw, k) = Ok (fw', n) ->
            pitData fw' = pitData fw /\
            exists new, items fw' = items fw ++ new /\
                        Forall (fun item => data item = None) new).
  { intros fw fw' k n E.
    apply (f_equal (fun r => match r with Ok x => fst x | _ => fw end)) in E.
    cbv beta iota in E. cbn [fst] in E. subst fw'. split; [reflexivity|].
    exists []. now rewrite app_nil_r. }
  induction fuel as [|fuel IH]; intros currentOffset filesFound fw fw' n;
    cbn [parseHeaders]; [discriminate|].
  destruct (_ && _); [|apply Hstop].
  destruct (currentOffset + 512 >? _); [apply Hstop|].
  destruct (allZero _); [apply Hstop|].
  destruct (Str.trim (readString _ 0 100)) as [|c name] eqn:En; [apply IH|].
  destruct (Str.parseInt8 _) as [size|]; [|apply IH].
  destruct (size <? 0); [apply IH|].
  intros H. apply IH in H as (Hp & new & Hi & Hd).
  cbn [items pitData] in *. split; [assumption|].
  eexists (_ :: new). rewrite Hi, <- app_assoc. split; [reflexivity|].
  constructor; [reflexivity | assumption].
Qed.

End Loading.

(** C6, the claim as stated fails.  The archive with the one member
    [GT-I9500.pit] is loaded with that member's 28 bytes as the embedded
    PIT and with the member among the items, and the upload of the
    loaded firmware with its embedded PIT, to a device that accepts
    everything, sends the 28 bytes of the member as a block of a
    sequence whose finalizer closes the transfer: the PIT member is
    uploaded as partition content. *)
Lemma pit_member_uploaded :
  exists fw,
    Tar.parseTARData TarSamples.pit_archive Tar.emptyFirmware = Ok fw /\
    Firmware.pitData fw = Some TarSamples.empty_pit /\
    map Firmware.filename (Firmware.items fw) = ["GT-I9500.pit"%string] /\
    let r := Upload.uploadBinaries TarSamples.no_ext (Firmware.items fw)
               (Firmware.pitData fw) (Usb.start (UploadSpec.willing 20)) in
    fst r = Ok true /\
    UploadSpec.collect TarSamples.body_block (Usb.calls (snd r)) = [(0, 28, 131072)] /\
    UploadSpec.finalizers (Usb.calls (snd r)) = [(28, 1)].
Proof.
  eexists. split; [vm_compute; reflexivity|].
  vm_compute. repeat split; reflexivity.
Qed.

(** C6, amended.  The upload of a firmware is the upload of the firmware
    without the members whose name contains [meta-data/] or ends in
    [.zip] and without the members whose body, held in memory, is empty:
    they are skipped without error.  A member whose name ends in [.pit]
    is not set aside: [parseTARData] keeps every member it reads as an
    item and records as the embedded PIT the body of the last one whose
    name, in lower case, ends in [.pit]; [parseSingleTarFile] records no
    embedded PIT at all; and [uploadBinaries] hands such a member, when
    its body is in memory and not empty and its name is outside
    [meta-data/], to [transferFile] like any other member. *)
Theorem skip_policy (ext : Upload.Ext) :
  (forall items pit s,
     Upload.uploadBinaries ext items pit s
     = Upload.uploadBinaries ext
         (filter (fun i => negb (SkipSpec.left_out i)) items) pit s) /\
  (forall data fw,
     Tar.parseTARData data Tar.emptyFirmware = Ok fw ->
     Firmware.pitData fw = SkipSpec.embedded_pit None (Firmware.items fw)) /\
  (forall file fw n,
     Tar.parseSingleTarFile file Tar.emptyFirmware = Ok (fw, n) ->
     Firmware.pitData fw = None) /\
  (forall item d rest s,
     SkipSpec.pit_named item = true ->
     Firmware.data item = Some d -> d <> [] ->
     Str.includes (Firmware.filename item) "meta-data/" = false ->
     Upload.transferItems ext (item :: rest) s
     = Usb.bind (Upload.transferFile ext item)
         (fun success => if negb success then Usb.throw "Failed to transfer"
                         else Upload.transferItems ext rest) s).
Proof.
  split; [|split; [|split]].
  - intros items pit s. apply uploadBinaries_filter.
  - intros data fw H. unfold Tar.parseTARData in H.
    apply tarLoop_pit in H as (new & Hi & Hp & _).
    cbn [Firmware.items Firmware.pitData Tar.emptyFirmware app] in *.
    now rewrite Hi, Hp.
  - intros file fw n H. unfold Tar.parseSingleTarFile in H.
    apply parseHeaders_pit in H as (Hp & _). exact Hp.
  - intros item d rest s Hp Hd Hn Hm. cbn [Upload.transferItems].
    now rewrite (pit_member_kept item d Hp Hd Hn Hm).
Qed.

Lemma skip_policy_witness :
  Firmware.pitData
    {| Firmware.items := [Tar.memberItem "GT-I9500.pit" TarSamples.empty_pit 28];
       Firmware.md5Hash := None;
       Firmware.pitData := Some TarSamples.empty_pit |}
  = SkipSpec.embedded_pit None [Tar.memberItem "GT-I9500.pit" TarSamples.empty_pit 28] /\
  Upload.transferItems TarSamples.no_ext
    [Tar.memberItem "GT-I9500.pit" TarSamples.empty_pit 28]
    (Usb.start (UploadSpec.willing 20))
  = Usb.bind (Upload.transferFile TarSamples.no_ext
                (Tar.memberItem "GT-I9500.pit" TarSamples.empty_pit 28))
      (fun success => if negb success then Usb.throw "Failed to transfer"
                      else Upload.transferItems TarSamples.no_ext [])
      (Usb.start (UploadSpec.willing 20)).
Proof.
  destruct (skip_policy TarSamples.no_ext) as (_ & Hload & _ & Hkeep).
  split.
  - apply (Hload TarSamples.pit_archive). vm_compute. reflexivity.
  - apply (Hkeep _ TarSamples.empty_pit); [reflexivity | reflexivity | discriminate | reflexivity].
Defined.
(** ** The LZ4 block decoder *)

Section Lz4Facts.
Import Utils Lz4 Lz4Spec.

Lemma put_length buf i v : length (TA.put buf i v) = length buf.
Proof.
  unfold TA.put. destruct (Nat.ltb_spec i (length buf)); [|reflexivity].
  rewrite length_app, length_firstn. cbn [length]. rewrite length_skipn. lia.
Qed.

(** What the two copy loops do to the variables. *)
Lemma copyLiterals_vars n src : forall st,
  srcPos (copyLiterals n src st) = (srcPos st + n)%nat /\
  dstPos (copyLiterals n src st) = (dstPos st + n)%nat /\
  length (dst (copyLiterals n src st)) = length (dst st) /\
  copies (copyLiterals n src st) = copies st.
Proof.
  induction n as [|n IH]; intros st; cbn [copyLiterals].
  - repeat split; lia.
  - destruct (IH {| srcPos := S (srcPos st);
                    dst := TA.put (dst st) (dstPos st) (at0 src (srcPos st));
                    dstPos := S (dstPos st); copies := copies st |})
      as (H1 & H2 & H3 & H4).
    cbn [srcPos dstPos dst copies] in *. rewrite put_length in H3.
    repeat split; try assumption; lia.
Qed.

Lemma copyMatch_vars n : forall matchPos st,
  srcPos (copyMatch n matchPos st) = srcPos st /\
  dstPos (copyMatch n matchPos st) = (dstPos st + n)%nat /\
  length (dst (copyMatch n matchPos st)) = length (dst st) /\
  copies (copyMatch n matchPos st) = copies st.
Proof.
  induction n as [|n IH]; intros matchPos st; cbn [copyMatch].
  - repeat split; lia.
  - destruct (IH (S matchPos)
                 {| srcPos := srcPos st;
                    dst := TA.put (dst st) (dstPos st) (at0 (dst st) matchPos);
                    dstPos := S (dstPos st); copies := copies st |})
      as (H1 & H2 & H3 & H4).
    cbn [srcPos dstPos dst copies] in *. rewrite put_length in H3.
    repeat split; try assumption; lia.
Qed.

End Lz4Facts.

Section Lz4Turn.
Import Utils Lz4 Lz4Spec.

Lemma at0_range arr i : 0 <= at0 arr i < 2 ^ 8.
Proof.
  unfold at0. destruct (nth_error arr i) as [b|]; [|lia].
  apply byte.unsigned_range.
Qed.

(** The offset read from two bytes is not negative. *)
Lemma offset_nonneg a b :
  0 <= a < 2 ^ 8 -> 0 <= b < 2 ^ 8 -> 0 <= JS.bor a (JS.shl b 8).
Proof.
  intros Ha Hb. unfold JS.bor, JS.shl. change (8 mod 32) with 8.
  rewrite (ToInt32_small b) by lia.
  rewrite Z.shiftl_mul_pow2 by lia.
  rewrite (ToInt32_small (b * 2 ^ 8)) by lia.
  rewrite (ToInt32_small (b * 2 ^ 8)) by lia.
  rewrite (ToInt32_small a) by lia.
  apply Z.lor_nonneg. lia.
Qed.

Lemma turn_spec src st :
  match turn src st with
  | Again st' =>
      (srcPos st < srcPos st')%nat /\ (srcPos st < length src)%nat /\
      length (dst st') = length (dst st) /\
      exists c, copies st' = copies st ++ [c] /\ copy_ok c
  | Break st' =>
      length (dst st') = length (dst st) /\ copies st' = copies st
  | Raise msg =>
      msg = "Invalid offset (0)"%string \/ msg = "Invalid match position"%string
  end.
Proof.
  unfold turn, literals, offsetAt.
  destruct (Nat.ltb_spec (srcPos st) (length src)) as [Hlt|]; [|auto].
  destruct (if JS.sar _ 4 =? 15 then _ else _) as [literalLength used].
  match goal with
  | |- context [copyLiterals ?n ?s ?x] =>
      destruct (copyLiterals_vars n s x) as (L1 & L2 & L3 & L4);
      set (st1 := copyLiterals n s x) in *
  end.
  cbn [moveSrc srcPos dstPos dst copies] in L1, L2, L3, L4.
  destruct (length src <=? srcPos st1)%nat; [auto|].
  destruct (Z.eqb_spec (JS.bor (at0 src (srcPos st1))
                               (JS.shl (at0 src (S (srcPos st1))) 8)) 0) as [|Hoff];
    [auto|].
  destruct (if JS.band _ 15 =? 15 then _ else _) as [matchLength used'].
  cbn [moveSrc srcPos dstPos dst copies].
  destruct (Z.ltb_spec (Z.of_nat (dstPos st1)
                        - JS.bor (at0 src (srcPos st1))
                                 (JS.shl (at0 src (S (srcPos st1))) 8)) 0) as [|Hpos];
    [auto|].
  match goal with
  | |- context [copyMatch ?n ?m ?x] =>
      destruct (copyMatch_vars n m x) as (M1 & M2 & M3 & M4);
      set (st2 := copyMatch n m x) in *
  end.
  cbn [srcPos dstPos dst copies] in M1, M2, M3, M4.
  repeat split; try lia.
  eexists. split; [rewrite M4, L4; reflexivity|].
  unfold copy_ok. cbn [fst snd].
  pose proof (offset_nonneg _ _ (at0_range src (srcPos st1))
                (at0_range src (S (srcPos st1)))).
  lia.
Qed.

(** The fuel that [decompressRun] hands out is enough; the run keeps the
    size of the buffer; it only adds match copies that stay within the
    output written so far; and it throws nothing but the two errors on
    the offset. *)
Lemma blockLoop_spec src : forall fuel st,
  (length src - srcPos st < fuel)%nat ->
  Forall copy_ok (copies st) ->
  match blockLoop fuel src st with
  | Ok st' => length (dst st') = length (dst st) /\ Forall copy_ok (copies st')
  | Throw msg =>
      msg = "Invalid offset (0)"%string \/ msg = "Invalid match position"%string
  | OutOfFuel => False
  end.
Proof.
  induction fuel as [|fuel IH]; intros st Hf Hc; [lia|].
  cbn [blockLoop]. pose proof (turn_spec src st) as T.
  destruct (turn src st) as [st' | st' | msg].
  - destruct T as (T1 & T2 & T3 & c & T4 & T5).
    specialize (IH st'). 
    destruct (blockLoop fuel src st').
    + rewrite <- T3. apply IH; [lia|]. rewrite T4. apply Forall_app. auto.
    + apply IH; [lia|]. rewrite T4. apply Forall_app. auto.
    + apply IH; [lia|]. rewrite T4. apply Forall_app. auto.
  - destruct T as (T1 & T2). rewrite T2. auto.
  - exact T.
Qed.

(** The tests of the loop look at the positions only: two runs that
    differ in the output buffer take the same turns. *)
Lemma copyLiterals_same n src a b :
  same_positions a b -> same_positions (copyLiterals n src a) (copyLiterals n src b).
Proof.
  intros (H1 & H2 & H3).
  destruct (copyLiterals_vars n src a) as (A1 & A2 & _ & A4).
  destruct (copyLiterals_vars n src b) as (B1 & B2 & _ & B4).
  unfold same_positions. rewrite A1, A2, A4, B1, B2, B4, H1, H2, H3. auto.
Qed.

Lemma copyMatch_same n m a b :
  same_positions a b -> same_positions (copyMatch n m a) (copyMatch n m b).
Proof.
  intros (H1 & H2 & H3).
  destruct (copyMatch_vars n m a) as (A1 & A2 & _ & A4).
  destruct (copyMatch_vars n m b) as (B1 & B2 & _ & B4).
  unfold same_positions. rewrite A1, A2, A4, B1, B2, B4, H1, H2, H3. auto.
Qed.

Lemma turn_same src a b :
  same_positions a b ->
  match turn src a, turn src b with
  | Again a', Again b' => same_positions a' b'
  | Break a', Break b' => same_positions a' b'
  | Raise m, Raise m' => m = m'
  | _, _ => False
  end.
Proof.
  intros S. pose proof S as (H1 & H2 & H3). unfold turn, literals, offsetAt. rewrite <- H1.
  destruct (srcPos a <? length src)%nat; [|exact S].
  cbn [moveSrc srcPos]. rewrite <- H1.
  destruct (if JS.sar _ 4 =? 15 then _ else _) as [literalLength used].
  match goal with
  | |- context [copyLiterals ?n ?s (moveSrc (moveSrc b 1) used)] =>
      assert (S1 : same_positions (copyLiterals n s (moveSrc (moveSrc a 1) used))
                                  (copyLiterals n s (moveSrc (moveSrc b 1) used)))
        by (apply copyLiterals_same; unfold same_positions, moveSrc; cbn;
            rewrite H1, H2, H3; auto);
      set (a1 := copyLiterals n s (moveSrc (moveSrc a 1) used)) in *;
      set (b1 := copyLiterals n s (moveSrc (moveSrc b 1) used)) in *
  end.
  pose proof S1 as (E1 & E2 & E3). cbn [moveSrc srcPos dstPos dst copies].
  rewrite <- E1, <- E2, <- E3.
  destruct (length src <=? srcPos a1)%nat; [exact S1|].
  destruct (_ =? 0); [reflexivity|].
  destruct (if JS.band _ 15 =? 15 then _ else _) as [matchLength used'].
  destruct (_ <? 0); [reflexivity|].
  apply copyMatch_same. unfold same_positions. cbn. auto.
Qed.

Lemma blockLoop_same src : forall fuel a b,
  same_positions a b ->
  match blockLoop fuel src a, blockLoop fuel src b with
  | Ok a', Ok b' => same_positions a' b'
  | Throw m, Throw m' => m = m'
  | OutOfFuel, OutOfFuel => True
  | _, _ => False
  end.
Proof.
  induction fuel as [|fuel IH]; intros a b S; cbn [blockLoop]; [exact I|].
  pose proof (turn_same src a b S) as T.
  destruct (turn src a), (turn src b); try contradiction; try assumption.
  now apply IH.
Qed.

Lemma decompressRun_same src m n :
  match decompressRun src m, decompressRun src n with
  | Ok a, Ok b => same_positions a b
  | Throw x, Throw y => x = y
  | OutOfFuel, OutOfFuel => True
  | _, _ => False
  end.
Proof. apply blockLoop_same. unfold same_positions. auto. Qed.

Lemma overlong_run_empty :
  exists st0, decompressRun overlong 0 = Ok st0 /\
              Z.of_nat (dstPos st0) = 65555 /\ copies st0 = [(1, 1%nat)].
Proof.
  assert (H : match decompressRun overlong 0 with
              | Ok st => Some (Z.of_nat (dstPos st), copies st)
              | _ => None
              end = Some (65555, [(1, 1%nat)])) by (vm_compute; reflexivity).
  destruct (decompressRun overlong 0) as [st0 | |]; try discriminate.
  exists st0. split; [reflexivity|].
  split; congruence.
Qed.

Lemma decompressRun_spec src maxSize :
  match decompressRun src maxSize with
  | Ok st => length (dst st) = maxSize /\ Forall copy_ok (copies st)
  | Throw msg =>
      msg = "Invalid offset (0)"%string \/ msg = "Invalid match position"%string
  | OutOfFuel => False
  end.
Proof.
  unfold decompressRun.
  match goal with
  | |- match blockLoop ?f ?s ?st with _ => _ end =>
      pose proof (blockLoop_spec s f st) as H
  end.
  cbn [initial srcPos copies dst] in H. unfold TA.zeros in H. rewrite repeat_length in H.
  apply H; [lia | constructor].
Qed.

End Lz4Turn.

(** C8, the claim as stated fails.  A block of 262 bytes, within the
    64 KiB that the frame allows, holds one literal and a match of 65554
    bytes.  The decoder raises no error: it runs to output position
    65555, beyond the 65536 bytes of the buffer, and returns 65536 bytes. *)
Lemma overlong_block_accepted :
  Lz4.maxBlockSize 64 = 65536 /\
  exists st out,
    Lz4.decompressRun Lz4Spec.overlong (Z.to_nat 65536) = Ok st /\
    Z.of_nat (Lz4.dstPos st) = 65555 /\
    Lz4.copies st = [(1, 1%nat)] /\
    Lz4.decompressBlock Lz4Spec.overlong (Z.to_nat 65536) = Ok out /\
    Z.of_nat (length out) = 65536.
Proof.
  split; [reflexivity|].
  destruct overlong_run_empty as (st0 & R0 & P0 & C0).
  pose proof (decompressRun_spec Lz4Spec.overlong (Z.to_nat 65536)) as Hs.
  pose proof (decompressRun_same Lz4Spec.overlong 0 (Z.to_nat 65536)) as Hsame.
  unfold Lz4.decompressBlock.
  rewrite R0 in Hsame.
  destruct (Lz4.decompressRun Lz4Spec.overlong (Z.to_nat 65536)) as [st | |];
    try contradiction.
  destruct Hsame as (_ & E2 & E3). destruct Hs as (Hl & _).
  exists st. eexists.
  split; [reflexivity|]. split; [lia|]. split; [now rewrite <- E3|].
  split; [reflexivity|].
  unfold TA.slice. rewrite length_firstn, length_skipn. lia.
Qed.

Section Lz4Clipped.
Import Utils Lz4 Lz4Spec.

(** A store in the smaller buffer and in the larger one. *)
Lemma put_firstn (d : list byte) m i v v' :
  (m <= length d)%nat -> ((i < m)%nat -> v = v') ->
  TA.put (firstn m d) i v = firstn m (TA.put d i v').
Proof.
  intros Hm Hv. unfold TA.put. rewrite length_firstn, Nat.min_l by lia.
  destruct (Nat.ltb_spec i m) as [Him | Him].
  - rewrite <- (Hv Him).
    destruct (Nat.ltb_spec i (length d)); [|lia].
    rewrite firstn_app, length_firstn, Nat.min_l by lia.
    rewrite firstn_firstn, Nat.min_l by lia.
    rewrite (firstn_all2 (n := m) (firstn i d)) by (rewrite length_firstn; lia).
    f_equal. replace (m - i)%nat with (S (m - S i)) by lia. cbn [firstn]. f_equal.
    apply skipn_firstn_comm.
  - destruct (Nat.ltb_spec i (length d)); [|reflexivity].
    rewrite firstn_app, length_firstn, Nat.min_l by lia.
    replace (m - i)%nat with 0%nat by lia. cbn [firstn]. rewrite app_nil_r.
    rewrite firstn_firstn. f_equal. lia.
Qed.

Lemma at0_firstn (d : list byte) m j : (j < m)%nat -> at0 (firstn m d) j = at0 d j.
Proof.
  intros H. unfold at0. now rewrite nth_error_firstn, (proj2 (Nat.ltb_lt j m) H).
Qed.

Lemma clipped_intro m a b :
  srcPos a = srcPos b -> dstPos a = dstPos b -> copies a = copies b ->
  length (dst a) = m -> (m <= length (dst b))%nat -> dst a = firstn m (dst b) ->
  clipped m a b.
Proof. unfold clipped, same_positions. auto 10. Qed.

Lemma copyLiterals_clipped m n src : forall a b,
  clipped m a b -> clipped m (copyLiterals n src a) (copyLiterals n src b).
Proof.
  induction n as [|n IH]; intros a b C; cbn [copyLiterals]; [exact C|].
  destruct C as ((H1 & H2 & H3) & L1 & L2 & Hd).
  apply IH. apply clipped_intro; cbn [srcPos dstPos dst copies]; try congruence.
  - now rewrite put_length.
  - now rewrite put_length.
  - rewrite Hd, H1, H2. now apply put_firstn.
Qed.

Lemma copyMatch_clipped m n : forall mp a b,
  (mp < dstPos a)%nat ->
  clipped m a b -> clipped m (copyMatch n mp a) (copyMatch n mp b).
Proof.
  induction n as [|n IH]; intros mp a b Hmp C; cbn [copyMatch]; [exact C|].
  destruct C as ((H1 & H2 & H3) & L1 & L2 & Hd).
  apply IH; [cbn [dstPos]; lia|].
  apply clipped_intro; cbn [srcPos dstPos dst copies]; try congruence.
  - now rewrite put_length.
  - now rewrite put_length.
  - rewrite Hd, H2. apply put_firstn; [assumption|].
    intros Hlt. rewrite at0_firstn by lia. reflexivity.
Qed.

Lemma moveSrc_clipped m n a b : clipped m a b -> clipped m (moveSrc a n) (moveSrc b n).
Proof.
  intros ((H1 & H2 & H3) & L1 & L2 & Hd).
  apply clipped_intro; cbn [moveSrc srcPos dstPos dst copies]; congruence.
Qed.

Lemma literals_clipped m src a b :
  clipped m a b ->
  fst (literals src a) = fst (literals src b) /\
  clipped m (snd (literals src a)) (snd (literals src b)).
Proof.
  intros C. pose proof C as ((H1 & _) & _). unfold literals.
  cbn [moveSrc srcPos]. rewrite <- H1.
  destruct (if JS.sar _ 4 =? 15 then _ else _) as [literalLength used].
  cbn [fst snd]. split; [reflexivity|].
  apply copyLiterals_clipped. now do 2 apply moveSrc_clipped.
Qed.

Lemma turn_clipped m src a b :
  clipped m a b ->
  match turn src a, turn src b with
  | Again a', Again b' => clipped m a' b'
  | Break a', Break b' => clipped m a' b'
  | Raise x, Raise y => x = y
  | _, _ => False
  end.
Proof.
  intros C. pose proof C as ((H1 & _) & _). unfold turn. rewrite <- H1.
  destruct (srcPos a <? length src)%nat; [|exact C].
  destruct (literals_clipped m src a b C) as [Ht C1].
  destruct (literals src a) as [token a1], (literals src b) as [token' b1].
  cbn [fst snd] in Ht, C1. subst token'.
  pose proof C1 as ((E1 & E2 & E3) & L1 & L2 & Hd).
  unfold offsetAt. cbn [moveSrc srcPos dstPos dst copies]. rewrite <- E1, <- E2, <- E3.
  destruct (length src <=? srcPos a1)%nat; [exact C1|].
  set (offset := JS.bor (at0 src (srcPos a1)) (JS.shl (at0 src (S (srcPos a1))) 8)).
  assert (Hoff : 0 <= offset)
    by (apply offset_nonneg; apply at0_range).
  destruct (Z.eqb_spec offset 0) as [|Hnz]; [reflexivity|].
  destruct (if JS.band _ 15 =? 15 then _ else _) as [matchLength used'].
  destruct (Z.ltb_spec (Z.of_nat (dstPos a1) - offset) 0) as [|Hpos]; [reflexivity|].
  apply copyMatch_clipped; [cbn [dstPos]; lia|].
  apply clipped_intro; cbn [srcPos dstPos dst copies]; congruence.
Qed.

Lemma blockLoop_clipped m src : forall fuel a b,
  clipped m a b ->
  match blockLoop fuel src a, blockLoop fuel src b with
  | Ok a', Ok b' => clipped m a' b'
  | Throw x, Throw y => x = y
  | OutOfFuel, OutOfFuel => True
  | _, _ => False
  end.
Proof.
  induction fuel as [|fuel IH]; intros a b C; cbn [blockLoop]; [exact I|].
  pose proof (turn_clipped m src a b C) as T.
  destruct (turn src a), (turn src b); try contradiction; try assumption.
  now apply IH.
Qed.

Lemma initial_clipped m n : (m <= n)%nat -> clipped m (initial m) (initial n).
Proof.
  intros H. apply clipped_intro; cbn [initial srcPos dstPos dst copies]; try reflexivity.
  - apply zeros_length.
  - rewrite zeros_length. exact H.
  - unfold TA.zeros. rewrite firstn_repeat. f_equal. lia.
Qed.

(** The output in a smaller buffer is the start of the output in a
    larger one, and an error in one is the same error in the other. *)
Lemma decompressBlock_clipped src m n :
  (m <= n)%nat ->
  match decompressBlock src m, decompressBlock src n with
  | Ok a, Ok b => a = firstn m b
  | Throw x, Throw y => x = y
  | OutOfFuel, OutOfFuel => True
  | _, _ => False
  end.
Proof.
  intros H. unfold decompressBlock, decompressRun.
  pose proof (blockLoop_clipped m src (S (length src)) _ _ (initial_clipped m n H)) as B.
  destruct (blockLoop _ src (initial m)) as [a | x |],
           (blockLoop _ src (initial n)) as [b | y |]; cbn [rbind];
    try contradiction; try assumption.
  destruct B as ((_ & E2 & _) & L1 & L2 & Hd).
  unfold TA.slice. cbn [skipn]. rewrite !Nat.sub_0_r, Hd, E2.
  rewrite !firstn_firstn. f_equal. lia.
Qed.

(** *** When the decoder refuses a block *)

Lemma turn_raise src st msg :
  turn src st = Raise msg <->
  exists offset pos,
    next_match src st = Some (offset, pos) /\
    ((offset = 0 /\ msg = "Invalid offset (0)"%string) \/
     (Z.of_nat pos < offset /\ msg = "Invalid match position"%string)).
Proof.
  unfold turn, next_match.
  destruct (srcPos st <? length src)%nat.
  2:{ split; [discriminate|]. intros (? & ? & E & _). discriminate. }
  destruct (literals src st) as [token st1].
  destruct (length src <=? srcPos st1)%nat.
  { split; [discriminate|]. intros (? & ? & E & _). discriminate. }
  assert (Hoff : 0 <= offsetAt src st1)
    by (apply offset_nonneg; apply at0_range).
  destruct (Z.eqb_spec (offsetAt src st1) 0) as [Hz | Hnz].
  { split.
    - intros E. injection E as <-. exists (offsetAt src st1), (dstPos st1).
      split; [reflexivity|]. left. auto.
    - intros (offset & pos & E & [[_ ->] | [Hlt _]]); [reflexivity|].
      injection E as <- <-. lia. }
  destruct (if JS.band _ 15 =? 15 then _ else _) as [matchLength used'].
  cbn [moveSrc srcPos dstPos dst copies].
  destruct (Z.ltb_spec (Z.of_nat (dstPos st1) - offsetAt src st1) 0) as [Hneg | Hpos].
  - split.
    + intros E. injection E as <-. exists (offsetAt src st1), (dstPos st1).
      split; [reflexivity|]. right. split; [lia | reflexivity].
    + intros (offset & pos & E & [[Hz _] | [_ ->]]); [|reflexivity].
      injection E as <- <-. contradiction.
  - split; [discriminate|].
    intros (offset & pos & E & [[Hz _] | [Hlt _]]); injection E as <- <-; [contradiction | lia].
Qed.

Lemma after_turns_srcPos src : forall k st st',
  after_turns k src st = Some st' -> (srcPos st + k <= srcPos st')%nat.
Proof.
  induction k as [|k IH]; intros st st' E; cbn [after_turns] in E.
  - injection E as <-. lia.
  - pose proof (turn_spec src st) as T.
    destruct (turn src st) as [st1 | |]; try discriminate.
    destruct T as (T1 & _). apply IH in E. lia.
Qed.

Lemma blockLoop_throw src msg : forall fuel st,
  (length src - srcPos st < fuel)%nat ->
  blockLoop fuel src st = Throw msg <->
  exists k st', after_turns k src st = Some st' /\ turn src st' = Raise msg.
Proof.
  induction fuel as [|fuel IH]; intros st Hf; [lia|].
  cbn [blockLoop]. pose proof (turn_spec src st) as T.
  destruct (turn src st) as [st1 | st1 | m] eqn:Et.
  - destruct T as (T1 & T2 & _).
    rewrite (IH st1) by lia. split.
    + intros (k & st' & E & R). exists (S k), st'. cbn [after_turns]. rewrite Et. auto.
    + intros (k & st' & E & R). destruct k as [|k].
      * cbn [after_turns] in E. injection E as <-. congruence.
      * cbn [after_turns] in E. rewrite Et in E. eauto.
  - split; [discriminate|].
    intros (k & st' & E & R). destruct k as [|k].
    + cbn [after_turns] in E. injection E as <-. congruence.
    + cbn [after_turns] in E. rewrite Et in E. discriminate.
  - split.
    + intros E. injection E as <-. exists 0%nat, st. auto.
    + intros (k & st' & E & R). destruct k as [|k].
      * cbn [after_turns] in E. injection E as <-. congruence.
      * cbn [after_turns] in E. rewrite Et in E. discriminate.
Qed.

Lemma decompressBlock_throw src maxSize msg :
  decompressBlock src maxSize = Throw msg <-> refused src maxSize msg.
Proof.
  unfold decompressBlock, refused.
  assert (E : rbind (decompressRun src maxSize)
                    (fun st => Ok (TA.slice (dst st) 0 (dstPos st))) = Throw msg
              <-> decompressRun src maxSize = Throw msg).
  { destruct (decompressRun src maxSize); cbn [rbind]; split; congruence. }
  rewrite E. unfold decompressRun.
  rewrite blockLoop_throw by (cbn [initial srcPos]; lia).
  split.
  - intros (k & st & A & R). apply turn_raise in R as (offset & pos & N & H).
    exists k, st, offset, pos. auto.
  - intros (k & st & offset & pos & A & N & H). exists k, st. split; [exact A|].
    apply turn_raise. eauto.
Qed.

End Lz4Clipped.

(** C8, amended.  For every block and every buffer size the decoder
    comes to an end.  When it returns, the output is the buffer up to
    the output position, [min dstPos maxSize] bytes and so at most
    [maxSize], and every match copy it made had an offset with
    [0 < offset <= output position] when it started.  It fails exactly
    when, after the sequences before were decoded, it comes to a match
    whose offset is 0, with [Invalid offset (0)], or is greater than the
    output position, with [Invalid match position]; there is no other
    error.  A block that decodes to more than [maxSize] is not refused:
    with a larger buffer the decoder fails with the same error or
    returns as well, and the output for [maxSize] is the first [maxSize]
    bytes of the output for the larger buffer. *)
Theorem decompressBlock_bounds (src : list byte) (maxSize larger : nat) :
  (maxSize <= larger)%nat ->
  match Lz4.decompressRun src maxSize with
  | Ok st =>
      Forall Lz4Spec.copy_ok (Lz4.copies st) /\
      exists out whole,
        Lz4.decompressBlock src maxSize = Ok out /\
        out = firstn (Lz4.dstPos st) (Lz4.dst st) /\
        length out = Nat.min (Lz4.dstPos st) maxSize /\
        (length out <= maxSize)%nat /\
        Lz4.decompressBlock src larger = Ok whole /\
        length whole = Nat.min (Lz4.dstPos st) larger /\
        out = firstn maxSize whole
  | Throw msg =>
      Lz4.decompressBlock src maxSize = Throw msg /\
      Lz4.decompressBlock src larger = Throw msg /\
      (msg = "Invalid offset (0)"%string \/ msg = "Invalid match position"%string)
  | OutOfFuel => False
  end /\
  (forall msg, Lz4.decompressBlock src maxSize = Throw msg <->
               Lz4Spec.refused src maxSize msg).
Proof.
  intros Hle. split; [|intros msg; apply decompressBlock_throw].
  pose proof (decompressRun_spec src maxSize) as H.
  pose proof (decompressRun_spec src larger) as H'.
  pose proof (decompressRun_same src maxSize larger) as Hs.
  pose proof (decompressBlock_clipped src maxSize larger Hle) as Hc.
  unfold Lz4.decompressBlock in *.
  destruct (Lz4.decompressRun src maxSize) as [st | msg |],
           (Lz4.decompressRun src larger) as [st' | msg' |];
    cbn [rbind] in *; try contradiction.
  - destruct H as (Hl & Hok). destruct H' as (Hl' & _). destruct Hs as (_ & E2 & _).
    split; [exact Hok|].
    unfold TA.slice in *. cbn [skipn] in *. rewrite !Nat.sub_0_r in *.
    exists (firstn (Lz4.dstPos st) (Lz4.dst st)), (firstn (Lz4.dstPos st') (Lz4.dst st')).
    split; [reflexivity|]. split; [reflexivity|].
    rewrite !length_firstn, Hl, Hl', E2.
    split; [reflexivity|]. split; [lia|]. split; [reflexivity|].
    split; [reflexivity|]. rewrite <- E2, Hc, E2. reflexivity.
  - subst msg'. auto.
Qed.

Lemma decompressBlock_bounds_witness :
  (4 <= 32)%nat /\
  Lz4.decompressBlock Lz4Spec.long_run 4 = Ok (repeat Byte.x61 4) /\
  Lz4.decompressBlock Lz4Spec.long_run 32 = Ok (repeat Byte.x61 20) /\
  forall msg, Lz4.decompressBlock Lz4Spec.long_run 4 = Throw msg <->
              Lz4Spec.refused Lz4Spec.long_run 4 msg.
Proof.
  split; [lia|].
  destruct (decompressBlock_bounds Lz4Spec.long_run 4 32) as [_ H]; [lia|].
  split; [vm_compute; reflexivity|]. split; [vm_compute; reflexivity | exact H].
Defined.
(** ** The partition matcher *)

(** C5, the code departs from the claim at rule 4.  The member
    [vbmeta-system-a.img] and the entry [VBMETA_SYSTEM_A] are equal once
    every [-] is turned into [_], so rule 4 as the claim states it holds.
    The matcher turns only the first [-] into [_]: it compares
    [vbmeta_system-a] with [vbmeta_system_a], finds no entry, and the
    member keeps an undefined partition id with the default device type
    2 in place of the entry's [(21, 2)]. *)
Theorem matcher_second_dash_unmatched :
  let fname := Str.toLowerCase (Firmware.filename MatchSpec.vbmeta_item) in
  MatchSpec.rule4 fname MatchSpec.vbmeta_entry = true /\
  Str.replace (Upload.fnameBase fname) "-" "_" = "vbmeta_system-a"%string /\
  Upload.findEntry fname (Pit.entries MatchSpec.vbmeta_pit) = None /\
  exists bytes,
    Pit.serialize MatchSpec.vbmeta_pit = Ok bytes /\
    Upload.assignPartitions [MatchSpec.vbmeta_item] (Some bytes)
    = Ok [Firmware.set_partition MatchSpec.vbmeta_item None (Some 2)].
Proof.
  cbv zeta. split; [vm_compute; reflexivity|].
  split; [vm_compute; reflexivity|].
  split; [vm_compute; reflexivity|].
  destruct (Pit.serialize MatchSpec.vbmeta_pit) as [bytes | |] eqn:E;
    try (vm_compute in E; discriminate).
  exists bytes. split; [reflexivity|].
  vm_compute in E.
  apply (f_equal (fun r => match r with Ok b => b | _ => [] end)) in E.
  cbv beta iota in E. subst bytes. vm_compute. reflexivity.
Qed.
(** ** [structUnpack] reads back what [structPack] wrote *)

Section StructRoundTrip.
Import Utils EngineSpec CodecSpec.

Lemma ToInt32_mod v : JS.ToInt32 v mod 2 ^ 32 = v mod 2 ^ 32.
Proof.
  unfold JS.ToInt32.
  rewrite Zminus_mod, Zmod_mod, <- Zminus_mod. f_equal. lia.
Qed.

Lemma structPack_cons ty format v values :
  structPack (ty :: format) (v :: values) = field ty v ++ structPack format values.
Proof.
  unfold field, structPack. cbn [structPack_from value_at nth].
  rewrite app_nil_r. f_equal.
  apply (structPack_from_shift format [v] values 0).
Qed.

Lemma field_length ty v : length (field ty v) = fmt_size [ty].
Proof. apply structPack_length. Qed.

Lemma byte_band v : 0 <= v < 2 ^ 8 -> byte.unsigned (byte.of_Z (JS.band v 255)) = v.
Proof.
  intros H. rewrite byte.unsigned_of_Z. unfold byte.wrap, JS.band.
  rewrite (ToInt32_small v) by lia. change (JS.ToInt32 255) with (Z.ones 8).
  rewrite Z.land_ones by lia. rewrite Zmod_mod. now apply Z.mod_small.
Qed.

(** Reading one field back. *)
Lemma unpack_field ty v pre post :
  fits ty v = true ->
  structUnpack [ty] (pre ++ field ty v ++ post) (length pre) = [v].
Proof.
  unfold fits. intros H. apply andb_true_iff in H as [H0 H1]. apply Z.leb_le in H0.
  unfold field, structPack. cbn [structPack_from value_at nth]. rewrite app_nil_r.
  destruct ty; apply Z.ltb_lt in H1; cbn [structUnpack].
  - rewrite LEToNumber_app by (rewrite numberToLE_length; lia).
    rewrite numberToLE_LEToNumber_4, Z.mod_small by lia. reflexivity.
  - rewrite <- app_assoc.
    rewrite LEToNumber_app by (rewrite numberToLE_length; lia).
    replace (pre ++ numberToLE (JS.band v 4294967295) 4 ++
             numberToLE (v / 4294967296) 4 ++ post)
      with ((pre ++ numberToLE (JS.band v 4294967295) 4) ++
            numberToLE (v / 4294967296) 4 ++ post) by now rewrite <- app_assoc.
    replace (length pre + 4)%nat
      with (length (pre ++ numberToLE (JS.band v 4294967295) 4))
      by (rewrite length_app, numberToLE_length; reflexivity).
    rewrite LEToNumber_app by (rewrite numberToLE_length; lia).
    rewrite !numberToLE_LEToNumber_4.
    unfold JS.band. change (JS.ToInt32 4294967295) with (-1).
    rewrite Z.land_m1_r, ToInt32_mod.
    rewrite (Z.mod_small (v / 4294967296)).
    + f_equal. change 4294967296 with (2 ^ 32).
      pose proof (Z.div_mod v (2 ^ 32) ltac:(lia)). lia.
    + split; [apply Z.div_pos; lia|]. apply Z.div_lt_upper_bound; lia.
  - rewrite LEToNumber_app by (rewrite numberToLE_length; lia).
    rewrite numberToLE_LEToNumber_2, Z.mod_small by lia. reflexivity.
  - f_equal. rewrite <- (Nat.add_0_r (length pre)).
    rewrite (at0_app_mid pre [byte.of_Z (JS.band v 255)] post 0) by (cbn; lia).
    unfold at0. cbn [nth_error]. apply byte_band. lia.
Qed.

Lemma structUnpack_cons ty format buffer pos :
  structUnpack (ty :: format) buffer pos
  = structUnpack [ty] buffer pos ++ structUnpack format buffer (pos + fmt_size [ty]).
Proof. destruct ty; reflexivity. Qed.

Lemma structUnpack_structPack_at format : forall values pre post,
  all_fit format values = true ->
  structUnpack format (pre ++ structPack format values ++ post) (length pre) = values.
Proof.
  induction format as [|ty format IH]; intros [|v values] pre post H;
    try discriminate; [reflexivity|].
  cbn [all_fit] in H. apply andb_true_iff in H as [Hv Hr].
  rewrite structUnpack_cons, structPack_cons, <- app_assoc.
  rewrite unpack_field by assumption. cbn [app]. f_equal.
  rewrite <- (field_length ty v), <- length_app, app_assoc.
  now apply IH.
Qed.

End StructRoundTrip.

(** [structUnpack] reads back what [structPack] wrote: for one value per
    format character, each an unsigned integer of the width of its
    field ([I] 32 bits, [H] 16, [B] 8, [Q] up to 2^53), the packed bytes
    number the sum of the field widths, and unpacking them with the
    same format, wherever they lie in a buffer, gives the values back. *)
Theorem structUnpack_structPack (format : list Utils.Fmt) (values : list Z)
        (pre post : list byte) :
  CodecSpec.all_fit format values = true ->
  length (Utils.structPack format values) = EngineSpec.fmt_size format /\
  Utils.structUnpack format (pre ++ Utils.structPack format values ++ post) (length pre)
  = values.
Proof.
  intros H. split.
  - apply structPack_length.
  - revert values pre post H.
    induction format as [|ty format IH]; intros [|v values] pre post H;
      try discriminate; [reflexivity|].
    cbn [CodecSpec.all_fit] in H. apply andb_true_iff in H as [Hv Hr].
    rewrite structUnpack_cons, structPack_cons, <- app_assoc.
    rewrite unpack_field by assumption. cbn [app]. f_equal.
    rewrite <- (field_length ty v), <- length_app, app_assoc.
    now apply IH.
Qed.

Lemma structUnpack_structPack_witness :
  length (Utils.structPack [Utils.fI; Utils.fI; Utils.fQ] [100; 2; 6442450944])
  = EngineSpec.fmt_size [Utils.fI; Utils.fI; Utils.fQ] /\
  Utils.structUnpack [Utils.fI; Utils.fI; Utils.fQ]
    ([Byte.xff] ++ Utils.structPack [Utils.fI; Utils.fI; Utils.fQ] [100; 2; 6442450944]
               ++ [Byte.x01])
    (length [Byte.xff])
  = [100; 2; 6442450944].
Proof.
  apply (structUnpack_structPack [Utils.fI; Utils.fI; Utils.fQ] [100; 2; 6442450944]
           [Byte.xff] [Byte.x01]).
  reflexivity.
Defined.
(** ** The transfer of a body held in memory *)

Section Served.
Import Utils Usb Engine EngineSpec Firmware Upload UploadSpec TransferSpec CodecSpec.

Lemma after_app tr x y : after (after tr x) y = after tr (x ++ y).
Proof. unfold after. now rewrite rev_app_distr, app_assoc. Qed.

Lemma after_nil tr : after tr [] = tr.
Proof. reflexivity. Qed.

Lemma write_served p a b tr :
  (0 < a)%nat ->
  write p (served a b tr) = (Ok (payload_length p), served (a - 1) b (after tr [Write p])).
Proof.
  intros H. destruct a as [|a]; [lia|]. cbn [Nat.sub]. rewrite Nat.sub_0_r. reflexivity.
Qed.

Lemma read_served size timeout a b tr :
  (0 < b)%nat -> 8 <= size ->
  read size timeout (served a b tr)
  = (Ok ack, served a (b - 1) (after tr [Read size timeout])).
Proof.
  intros H Hs. destruct b as [|b]; [lia|]. cbn [Nat.sub]. rewrite Nat.sub_0_r.
  unfold read, served. cbn [dev reads repeat done writes].
  rewrite firstn_all2; [reflexivity|]. change (length ack) with 8%nat. lia.
Qed.

Lemma empty_served a b tr :
  (0 < a)%nat ->
  emptyTransfer (served a b tr) = (Ok tt, served (a - 1) b (after tr [Write (Bytes [])])).
Proof.
  intros H. unfold emptyTransfer, try_catch, bind. rewrite write_served by assumption.
  reflexivity.
Qed.

(** The fields of the frames of a transfer. *)
Lemma structUnpack_frame format values :
  all_fit format values = true -> structUnpack format (frame format values) 0 = values.
Proof.
  intros H.
  exact (structUnpack_structPack_at format values []
           (TA.zeros (1024 - length (structPack format values))) H).
Qed.

Lemma frame_fields3 a b c :
  all_fit [fI; fI; fI] [a; b; c] = true ->
  let f := frame [fI; fI; fI] [a; b; c] in
  length f = 1024%nat /\ LEToNumber f 0 4 = a /\ LEToNumber f 4 4 = b /\
  LEToNumber f 8 4 = c.
Proof.
  intros H f. split; [apply frame_length; cbn; lia|].
  pose proof (structUnpack_frame _ _ H) as E. fold f in E.
  change (structUnpack [fI; fI; fI] f 0)
    with [LEToNumber f 0 4; LEToNumber f 4 4; LEToNumber f 8 4] in E.
  clearbody f. now injection E.
Qed.

Lemma frame_fields8 v0 v1 v2 v3 v4 v5 v6 v7 :
  all_fit [fI; fI; fI; fI; fI; fI; fI; fI] [v0; v1; v2; v3; v4; v5; v6; v7] = true ->
  let f := frame [fI; fI; fI; fI; fI; fI; fI; fI] [v0; v1; v2; v3; v4; v5; v6; v7] in
  length f = 1024%nat /\ LEToNumber f 0 4 = v0 /\ LEToNumber f 4 4 = v1 /\
  LEToNumber f 12 4 = v3 /\ LEToNumber f 20 4 = v5 /\ LEToNumber f 24 4 = v6 /\
  LEToNumber f 28 4 = v7.
Proof.
  intros H f. split; [apply frame_length; cbn; lia|].
  pose proof (structUnpack_frame _ _ H) as E. fold f in E.
  change (structUnpack [fI; fI; fI; fI; fI; fI; fI; fI] f 0)
    with [LEToNumber f 0 4; LEToNumber f 4 4; LEToNumber f 8 4; LEToNumber f 12 4;
          LEToNumber f 16 4; LEToNumber f 20 4; LEToNumber f 24 4; LEToNumber f 28 4] in E.
  clearbody f. injection E. intros. repeat split; assumption.
Qed.

Lemma bind_ok {A B} (m : M A) (k : A -> M B) s x s' :
  m s = (Ok x, s') -> bind m k s = k x s'.
Proof. intros E. unfold bind. now rewrite E. Qed.

Lemma bind_ret {A B} (x : A) (k : A -> M B) s : bind (ret x) k s = k x s.
Proof. reflexivity. Qed.

Lemma bind_write_served {B} p (k : Z -> M B) a b tr :
  (0 < a)%nat ->
  bind (write p) k (served a b tr)
  = k (payload_length p) (served (a - 1) b (after tr [Write p])).
Proof. intros H. apply bind_ok. now apply write_served. Qed.

Lemma bind_read_served {B} size timeout (k : list byte -> M B) a b tr :
  (0 < b)%nat -> 8 <= size ->
  bind (read size timeout) k (served a b tr)
  = k ack (served a (b - 1) (after tr [Read size timeout])).
Proof. intros H Hs. apply bind_ok. now apply read_served. Qed.

Lemma bind_empty_served {B} (k : unit -> M B) a b tr :
  (0 < a)%nat ->
  bind emptyTransfer k (served a b tr)
  = k tt (served (a - 1) b (after tr [Write (Bytes [])])).
Proof. intros H. apply bind_ok. now apply empty_served. Qed.

Lemma quiet_block s a p : quiet (Write (Block s a p)).
Proof. repeat split. Qed.

Lemma quiet_read n t : quiet (Read n t).
Proof. repeat split. Qed.

Lemma quiet_empty : quiet (Write (Bytes [])).
Proof. repeat split. Qed.

Lemma tiles_app from r1 mid r2 to :
  tiles from r1 mid -> tiles mid r2 to -> tiles from (r1 ++ r2) to.
Proof.
  revert from. induction r1 as [|[s n] r1 IH]; intros from; cbn [tiles app].
  - now intros ->.
  - intros (H1 & H2 & H3) H4. auto.
Qed.

(** The block loop on a device that accepts everything: it runs to
    the end of the chunk and sends blocks that tile the chunk. *)
Lemma sendBlocks_served fuel :
  forall dl fo offset chunkSize chunkOffset blockCount a b tr,
    0 <= chunkOffset <= chunkSize -> 0 <= blockCount ->
    chunkSize - chunkOffset <= (Z.of_nat fuel - 1) * fileTransferPacketSize ->
    match dl with Some d => offset + chunkSize <= d | None => True end ->
    (2 * fuel <= a)%nat -> (fuel <= b)%nat ->
    exists a' b' added,
      sendBlocks fuel dl fo offset chunkSize chunkOffset blockCount (served a b tr)
      = (Ok chunkSize, served a' b' (after tr added)) /\
      (a - 2 * fuel <= a')%nat /\ (b - fuel <= b')%nat /\ Forall quiet added /\
      tiles ((match dl with Some _ => 0 | None => fo end) + offset + chunkOffset)
            (collect block_range added)
            ((match dl with Some _ => 0 | None => fo end) + offset + chunkSize).
Proof.
  unfold fileTransferPacketSize.
  induction fuel as [|fuel IH];
    intros dl fo offset chunkSize chunkOffset blockCount a b tr Hc Hb Hf Hd Ha Hr.
  { exfalso. cbn in Hf. lia. }
  cbn [sendBlocks]. unfold fileTransferPacketSize.
  destruct (Z.ltb_spec chunkOffset chunkSize) as [Hlt | Hge].
  2:{ exists a, b, []. replace chunkOffset with chunkSize by lia.
      split; [reflexivity|]. split; [lia|]. split; [lia|].
      split; [constructor | reflexivity]. }
  set (blockSize := Z.min 131072 (chunkSize - chunkOffset)).
  assert (Hbs : 0 < blockSize <= 131072) by (unfold blockSize; lia).
  set (base := match dl with Some _ => 0 | None => fo end).
  assert (Hsrc :
    (match dl with
     | Some dl0 =>
         if offset + chunkOffset >=? dl0
         then throw "Reading beyond data array"
         else ret (offset + chunkOffset,
                   Z.min (offset + chunkOffset + blockSize) dl0 - (offset + chunkOffset))
     | None => ret (fo + offset + chunkOffset, blockSize)
     end) (served a b tr)
    = (Ok (base + offset + chunkOffset, blockSize), served a b tr)).
  { subst base. destruct dl as [d|]; [|reflexivity].
    destruct (Z.geb_spec (offset + chunkOffset) d); [lia|].
    unfold ret. do 3 f_equal. unfold blockSize. lia. }
  rewrite (bind_ok _ _ _ _ _ Hsrc). cbv beta iota.
  destruct (Z.ltb_spec blockSize 131072) as [Hsmall | Hfull].
  - (* the last block of the chunk, padded *)
    assert (Hz : exists a1 add1,
      (if blockCount >? 0 then emptyTransfer else ret tt) (served a b tr)
      = (Ok tt, served a1 b (after tr add1)) /\ (a - 1 <= a1)%nat /\ Forall quiet add1 /\
      collect block_range add1 = []).
    { destruct (blockCount >? 0).
      - exists (a - 1)%nat, [Write (Bytes [])]. rewrite empty_served by lia.
        repeat split; auto using quiet_empty.
      - exists a, []. repeat split; auto; lia. }
    destruct Hz as (a1 & add1 & Ez & Ha1 & Hq1 & Hc1).
    rewrite (bind_ok _ _ _ _ _ Ez).
    rewrite bind_write_served by lia.
    cbn [payload_length]. rewrite Z.eqb_refl. cbn [negb].
    rewrite bind_read_served by lia.
    change (len ack) with 8. cbn [Z.eqb Pos.eqb negb].
    rewrite !after_app, <- ?app_assoc.
    destruct (IH dl fo offset chunkSize (chunkOffset + blockSize) (blockCount + 1)
                 (a1 - 1)%nat (b - 1)%nat
                 (after tr (add1 ++ [Write (Block (base + offset + chunkOffset) blockSize 131072)]
                                 ++ [Read 64 60])))
      as (a' & b' & added & E & Ha' & Hb' & Hq & Ht);
      try (unfold blockSize in *; lia); try assumption.
    exists a', b', (add1 ++ [Write (Block (base + offset + chunkOffset) blockSize 131072)]
                         ++ [Read 64 60] ++ added).
    cbn [app] in E |- *.
    rewrite E, after_app, <- ?app_assoc. cbn [app].
    split; [reflexivity|]. split; [lia|]. split; [lia|]. split.
    + apply Forall_app. split; [assumption|].
      repeat constructor; auto using quiet_block, quiet_read.
    + rewrite collect_app, Hc1. cbn [app collect block_range].
      fold base in Ht. split; [reflexivity|].
      split; [unfold fileTransferPacketSize; lia|].
      replace (base + offset + chunkOffset + blockSize)
        with (base + offset + (chunkOffset + blockSize)) by lia.
      exact Ht.
  - assert (Hz : exists a1 add1,
      (if blockCount >? 0 then emptyTransfer else ret tt) (served a b tr)
      = (Ok tt, served a1 b (after tr add1)) /\ (a - 1 <= a1)%nat /\ Forall quiet add1 /\
      collect block_range add1 = []).
    { destruct (blockCount >? 0).
      - exists (a - 1)%nat, [Write (Bytes [])]. rewrite empty_served by lia.
        repeat split; auto using quiet_empty.
      - exists a, []. repeat split; auto; lia. }
    destruct Hz as (a1 & add1 & Ez & Ha1 & Hq1 & Hc1).
    rewrite (bind_ok _ _ _ _ _ Ez).
    rewrite bind_write_served by lia.
    cbn [payload_length].
    assert (Hfull' : blockSize = 131072) by lia. rewrite Hfull'.
    rewrite Z.eqb_refl. cbn [negb].
    rewrite bind_read_served by lia.
    change (len ack) with 8. cbn [Z.eqb Pos.eqb negb].
    rewrite !after_app, <- ?app_assoc.
    destruct (IH dl fo offset chunkSize (chunkOffset + 131072) (blockCount + 1)
                 (a1 - 1)%nat (b - 1)%nat
                 (after tr (add1 ++ [Write (Block (base + offset + chunkOffset) 131072 131072)]
                                 ++ [Read 64 60])))
      as (a' & b' & added & E & Ha' & Hb' & Hq & Ht);
      try (unfold blockSize in *; lia); try assumption.
    exists a', b', (add1 ++ [Write (Block (base + offset + chunkOffset) 131072 131072)]
                         ++ [Read 64 60] ++ added).
    cbn [app] in E |- *.
    rewrite E, after_app, <- ?app_assoc. cbn [app].
    split; [reflexivity|]. split; [lia|]. split; [lia|]. split.
    + apply Forall_app. split; [assumption|].
      repeat constructor; auto using quiet_block, quiet_read.
    + rewrite collect_app, Hc1. cbn [app collect block_range].
      fold base in Ht. split; [reflexivity|].
      split; [unfold fileTransferPacketSize; lia|].
      replace (base + offset + chunkOffset + 131072)
        with (base + offset + (chunkOffset + 131072)) by lia.
      exact Ht.
Qed.

Lemma chunk_sizes_0 : chunk_sizes 0 = [].
Proof. reflexivity. Qed.

Lemma chunk_sizes_step R :
  0 < R -> chunk_sizes R = Z.min R MAX_CHUNK_SIZE :: chunk_sizes (R - Z.min R MAX_CHUNK_SIZE).
Proof.
  intros H. unfold chunk_sizes, MAX_CHUNK_SIZE.
  destruct (Z.lt_ge_cases R 31457280) as [Hs | Hl].
  - rewrite Z.min_l by lia. rewrite Z.sub_diag.
    rewrite Z.div_small, Z.mod_small by lia.
    destruct (Z.eqb_spec R 0); [lia | reflexivity].
  - rewrite Z.min_r by lia.
    assert (Hq : R / 31457280 = (R - 31457280) / 31457280 + 1).
    { rewrite <- Z.div_add by lia. f_equal. lia. }
    assert (Hm : R mod 31457280 = (R - 31457280) mod 31457280).
    { rewrite <- (Z.mod_add (R - 31457280) 1) by lia. f_equal. lia. }
    rewrite Hq, Hm, Z2Nat.inj_add by (try apply Z.div_pos; lia).
    rewrite Nat.add_comm. reflexivity.
Qed.

Lemma chunk_sizes_nil R : 0 <= R -> (R <=? 0) = true <-> chunk_sizes R = [].
Proof.
  intros H. split.
  - intros E. apply Z.leb_le in E. now replace R with 0 by lia.
  - destruct (Z.leb_spec R 0); [reflexivity|].
    rewrite chunk_sizes_step by lia. discriminate.
Qed.

Lemma ack_cmd : nth 0 (structUnpack [fI; fI] ack 0) 0 = 102.
Proof. vm_compute. reflexivity. Qed.

Lemma bind_pack_cleared {B} buf format values (k : list byte -> M B) s :
  length buf = 1024%nat -> (fmt_size format <= 1024)%nat ->
  bind (pack_into (TA.fill0 buf) format values 0) k s = k (frame format values) s.
Proof. intros Hb Hf. apply bind_ok. now apply pack_into_cleared. Qed.

Lemma fits_I v : 0 <= v < 2 ^ 32 -> fits fI v = true.
Proof.
  intros H. unfold fits. apply andb_true_iff. split; [apply Z.leb_le | apply Z.ltb_lt]; lia.
Qed.

(** What the frames of a transfer are, among the calls. *)
Lemma sequence_frame c :
  0 <= c < 2 ^ 32 ->
  sequence_size (Write (Bytes (frame [fI; fI; fI] [102; 2; c]))) = Some c /\
  finalizer (Write (Bytes (frame [fI; fI; fI] [102; 2; c]))) = None /\
  target (Write (Bytes (frame [fI; fI; fI] [102; 2; c]))) = None.
Proof.
  intros H.
  destruct (frame_fields3 102 2 c) as (L & F0 & F4 & F8).
  { cbn [all_fit]. rewrite !fits_I by lia. reflexivity. }
  cbn [sequence_size finalizer target]. rewrite L, F0, F4, F8. auto.
Qed.

Lemma finalizer_frame actual dt pid cs :
  0 <= actual < 2 ^ 32 -> 0 <= dt < 2 ^ 32 -> 0 <= pid < 2 ^ 32 -> 0 <= cs < 2 ^ 32 ->
  let f := frame [fI; fI; fI; fI; fI; fI; fI; fI] [102; 3; 0; actual; 0; dt; pid; cs] in
  sequence_size (Write (Bytes f)) = None /\
  finalizer (Write (Bytes f)) = Some (actual, cs) /\
  target (Write (Bytes f)) = Some (dt, pid).
Proof.
  intros Ha Hd Hp Hc f.
  destruct (frame_fields8 102 3 0 actual 0 dt pid cs)
    as (L & F0 & F4 & F12 & F20 & F24 & F28).
  { cbn [all_fit]. rewrite !fits_I by lia. reflexivity. }
  fold f in L, F0, F4, F12, F20, F24, F28.
  cbn [sequence_size finalizer target]. rewrite L, F0, F4, F12, F20, F24, F28. auto.
Qed.

Lemma collect_some {A B} (f : A -> option B) x y l :
  f x = Some y -> collect f (x :: l) = y :: collect f l.
Proof. intros E. cbn [collect]. now rewrite E. Qed.

Lemma collect_none {A B} (f : A -> option B) x l :
  f x = None -> collect f (x :: l) = collect f l.
Proof. intros E. cbn [collect]. now rewrite E. Qed.

Lemma collect_quiet l :
  Forall quiet l ->
  collect sequence_size l = [] /\ collect finalizer l = [] /\ collect target l = [].
Proof.
  induction 1 as [|c l (Hs & Hf & Ht) _ (IHs & IHf & IHt)]; [repeat split|].
  now rewrite !collect_none.
Qed.

Lemma readFinal_served a b tr :
  (0 < b)%nat ->
  readFinal (served a b tr) = (Ok (Some ack), served a (b - 1) (after tr [Read 64 120])).
Proof.
  intros H. unfold readFinal, try_catch. now rewrite bind_read_served by lia.
Qed.

Lemma bind_readFinal_served {B} (k : option (list byte) -> M B) a b tr :
  (0 < b)%nat ->
  bind readFinal k (served a b tr)
  = k (Some ack) (served a (b - 1) (after tr [Read 64 120])).
Proof. intros H. apply bind_ok. now apply readFinal_served. Qed.

Lemma marked_cons c R :
  0 <= R ->
  marked (c :: chunk_sizes R) = (c, if R <=? 0 then 1 else 0) :: marked (chunk_sizes R).
Proof.
  intros H. cbn [marked]. do 2 f_equal.
  pose proof (chunk_sizes_nil R H) as N.
  destruct (R <=? 0).
  - now rewrite (proj1 N eq_refl).
  - destruct (chunk_sizes R); [|reflexivity]. now destruct N as [_ N]; specialize (N eq_refl).
Qed.

Lemma bind_sendFinalizer_served {B} buf actual dt pid cs (k : list byte -> M B) a b tr :
  length buf = 1024%nat -> (3 <= a)%nat ->
  bind (sendFinalizer buf actual dt pid cs) k (served a b tr)
  = k (frame [fI; fI; fI; fI; fI; fI; fI; fI] [102; 3; 0; actual; 0; dt; pid; cs])
      (served (a - 3) b
         (after tr [Write (Bytes []);
                    Write (Bytes (frame [fI; fI; fI; fI; fI; fI; fI; fI]
                                        [102; 3; 0; actual; 0; dt; pid; cs]));
                    Write (Bytes [])])).
Proof.
  intros Hb Ha. apply bind_ok. rewrite sendFinalizer_run by assumption.
  rewrite bind_empty_served, bind_write_served, bind_empty_served by lia.
  rewrite !after_app. cbn [app]. unfold ret.
  replace (a - 1 - 1 - 1)%nat with (a - 3)%nat by lia. reflexivity.
Qed.

(** The chunk loop on a device that accepts everything. *)
Lemma sendChunks_served fuel :
  forall buf dl fo N dt pid offset a b tr,
    length buf = 1024%nat -> 0 <= offset <= N ->
    N - offset <= (Z.of_nat fuel - 1) * MAX_CHUNK_SIZE ->
    match dl with Some d => N <= d | None => True end ->
    0 <= dt < 2 ^ 32 -> 0 <= pid < 2 ^ 32 ->
    (500 * fuel <= a)%nat -> (500 * fuel <= b)%nat ->
    exists a' b' added,
      sendChunks fuel buf dl fo N dt pid offset (served a b tr)
      = (Ok tt, served a' b' (after tr added)) /\
      (a - 500 * fuel <= a')%nat /\ (b - 500 * fuel <= b')%nat /\
      sequences added = chunk_sizes (N - offset) /\
      finalizers added = marked (chunk_sizes (N - offset)) /\
      collect target added = map (fun _ => (dt, pid)) (chunk_sizes (N - offset)) /\
      tiles ((match dl with Some _ => 0 | None => fo end) + offset)
            (collect block_range added)
            ((match dl with Some _ => 0 | None => fo end) + N).
Proof.
  induction fuel as [|fuel IH];
    intros buf dl fo N dt pid offset a b tr Hbuf Ho Hf Hd Hdt Hpid Ha Hb.
  { exfalso. unfold MAX_CHUNK_SIZE in Hf. cbn in Hf. lia. }
  cbn [sendChunks].
  destruct (Z.ltb_spec offset N) as [Hlt | Hge].
  2:{ exists a, b, []. replace (N - offset) with 0 by lia. replace offset with N by lia.
      split; [reflexivity|]. split; [lia|]. split; [lia|].
      split; [reflexivity|]. split; [reflexivity|]. split; reflexivity. }
  set (c := Z.min (N - offset) MAX_CHUNK_SIZE).
  assert (Hc : 0 < c <= 31457280) by (unfold c, MAX_CHUNK_SIZE; lia).
  assert (Hblocks : 0 <= c / 131072 <= 240).
  { split; [apply Z.div_pos; lia|]. apply Z.div_le_upper_bound; lia. }
  set (base := match dl with Some _ => 0 | None => fo end).
  rewrite bind_pack_cleared by (assumption || cbn; lia).
  rewrite write_packet_frame by (cbn; lia).
  rewrite bind_write_served by lia.
  rewrite bind_read_served by lia.
  change (len ack <? 8) with false. cbv iota. rewrite ack_cmd.
  change (negb (102 =? 102)) with false. cbv iota.
  destruct (sendBlocks_served (S (Z.to_nat (c / fileTransferPacketSize + 1)))
              dl fo offset c 0 0 (a - 1)%nat (b - 1)%nat
              (after (after tr [Write (Bytes (frame [fI; fI; fI] [102; 2; c]))])
                     [Read 64 60]))
    as (a1 & b1 & blocks & E1 & Ha1 & Hb1 & Hq & Ht); unfold fileTransferPacketSize;
    try lia.
  { rewrite Nat2Z.inj_succ, Z2Nat.id by lia.
    pose proof (Z.mod_pos_bound c 131072 ltac:(lia)).
    pose proof (Z.div_mod c 131072 ltac:(lia)). lia. }
  { destruct dl; [unfold c; lia | exact I]. }
  unfold fileTransferPacketSize in *. rewrite (bind_ok _ _ _ _ _ E1).
  rewrite bind_sendFinalizer_served by (try (apply frame_length; cbn); lia).
  rewrite bind_readFinal_served by lia.
  change (8 <=? len ack) with true. cbv iota. rewrite ack_cmd.
  change (102 =? 4294967295) with false. change (negb (102 =? 102)) with false.
  cbv iota. rewrite bind_ret.
  set (cs := if N - (offset + c) <=? 0 then 1 else 0).
  assert (Hcs : 0 <= cs < 2 ^ 32) by (unfold cs; destruct (_ <=? 0); lia).
  set (fin := frame [fI; fI; fI; fI; fI; fI; fI; fI] [102; 3; 0; c; 0; dt; pid; cs]).
  set (seqf := frame [fI; fI; fI] [102; 2; c]).
  rewrite !after_app. cbn [app]. rewrite <- ?app_assoc. cbn [app].
  assert (G1 : length fin = 1024%nat) by (apply frame_length; cbn; lia).
  assert (G2 : 0 <= offset + c <= N) by (unfold c, MAX_CHUNK_SIZE in *; lia).
  assert (G3 : N - (offset + c) <= (Z.of_nat fuel - 1) * MAX_CHUNK_SIZE).
  { unfold c, MAX_CHUNK_SIZE in *. rewrite Nat2Z.inj_succ in Hf. lia. }
  assert (G4 : (500 * fuel <= a1 - 3)%nat) by lia.
  assert (G5 : (500 * fuel <= b1 - 1)%nat) by lia.
  destruct (IH fin dl fo N dt pid (offset + c) (a1 - 3)%nat (b1 - 1)%nat
              (after tr (Write (Bytes seqf) :: Read 64 60
                           :: blocks ++ [Write (Bytes []); Write (Bytes fin);
                                         Write (Bytes []); Read 64 120]))
              G1 G2 G3 Hd Hdt Hpid G4 G5)
    as (a' & b' & rest & E & Ha' & Hb' & Hs & Hfin & Htg & Htl).
  destruct (sequence_frame c ltac:(lia)) as (S1 & S2 & S3). fold seqf in S1, S2, S3.
  destruct (finalizer_frame c dt pid cs ltac:(lia) Hdt Hpid Hcs) as (F1 & F2 & F3).
  fold fin in F1, F2, F3.
  destruct (collect_quiet _ Hq) as (Q1 & Q2 & Q3).
  exists a', b', ((Write (Bytes seqf) :: Read 64 60
                     :: blocks ++ [Write (Bytes []); Write (Bytes fin);
                                   Write (Bytes []); Read 64 120]) ++ rest).
  rewrite E, after_app.
  split; [reflexivity|]. split; [lia|]. split; [lia|].
  unfold sequences, finalizers in *.
  rewrite (chunk_sizes_step (N - offset)) by lia. fold c.
  replace (N - offset - c) with (N - (offset + c)) by lia.
  rewrite marked_cons by lia. fold cs.
  cbn [app map].
  split; [|split; [|split]].
  - rewrite (collect_some _ _ _ _ S1), collect_none by reflexivity.
    rewrite !collect_app, Q1. cbn [app].
    rewrite collect_none, (collect_none _ _ _ F1), !collect_none by reflexivity.
    now rewrite Hs.
  - rewrite (collect_none _ _ _ S2), collect_none by reflexivity.
    rewrite !collect_app, Q2. cbn [app].
    rewrite collect_none, (collect_some _ _ _ _ F2), !collect_none by reflexivity.
    now rewrite Hfin.
  - rewrite (collect_none _ _ _ S3), collect_none by reflexivity.
    rewrite !collect_app, Q3. cbn [app].
    rewrite collect_none, (collect_some _ _ _ _ F3), !collect_none by reflexivity.
    now rewrite Htg.
  - rewrite !collect_none by reflexivity.
    rewrite !collect_app.
    rewrite !collect_none by reflexivity.
    cbn [collect]. rewrite app_nil_r.
    apply (tiles_app _ _ (base + offset + c)).
    + rewrite Z.add_0_r in Ht. exact Ht.
    + rewrite Z.add_assoc in Htl. exact Htl.
Qed.

Lemma chunk_sizes_length N :
  0 <= N ->
  Z.of_nat (length (chunk_sizes N)) = (N + MAX_CHUNK_SIZE - 1) / MAX_CHUNK_SIZE.
Proof.
  intros H. unfold chunk_sizes, MAX_CHUNK_SIZE.
  pose proof (Z.div_mod N 31457280 ltac:(lia)) as E.
  pose proof (Z.mod_pos_bound N 31457280 ltac:(lia)) as B.
  assert (Hq : 0 <= N / 31457280) by (apply Z.div_pos; lia).
  rewrite length_app, repeat_length, Nat2Z.inj_add, Z2Nat.id by assumption.
  destruct (Z.eqb_spec (N mod 31457280) 0) as [Hz | Hz]; cbn [length Z.of_nat].
  - apply Z.div_unique with (r := 31457279); lia.
  - apply Z.div_unique with (r := N mod 31457280 - 1); lia.
Qed.

Lemma chunk_sizes_bounds N :
  0 <= N -> Forall (fun c => 0 < c <= MAX_CHUNK_SIZE) (chunk_sizes N) /\
            fold_right Z.add 0 (chunk_sizes N) = N.
Proof.
  intros H. unfold chunk_sizes, MAX_CHUNK_SIZE.
  pose proof (Z.div_mod N 31457280 ltac:(lia)) as E.
  pose proof (Z.mod_pos_bound N 31457280 ltac:(lia)) as B.
  assert (Hq : 0 <= N / 31457280) by (apply Z.div_pos; lia).
  assert (Hsum : forall k l, fold_right Z.add 0 (repeat 31457280 k ++ l)
                             = Z.of_nat k * 31457280 + fold_right Z.add 0 l).
  { induction k as [|k IH]; intros l; [reflexivity|].
    cbn [repeat app fold_right]. rewrite IH. lia. }
  split.
  - apply Forall_app. split.
    + apply Forall_forall. intros c Hin. apply repeat_spec in Hin. lia.
    + destruct (Z.eqb_spec (N mod 31457280) 0); repeat constructor; lia.
  - rewrite Hsum, Z2Nat.id by assumption.
    destruct (Z.eqb_spec (N mod 31457280) 0); cbn [fold_right]; lia.
Qed.

(** [transferFile] on a member that is held in memory and is not
    compressed is the transfer of its body. *)
Lemma transferFile_plain ext item body s :
  data item = Some body -> is_compressed (info item) = false ->
  transferFile ext item s
  = transferBody (Some (len body)) (or_else (fileOffset (info item)) 0) (len body)
                 (or_else (device_type (info item)) 2)
                 (or_else (partition_id (info item)) 0) s.
Proof.
  intros Hd Hc. unfold transferFile. cbv zeta. rewrite Hd, Hc.
  rewrite !bind_ret. reflexivity.
Qed.

Lemma transferBody_served dl N fo dt pid a b tr :
  0 <= N -> match dl with Some d => N <= d | None => True end ->
  0 <= dt < 2 ^ 32 -> 0 <= pid < 2 ^ 32 ->
  500 * (N / MAX_CHUNK_SIZE + 2) < Z.of_nat a ->
  500 * (N / MAX_CHUNK_SIZE + 2) < Z.of_nat b ->
  exists a' b' added,
    transferBody dl fo N dt pid (served a b tr)
    = (Ok true, served a' b' (after tr added)) /\
    Z.of_nat a - 500 * (N / MAX_CHUNK_SIZE + 2) - 1 <= Z.of_nat a' /\
    Z.of_nat b - 500 * (N / MAX_CHUNK_SIZE + 2) - 1 <= Z.of_nat b' /\
    sequences added = chunk_sizes N /\
    finalizers added = marked (chunk_sizes N) /\
    collect target added = map (fun _ => (dt, pid)) (chunk_sizes N) /\
    tiles (match dl with Some _ => 0 | None => fo end)
          (collect block_range added)
          ((match dl with Some _ => 0 | None => fo end) + N).
Proof.
  intros HN Hdl Hdt Hpid Ha Hb. unfold transferBody.
  assert (Hq : 0 <= N / MAX_CHUNK_SIZE) by (apply Z.div_pos; unfold MAX_CHUNK_SIZE; lia).
  rewrite (bind_ok _ _ _ _ _ (pack_into_zeros [fI; fI; fI] [102; 0; 0] _ ltac:(cbn; lia))).
  rewrite write_packet_frame by (cbn; lia).
  rewrite bind_write_served by lia.
  rewrite bind_read_served by lia.
  change (len ack <? 8) with false. cbv iota. rewrite ack_cmd.
  change (negb (102 =? 102)) with false. cbv iota.
  set (act := frame [fI; fI; fI] [102; 0; 0]).
  rewrite !after_app. cbn [app].
  destruct (sendChunks_served (S (Z.to_nat (N / MAX_CHUNK_SIZE + 1))) act dl fo N
              dt pid 0 (a - 1)%nat (b - 1)%nat (after tr [Write (Bytes act); Read 64 60]))
    as (a' & b' & added & E & Ha' & Hb' & Hs & Hf & Htg & Htl);
    try assumption; try lia.
  { apply frame_length. cbn. lia. }
  { rewrite Nat2Z.inj_succ, Z2Nat.id by lia.
    pose proof (Z.div_mod N MAX_CHUNK_SIZE ltac:(unfold MAX_CHUNK_SIZE; lia)).
    pose proof (Z.mod_pos_bound N MAX_CHUNK_SIZE ltac:(unfold MAX_CHUNK_SIZE; lia)).
    unfold MAX_CHUNK_SIZE in *. lia. }
  rewrite (bind_ok _ _ _ _ _ E), after_app. unfold ret.
  exists a', b', ([Write (Bytes act); Read 64 60] ++ added).
  split; [reflexivity|]. split; [lia|]. split; [lia|].
  destruct (frame_fields3 102 0 0 eq_refl) as (L & F0 & F4 & F8). fold act in L, F0, F4, F8.
  rewrite Z.sub_0_r in Hs, Hf, Htg. rewrite Z.add_0_r in Htl.
  unfold sequences, finalizers in *.
  cbn [app].
  assert (A1 : sequence_size (Write (Bytes act)) = None)
    by (cbn [sequence_size]; now rewrite L, F0, F4).
  assert (A2 : finalizer (Write (Bytes act)) = None)
    by (cbn [finalizer]; now rewrite L, F0, F4).
  assert (A3 : target (Write (Bytes act)) = None)
    by (cbn [target]; now rewrite L, F0, F4).
  split; [|split; [|split]].
  - now rewrite (collect_none _ _ _ A1), collect_none by reflexivity.
  - now rewrite (collect_none _ _ _ A2), collect_none by reflexivity.
  - now rewrite (collect_none _ _ _ A3), collect_none by reflexivity.
  - rewrite !collect_none by reflexivity. exact Htl.
Qed.

(** [transferFile] on a member that is read from the file and is not
    compressed is the transfer of its bytes in the file. *)
Lemma transferFile_file ext item off s :
  data item = None -> isLargeFile (info item) = true -> fileHandle (info item) = true ->
  fileOffset (info item) = Some off -> is_compressed (info item) = false ->
  transferFile ext item s
  = transferBody None (or_else (Some off) 0) (actualSize (info item))
                 (or_else (device_type (info item)) 2)
                 (or_else (partition_id (info item)) 0) s.
Proof.
  intros Hd Hl Hh Ho Hc. unfold transferFile. cbv zeta. rewrite Hd, Hl, Hh, Ho, Hc.
  cbn [andb]. rewrite !bind_ret. reflexivity.
Qed.

Lemma calls_served a b added : calls (served a b (after [] added)) = added.
Proof. unfold calls, served, after. cbn [done]. now rewrite app_nil_r, rev_involutive. Qed.

End Served.


(** The transfer of a member that is held in memory and is not
    compressed, to a device that completes every write and acknowledges
    every read.  The transfer succeeds.  The sequences announced are the
    chunks of the body: as many of 30 MiB as fit and then the rest, so
    [ceil (N / 30 MiB)] of them, each of 1 byte to 30 MiB, [N] bytes in
    all.  Every chunk is closed by a finalizer that carries the bytes
    of the chunk, the device type and the partition of the member, and
    completion status 1 on the last chunk and 0 on the others.  The data
    blocks carry at most 128 KiB each and lie one after the other from
    the first byte of the body to the last. *)
Theorem in_memory_transfer (ext : Upload.Ext) (item : Firmware.FirmwareItem)
        (body : list byte) (n : nat) :
  let N := Engine.len body in
  let pid := Firmware.or_else (Firmware.partition_id (Firmware.info item)) 0 in
  let dt := Firmware.or_else (Firmware.device_type (Firmware.info item)) 2 in
  Firmware.data item = Some body ->
  Firmware.is_compressed (Firmware.info item) = false ->
  0 <= pid < 2 ^ 32 -> 0 <= dt < 2 ^ 32 ->
  500 * (N / Upload.MAX_CHUNK_SIZE + 2) < Z.of_nat n ->
  let r := Upload.transferFile ext item (Usb.start (UploadSpec.willing n)) in
  let sizes := TransferSpec.chunk_sizes N in
  fst r = Ok true /\
  UploadSpec.sequences (Usb.calls (snd r)) = sizes /\
  UploadSpec.finalizers (Usb.calls (snd r)) = TransferSpec.marked sizes /\
  UploadSpec.collect TransferSpec.target (Usb.calls (snd r))
  = map (fun _ => (dt, pid)) sizes /\
  TransferSpec.tiles 0 (UploadSpec.collect TransferSpec.block_range (Usb.calls (snd r))) N /\
  Z.of_nat (length sizes) = (N + Upload.MAX_CHUNK_SIZE - 1) / Upload.MAX_CHUNK_SIZE /\
  Forall (fun c => 0 < c <= Upload.MAX_CHUNK_SIZE) sizes /\
  fold_right Z.add 0 sizes = N.
Proof.
  intros N pid dt Hd Hc Hpid Hdt Hn r sizes.
  assert (HN : 0 <= N) by (unfold N, Engine.len; lia).
  destruct (transferBody_served (Some N)
              N (Firmware.or_else (Firmware.fileOffset (Firmware.info item)) 0)
              dt pid n n [] HN (Z.le_refl N) Hdt Hpid Hn Hn)
    as (a' & b' & added & E & _ & _ & Hs & Hf & Htg & Htl).
  subst r. rewrite (transferFile_plain ext item body _ Hd Hc).
  fold N pid dt. change (Usb.start (UploadSpec.willing n)) with (TransferSpec.served n n []).
  rewrite E. cbn [fst snd]. rewrite calls_served.
  destruct (chunk_sizes_bounds N HN) as (Hb & Hsum).
  repeat split; try assumption. now apply chunk_sizes_length.
Qed.

Lemma in_memory_transfer_witness :
  let item := TransferSpec.plain_item "boot.img" [Byte.x41; Byte.x4e; Byte.x44; Byte.x52] 3 2 in
  let r := Upload.transferFile TarSamples.no_ext item
             (Usb.start (UploadSpec.willing 1001)) in
  fst r = Ok true /\
  UploadSpec.sequences (Usb.calls (snd r)) = TransferSpec.chunk_sizes 4 /\
  UploadSpec.finalizers (Usb.calls (snd r))
  = TransferSpec.marked (TransferSpec.chunk_sizes 4).
Proof.
  pose proof (in_memory_transfer TarSamples.no_ext
                (TransferSpec.plain_item "boot.img"
                   [Byte.x41; Byte.x4e; Byte.x44; Byte.x52] 3 2)
                [Byte.x41; Byte.x4e; Byte.x44; Byte.x52] 1001) as H.
  cbv zeta in H.
  destruct H as (H1 & H2 & H3 & _); [reflexivity | reflexivity | | | | ].
  - vm_compute. split; [discriminate | reflexivity].
  - vm_compute. split; [discriminate | reflexivity].
  - vm_compute. reflexivity.
  - cbv zeta. auto.
Defined.

(** The same for a member that is read from the file block by block: a
    member that is not compressed, recorded by the header-only parser at
    offset [off] of the file with [actualSize] bytes.  The blocks read
    lie one after the other from [off] to [off + actualSize]. *)
Theorem file_transfer (ext : Upload.Ext) (item : Firmware.FirmwareItem)
        (off : Z) (n : nat) :
  let N := Firmware.actualSize (Firmware.info item) in
  let pid := Firmware.or_else (Firmware.partition_id (Firmware.info item)) 0 in
  let dt := Firmware.or_else (Firmware.device_type (Firmware.info item)) 2 in
  Firmware.data item = None ->
  Firmware.isLargeFile (Firmware.info item) = true ->
  Firmware.fileHandle (Firmware.info item) = true ->
  Firmware.fileOffset (Firmware.info item) = Some off ->
  Firmware.is_compressed (Firmware.info item) = false ->
  0 <= N ->
  0 <= pid < 2 ^ 32 -> 0 <= dt < 2 ^ 32 ->
  500 * (N / Upload.MAX_CHUNK_SIZE + 2) < Z.of_nat n ->
  let r := Upload.transferFile ext item (Usb.start (UploadSpec.willing n)) in
  let sizes := TransferSpec.chunk_sizes N in
  fst r = Ok true /\
  UploadSpec.sequences (Usb.calls (snd r)) = sizes /\
  UploadSpec.finalizers (Usb.calls (snd r)) = TransferSpec.marked sizes /\
  UploadSpec.collect TransferSpec.target (Usb.calls (snd r))
  = map (fun _ => (dt, pid)) sizes /\
  TransferSpec.tiles off
    (UploadSpec.collect TransferSpec.block_range (Usb.calls (snd r))) (off + N).
Proof.
  intros N pid dt Hd Hl Hh Ho Hc HN Hpid Hdt Hn r sizes.
  destruct (transferBody_served None N off dt pid n n [] HN I Hdt Hpid Hn Hn)
    as (a' & b' & added & E & _ & _ & Hs & Hf & Htg & Htl).
  subst r. rewrite (transferFile_file ext item off _ Hd Hl Hh Ho Hc).
  fold N pid dt. change (Usb.start (UploadSpec.willing n)) with (TransferSpec.served n n []).
  assert (Hor : Firmware.or_else (Some off) 0 = off).
  { unfold Firmware.or_else. destruct (Z.eqb_spec off 0); [now subst | reflexivity]. }
  rewrite Hor, E. cbn [fst snd]. rewrite calls_served.
  repeat split; assumption.
Qed.

Lemma file_transfer_witness :
  let item := Tar.fileItem "system.img" 1000 512 in
  let r := Upload.transferFile TarSamples.no_ext item
             (Usb.start (UploadSpec.willing 1001)) in
  fst r = Ok true /\
  UploadSpec.sequences (Usb.calls (snd r)) = TransferSpec.chunk_sizes 1000 /\
  TransferSpec.tiles 512
    (UploadSpec.collect TransferSpec.block_range (Usb.calls (snd r))) (512 + 1000).
Proof.
  pose proof (file_transfer TarSamples.no_ext (Tar.fileItem "system.img" 1000 512)
                512 1001) as H.
  cbv zeta in H.
  destruct H as (H1 & H2 & _ & _ & H5);
    [reflexivity | reflexivity | reflexivity | reflexivity | reflexivity | | | | | ].
  - vm_compute. discriminate.
  - vm_compute. split; [discriminate | reflexivity].
  - vm_compute. split; [discriminate | reflexivity].
  - vm_compute. reflexivity.
  - cbv zeta. auto.
Defined.
(** ** Long names in a PIT *)

Section PitClipFacts.
Import Utils Pit PitSpec PitClip.

Lemma clip_chars s : list_ascii_of_string (clip s) = firstn 31 (list_ascii_of_string s).
Proof.
  unfold clip. generalize 31%nat. intros n. revert s.
  induction n as [|n IH]; intros [|c s]; cbn; try reflexivity.
  now rewrite IH.
Qed.

Lemma clip_length s : (String.length (clip s) <= 31)%nat.
Proof.
  unfold clip. generalize 31%nat. intros n. revert s.
  induction n as [|n IH]; intros [|c s]; cbn; try lia.
  specialize (IH s). lia.
Qed.

Lemma clip_text s : all_chars text_char s = true -> all_chars text_char (clip s) = true.
Proof.
  unfold clip. generalize 31%nat. intros n. revert s.
  induction n as [|n IH]; intros [|c s]; cbn [String.substring all_chars]; try reflexivity.
  intros H. apply andb_prop in H as [Hc Hs]. rewrite Hc. now apply IH.
Qed.

Lemma clip_wf s : all_chars text_char s = true -> wf_string (clip s) = true.
Proof.
  intros H. unfold wf_string. rewrite clip_text by assumption.
  rewrite andb_true_r. apply Nat.leb_le, clip_length.
Qed.

(** The field written for a name is the field of its first 31
    characters. *)
Lemma field32_clip s : all_chars text_char s = true -> field32 s = field32 (clip s).
Proof.
  intros H. unfold field32.
  rewrite (encode_text s H), (encode_text (clip s) (clip_text s H)).
  rewrite clip_chars, !length_map, <- !firstn_map, firstn_firstn, length_firstn.
  replace (Nat.min 31 31) with 31%nat by reflexivity.
  do 2 f_equal. lia.
Qed.

Lemma entry_bytes_clip e : text_entry e = true -> entry_bytes e = entry_bytes (clip_entry e).
Proof.
  intros H. unfold text_entry in H. rewrite !andb_true_iff in H.
  destruct H as [[[_ H1] H2] H3].
  unfold entry_bytes, clip_entry.
  cbn [binaryType deviceType partitionId partitionType filesystem startBlock numBlocks
       fileOffset fileSize partitionName flashFilename fotaFilename].
  now rewrite <- !field32_clip.
Qed.

Lemma clip_entry_wf e : text_entry e = true -> wf_entry (clip_entry e) = true.
Proof.
  intros H. unfold text_entry in H. rewrite !andb_true_iff in H.
  destruct H as [[[[[[[[[[[? ?] ?] ?] ?] ?] ?] ?] ?] ?] ?] ?].
  unfold wf_entry, clip_entry.
  cbn [binaryType deviceType partitionId partitionType filesystem startBlock numBlocks
       fileOffset fileSize partitionName flashFilename fotaFilename].
  rewrite !clip_wf by assumption. rewrite !andb_true_iff. auto 20.
Qed.

Lemma clip_pit_wf p : text_pit p = true -> wf_pit (clip_pit p) = true.
Proof.
  intros H. unfold text_pit in H. rewrite !andb_true_iff in H.
  destruct H as [[[Hm Hc] Hn] He].
  unfold wf_pit, clip_pit. cbn [magic count entries].
  rewrite Hm, Hc, length_map, Hn. cbn [andb].
  rewrite forallb_forall in *. intros e' Hin. apply in_map_iff in Hin as (e & <- & Hin).
  apply clip_entry_wf. auto.
Qed.

Lemma serialize_clip p : text_pit p = true -> serialize p = serialize (clip_pit p).
Proof.
  intros H. rewrite !serialize_closed. f_equal.
  unfold text_pit in H. rewrite !andb_true_iff in H. destruct H as [_ He].
  unfold clip_pit, header_bytes. cbn [magic count entries]. f_equal.
  rewrite forallb_forall in He.
  induction (entries p) as [|e es IH]; [reflexivity|].
  cbn [map flat_map]. rewrite <- entry_bytes_clip by (apply He; now left).
  f_equal. apply IH. intros x Hx. apply He. now right.
Qed.

End PitClipFacts.

(** Names of more than 31 characters are cut.  For every PIT value with
    the magic, a count equal to the number of entries, u32 fields and
    names of ASCII characters of any length, [serialize] returns
    [28 + 132 * count] bytes and [parse] turns them into the value with
    every name cut to its first 31 characters. *)
Theorem pit_names_clipped (p : Pit.PitData) :
  PitClip.text_pit p = true ->
  exists b, Pit.serialize p = Ok b /\
            length b = (Pit.PIT_HEADER_SIZE + length (Pit.entries p) * Pit.PIT_ENTRY_SIZE)%nat /\
            Pit.parse b = Ok (PitClip.clip_pit p).
Proof.
  intros H. destruct (parse_serialize _ (clip_pit_wf p H)) as (b & Hs & Hp).
  exists b. rewrite serialize_clip by assumption.
  split; [assumption|]. split; [|assumption].
  rewrite serialize_closed in Hs.
  apply (f_equal (fun r => match r with Ok x => length x | _ => O end)) in Hs.
  cbv beta iota in Hs. rewrite <- Hs, length_app, header_bytes_length.
  f_equal. unfold PitClip.clip_pit. cbn [Pit.entries].
  induction (Pit.entries p) as [|e es IH]; [reflexivity|].
  cbn [map flat_map length]. rewrite length_app, entry_bytes_length, IH. reflexivity.
Qed.

Lemma pit_names_clipped_witness :
  exists b, Pit.serialize PitClip.long_pit = Ok b /\
            length b = (Pit.PIT_HEADER_SIZE
                        + length (Pit.entries PitClip.long_pit) * Pit.PIT_ENTRY_SIZE)%nat /\
            Pit.parse b = Ok (PitClip.clip_pit PitClip.long_pit).
Proof. apply (pit_names_clipped PitClip.long_pit). vm_compute. reflexivity. Defined.
(** ** Byte accounting *)

Section Accounting.
Import Utils Usb Engine EngineSpec Firmware Upload UploadSpec TransferSpec SessionSpec Flasher.

Lemma marked_sizes l : map fst (marked l) = l.
Proof. induction l as [|c l IH]; [reflexivity|]. cbn [marked map fst]. now rewrite IH. Qed.

Lemma totalBytes_sum items :
  totalBytes items = fold_right Z.add 0 (map itemBytes items).
Proof.
  unfold totalBytes.
  assert (H : forall acc, fold_left (fun total item => total + itemBytes item) items acc
                          = acc + fold_right Z.add 0 (map itemBytes items)).
  { induction items as [|i items IH]; intros acc; cbn [fold_left map fold_right]; [lia|].
    rewrite IH. lia. }
  now rewrite H.
Qed.

Lemma bytes_finalized_app x y :
  bytes_finalized (x ++ y) = bytes_finalized x + bytes_finalized y.
Proof.
  unfold bytes_finalized, finalizers. rewrite collect_app, map_app.
  induction (map fst (collect finalizer x)) as [|c l IH]; cbn [app fold_right]; lia.
Qed.

(** What the guess without a PIT gives an item that the parser built. *)
Lemma guessItem_plain item :
  plain item = true ->
  data (guessItem item) = data item /\
  is_compressed (info (guessItem item)) = false /\
  0 <= or_else (partition_id (info (guessItem item))) 0 < 2 ^ 32 /\
  0 <= or_else (device_type (info (guessItem item))) 2 < 2 ^ 32.
Proof.
  unfold plain. intros H. apply andb_true_iff in H as [Hd Hp].
  destruct (data item) as [d|] eqn:Ed; [|discriminate].
  apply negb_true_iff in Hd.
  destruct (partition_id (info item)) eqn:Ep; [discriminate|].
  destruct (device_type (info item)) eqn:Et; [discriminate|].
  unfold guessItem.
  repeat match goal with
         | |- context [if ?c then _ else _] =>
             match c with
             | context [Str.includes] => destruct c
             end
         end;
    cbn [set_partition data info is_compressed partition_id device_type or_else];
    rewrite ?Ep, ?Et, ?Ed, ?Hd; cbn [falsy or_else Z.eqb];
    (split; [reflexivity|]); (split; [reflexivity|]); split; cbn; lia.
Qed.

Lemma budget_cons item items :
  budget (item :: items)
  = 500 * (match data item with Some d => len d | None => 0 end / MAX_CHUNK_SIZE + 2)
    + 1 + budget items.
Proof. reflexivity. Qed.

Lemma budget_pos items : 1 <= budget items.
Proof.
  induction items as [|item items IH]; [cbn; lia|]. rewrite budget_cons.
  assert (0 <= match data item with Some d => len d | None => 0 end / MAX_CHUNK_SIZE).
  { apply Z.div_pos; [|unfold MAX_CHUNK_SIZE; lia]. destruct (data item); unfold len; lia. }
  lia.
Qed.

(** The transfer loop over members that are either skipped or held in
    memory and not compressed, on a device that accepts everything. *)
Lemma transferItems_served ext items : forall a b tr,
  Forall (fun item => skipped item = true \/ plain item = true) items ->
  budget items <= Z.of_nat a -> budget items <= Z.of_nat b ->
  exists a' b' added,
    transferItems ext (map guessItem items) (served a b tr)
    = (Ok true, served a' b' (after tr added)) /\
    Z.of_nat a - budget items <= Z.of_nat a' /\
    Z.of_nat b - budget items <= Z.of_nat b' /\
    bytes_finalized added = totalBytes items.
Proof.
  induction items as [|item items IH]; intros a b tr Hall Ha Hb.
  { exists a, b, []. cbn [map transferItems]. unfold ret, budget. cbn [fold_right].
    repeat split; try lia. }
  apply Forall_cons_iff in Hall as [Hitem Hall].
  rewrite budget_cons in Ha, Hb. pose proof (budget_pos items) as Hpos.
  assert (Hq : 0 <= match data item with Some d => len d | None => 0 end / MAX_CHUNK_SIZE).
  { apply Z.div_pos; [|unfold MAX_CHUNK_SIZE; lia]. destruct (data item); unfold len; lia. }
  cbn [map transferItems]. rewrite skipped_guessItem.
  rewrite totalBytes_sum. cbn [map fold_right]. rewrite <- totalBytes_sum.
  destruct (skipped item) eqn:Hsk.
  - (* skipped: nothing is sent and nothing was counted *)
    destruct (IH a b tr Hall ltac:(lia) ltac:(lia)) as (a' & b' & added & E & Ha' & Hb' & Hsum).
    exists a', b', added. rewrite budget_cons.
    split; [exact E|]. split; [lia|]. split; [lia|].
    rewrite Hsum. 
    assert (Hz : itemBytes item = 0).
    { unfold skipped in Hsk. unfold itemBytes.
      destruct (Str.includes (filename item) "meta-data/" ||
                Str.endsWith (filename item) ".zip") eqn:Hn; [reflexivity|].
      apply orb_false_iff in Hn as [Hn1 Hn2]. rewrite Hn1, Hn2, !orb_false_r in Hsk.
      destruct (data item) as [d|].
      - apply Z.eqb_eq in Hsk. exact Hsk.
      - apply negb_true_iff in Hsk. now rewrite Hsk. }
    lia.
  - destruct Hitem as [Hx | Hplain]; [congruence|].
    destruct (guessItem_plain item Hplain) as (Gd & Gc & Gp & Gt).
    unfold plain in Hplain. destruct (data item) as [d|] eqn:Ed; [|discriminate].
    assert (HN : 0 <= len d) by (unfold len; lia).
    destruct (transferBody_served (Some (len d)) (len d)
                (or_else (fileOffset (info (guessItem item))) 0)
                (or_else (device_type (info (guessItem item))) 2)
                (or_else (partition_id (info (guessItem item))) 0)
                a b tr HN (Z.le_refl _) Gt Gp ltac:(lia) ltac:(lia))
      as (a1 & b1 & add1 & E1 & Ha1 & Hb1 & _ & Hf1 & _ & _).
    rewrite <- (transferFile_plain ext (guessItem item) d _ Gd Gc) in E1.
    rewrite (bind_ok _ _ _ _ _ E1). cbn [negb].
    destruct (IH a1 b1 (after tr add1) Hall ltac:(lia) ltac:(lia))
      as (a' & b' & added & E & Ha' & Hb' & Hsum).
    exists a', b', (add1 ++ added). rewrite E, after_app, budget_cons, Ed.
    split; [reflexivity|]. split; [lia|]. split; [lia|].
    rewrite bytes_finalized_app, Hsum. f_equal.
    unfold bytes_finalized. rewrite Hf1, marked_sizes.
    rewrite (proj2 (chunk_sizes_bounds _ HN)).
    unfold itemBytes. rewrite Ed.
    unfold skipped in Hsk. apply orb_false_iff in Hsk as [Hsk Hz].
    apply orb_false_iff in Hsk as [_ Hm]. now rewrite Hm, Hz.
Qed.

End Accounting.

(** Byte accounting.  For a firmware whose members are held in memory
    and not compressed, as the in-memory parser builds them, or are
    skipped by the transfer loop, uploaded without a PIT to a device that
    completes every write and acknowledges every read: the upload
    succeeds, and the bytes that its finalizers account for add up to
    the [totalBytes] that [flash] computes for the session. *)
Theorem upload_accounts_for_total (ext : Upload.Ext)
        (items : list Firmware.FirmwareItem) (n : nat) :
  Forall (fun item => Upload.skipped item = true \/ SessionSpec.plain item = true) items ->
  SessionSpec.budget items <= Z.of_nat n ->
  let r := Upload.uploadBinaries ext items None (Usb.start (UploadSpec.willing n)) in
  fst r = Ok true /\
  SessionSpec.bytes_finalized (Usb.calls (snd r)) = Flasher.totalBytes items.
Proof.
  intros Hall Hn r. subst r.
  destruct (transferItems_served ext items n n [] Hall Hn Hn)
    as (a' & b' & added & E & _ & _ & Hsum).
  unfold Upload.uploadBinaries, Upload.assignPartitions, Usb.lift, Usb.bind.
  change (Usb.start (UploadSpec.willing n)) with (TransferSpec.served n n []).
  rewrite E. cbn [fst snd]. rewrite calls_served. auto.
Qed.

Lemma upload_accounts_for_total_witness :
  let items := [Tar.memberItem "boot.img" [Byte.x41; Byte.x4e; Byte.x44] 3;
                Tar.memberItem "meta-data/fota.zip" [Byte.x50; Byte.x4b] 2;
                Tar.memberItem "modem.bin" [Byte.x7f; Byte.x45; Byte.x4c; Byte.x46] 4] in
  let r := Upload.uploadBinaries TarSamples.no_ext items None
             (Usb.start (UploadSpec.willing 4000)) in
  fst r = Ok true /\
  SessionSpec.bytes_finalized (Usb.calls (snd r)) = Flasher.totalBytes items.
Proof.
  apply (upload_accounts_for_total TarSamples.no_ext
           [Tar.memberItem "boot.img" [Byte.x41; Byte.x4e; Byte.x44] 3;
            Tar.memberItem "meta-data/fota.zip" [Byte.x50; Byte.x4b] 2;
            Tar.memberItem "modem.bin" [Byte.x7f; Byte.x45; Byte.x4c; Byte.x46] 4] 4000).
  - constructor; [right; reflexivity|].
    constructor; [left; reflexivity|].
    constructor; [right; reflexivity | constructor].
  - vm_compute. discriminate.
Defined.
(** ** Assigning partitions *)

Section Substrings.

Lemma prefix_append p : forall s,
  String.prefix p s = true -> exists t, s = String.append p t.
Proof.
  induction p as [|a p IH]; intros s H; [now exists s|].
  destruct s as [|b s]; [discriminate|]. cbn [String.prefix] in H.
  destruct (Ascii.ascii_dec a b) as [<- |]; [|discriminate].
  destruct (IH s H) as (t & ->). now exists t.
Qed.

Lemma prefix_append_refl p t : String.prefix p (String.append p t) = true.
Proof.
  induction p as [|a p IH]; [now destruct t|]. cbn [String.append String.prefix].
  destruct (Ascii.ascii_dec a a); [exact IH | contradiction].
Qed.

Lemma prefix_includes s p : String.prefix p s = true -> Str.includes s p = true.
Proof. intros H. destruct s; cbn [Str.includes]; now rewrite H. Qed.

Lemma includes_tail c s p : Str.includes s p = true -> Str.includes (String c s) p = true.
Proof. intros H. cbn [Str.includes]. rewrite H. apply orb_true_r. Qed.

(** A string that contains [sboot] or [bootloader] contains [boot]. *)
Lemma includes_sboot s : Str.includes s "sboot" = true -> Str.includes s "boot" = true.
Proof.
  induction s as [|c s IH]; [discriminate|].
  intros H. cbn [Str.includes] in H. apply orb_true_iff in H as [H | H].
  - apply prefix_append in H as (t & E). cbn [String.append] in E.
    injection E as -> ->. apply includes_tail, prefix_includes.
    apply (prefix_append_refl "boot").
  - apply includes_tail. auto.
Qed.

Lemma includes_bootloader s :
  Str.includes s "bootloader" = true -> Str.includes s "boot" = true.
Proof.
  induction s as [|c s IH]; [discriminate|].
  intros H. cbn [Str.includes] in H. apply orb_true_iff in H as [H | H].
  - apply prefix_append in H as (t & ->). apply prefix_includes.
    apply (prefix_append_refl "boot" (String.append "loader" t)).
  - apply includes_tail. auto.
Qed.

End Substrings.

Section Guess.
Import Firmware Upload.

(** The branches of the guess, on an item without a partition. *)
Lemma guessItem_cases item :
  partition_id (info item) = None ->
  let fname := Str.toLowerCase (filename item) in
  partition_id (info (guessItem item)) =
    Some (if Str.includes fname "boot" && negb (Str.includes fname "recovery") then 3
          else if Str.includes fname "recovery" then 10
          else if Str.startsWith fname "bl" then 80
          else if Str.includes fname "modem" || Str.includes fname "radio" ||
                  Str.includes fname "cp" then 11
          else 0).
Proof.
  intros Hp fname. unfold guessItem. fold fname.
  destruct (Str.includes fname "boot") eqn:Hb;
    destruct (Str.includes fname "recovery") eqn:Hr; cbn [andb negb];
    try reflexivity.
  assert (Hs : Str.includes fname "sboot" = false).
  { destruct (Str.includes fname "sboot") eqn:E; [|reflexivity].
    apply includes_sboot in E. congruence. }
  assert (Hl : Str.includes fname "bootloader" = false).
  { destruct (Str.includes fname "bootloader") eqn:E; [|reflexivity].
    apply includes_bootloader in E. congruence. }
  rewrite Hs, Hl, orb_false_r. cbn [orb].
  destruct (Str.startsWith fname "bl"); [reflexivity|].
  destruct (_ || _); [reflexivity|].
  cbn [set_partition info partition_id]. now rewrite Hp.
Qed.

End Guess.

(** Without a PIT the partition of a member is guessed from its name,
    and the tests for [sboot] and [bootloader] never decide: a name that
    contains either contains [boot] and was taken by the first two
    branches.  For a member without a partition the guess is 3 when the
    lower-cased name contains [boot] and not [recovery], 10 when it
    contains [recovery], 80 only when it starts with [bl], 11 when it
    contains [modem], [radio] or [cp], and 0 otherwise; so a name that
    contains [sboot] or [bootloader] gets 3 or 10 and never 80. *)
Theorem guess_never_bootloader (item : Firmware.FirmwareItem) :
  Firmware.partition_id (Firmware.info item) = None ->
  let fname := Str.toLowerCase (Firmware.filename item) in
  let guessed := Firmware.partition_id (Firmware.info (Upload.guessItem item)) in
  guessed =
    Some (if Str.includes fname "boot" && negb (Str.includes fname "recovery") then 3
          else if Str.includes fname "recovery" then 10
          else if Str.startsWith fname "bl" then 80
          else if Str.includes fname "modem" || Str.includes fname "radio" ||
                  Str.includes fname "cp" then 11
          else 0) /\
  (Str.includes fname "sboot" || Str.includes fname "bootloader" = true ->
   guessed = Some 3 \/ guessed = Some 10).
Proof.
  intros Hp fname guessed.
  pose proof (guessItem_cases item Hp) as G. cbv zeta in G. fold fname guessed in G.
  split; [exact G|].
  intros H. rewrite G.
  assert (Hb : Str.includes fname "boot" = true).
  { apply orb_true_iff in H as [H | H];
      [now apply includes_sboot | now apply includes_bootloader]. }
  rewrite Hb. destruct (Str.includes fname "recovery"); cbn [andb negb]; auto.
Qed.

Lemma guess_never_bootloader_witness :
  let item := Tar.memberItem "sboot.bin" [Byte.x01] 1 in
  let fname := Str.toLowerCase (Firmware.filename item) in
  let guessed := Firmware.partition_id (Firmware.info (Upload.guessItem item)) in
  Str.includes fname "sboot" = true /\ (guessed = Some 3 \/ guessed = Some 10).
Proof.
  split; [reflexivity|].
  apply (guess_never_bootloader (Tar.memberItem "sboot.bin" [Byte.x01] 1) eq_refl).
  reflexivity.
Defined.

Section FirstMatch.
Import Firmware Upload.

Lemma findEntry_first fname entries :
  match findEntry fname entries with
  | Some e =>
      exists pre post,
        entries = pre ++ e :: post /\
        Forall (fun x => entryMatches fname x = false) pre /\
        entryMatches fname e = true
  | None => Forall (fun x => entryMatches fname x = false) entries
  end.
Proof.
  induction entries as [|x entries IH]; cbn [findEntry]; [constructor|].
  destruct (entryMatches fname x) eqn:E.
  - exists [], entries. repeat split; [constructor | assumption].
  - destruct (findEntry fname entries) as [e|].
    + destruct IH as (pre & post & -> & Hpre & He).
      exists (x :: pre), post. repeat split; [constructor; assumption | assumption].
    + constructor; assumption.
Qed.

End FirstMatch.

(** With a PIT, a member takes the partition id and the device type of
    the first entry, in the order of the PIT, that matches its
    lower-cased name by one of the four tests; the entries before it do
    not match.  A member that no entry matches keeps its partition id
    and gets device type 2 unless it has one.  The name and the body of
    the member are never changed. *)
Theorem matcher_first_entry (pit : Pit.PitData) (item : Firmware.FirmwareItem) :
  let fname := Str.toLowerCase (Firmware.filename item) in
  let matched := Upload.matchItem pit item in
  Firmware.filename matched = Firmware.filename item /\
  Firmware.data matched = Firmware.data item /\
  match Upload.findEntry fname (Pit.entries pit) with
  | Some e =>
      (exists pre post,
          Pit.entries pit = pre ++ e :: post /\
          Forall (fun x => Upload.entryMatches fname x = false) pre /\
          Upload.entryMatches fname e = true) /\
      Firmware.partition_id (Firmware.info matched) = Some (Pit.partitionId e) /\
      Firmware.device_type (Firmware.info matched) = Some (Pit.deviceType e)
  | None =>
      Forall (fun x => Upload.entryMatches fname x = false) (Pit.entries pit) /\
      Firmware.partition_id (Firmware.info matched)
      = Firmware.partition_id (Firmware.info item) /\
      Firmware.device_type (Firmware.info matched)
      = if Firmware.falsy (Firmware.device_type (Firmware.info item))
        then Some 2 else Firmware.device_type (Firmware.info item)
  end.
Proof.
  intros fname matched. subst matched. unfold Upload.matchItem. fold fname.
  pose proof (findEntry_first fname (Pit.entries pit)) as F.
  destruct (Upload.findEntry fname (Pit.entries pit)) as [e|].
  - repeat split; try reflexivity. exact F.
  - destruct (Firmware.falsy _); repeat split; try reflexivity; exact F.
Qed.

(** A PIT that does not parse stops the upload before anything is sent:
    when the PIT handed to [uploadBinaries] is shorter than 28 bytes or
    does not start with the magic, the upload throws and no call to the
    device is made. *)
Theorem upload_rejects_bad_pit (ext : Upload.Ext) (items : list Firmware.FirmwareItem)
        (bytes : list byte) (s : Usb.State) :
  (length bytes < Pit.PIT_HEADER_SIZE)%nat \/
  Utils.LEToNumber bytes 0 4 <> Pit.PIT_MAGIC ->
  exists msg, Upload.uploadBinaries ext items (Some bytes) s = (Throw msg, s).
Proof.
  intros H. unfold Upload.uploadBinaries, Upload.assignPartitions, Usb.bind, Usb.lift,
              Pit.parse.
  destruct (Nat.ltb_spec (length bytes) Pit.PIT_HEADER_SIZE) as [Hs | Hs];
    [eexists; reflexivity|].
  destruct (Z.eqb_spec (Utils.LEToNumber bytes 0 4) Pit.PIT_MAGIC) as [Hm | Hm];
    cbn [negb rbind]; [|eexists; reflexivity].
  destruct H as [H | H]; [unfold Pit.PIT_HEADER_SIZE in *; lia | contradiction].
Qed.

Lemma upload_rejects_bad_pit_witness :
  exists msg,
    Upload.uploadBinaries TarSamples.no_ext [MatchSpec.vbmeta_item]
      (Some [Byte.x50; Byte.x49; Byte.x54]) (Usb.start (UploadSpec.willing 10))
    = (Throw msg, Usb.start (UploadSpec.willing 10)).
Proof.
  apply (upload_rejects_bad_pit TarSamples.no_ext [MatchSpec.vbmeta_item]
           [Byte.x50; Byte.x49; Byte.x54]).
  left. unfold Pit.PIT_HEADER_SIZE. simpl. lia.
Defined.
(** ** Reading an archive back *)

Section HeaderFields.
Import Utils PitSpec Tar TarSpec TarSamples.

Lemma name_char_solid c : name_char c = true -> solid c = true.
Proof.
  unfold name_char, solid, Str.isSpace. intros H.
  apply andb_true_iff in H as [H1 H2]. apply N.leb_le in H1, H2.
  destruct (Ascii.eqb_spec c Ascii.zero) as [-> | _]; [cbn in H1; lia|].
  cbn [negb andb]. apply negb_true_iff.
  repeat (apply orb_false_iff; split); try apply andb_false_iff;
    try (apply N.eqb_neq; lia).
  right. apply N.leb_gt. lia.
Qed.

Lemma solid_byte c : solid c = true -> Byte.eqb (byte_of_ascii c) Byte.x00 = false.
Proof.
  unfold solid. intros H. apply andb_true_iff in H as [H _]. apply negb_true_iff in H.
  destruct (Byte.eqb (byte_of_ascii c) Byte.x00) eqn:E; [|reflexivity].
  apply Byte.byte_dec_bl in E. apply (f_equal ascii_of_byte) in E.
  rewrite ascii_of_byte_of_ascii in E. subst c. discriminate H.
Qed.

Lemma bytes_of_length s : length (bytes_of s) = String.length s.
Proof. unfold bytes_of. rewrite length_map. induction s; cbn; auto. Qed.

(** Reading back a field that holds [s]: the field is full, or a zero
    byte follows. *)
Lemma readString_bytes s : forall post n,
  all_chars solid s = true ->
  String.length s = n \/ (String.length s < n)%nat /\ nth_error post 0 = Some Byte.x00 ->
  readString (bytes_of s ++ post) 0 n = s.
Proof.
  induction s as [|c s IH]; intros post n Hs Hn.
  - destruct Hn as [<- | [Hn Hz]]; [reflexivity|].
    destruct n; [inversion Hn|]. cbn [bytes_of list_ascii_of_string map app readString].
    destruct post as [|b post]; [discriminate|]. cbn [nth_error] in *.
    injection Hz as ->. reflexivity.
  - cbn [all_chars] in Hs. apply andb_true_iff in Hs as [Hc Hs].
    destruct n as [|n]; [destruct Hn as [Hn | [Hn _]]; cbn in Hn; lia|].
    unfold bytes_of. cbn [list_ascii_of_string map app readString nth_error].
    rewrite solid_byte by assumption. rewrite ascii_of_byte_of_ascii. f_equal.
    change (byte_of_ascii c :: map byte_of_ascii (list_ascii_of_string s) ++ post)
      with ([byte_of_ascii c] ++ (bytes_of s ++ post)).
    rewrite readString_skip by (cbn; lia). cbn [length Nat.sub].
    apply IH; [assumption|]. cbn [String.length] in Hn. destruct Hn as [Hn | [Hn Hz]].
    + left. lia.
    + right. split; [lia | assumption].
Qed.

Lemma trimStart_solid s : all_chars solid s = true -> Str.trimStart s = s.
Proof.
  destruct s as [|c s]; [reflexivity|]. cbn [all_chars Str.trimStart]. intros H.
  apply andb_true_iff in H as [H _]. unfold solid in H.
  apply andb_true_iff in H as [_ H]. apply negb_true_iff in H. now rewrite H.
Qed.

Lemma trimEnd_solid s : all_chars solid s = true -> Str.trimEnd s = s.
Proof.
  induction s as [|c s IH]; [reflexivity|]. cbn [all_chars Str.trimEnd]. intros H.
  apply andb_true_iff in H as [Hc Hs]. rewrite IH by assumption.
  destruct s; [|reflexivity].
  unfold solid in Hc. apply andb_true_iff in Hc as [_ Hc]. apply negb_true_iff in Hc.
  now rewrite Hc.
Qed.

Lemma trim_solid s : all_chars solid s = true -> Str.trim s = s.
Proof.
  intros H. unfold Str.trim. rewrite trimStart_solid by assumption.
  now apply trimEnd_solid.
Qed.

(** The octal digits. *)
Lemma digit_code d : 0 <= d < 8 -> N_of_ascii (digit d) = Z.to_N (48 + d).
Proof.
  intros H. unfold digit. apply N_ascii_embedding. lia.
Qed.

Lemma digit_value d : 0 <= d < 8 -> Str.octalDigit (digit d) = Some d.
Proof.
  intros H. unfold Str.octalDigit. rewrite digit_code by assumption.
  destruct (N.leb_spec 48 (Z.to_N (48 + d))); [|lia].
  destruct (N.leb_spec (Z.to_N (48 + d)) 55); [|lia].
  cbn [andb]. f_equal. lia.
Qed.

Lemma digit_solid d : 0 <= d < 8 -> solid (digit d) = true.
Proof.
  intros H. apply name_char_solid. unfold name_char. rewrite digit_code by assumption.
  apply andb_true_iff. split; apply N.leb_le; lia.
Qed.

Lemma octal_length k n : String.length (octal k n) = k.
Proof. induction k; cbn; auto. Qed.

Lemma octal_solid k n : all_chars solid (octal k n) = true.
Proof.
  induction k as [|k IH]; [reflexivity|]. cbn [octal all_chars].
  rewrite IH, andb_true_r. apply digit_solid. apply Z.mod_pos_bound. lia.
Qed.

Lemma octalRun_octal k n : forall acc,
  0 <= n ->
  Str.octalRun (octal k n) acc true = Some (acc * 8 ^ Z.of_nat k + n mod 8 ^ Z.of_nat k).
Proof.
  induction k as [|k IH]; intros acc Hn.
  - cbn [octal Str.octalRun]. f_equal. change (8 ^ Z.of_nat 0) with 1.
    rewrite Z.mod_1_r. lia.
  - cbn [octal Str.octalRun]. rewrite digit_value by (apply Z.mod_pos_bound; lia).
    rewrite IH by assumption. f_equal.
    rewrite Nat2Z.inj_succ, Z.pow_succ_r by lia.
    rewrite (Z.mul_comm 8 (8 ^ Z.of_nat k)).
    rewrite (Z.rem_mul_r n (8 ^ Z.of_nat k) 8) by lia. ring.
Qed.

Lemma parseInt8_digit d rest v :
  0 <= d < 8 ->
  (forall seen, Str.octalRun (String (digit d) rest) 0 seen = Some v) ->
  Str.parseInt8 (String (digit d) rest) = Some v.
Proof.
  intros Hd Hrun.
  assert (H8 : d = 0 \/ d = 1 \/ d = 2 \/ d = 3 \/ d = 4 \/ d = 5 \/ d = 6 \/ d = 7) by lia.
  destruct H8 as [-> | [-> | [-> | [-> | [-> | [-> | [-> | ->]]]]]]]; exact (Hrun false).
Qed.

Lemma parseInt8_octal k n :
  0 <= n < 8 ^ Z.of_nat (S k) -> Str.parseInt8 (octal (S k) n) = Some n.
Proof.
  intros H.
  assert (Hd : 0 <= (n / 8 ^ Z.of_nat k) mod 8 < 8) by (apply Z.mod_pos_bound; lia).
  pose proof (octalRun_octal (S k) n 0 ltac:(lia)) as R.
  rewrite Z.mod_small in R by lia. cbn [octal] in *.
  apply parseInt8_digit; [assumption|].
  intros seen. cbn [Str.octalRun] in *. rewrite digit_value in * by assumption.
  exact R.
Qed.

End HeaderFields.

Section ArchiveLoop.
Import Utils PitSpec Firmware Tar TarSpec TarSamples.

Lemma sliceZ_mid pre x post :
  sliceZ (pre ++ x ++ post) (Z.of_nat (length pre))
         (Z.of_nat (length pre) + Z.of_nat (length x)) = x.
Proof.
  unfold sliceZ. rewrite !length_app.
  destruct (Z.ltb_spec (Z.of_nat (length pre)) 0); [lia|].
  destruct (Z.ltb_spec (Z.of_nat (length pre) + Z.of_nat (length x)) 0); [lia|].
  rewrite !Z.min_l by lia.
  replace (Z.of_nat (length pre) + Z.of_nat (length x) - Z.of_nat (length pre))
    with (Z.of_nat (length x)) by lia.
  rewrite !Nat2Z.id. rewrite skipn_app, skipn_all, Nat.sub_diag. cbn [app skipn].
  rewrite firstn_app, firstn_all, Nat.sub_diag. cbn [firstn]. apply app_nil_r.
Qed.

Lemma header_length name o :
  (String.length name <= 124)%nat -> (String.length o <= 388)%nat ->
  length (header name o) = 512%nat.
Proof.
  intros H1 H2. unfold header.
  rewrite !length_app, !bytes_of_length, !zeros_length. lia.
Qed.

Lemma paddedSize_bounds size :
  0 <= size -> size <= paddedSize size < size + 512 /\ paddedSize size mod 512 = 0.
Proof.
  intros H. unfold paddedSize.
  pose proof (Z.div_mod (- size) 512 ltac:(lia)).
  pose proof (Z.mod_pos_bound (- size) 512 ltac:(lia)).
  split; [lia|]. rewrite Z.mul_opp_l, Z.mul_comm. 
  rewrite <- Z.mul_opp_r. rewrite Z.mul_comm. apply Z.mod_mul. lia.
Qed.

Lemma member_length m :
  wf_member m = true ->
  Z.of_nat (length (member_bytes m)) = 512 + paddedSize (Z.of_nat (length (snd m))).
Proof.
  intros H. unfold wf_member in H. rewrite !andb_true_iff in H.
  destruct H as [[[H1 H2] _] _]. apply Nat.leb_le in H1, H2.
  unfold member_bytes, member.
  rewrite !length_app, header_length, zeros_length by (rewrite ?octal_length; lia).
  pose proof (paddedSize_bounds (Z.of_nat (length (snd m))) ltac:(lia)). lia.
Qed.

(** The fields of the header of a member. *)
Lemma header_name name o rest :
  (1 <= String.length name <= 100)%nat -> all_chars solid name = true ->
  Str.trim (readString (header name o ++ rest) 0 100) = name.
Proof.
  intros Hl Hs. unfold header. rewrite <- !app_assoc.
  rewrite readString_bytes; [now apply trim_solid | assumption |].
  destruct (Nat.eq_dec (String.length name) 100) as [E | E]; [now left|].
  right. split; [lia|].
  destruct (124 - String.length name)%nat eqn:E'; [lia|]. reflexivity.
Qed.

Lemma header_size name k n rest :
  (String.length name <= 100)%nat -> (k <= 11)%nat ->
  Str.trim (readString (header name (octal k n) ++ rest) 124 12) = octal k n.
Proof.
  intros Hl Hk. unfold header.
  rewrite <- !app_assoc. rewrite (app_assoc (bytes_of name)).
  rewrite readString_skip by (rewrite length_app, bytes_of_length, zeros_length; lia).
  rewrite length_app, bytes_of_length, zeros_length.
  replace (124 - (String.length name + (124 - String.length name)))%nat with 0%nat by lia.
  rewrite readString_bytes; [apply trim_solid, octal_solid | apply octal_solid |].
  right. rewrite octal_length. split; [lia|].
  destruct (388 - k)%nat eqn:E'; [lia|]. reflexivity.
Qed.

(** The first byte of a header is not zero. *)
Lemma header_not_zero name o :
  (1 <= String.length name <= 100)%nat -> (String.length o <= 388)%nat ->
  all_chars solid name = true ->
  isZeroBlock (header name o) = false /\ allZero (header name o) = false.
Proof.
  intros Hl Ho Hs. destruct name as [|c name]; [cbn in Hl; lia|].
  cbn [all_chars] in Hs. apply andb_true_iff in Hs as [Hc _].
  assert (Hz : forallb (fun b => Byte.eqb b Byte.x00) (firstn 512 (header (String c name) o))
               = false).
  { unfold header, bytes_of. cbn [list_ascii_of_string map app firstn forallb].
    now rewrite solid_byte. }
  unfold isZeroBlock, allZero. rewrite Hz. split; [reflexivity | apply andb_false_r].
Qed.

Lemma zeros_block :
  isZeroBlock (TA.zeros 512) = true /\ allZero (TA.zeros 512) = true.
Proof. split; vm_compute; reflexivity. Qed.

Lemma wf_member_facts m :
  wf_member m = true ->
  (1 <= String.length (fst m) <= 100)%nat /\ all_chars solid (fst m) = true /\
  0 <= Z.of_nat (length (snd m)) < 8 ^ 11.
Proof.
  intros H. unfold wf_member in H. rewrite !andb_true_iff in H.
  destruct H as [[[H1 H2] H3] H4]. apply Nat.leb_le in H1, H2. apply Z.ltb_lt in H4.
  split; [lia|]. split; [|lia].
  clear -H3. induction (fst m) as [|c s IH]; [reflexivity|].
  cbn [all_chars] in *. apply andb_true_iff in H3 as [Hc Hs].
  now rewrite name_char_solid, IH.
Qed.

(** What the header of a member gives when it is read at its place. *)
Lemma member_header pre m post :
  wf_member m = true ->
  let data := pre ++ member_bytes m ++ post in
  let offset := Z.of_nat (length pre) in
  let h := header (fst m) (octal 11 (Z.of_nat (length (snd m)))) in
  (offset <? Z.of_nat (length data)) = true /\
  (offset + 512 >? Z.of_nat (length data)) = false /\
  sliceZ data offset (offset + 512) = h /\
  Str.trim (readString h 0 100) = fst m /\
  Str.parseInt8 (Str.trim (readString h 124 12)) = Some (Z.of_nat (length (snd m))) /\
  sliceZ data (offset + 512) (offset + 512 + Z.of_nat (length (snd m))) = snd m /\
  offset + 512 + paddedSize (Z.of_nat (length (snd m)))
  = Z.of_nat (length (pre ++ member_bytes m)).
Proof.
  intros Hwf data offset h.
  destruct (wf_member_facts m Hwf) as (Hl & Hs & Hn).
  pose proof (member_length m Hwf) as Hlen.
  pose proof (paddedSize_bounds (Z.of_nat (length (snd m))) ltac:(lia)) as [Hp _].
  assert (Hh : length h = 512%nat) by (apply header_length; rewrite ?octal_length; lia).
  assert (Hd : Z.of_nat (length data)
               = offset + Z.of_nat (length (member_bytes m)) + Z.of_nat (length post)).
  { unfold data, offset. rewrite !length_app. lia. }
  split; [apply Z.ltb_lt; lia|].
  split; [rewrite Z.gtb_ltb; apply Z.ltb_ge; lia|].
  split.
  { unfold data, member_bytes, member. fold h. rewrite <- !app_assoc.
    replace 512 with (Z.of_nat (length h)) by lia. apply sliceZ_mid. }
  split.
  { rewrite <- (app_nil_r h). now apply header_name. }
  split.
  { rewrite <- (app_nil_r h). unfold h. rewrite header_size by lia.
    apply (parseInt8_octal 10). exact Hn. }
  split.
  { unfold data, member_bytes, member. fold h. rewrite <- !app_assoc.
    rewrite (app_assoc pre h).
    replace (offset + 512) with (Z.of_nat (length (pre ++ h)))
      by (rewrite length_app; unfold offset; lia).
    apply sliceZ_mid. }
  rewrite length_app. unfold offset. lia.
Qed.

Lemma tarLoop_member zeroBlock fuel pre m post fw :
  wf_member m = true ->
  zeroBlock (header (fst m) (octal 11 (Z.of_nat (length (snd m))))) = false ->
  tarLoop zeroBlock (S fuel) (pre ++ member_bytes m ++ post) (Z.of_nat (length pre)) fw
  = tarLoop zeroBlock fuel (pre ++ member_bytes m ++ post)
            (Z.of_nat (length (pre ++ member_bytes m)))
            (addMember fw (fst m) (snd m) (Z.of_nat (length (snd m)))).
Proof.
  intros Hwf Hz.
  destruct (member_header pre m post Hwf) as (H1 & H2 & H3 & H4 & H5 & H6 & H7).
  destruct (wf_member_facts m Hwf) as (Hl & _ & _).
  cbn [tarLoop]. rewrite H1, H2, H3, Hz, H4, H5, H6, H7.
  destruct (fst m) as [|c name]; [cbn in Hl; lia | reflexivity].
Qed.

Lemma tarLoop_end zeroBlock fuel pre fw :
  zeroBlock (TA.zeros 512) = true ->
  tarLoop zeroBlock (S fuel) (pre ++ TA.zeros 1024) (Z.of_nat (length pre)) fw = Ok fw.
Proof.
  intros Hz. cbn [tarLoop]. rewrite length_app, zeros_length.
  destruct (Z.ltb_spec (Z.of_nat (length pre)) (Z.of_nat (length pre + 1024))); [|lia].
  destruct (Z.gtb_spec (Z.of_nat (length pre) + 512) (Z.of_nat (length pre + 1024)));
    [lia|].
  change (TA.zeros 1024) with (TA.zeros 512 ++ TA.zeros 512).
  replace 512 with (Z.of_nat (length (TA.zeros 512))) at 1 by reflexivity.
  rewrite sliceZ_mid. now rewrite Hz.
Qed.

(** The loop over the members of an archive. *)
Lemma tarLoop_archive zeroBlock ms : forall fuel pre fw,
  forallb wf_member ms = true ->
  (forall m, wf_member m = true ->
             zeroBlock (header (fst m) (octal 11 (Z.of_nat (length (snd m))))) = false) ->
  zeroBlock (TA.zeros 512) = true ->
  (length ms < fuel)%nat ->
  tarLoop zeroBlock fuel (pre ++ archive ms) (Z.of_nat (length pre)) fw
  = Ok (fold_left (fun fw m => addMember fw (fst m) (snd m) (Z.of_nat (length (snd m))))
                  ms fw).
Proof.
  unfold archive.
  induction ms as [|m ms IH]; intros fuel pre fw Hwf Hh Hz Hf.
  - destruct fuel; [inversion Hf|]. cbn [flat_map app fold_left]. now apply tarLoop_end.
  - destruct fuel; [inversion Hf|]. cbn [forallb] in Hwf.
    apply andb_true_iff in Hwf as [Hm Hms]. cbn [flat_map fold_left length] in *.
    rewrite <- app_assoc. rewrite tarLoop_member by auto.
    rewrite (app_assoc pre). apply IH; auto. lia.
Qed.

Lemma parseHeaders_member fuel pre m post found fw :
  wf_member m = true -> found < 1000 ->
  let file := pre ++ member_bytes m ++ post in
  parseHeaders (S fuel) file (Z.of_nat (length file)) (Z.of_nat (length pre)) found fw
  = parseHeaders fuel file (Z.of_nat (length file))
      (Z.of_nat (length (pre ++ member_bytes m))) (found + 1)
      {| items := items fw ++ [fileItem (fst m) (Z.of_nat (length (snd m)))
                                        (Z.of_nat (length pre) + 512)];
         md5Hash := md5Hash fw; pitData := pitData fw |}.
Proof.
  intros Hwf Hfound file.
  destruct (member_header pre m post Hwf) as (H1 & H2 & H3 & H4 & H5 & _ & H7).
  destruct (wf_member_facts m Hwf) as (Hl & Hs & Hn).
  destruct (header_not_zero (fst m) (octal 11 (Z.of_nat (length (snd m)))))
    as [_ Hz]; [lia | rewrite octal_length; lia | assumption |].
  fold file in H1, H2, H3.
  cbn [parseHeaders]. rewrite H1, H2, H3, Hz, H4, H5.
  destruct (Z.ltb_spec found 1000); [|lia]. cbn [andb].
  destruct (Z.ltb_spec (Z.of_nat (length (snd m))) 0); [lia|].
  rewrite H7.
  destruct (fst m) as [|c name]; [cbn in Hl; lia | reflexivity].
Qed.

Lemma parseHeaders_end fuel pre found fw :
  let file := pre ++ TA.zeros 1024 in
  parseHeaders (S fuel) file (Z.of_nat (length file)) (Z.of_nat (length pre)) found fw
  = Ok (fw, found).
Proof.
  intros file. cbn [parseHeaders]. unfold file. rewrite length_app, zeros_length.
  destruct (_ && _); [|reflexivity].
  destruct (Z.gtb_spec (Z.of_nat (length pre) + 512) (Z.of_nat (length pre + 1024)));
    [lia|].
  change (TA.zeros 1024) with (TA.zeros 512 ++ TA.zeros 512).
  replace 512 with (Z.of_nat (length (TA.zeros 512))) at 1 by reflexivity.
  rewrite sliceZ_mid. now rewrite (proj2 zeros_block).
Qed.

Lemma parseHeaders_archive ms : forall fuel pre found fw,
  forallb wf_member ms = true ->
  found + Z.of_nat (length ms) <= 1000 -> (length ms < fuel)%nat ->
  let file := pre ++ archive ms in
  parseHeaders fuel file (Z.of_nat (length file)) (Z.of_nat (length pre)) found fw
  = Ok ({| items := items fw ++ file_items (Z.of_nat (length pre)) ms;
           md5Hash := md5Hash fw; pitData := pitData fw |},
        found + Z.of_nat (length ms)).
Proof.
  unfold archive.
  induction ms as [|m ms IH]; intros fuel pre found fw Hwf Hc Hf.
  - destruct fuel; [inversion Hf|]. cbn [flat_map app file_items length].
    rewrite parseHeaders_end, app_nil_r, Z.add_0_r. now destruct fw.
  - destruct fuel; [inversion Hf|]. cbn [forallb] in Hwf.
    apply andb_true_iff in Hwf as [Hm Hms]. cbn [length] in Hc, Hf.
    cbn [flat_map file_items]. rewrite <- app_assoc.
    rewrite parseHeaders_member by (assumption || lia).
    pose proof (IH fuel (pre ++ member_bytes m) (found + 1)
                  {| items := items fw ++ [fileItem (fst m) (Z.of_nat (length (snd m)))
                                                     (Z.of_nat (length pre) + 512)];
                     md5Hash := md5Hash fw; pitData := pitData fw |}
                  Hms ltac:(lia) ltac:(lia)) as R.
    rewrite <- !app_assoc in R. rewrite R.
    cbn [items md5Hash pitData]. rewrite <- app_assoc. cbn [app].
    rewrite length_app, Nat2Z.inj_add.
    replace (found + Z.of_nat (length (m :: ms))) with (found + 1 + Z.of_nat (length ms))
      by (cbn [length]; lia).
    reflexivity.
Qed.

Lemma addMembers_items ms : forall fw,
  fold_left (fun fw m => addMember fw (fst m) (snd m) (Z.of_nat (length (snd m)))) ms fw
  = {| items := items fw ++ map item_of ms;
       md5Hash := md5Hash fw;
       pitData := SkipSpec.embedded_pit (pitData fw) (map item_of ms) |}.
Proof.
  induction ms as [|m ms IH]; intros fw; cbn [fold_left map].
  - rewrite app_nil_r. now destruct fw.
  - rewrite IH. unfold addMember at 1 2 3. cbn [items md5Hash pitData].
    rewrite <- app_assoc. reflexivity.
Qed.

Lemma archive_length ms : (length ms < S (length (archive ms)))%nat.
Proof.
  unfold archive. rewrite length_app, zeros_length.
  assert (H : (length ms <= length (flat_map member_bytes ms))%nat).
  { induction ms as [|m ms IH]; cbn [length flat_map]; [lia|].
    rewrite length_app. unfold member_bytes at 1, member, header.
    rewrite !length_app, !bytes_of_length, !zeros_length. lia. }
  lia.
Qed.

End ArchiveLoop.

(** An archive is read back.  For members with names of 1 to 100
    printable characters without spaces and bodies of less than 8 GiB,
    laid out as headers of 512 bytes, bodies padded to a multiple of 512
    bytes and two zero blocks at the end: both in-memory parsers return
    without error, add one item per member in the order of the archive,
    each with the name, the body and the size of the member, and leave
    as the embedded PIT the body of the last member whose name ends in
    [.pit], or what it was before. *)
Theorem archive_read_in_memory (ms : list (string * list byte))
        (fw : Firmware.FirmwareData) :
  forallb TarSpec.wf_member ms = true ->
  let read :=
    {| Firmware.items := Firmware.items fw ++ map TarSpec.item_of ms;
       Firmware.md5Hash := Firmware.md5Hash fw;
       Firmware.pitData :=
         SkipSpec.embedded_pit (Firmware.pitData fw) (map TarSpec.item_of ms) |} in
  Tar.parseTARData (TarSpec.archive ms) fw = Ok read /\
  Tar.parseTAR (TarSpec.archive ms) fw = Ok read.
Proof.
  intros Hwf read. subst read. rewrite <- addMembers_items.
  unfold Tar.parseTARData, Tar.parseTAR.
  pose proof (tarLoop_archive Tar.allZero ms (S (length (TarSpec.archive ms))) [] fw Hwf)
    as A.
  pose proof (tarLoop_archive Tar.isZeroBlock ms (S (length (TarSpec.archive ms))) [] fw Hwf)
    as B.
  cbn [app length Z.of_nat] in A, B.
  assert (Hh : forall m, TarSpec.wf_member m = true ->
             Tar.isZeroBlock (TarSamples.header (fst m)
                                (TarSpec.octal 11 (Z.of_nat (length (snd m))))) = false /\
             Tar.allZero (TarSamples.header (fst m)
                            (TarSpec.octal 11 (Z.of_nat (length (snd m))))) = false).
  { intros m Hm. destruct (wf_member_facts m Hm) as (Hl & Hs & _).
    apply header_not_zero; [lia | rewrite octal_length; lia | assumption]. }
  split.
  - apply A; [intros m Hm; apply (Hh m Hm) | apply zeros_block | apply archive_length].
  - apply B; [intros m Hm; apply (Hh m Hm) | apply zeros_block | apply archive_length].
Qed.

Lemma archive_read_in_memory_witness :
  Tar.parseTARData (TarSpec.archive TarSpec.two_members) Tar.emptyFirmware
  = Ok {| Firmware.items := map TarSpec.item_of TarSpec.two_members;
          Firmware.md5Hash := None;
          Firmware.pitData := None |}.
Proof.
  apply (archive_read_in_memory TarSpec.two_members Tar.emptyFirmware).
  vm_compute. reflexivity.
Defined.

(** The header-only parser on the same archives of at most 1000
    members: it returns without error the number of members, and adds
    one item per member, without data, with the size of the member and
    the place of its body in the file: 512 bytes after the start of its
    header, the first header being at 0 and each next one after the
    padded body of the one before.  The embedded PIT is left as it
    was. *)
Theorem archive_read_headers (ms : list (string * list byte))
        (fw : Firmware.FirmwareData) :
  forallb TarSpec.wf_member ms = true -> (length ms <= 1000)%nat ->
  Tar.parseSingleTarFile (TarSpec.archive ms) fw
  = Ok ({| Firmware.items := Firmware.items fw ++ TarSpec.file_items 0 ms;
           Firmware.md5Hash := Firmware.md5Hash fw;
           Firmware.pitData := Firmware.pitData fw |},
        Z.of_nat (length ms)).
Proof.
  intros Hwf Hn. unfold Tar.parseSingleTarFile.
  pose proof (parseHeaders_archive ms (S (length (TarSpec.archive ms))) [] 0 fw Hwf
                ltac:(lia) (archive_length ms)) as A.
  cbn [app length Z.of_nat] in A. rewrite Z.add_0_l in A. exact A.
Qed.

Lemma archive_read_headers_witness :
  Tar.parseSingleTarFile (TarSpec.archive TarSpec.two_members) Tar.emptyFirmware
  = Ok ({| Firmware.items :=
             [Tar.fileItem "boot.img.lz4" 1000 512; Tar.fileItem "modem.bin" 4000 2048];
           Firmware.md5Hash := None;
           Firmware.pitData := None |}, 2).
Proof.
  apply (archive_read_headers TarSpec.two_members Tar.emptyFirmware).
  - vm_compute. reflexivity.
  - cbn. lia.
Defined.
(** ** Archives that are not well formed *)

Section HeaderOnlyTotal.
Import Utils Firmware Tar TarEdge.



End HeaderOnlyTotal.


Section NegativeSize.
Import Utils Firmware Tar.


End NegativeSize.


(** ** The whole session *)

Section Session.
Import Utils Usb Engine EngineSpec Firmware Upload UploadSpec TransferSpec SessionSpec
       Flasher FlashSpec CodecSpec.

(** The session is opened by one frame and one read. *)
Lemma sessionOpen_accepting total n :
  (0 < n)%nat ->
  sessionOpen total (start (accepting n))
  = (Ok tt, served (n - 1) n
              (after [] [Write (Bytes (frame [fI; fI; fQ] [100; 2; total]));
                         Read 64 TIMEOUT_TRANSFER])).
Proof.
  intros Hn. unfold sessionOpen. unfold bind at 1.
  rewrite pack_into_zeros by (cbn; lia).
  unfold bind at 1.
  rewrite (pack_into_frame [fI; fI] [100; 2] [fQ] [total]) by (cbn; lia || reflexivity).
  rewrite write_packet_frame by (cbn; lia).
  destruct n as [|n]; [lia|]. cbn [Nat.sub]. rewrite Nat.sub_0_r.
  reflexivity.
Qed.

(** The close and the reboot on a device that accepts everything. *)
Lemma closeConnection_served a b tr :
  (0 < a)%nat -> (0 < b)%nat ->
  closeConnection (served a b tr)
  = (Ok tt, served (a - 1) (b - 1)
              (after tr [Write (Bytes (frame [fI; fI; fI] [103; 0; 0]));
                         Read 64 TIMEOUT_TRANSFER])).
Proof.
  intros Ha Hb. unfold closeConnection, try_catch. unfold bind at 1.
  rewrite pack_into_zeros by (cbn; lia).
  rewrite write_packet_frame by (cbn; lia).
  rewrite bind_write_served by assumption.
  rewrite bind_read_served by (assumption || lia).
  reflexivity.
Qed.

Lemma rebootDevice_served a b tr :
  (0 < a)%nat ->
  rebootDevice (served a b tr)
  = (Ok tt, served (a - 1) b (after tr [Write (Bytes (frame [fI; fI; fI] [103; 1; 0]))])).
Proof.
  intros Ha. unfold rebootDevice, try_catch. unfold bind at 1.
  rewrite pack_into_zeros by (cbn; lia).
  rewrite write_packet_frame by (cbn; lia).
  rewrite bind_write_served by assumption.
  reflexivity.
Qed.

End Session.

(** A whole session.  On a device of protocol version 4 or more that
    accepts the session, completes every write and acknowledges every
    read, for a firmware without a PIT whose members are held in memory
    and not compressed or are skipped: [flash] returns true; it opens
    the session with one frame [(100, 2)] that carries the total as a
    64-bit number, and one read; the bytes that the finalizers of the
    upload account for add up to the total that was announced; and the
    session ends with [(103, 0)] and one read, followed by [(103, 1)]
    exactly when a reboot was asked for. *)
Theorem flash_session (ext : Upload.Ext) (version : Z) (fw : Firmware.FirmwareData)
        (reboot : bool) (n : nat) :
  3 < version ->
  Firmware.pitData fw = None ->
  Forall (fun item => Upload.skipped item = true \/ SessionSpec.plain item = true)
         (Firmware.items fw) ->
  SessionSpec.budget (Firmware.items fw) + 3 <= Z.of_nat n ->
  0 <= Flasher.totalBytes (Firmware.items fw) < 2 ^ 53 ->
  let total := Flasher.totalBytes (Firmware.items fw) in
  let r := Flasher.flash ext (Some version) fw None reboot
             (Usb.start (FlashSpec.accepting n)) in
  fst r = Ok true /\
  exists opening upload,
    Usb.calls (snd r)
    = Usb.Write (Usb.Bytes opening) :: Usb.Read 64 Engine.TIMEOUT_TRANSFER ::
      upload ++ FlashSpec.closing reboot /\
    length opening = 1024%nat /\
    Utils.structUnpack [Utils.fI; Utils.fI; Utils.fQ] opening 0 = [100; 2; total] /\
    SessionSpec.bytes_finalized upload = total.
Proof.
  intros Hv Hpit Hall Hn Htot total r. subst r.
  pose proof (budget_pos (Firmware.items fw)) as Hpos.
  unfold Flasher.flash.
  rewrite (bind_ok _ _ _ _ _ (sessionOpen_accepting total n ltac:(lia))).
  assert (Hpv : (Firmware.or_else (Some version) 2 <=? 3) = false).
  { unfold Firmware.or_else. destruct (Z.eqb_spec version 0); [lia|]. apply Z.leb_gt. lia. }
  rewrite Hpv. unfold Flasher.sendAnyPit. rewrite Hpit. rewrite bind_ret.
  destruct (transferItems_served ext (Firmware.items fw) (n - 1) n
              (TransferSpec.after [] [Usb.Write (Usb.Bytes (EngineSpec.frame
                                        [Utils.fI; Utils.fI; Utils.fQ] [100; 2; total]));
                                      Usb.Read 64 Engine.TIMEOUT_TRANSFER])
              Hall ltac:(lia) ltac:(lia))
    as (a' & b' & added & E & Ha' & Hb' & Hsum).
  assert (Eu : Upload.uploadBinaries ext (Firmware.items fw) None
                 (TransferSpec.served (n - 1) n
                    (TransferSpec.after [] [Usb.Write (Usb.Bytes (EngineSpec.frame
                                        [Utils.fI; Utils.fI; Utils.fQ] [100; 2; total]));
                                      Usb.Read 64 Engine.TIMEOUT_TRANSFER]))
               = (Ok true, TransferSpec.served a' b'
                    (TransferSpec.after (TransferSpec.after [] [Usb.Write (Usb.Bytes (EngineSpec.frame
                                        [Utils.fI; Utils.fI; Utils.fQ] [100; 2; total]));
                                      Usb.Read 64 Engine.TIMEOUT_TRANSFER]) added))).
  { unfold Upload.uploadBinaries, Upload.assignPartitions, Usb.lift, Usb.bind. exact E. }
  rewrite (bind_ok _ _ _ _ _ Eu). cbn [negb].
  rewrite (bind_ok _ _ _ _ _ (closeConnection_served a' b' _ ltac:(lia) ltac:(lia))).
  assert (Er : (if reboot then Engine.rebootDevice else Usb.ret tt)
                 (TransferSpec.served (a' - 1) (b' - 1)
                    (TransferSpec.after
                       (TransferSpec.after
                          (TransferSpec.after [] [Usb.Write (Usb.Bytes (EngineSpec.frame
                                        [Utils.fI; Utils.fI; Utils.fQ] [100; 2; total]));
                                      Usb.Read 64 Engine.TIMEOUT_TRANSFER]) added)
                       [Usb.Write (Usb.Bytes (EngineSpec.frame [Utils.fI; Utils.fI; Utils.fI]
                                                [103; 0; 0]));
                        Usb.Read 64 Engine.TIMEOUT_TRANSFER]))
               = (Ok tt, TransferSpec.served (if reboot then a' - 1 - 1 else a' - 1)%nat
                           (b' - 1)
                           (TransferSpec.after []
                              (Usb.Write (Usb.Bytes (EngineSpec.frame
                                        [Utils.fI; Utils.fI; Utils.fQ] [100; 2; total])) ::
                               Usb.Read 64 Engine.TIMEOUT_TRANSFER ::
                               added ++ FlashSpec.closing reboot)))).
  { destruct reboot.
    - rewrite rebootDevice_served by lia. rewrite !after_app. reflexivity.
    - unfold Usb.ret. rewrite !after_app. unfold FlashSpec.closing. reflexivity. }
  rewrite (bind_ok _ _ _ _ _ Er). unfold Usb.ret. cbn [fst snd].
  split; [reflexivity|].
  exists (EngineSpec.frame [Utils.fI; Utils.fI; Utils.fQ] [100; 2; total]), added.
  rewrite calls_served.
  split; [reflexivity|]. split; [apply frame_length; cbn; lia|].
  split; [|exact Hsum].
  apply structUnpack_frame. unfold CodecSpec.all_fit, CodecSpec.fits.
  fold total in Htot.
  destruct (Z.leb_spec 0 total); [|lia]. destruct (Z.ltb_spec total (2 ^ 53)); [|lia].
  reflexivity.
Qed.

Lemma flash_session_witness :
  let fw := {| Firmware.items :=
                 [Tar.memberItem "boot.img" [Byte.x41; Byte.x4e; Byte.x44] 3;
                  Tar.memberItem "meta-data/fota.zip" [Byte.x50; Byte.x4b] 2;
                  Tar.memberItem "modem.bin" [Byte.x7f; Byte.x45; Byte.x4c; Byte.x46] 4];
               Firmware.md5Hash := None; Firmware.pitData := None |} in
  let r := Flasher.flash TarSamples.no_ext (Some 4) fw None true
             (Usb.start (FlashSpec.accepting 4000)) in
  fst r = Ok true /\
  exists opening upload,
    Usb.calls (snd r)
    = Usb.Write (Usb.Bytes opening) :: Usb.Read 64 Engine.TIMEOUT_TRANSFER ::
      upload ++ FlashSpec.closing true /\
    length opening = 1024%nat /\
    Utils.structUnpack [Utils.fI; Utils.fI; Utils.fQ] opening 0 = [100; 2; 7] /\
    SessionSpec.bytes_finalized upload = 7.
Proof.
  apply (flash_session TarSamples.no_ext 4
           {| Firmware.items :=
                 [Tar.memberItem "boot.img" [Byte.x41; Byte.x4e; Byte.x44] 3;
                  Tar.memberItem "meta-data/fota.zip" [Byte.x50; Byte.x4b] 2;
                  Tar.memberItem "modem.bin" [Byte.x7f; Byte.x45; Byte.x4c; Byte.x46] 4];
               Firmware.md5Hash := None; Firmware.pitData := None |} true 4000).
  - lia.
  - reflexivity.
  - constructor; [right; reflexivity|].
    constructor; [left; reflexivity|].
    constructor; [right; reflexivity | constructor].
  - vm_compute. discriminate.
  - vm_compute. split; discriminate || reflexivity.
Defined.
(** ** Sending a PIT *)

Section PitSent.
Import Utils Usb Engine EngineSpec PitSend SessionSpec.

Lemma PIECE_value : Z.of_nat PIECE = 0x100000.
Proof. unfold PIECE. rewrite Z2Nat.id; lia. Qed.

Lemma accepts_0 ws : accepts ws 0.
Proof. split; [lia | constructor]. Qed.

Lemma accepts_S ws k :
  accepts ws (S k) <->
  exists w rest, ws = w :: rest /\ w <> WriteError /\ accepts rest k.
Proof.
  unfold accepts. split.
  - intros [Hl Hf]. destruct ws as [|w rest]; [cbn in Hl; lia|].
    cbn [firstn] in Hf. apply Forall_cons_iff in Hf as [Hw Hf].
    exists w, rest. cbn [length] in Hl. repeat split; auto. lia.
  - intros (w & rest & -> & Hw & Hl & Hf). cbn [length firstn]. split; [lia|].
    now constructor.
Qed.

Section Cut.
Variable sz : nat.
Variable size : Z.
Hypothesis Hsz : Z.of_nat sz = size.
Hypothesis Hsize : 0 < size.

Let cut (l : list byte) : list (list byte) := pieces sz (length l) l.

Lemma pieces_fuel : forall f1 f2 (l : list byte),
  (length l <= f1)%nat -> (length l <= f2)%nat -> pieces sz f1 l = pieces sz f2 l.
Proof.
  induction f1 as [|f1 IH]; intros f2 l H1 H2.
  - destruct l; [|cbn in H1; lia]. destruct f2; reflexivity.
  - destruct f2 as [|f2].
    + destruct l; [reflexivity | cbn in H2; lia].
    + cbn [pieces]. destruct l as [|x l]; [reflexivity|]. f_equal.
      assert (length (skipn sz (x :: l)) <= length l)%nat.
      { rewrite length_skipn. cbn [length]. lia. }
      cbn [length] in H1, H2. apply IH; lia.
Qed.

Lemma cut_step l : l <> [] -> cut l = firstn sz l :: cut (skipn sz l).
Proof.
  intros H. unfold cut. destruct l as [|x l]; [congruence|].
  change (length (x :: l)) with (S (length l)). cbn [pieces]. f_equal.
  apply pieces_fuel; rewrite ?length_skipn; cbn [length]; lia.
Qed.

(** The pieces are the data, cut every [size] bytes. *)
Lemma cut_spec : forall n (l : list byte),
  (length l <= n)%nat ->
  concat (cut l) = l /\ Forall (fun c => 0 < len c <= size) (cut l).
Proof.
  induction n as [|n IH]; intros l Hl.
  - destruct l; [|cbn in Hl; lia]. split; [reflexivity | constructor].
  - destruct l as [|x l]; [split; [reflexivity | constructor]|].
    rewrite cut_step by discriminate.
    destruct (IH (skipn sz (x :: l))) as [Hc Hf].
    { rewrite length_skipn. cbn [length] in Hl |- *. lia. }
    split.
    + cbn [concat]. rewrite Hc. apply firstn_skipn.
    + constructor; [|exact Hf]. unfold len. rewrite length_firstn. cbn [length]. lia.
Qed.

(** One turn of the loop. *)
Lemma chunk_step (p : list byte) o :
  (o < length p)%nat ->
  let e := Z.min (Z.of_nat o + size) (len p) in
  (Z.of_nat o <? len p) = true /\
  TA.slice p (Z.to_nat (Z.of_nat o)) (Z.to_nat e) = firstn sz (skipn o p) /\
  exists o', e = Z.of_nat o' /\ (o < o' <= length p)%nat /\
             skipn o' p = skipn sz (skipn o p).
Proof.
  intros Ho e. pose proof Hsz as HV. unfold len in *.
  split; [apply Z.ltb_lt; lia|].
  assert (He : Z.to_nat e = Nat.min (o + sz) (length p)) by (unfold e; lia).
  split.
  - unfold TA.slice. rewrite Nat2Z.id, He.
    destruct (Nat.le_ge_cases (o + sz) (length p)).
    + f_equal. lia.
    + rewrite Nat.min_r by lia.
      rewrite !firstn_all2; rewrite ?length_skipn; auto; lia.
  - exists (Nat.min (o + sz) (length p)). split; [lia|]. split; [lia|].
    rewrite skipn_skipn.
    destruct (Nat.le_ge_cases (o + sz) (length p)).
    + f_equal. lia.
    + rewrite Nat.min_r by lia. rewrite !skipn_all2; auto; lia.
Qed.

(** Data of at most [size] bytes are one piece. *)
Lemma cut_short l : l <> [] -> len l <= size -> cut l = [l].
Proof.
  intros Hne Hl. unfold len in Hl. rewrite cut_step by assumption.
  rewrite firstn_all2 by lia. rewrite skipn_all2 by lia. reflexivity.
Qed.

End Cut.

Section PitLoop.
Variable sz : nat.
Hypothesis Hsz : Z.of_nat sz = 0x100000.

Let cut (l : list byte) : list (list byte) := pieces sz (length l) l.

(** The loop on any device: it ends within its fuel, it hands over the
    pieces in order, and it stops at the first write that fails. *)
Lemma sendPitChunks_run (p : list byte) : forall fuel o s,
  (o <= length p)%nat -> (length p - o < fuel)%nat ->
  let ps := cut (skipn o p) in
  exists k r s',
    sendPitChunks fuel p (Z.of_nat o) s = (r, s') /\
    calls s' = calls s ++ map (fun c => Write (Bytes c)) (firstn k ps) /\
    reads (dev s') = reads (dev s) /\
    ((r = Ok tt /\ k = length ps /\ accepts (writes (dev s)) k /\
      writes (dev s') = skipn k (writes (dev s)))
     \/ (exists msg, r = Throw msg) /\ ~ accepts (writes (dev s)) (length ps)).
Proof.
  induction fuel as [|fuel IH]; intros o s Ho Hf ps; [lia|].
  cbn [sendPitChunks].
  destruct (Nat.eq_dec o (length p)) as [-> | Hne].
  - (* the end *)
    unfold len. rewrite Z.ltb_irrefl.
    subst ps. rewrite skipn_all. change (cut []) with (@nil (list byte)).
    exists 0%nat, (Ok tt), s. cbn [firstn map length skipn]. rewrite app_nil_r.
    split; [reflexivity|]. split; [reflexivity|]. split; [reflexivity|]. left.
    split; [reflexivity|]. split; [reflexivity|]. split; [apply accepts_0 | reflexivity].
  - destruct (chunk_step sz 0x100000 Hsz eq_refl p o ltac:(lia)) as (Hlt & Hsl & o' & He & Ho' & Hsk).
    cbv zeta in Hsl, He. rewrite Hlt, Hsl, He.
    assert (Hps : ps = firstn sz (skipn o p) :: cut (skipn o' p)).
    { subst ps. rewrite Hsk. apply (cut_step sz 0x100000 Hsz eq_refl).
      intros E. apply (f_equal (@length byte)) in E. rewrite length_skipn in E.
      cbn [length] in E. lia. }
    destruct (write_step (Bytes (firstn sz (skipn o p))) s)
      as (s1 & Ew & Hx & Hr & Hw).
    unfold bind at 1. rewrite Ew.
    destruct (writes (dev s)) as [|w ws] eqn:Hws.
    + exists 1%nat. eexists. exists s1. split; [reflexivity|].
      rewrite Hps. cbn [firstn map]. split; [exact Hx|]. split; [exact Hr|]. right.
      split; [eexists; reflexivity|]. cbn [length]. intros [Hl _]. cbn in Hl. lia.
    + assert (Hfail : w = WriteError ->
                      ~ accepts (w :: ws) (length ps)).
      { intros -> H. rewrite Hps in H. cbn [length] in H.
        apply accepts_S in H as (w' & rest & E & Hw' & _). congruence. }
      destruct (IH o' s1 ltac:(lia) ltac:(lia)) as (k & r & s' & E & Hc & Hr' & Hcase).
      cbn [tl] in Hw.
      assert (Hgo : w <> WriteError ->
          exists k0 r0 s0,
            sendPitChunks fuel p (Z.of_nat o') s1 = (r0, s0) /\
            calls s0 = calls s ++ map (fun c => Write (Bytes c)) (firstn k0 ps) /\
            reads (dev s0) = reads (dev s) /\
            (r0 = Ok tt /\ k0 = length ps /\ accepts (w :: ws) k0 /\
             writes (dev s0) = skipn k0 (w :: ws) \/
             (exists msg, r0 = Throw msg) /\ ~ accepts (w :: ws) (length ps))).
      { intros Hwok. exists (S k), r, s'. split; [exact E|].
        rewrite Hps. cbn [firstn map length skipn].
        split; [rewrite Hc, Hx, <- app_assoc; reflexivity|].
        split; [congruence|].
        rewrite Hw in Hcase.
        destruct Hcase as [(-> & -> & Hacc & Hws') | (Hth & Hnot)].
        - left. split; [reflexivity|]. split; [reflexivity|].
          split; [apply accepts_S; eauto | exact Hws'].
        - right. split; [exact Hth|]. intros H. apply Hnot.
          apply accepts_S in H as (w' & rest & Ecs & _ & H). now injection Ecs as <- <-. }
      destruct w as [| n |].
      * destruct Hgo as (k0 & r0 & s0 & E0 & H0); [discriminate|].
        exists k0, r0, s0. split; [exact E0 | exact H0].
      * destruct Hgo as (k0 & r0 & s0 & E0 & H0); [discriminate|].
        exists k0, r0, s0. split; [exact E0 | exact H0].
      * exists 1%nat. eexists. exists s1. split; [reflexivity|].
        rewrite Hps. cbn [firstn map]. split; [exact Hx|]. split; [exact Hr|]. right.
        split; [eexists; reflexivity|]. rewrite <- Hps. now apply Hfail.
Qed.

End PitLoop.

End PitSent.

(** A PIT is sent in pieces of 1 MiB, and what [write] returns is not
    looked at.  On a device whose next writes, one per piece, do not
    throw, whether they are complete or partial, and whose next read
    brings a reply: [sendPitData] hands over the pieces in order, each
    of 1 byte to 1 MiB and together the PIT, then reads 64 bytes once;
    it returns true when the reply is shorter than 8 bytes or its second
    word is 0, and false otherwise. *)
Theorem sendPitData_sent (pitData : list byte) (s : Usb.State)
        (reply : list byte) (rs : list Usb.ReadOutcome) :
  SessionSpec.accepts (Usb.writes (Usb.dev s))
                      (length (SessionSpec.pit_pieces pitData)) ->
  Usb.reads (Usb.dev s) = Usb.Data reply :: rs ->
  let resp := firstn 64 reply in
  let r := PitSend.sendPitData pitData s in
  fst r = Ok (if 8 <=? Engine.len resp then Utils.LEToNumber resp 4 4 =? 0 else true) /\
  Usb.calls (snd r) = Usb.calls s ++ SessionSpec.pit_calls pitData /\
  concat (SessionSpec.pit_pieces pitData) = pitData /\
  Forall (fun c => 0 < Engine.len c <= 0x100000) (SessionSpec.pit_pieces pitData).
Proof.
  intros Hacc Hreads resp r. subst r.
  destruct (cut_spec SessionSpec.PIECE 0x100000 PIECE_value eq_refl (length pitData) pitData (Nat.le_refl _))
    as [Hcat Hall].
  destruct (sendPitChunks_run SessionSpec.PIECE PIECE_value pitData
              (S (length pitData)) 0 s ltac:(lia) ltac:(lia))
    as (k & res & s1 & E & Hc & Hr & Hcase).
  cbn [skipn] in E, Hc, Hcase. fold (SessionSpec.pit_pieces pitData) in Hc, Hcase.
  destruct Hcase as [(-> & -> & _ & _) | (_ & Hnot)]; [|contradiction].
  rewrite firstn_all in Hc.
  change (Z.of_nat 0) with 0 in E.
  destruct (read_step 64 Engine.TIMEOUT_TRANSFER s1) as (s2 & Er & Hx & _ & _).
  rewrite Hr, Hreads in Er. change (firstn (Z.to_nat 64) reply) with resp in Er.
  assert (Hrun : PitSend.sendPitData pitData s
                 = (Ok (if 8 <=? Engine.len resp
                        then Utils.LEToNumber resp 4 4 =? 0 else true), s2)).
  { unfold PitSend.sendPitData, Usb.try_catch.
    rewrite (bind_ok _ _ _ _ _ E). unfold Usb.bind at 1. rewrite Er.
    change (nth 1 (Utils.structUnpack [Utils.fI; Utils.fI] resp 0) 0)
      with (Utils.LEToNumber resp 4 4).
    destruct (8 <=? Engine.len resp); reflexivity. }
  rewrite Hrun. cbn [fst snd].
  split; [reflexivity|]. split; [|split; assumption].
  unfold EngineSpec.extends in Hx. rewrite Hx, Hc, <- app_assoc. reflexivity.
Qed.

Lemma sendPitData_sent_witness :
  let r := PitSend.sendPitData [Byte.x76; Byte.x98; Byte.x34; Byte.x12]
             (Usb.start {| Usb.writes := [Usb.Partial 0]; Usb.reads := [Usb.Data []] |}) in
  fst r = Ok true /\
  Usb.calls (snd r)
  = [Usb.Write (Usb.Bytes [Byte.x76; Byte.x98; Byte.x34; Byte.x12]); Usb.Read 64 60].
Proof.
  destruct (sendPitData_sent [Byte.x76; Byte.x98; Byte.x34; Byte.x12]
              (Usb.start {| Usb.writes := [Usb.Partial 0]; Usb.reads := [Usb.Data []] |})
              [] [])
    as (A & B & _).
  - unfold SessionSpec.pit_pieces.
    rewrite (cut_short SessionSpec.PIECE 0x100000 PIECE_value eq_refl) by (discriminate || (cbn; lia)).
    split; [cbn; lia|]. constructor; [discriminate | constructor].
  - reflexivity.
  - split; [exact A|]. rewrite B. unfold SessionSpec.pit_calls, SessionSpec.pit_pieces.
    rewrite (cut_short SessionSpec.PIECE 0x100000 PIECE_value eq_refl) by (discriminate || (cbn; lia)).
    reflexivity.
Defined.

(** [sendPitData] never throws and never runs on: on every device and
    for every PIT it returns true or false.  The calls it makes are the
    first ones of the writes of the pieces followed by the read, as far
    as the device let it come, and it returns true only when it made
    them all: none of the writes threw. *)
Theorem sendPitData_returns (pitData : list byte) (s : Usb.State) :
  let r := PitSend.sendPitData pitData s in
  exists b k,
    fst r = Ok b /\
    Usb.calls (snd r) = Usb.calls s ++ firstn k (SessionSpec.pit_calls pitData) /\
    (b = true ->
     SessionSpec.accepts (Usb.writes (Usb.dev s))
                         (length (SessionSpec.pit_pieces pitData)) /\
     Usb.calls (snd r) = Usb.calls s ++ SessionSpec.pit_calls pitData).
Proof.
  intros r. subst r.
  destruct (sendPitChunks_run SessionSpec.PIECE PIECE_value pitData
              (S (length pitData)) 0 s ltac:(lia) ltac:(lia))
    as (k & res & s1 & E & Hc & Hr & Hcase).
  cbn [skipn] in E, Hc, Hcase. fold (SessionSpec.pit_pieces pitData) in Hc, Hcase.
  change (Z.of_nat 0) with 0 in E.
  assert (Hpre : forall j, (j <= length (SessionSpec.pit_pieces pitData))%nat ->
            map (fun c => Usb.Write (Usb.Bytes c)) (firstn j (SessionSpec.pit_pieces pitData))
            = firstn j (SessionSpec.pit_calls pitData)).
  { intros j Hj. unfold SessionSpec.pit_calls.
    rewrite firstn_app, length_map.
    replace (j - length (SessionSpec.pit_pieces pitData))%nat with 0%nat by lia.
    cbn [firstn]. rewrite app_nil_r. now rewrite firstn_map. }
  destruct Hcase as [(-> & -> & Hacc & _) | ((msg & ->) & Hnot)].
  - (* every piece was handed over *)
    rewrite firstn_all in Hc.
    destruct (read_step 64 Engine.TIMEOUT_TRANSFER s1) as (s2 & Er & Hx & _ & _).
    assert (Hs2 : Usb.calls s2 = Usb.calls s ++ SessionSpec.pit_calls pitData).
    { unfold EngineSpec.extends in Hx. rewrite Hx, Hc, <- app_assoc. reflexivity. }
    assert (Hrun : exists b, PitSend.sendPitData pitData s = (Ok b, s2)).
    { unfold PitSend.sendPitData, Usb.try_catch.
      rewrite (bind_ok _ _ _ _ _ E). unfold Usb.bind at 1. rewrite Er.
      destruct (Usb.reads (Usb.dev s1)) as [|[reply|] rs].
      - exists false. reflexivity.
      - destruct (8 <=? Engine.len (firstn (Z.to_nat 64) reply));
          eexists; reflexivity.
      - exists false. reflexivity. }
    destruct Hrun as [b Hrun]. rewrite Hrun. cbn [fst snd].
    exists b, (length (SessionSpec.pit_calls pitData)). rewrite firstn_all.
    split; [reflexivity|]. split; [exact Hs2 | auto].
  - (* a write threw *)
    assert (Hrun : PitSend.sendPitData pitData s = (Ok false, s1)).
    { unfold PitSend.sendPitData, Usb.try_catch, Usb.bind at 1. rewrite E. reflexivity. }
    rewrite Hrun. cbn [fst snd].
    exists false, (Nat.min k (length (SessionSpec.pit_pieces pitData))).
    split; [reflexivity|]. split; [|discriminate].
    rewrite Hc. f_equal. rewrite <- Hpre by lia.
    f_equal. rewrite <- firstn_firstn. now rewrite firstn_all.
Qed.
(** ** The frame decoder *)

Section Frames.
Import Utils Engine Tar Lz4 Lz4Stream FrameSpec.

Lemma sliceZ_length (file : list byte) a b :
  a <= b -> (length (sliceZ file a b) <= Z.to_nat (b - a))%nat.
Proof.
  intros Hab.
  unfold sliceZ. rewrite length_firstn, length_skipn.
  destruct (Z.ltb_spec a 0); destruct (Z.ltb_spec b 0); lia.
Qed.

Lemma table_range i : 0 <= nth i blockSizeTable 0 <= 4194304.
Proof.
  unfold blockSizeTable.
  do 8 (destruct i as [|i]; [cbn; lia|]). destruct i; cbn; lia.
Qed.

Lemma maxBlockSize_range bd : 0 <= maxBlockSize bd <= 4194304.
Proof. apply table_range. Qed.

Lemma actual_nonneg x : 0 <= JS.band x 0x7FFFFFFF.
Proof.
  unfold JS.band. apply Z.land_nonneg. right.
  rewrite ToInt32_small; lia.
Qed.

(** A block never decodes to more than the size of its buffer, and its
    decoding ends. *)
Lemma decompressBlock_length src maxSize :
  match decompressBlock src maxSize with
  | Ok out => (length out <= maxSize)%nat
  | Throw _ => True
  | OutOfFuel => False
  end.
Proof.
  unfold decompressBlock. pose proof (decompressRun_spec src maxSize) as H.
  destruct (decompressRun src maxSize) as [st | msg |]; cbn [rbind]; auto.
  destruct H as [Hl _]. unfold TA.slice. rewrite length_firstn. cbn [skipn]. lia.
Qed.

Lemma total_app x y : total (x ++ y) = total x + total y.
Proof.
  unfold total. rewrite map_app.
  induction (map (fun c : list byte => Z.of_nat (length c)) x) as [|c l IH];
    cbn [app fold_right]; lia.
Qed.

(** The loop on any file. *)
Lemma streamLoop_bounds tarFile endOffset mx blockChecksum :
  0 <= mx ->
  forall fuel fileOffset chunks tot,
    (1 <= fuel)%nat -> endOffset - fileOffset + 4 <= 4 * Z.of_nat fuel ->
    Forall (fun c => len c <= mx) chunks -> tot = total chunks ->
    let r := streamLoop fuel tarFile endOffset mx blockChecksum fileOffset chunks tot in
    snd r <> OutOfFuel /\
    Forall (fun c => len c <= mx) (fst r) /\
    (forall n, snd r = Ok n -> n = total (fst r)).
Proof.
  intros Hmx. induction fuel as [|fuel IH]; intros fo chunks tot H1 Hfuel Hall Htot; [lia|].
  cbn [streamLoop].
  destruct (Z.ltb_spec fo endOffset) as [Hlt|Hge].
  2:{ cbn [fst snd]. split; [discriminate|]. split; [assumption|].
      intros n E. injection E as <-. exact Htot. }
  destruct (getUint32 (sliceZ tarFile fo (fo + 4))) as [blockSize | msg |] eqn:Eg.
  2:{ cbn [fst snd]. split; [discriminate|]. split; [assumption | discriminate]. }
  2:{ exfalso. unfold getUint32 in Eg.
      destruct (sliceZ tarFile fo (fo + 4)) as [|? [|? [|? [|? ?]]]]; discriminate. }
  destruct (blockSize =? 0).
  { cbn [fst snd]. split; [discriminate|]. split; [assumption|].
    intros n E. injection E as <-. exact Htot. }
  pose proof (actual_nonneg blockSize) as Hact.
  destruct (Z.gtb_spec (JS.band blockSize 0x7FFFFFFF) mx) as [Hbig|Hfit].
  { cbn [fst snd]. split; [discriminate|]. split; [assumption | discriminate]. }
  set (blockData := sliceZ tarFile (fo + 4) (fo + 4 + JS.band blockSize 0x7FFFFFFF)).
  assert (Hdata : len blockData <= mx).
  { pose proof (sliceZ_length tarFile (fo + 4) (fo + 4 + JS.band blockSize 0x7FFFFFFF)
                  ltac:(lia)) as H.
    fold blockData in H. unfold len. lia. }
  assert (Hdec : match (if negb (JS.band blockSize 0x80000000 =? 0) then Ok blockData
                        else decompressBlock blockData (Z.to_nat mx)) with
                 | Ok out => len out <= mx
                 | Throw _ => True
                 | OutOfFuel => False
                 end).
  { destruct (negb (JS.band blockSize 0x80000000 =? 0)); [exact Hdata|].
    pose proof (decompressBlock_length blockData (Z.to_nat mx)) as H.
    destruct (decompressBlock blockData (Z.to_nat mx)); auto. unfold len. lia. }
  destruct (if negb (JS.band blockSize 0x80000000 =? 0) then Ok blockData
            else decompressBlock blockData (Z.to_nat mx)) as [out | msg |];
    [| cbn [fst snd]; split; [discriminate|]; split; [assumption | discriminate]
     | contradiction].
  apply IH.
  - lia.
  - destruct blockChecksum; lia.
  - apply Forall_app. split; [assumption|]. constructor; [exact Hdec | constructor].
  - rewrite total_app, Htot. unfold total. cbn [map fold_right]. lia.
Qed.

(** *** Frames of stored blocks *)

Lemma getUint32_le32 v : 0 <= v < 2 ^ 32 -> getUint32 (le32 v) = Ok v.
Proof.
  intros Hv. unfold getUint32, le32. f_equal.
  rewrite !byte.unsigned_of_Z. unfold byte.wrap.
  Z.div_mod_to_equations. lia.
Qed.

Lemma le32_length v : length (le32 v) = 4%nat.
Proof. reflexivity. Qed.

(** The two halves of the size word of a stored block. *)
Lemma stored_flag n :
  0 <= n < 2 ^ 31 ->
  JS.band (0x80000000 + n) 0x80000000 <> 0 /\
  JS.band (0x80000000 + n) 0x7FFFFFFF = n.
Proof.
  intros Hn. unfold JS.band.
  assert (E : JS.ToInt32 (0x80000000 + n) = n - 2 ^ 31).
  { unfold JS.ToInt32. replace (0x80000000 + n + 2 ^ 31) with (n + 1 * 2 ^ 32) by lia.
    rewrite Z.mod_add by lia. rewrite Z.mod_small; lia. }
  rewrite E. split.
  - change (JS.ToInt32 0x80000000) with (Z.lnot (Z.ones 31)).
    rewrite <- Z.ldiff_land, Z.ldiff_ones_r by lia.
    rewrite Z.shiftr_div_pow2, Z.shiftl_mul_pow2 by lia.
    replace ((n - 2 ^ 31) / 2 ^ 31) with (-1); [lia|].
    apply Z.div_unique with (r := n); lia.
  - change (JS.ToInt32 0x7FFFFFFF) with (Z.ones 31).
    rewrite Z.land_ones by lia.
    replace (n - 2 ^ 31) with (n + (-1) * 2 ^ 31) by lia.
    rewrite Z.mod_add by lia. apply Z.mod_small. lia.
Qed.

Lemma slice_at (pre x post : list byte) a b :
  a = len pre -> b = len pre + len x -> sliceZ (pre ++ x ++ post) a b = x.
Proof. intros -> ->. apply sliceZ_mid. Qed.

Lemma stored_blocks_length bs :
  (4 * length bs <= length (concat (map stored_block bs)))%nat.
Proof.
  induction bs as [|b bs IH]; [cbn; lia|].
  cbn [map concat length]. unfold stored_block at 1.
  rewrite !length_app, le32_length. lia.
Qed.

(** The loop on the blocks of such a frame. *)
Lemma streamLoop_stored mx post :
  mx <= 4194304 ->
  forall bs fuel tarFile before chunks tot,
    Forall (fun b => len b <= mx) bs -> (length bs < fuel)%nat ->
    let body := concat (map stored_block bs) ++ le32 0 in
    tarFile = before ++ body ++ post ->
    streamLoop fuel tarFile (len before + len body) mx false (len before) chunks tot
    = (chunks ++ bs, Ok (tot + total bs)).
Proof.
  intros Hmx. induction bs as [|b bs IH];
    intros fuel tarFile before chunks tot Hall Hfuel body Hfile.
  - destruct fuel as [|fuel]; [lia|]. subst body. cbn [map concat app] in *.
    cbn [streamLoop].
    change (len (le32 0)) with 4.
    destruct (Z.ltb_spec (len before) (len before + 4)); [|lia].
    rewrite Hfile, (slice_at before (le32 0) post) by reflexivity.
    change (getUint32 (le32 0)) with (@Ok Z 0). cbn [Z.eqb].
    rewrite app_nil_r. unfold total. cbn [map fold_right]. now rewrite Z.add_0_r.
  - destruct fuel as [|fuel]; [cbn [length] in Hfuel; lia|].
    apply Forall_cons_iff in Hall as [Hb Hall].
    assert (Hn : 0 <= len b < 2 ^ 31) by (unfold len in *; lia).
    destruct (stored_flag (len b) Hn) as [Hflag Hact].
    set (rest := concat (map stored_block bs) ++ le32 0).
    set (h := le32 (0x80000000 + len b)).
    assert (Eb : body = h ++ b ++ rest).
    { subst body rest h. cbn [map concat]. unfold stored_block at 1.
      now rewrite <- !app_assoc. }
    assert (Hh : length h = 4%nat) by reflexivity.
    assert (S1 : sliceZ tarFile (len before) (len before + 4) = h).
    { rewrite Hfile, Eb. rewrite <- app_assoc. now apply slice_at. }
    assert (S2 : sliceZ tarFile (len before + 4) (len before + 4 + len b) = b).
    { rewrite Hfile, Eb. rewrite <- !app_assoc.
      replace (before ++ h ++ b ++ rest ++ post) with ((before ++ h) ++ b ++ rest ++ post)
        by now rewrite <- !app_assoc.
      apply slice_at; unfold len; rewrite length_app, Hh; lia. }
    assert (F3 : tarFile = (before ++ h ++ b) ++ rest ++ post).
    { rewrite Hfile, Eb. now rewrite <- !app_assoc. }
    assert (L3 : len (before ++ h ++ b) = len before + 4 + len b).
    { unfold len. rewrite !length_app, Hh. lia. }
    assert (Lb : len body = 4 + len b + len rest).
    { rewrite Eb. unfold len. rewrite !length_app, Hh. lia. }
    cbn [streamLoop].
    destruct (Z.ltb_spec (len before) (len before + len body));
      [|unfold len in *; lia].
    rewrite S1. subst h. rewrite getUint32_le32 by lia.
    destruct (Z.eqb_spec (0x80000000 + len b) 0); [lia|].
    rewrite Hact. destruct (Z.gtb_spec (len b) mx); [lia|].
    destruct (Z.eqb_spec (JS.band (0x80000000 + len b) 0x80000000) 0); [contradiction|].
    cbn [negb]. rewrite S2.
    rewrite <- L3.
    replace (len before + len body)
      with (len (before ++ le32 (0x80000000 + len b) ++ b) + len rest) by lia.
    subst rest.
    rewrite (IH fuel tarFile _ _ _ Hall ltac:(cbn [length] in Hfuel; lia) F3).
    rewrite <- app_assoc. cbn [app]. f_equal. f_equal.
    unfold total. cbn [map fold_right]. unfold len. lia.
Qed.

End Frames.

(** The frame decoder on any file, at any place and for any length: it
    returns or throws, it does not run on; every chunk that it hands
    over, decoded or stored, is no longer than the block size that the
    BD byte of the frame names, 4 MiB at most; and the total that it
    returns is the number of bytes of the chunks handed over. *)
Theorem streaming_chunks_bounded (tarFile : list byte) (offset compressedSize : Z) :
  let r := Lz4Stream.decompressStreaming tarFile offset compressedSize in
  snd r <> OutOfFuel /\
  Forall (fun c => Z.of_nat (length c) <= FrameSpec.frame_max tarFile offset) (fst r) /\
  FrameSpec.frame_max tarFile offset <= 4 * 1024 * 1024 /\
  (forall n, snd r = Ok n -> n = FrameSpec.total (fst r)).
Proof.
  intros r. subst r.
  pose proof (maxBlockSize_range
                (Utils.at0 (Lz4Stream.descriptor tarFile offset) 1)) as Hmx.
  fold (FrameSpec.frame_max tarFile offset) in Hmx.
  unfold Lz4Stream.decompressStreaming.
  destruct (Lz4Stream.getUint32 (Tar.sliceZ tarFile offset (offset + 4)))
    as [magic | msg |] eqn:Eg.
  - destruct (negb (magic =? Lz4Stream.LZ4_MAGIC)).
    + cbn [fst snd]. split; [discriminate|]. split; [constructor|].
      split; [lia | discriminate].
    + fold (FrameSpec.frame_max tarFile offset).
      destruct (streamLoop_bounds tarFile (offset + compressedSize)
                  (FrameSpec.frame_max tarFile offset)
                  (Lz4Stream.truthy
                     (JS.band (JS.sar (Utils.at0 (Lz4Stream.descriptor tarFile offset) 0) 4) 1))
                  (proj1 Hmx) (S (Z.to_nat compressedSize))
                  (offset + 4 + Lz4Stream.fdSize
                                  (Utils.at0 (Lz4Stream.descriptor tarFile offset) 0))
                  [] 0) as (A & B & C).
      * lia.
      * unfold Lz4Stream.fdSize.
        destruct (Lz4Stream.truthy _); destruct (Lz4Stream.truthy _); lia.
      * constructor.
      * reflexivity.
      * split; [exact A|]. split; [exact B|]. split; [lia | exact C].
  - cbn [fst snd]. split; [discriminate|]. split; [constructor|].
    split; [lia | discriminate].
  - exfalso. unfold Lz4Stream.getUint32 in Eg.
    destruct (Tar.sliceZ tarFile offset (offset + 4)) as [|? [|? [|? [|? ?]]]]; discriminate.
Qed.

(** A frame of stored blocks is handed over as it is.  For a frame made
    of the magic number, FLG [0x60], a BD byte, a header checksum, any
    blocks stored with the highest bit of their size set, none longer
    than the block size that the BD byte names, and the end mark,
    anywhere in a file: [decompressStreaming] hands over the blocks, in
    order and unchanged, and returns the number of their bytes. *)
Theorem stored_frame_streamed (pre post : list byte) (bd hc : byte)
        (blocks : list (list byte)) :
  Forall (fun b => Z.of_nat (length b) <= Lz4.maxBlockSize (byte.unsigned bd)) blocks ->
  let frame := FrameSpec.stored_frame bd hc blocks in
  Lz4Stream.decompressStreaming (pre ++ frame ++ post)
    (Z.of_nat (length pre)) (Z.of_nat (length frame))
  = (blocks, Ok (FrameSpec.total blocks)).
Proof.
  intros Hall frame. subst frame.
  pose proof (maxBlockSize_range (byte.unsigned bd)) as Hmx.
  pose proof (stored_blocks_length blocks) as Hlen.
  unfold Lz4Stream.decompressStreaming, FrameSpec.stored_frame.
  set (body := concat (map FrameSpec.stored_block blocks) ++ FrameSpec.le32 0).
  set (file := pre ++ (FrameSpec.le32 Lz4Stream.LZ4_MAGIC ++ [Byte.x60; bd; hc] ++ body)
                   ++ post).
  assert (Ef : file = pre ++ FrameSpec.le32 Lz4Stream.LZ4_MAGIC
                          ++ ([Byte.x60; bd; hc] ++ body ++ post)).
  { subst file. now rewrite <- !app_assoc. }
  assert (Em : Tar.sliceZ file (Z.of_nat (length pre)) (Z.of_nat (length pre) + 4)
               = FrameSpec.le32 Lz4Stream.LZ4_MAGIC).
  { rewrite Ef. now apply slice_at. }
  rewrite Em.
  change (Lz4Stream.getUint32 (FrameSpec.le32 Lz4Stream.LZ4_MAGIC))
    with (@Ok Z Lz4Stream.LZ4_MAGIC).
  cbv beta iota. rewrite Z.eqb_refl. cbn [negb].
  assert (Ed : exists tail, Lz4Stream.descriptor file (Z.of_nat (length pre))
                            = Byte.x60 :: bd :: hc :: tail).
  { unfold Lz4Stream.descriptor, Tar.sliceZ.
    assert (Hfl : (length pre + 11 <= length file)%nat).
    { subst file body. rewrite !length_app, !le32_length. cbn [length]. lia. }
    destruct (Z.ltb_spec (Z.of_nat (length pre) + 4) 0); [lia|].
    destruct (Z.ltb_spec (Z.of_nat (length pre) + 4 + 16) 0); [lia|].
    rewrite (Z.min_l (Z.of_nat (length pre) + 4)) by lia.
    replace (Z.to_nat (Z.of_nat (length pre) + 4)) with (length pre + 4)%nat by lia.
    remember (Z.to_nat (Z.min (Z.of_nat (length pre) + 4 + 16) (Z.of_nat (length file))
                        - (Z.of_nat (length pre) + 4))) as k eqn:Ek.
    assert (Hk : (3 <= k)%nat) by lia.
    assert (Es : skipn (length pre + 4) file = Byte.x60 :: bd :: hc :: body ++ post).
    { replace file with ((pre ++ FrameSpec.le32 Lz4Stream.LZ4_MAGIC)
                           ++ Byte.x60 :: bd :: hc :: body ++ post)
        by (rewrite Ef; now rewrite <- !app_assoc).
      rewrite skipn_app, skipn_all2 by (rewrite length_app, le32_length; lia).
      rewrite length_app, le32_length.
      replace (length pre + 4 - (length pre + 4))%nat with 0%nat by lia.
      reflexivity. }
    rewrite Es.
    destruct k as [|[|[|k]]]; try lia. cbn [firstn]. eexists. reflexivity. }
  destruct Ed as [tail Ed]. rewrite Ed.
  change (Utils.at0 (Byte.x60 :: bd :: hc :: tail) 0) with 96.
  change (Utils.at0 (Byte.x60 :: bd :: hc :: tail) 1) with (byte.unsigned bd).
  change (Lz4Stream.fdSize 96) with 3.
  change (Lz4Stream.truthy (JS.band (JS.sar 96 4) 1)) with false.
  replace (Z.of_nat (length pre) + 4 + 3)
    with (Engine.len (pre ++ FrameSpec.le32 Lz4Stream.LZ4_MAGIC ++ [Byte.x60; bd; hc]))
    by (unfold Engine.len; rewrite !length_app; cbn [length FrameSpec.le32]; lia).
  replace (Z.of_nat (length pre)
           + Z.of_nat (length (FrameSpec.le32 Lz4Stream.LZ4_MAGIC ++ [Byte.x60; bd; hc] ++ body)))
    with (Engine.len (pre ++ FrameSpec.le32 Lz4Stream.LZ4_MAGIC ++ [Byte.x60; bd; hc])
          + Engine.len body)
    by (unfold Engine.len; rewrite !length_app; cbn [length FrameSpec.le32]; lia).
  subst body.
  rewrite (streamLoop_stored (Lz4.maxBlockSize (byte.unsigned bd)) post (proj2 Hmx)
             blocks _ file _ [] 0 Hall).
  - reflexivity.
  - rewrite !length_app. cbn [length FrameSpec.le32]. lia.
  - rewrite Ef. now rewrite <- !app_assoc.
Qed.

Lemma stored_frame_streamed_witness :
  let blocks := [[Byte.x41; Byte.x42; Byte.x43]; []; [Byte.x44]] in
  Lz4Stream.decompressStreaming
    ([Byte.xff; Byte.xff] ++ FrameSpec.stored_frame Byte.x40 Byte.x82 blocks ++ [Byte.xee])
    2 27
  = (blocks, Ok 4).
Proof.
  apply (stored_frame_streamed [Byte.xff; Byte.xff] [Byte.xee] Byte.x40 Byte.x82
           [[Byte.x41; Byte.x42; Byte.x43]; []; [Byte.x44]]).
  repeat constructor; vm_compute; discriminate.
Defined.
(** ** Large writes *)

Section LargeWrites.
Import Utils Usb Engine SessionSpec UsbDevice UsbSpec.

Lemma CHUNK_value : Z.of_nat CHUNK = 65536.
Proof. unfold CHUNK. rewrite Z2Nat.id; lia. Qed.

Variable sz : nat.
Hypothesis Hsz : Z.of_nat sz = 65536.

Let cut (l : list byte) : list (list byte) := pieces sz (length l) l.

Lemma cut_done (p : list byte) o : o = length p -> cut (skipn o p) = [].
Proof. intros ->. now rewrite skipn_all. Qed.

Lemma cut_next (p : list byte) o :
  (o < length p)%nat ->
  exists o',
    (Z.of_nat o <? len p) = true /\
    TA.slice p (Z.to_nat (Z.of_nat o)) (Z.to_nat (Z.min (Z.of_nat o + 65536) (len p)))
    = firstn sz (skipn o p) /\
    Z.min (Z.of_nat o + 65536) (len p) = Z.of_nat o' /\
    (o < o' <= length p)%nat /\
    cut (skipn o p) = firstn sz (skipn o p) :: cut (skipn o' p) /\
    len (skipn o p) = len (firstn sz (skipn o p)) + len (skipn o' p).
Proof.
  intros Ho.
  destruct (chunk_step sz 65536 Hsz eq_refl p o Ho) as (Hlt & Hsl & o' & He & Ho' & Hsk).
  cbv zeta in Hsl, He. exists o'.
  split; [exact Hlt|]. split; [exact Hsl|]. split; [exact He|]. split; [exact Ho'|].
  split.
  - rewrite Hsk. apply (cut_step sz 65536 Hsz eq_refl).
    intros E. apply (f_equal (@length byte)) in E. rewrite length_skipn in E.
    cbn [length] in E. lia.
  - unfold len in *. rewrite length_firstn, !length_skipn. lia.
Qed.

(** The loop on a link that takes every chunk whole. *)
Lemma writeChunks_complete (p : list byte) rest : forall fuel o tw sent,
  (o <= length p)%nat -> (length p - o < fuel)%nat ->
  writeChunks fuel p (Z.of_nat o) tw
              (repeat Complete (length (cut (skipn o p))) ++ rest) sent
  = (Ok (tw + len (skipn o p)), sent ++ cut (skipn o p)).
Proof.
  induction fuel as [|fuel IH]; intros o tw sent Ho Hf; [lia|].
  cbn [writeChunks].
  destruct (Nat.eq_dec o (length p)) as [E | Hne].
  - rewrite (cut_done p o E). subst o. unfold len. rewrite Z.ltb_irrefl.
    rewrite skipn_all, app_nil_r. cbn [length]. now rewrite Z.add_0_r.
  - destruct (cut_next p o ltac:(lia)) as (o' & Hlt & Hsl & He & Ho' & Hcut & Hlen).
    rewrite Hlt, Hsl, He, Hcut. cbn [length repeat app transferOut].
    rewrite Z.eqb_refl. cbn [negb].
    rewrite IH by lia. rewrite <- app_assoc. cbn [app]. f_equal. f_equal. lia.
Qed.

(** The loop on a link that takes [j] chunks whole and a part of the
    next one. *)
Lemma writeChunks_partial (p : list byte) n rest : forall fuel j o tw sent,
  (o <= length p)%nat -> (length p - o < fuel)%nat ->
  (j < length (cut (skipn o p)))%nat ->
  n <> len (nth j (cut (skipn o p)) []) ->
  writeChunks fuel p (Z.of_nat o) tw (repeat Complete j ++ Partial n :: rest) sent
  = (Ok (tw + len (concat (firstn j (cut (skipn o p)))) + n),
     sent ++ firstn (S j) (cut (skipn o p))).
Proof.
  induction fuel as [|fuel IH]; intros j o tw sent Ho Hf Hj Hn; [lia|].
  cbn [writeChunks].
  destruct (Nat.eq_dec o (length p)) as [E | Hne].
  { rewrite (cut_done p o E) in Hj. cbn [length] in Hj. lia. }
  destruct (cut_next p o ltac:(lia)) as (o' & Hlt & Hsl & He & Ho' & Hcut & Hlen).
  rewrite Hlt, Hsl, He. rewrite Hcut in Hj, Hn |- *.
  destruct j as [|j].
  - cbn [repeat app transferOut nth] in *.
    destruct (Z.eqb_spec n (len (firstn sz (skipn o p)))); [contradiction|].
    cbn [negb firstn concat].
    f_equal. f_equal. change (len []) with 0. lia.
  - cbn [repeat app transferOut nth length] in *.
    rewrite Z.eqb_refl. cbn [negb].
    rewrite IH by (assumption || lia).
    rewrite <- app_assoc. cbn [firstn concat app]. f_equal. f_equal.
    unfold len. rewrite length_app. lia.
Qed.

End LargeWrites.

(** A write that is taken whole.  On a connected device whose link
    takes every chunk whole, [write] returns the length of the data; it
    hands the data to [transferOut] as they are when they are at most
    64 KiB, also when they are empty, and cut every 64 KiB otherwise:
    the chunks are of 1 byte to 64 KiB then, and together the data. *)
Theorem usb_write_whole (data : list byte) (rest : list Usb.WriteOutcome) :
  let ts := UsbSpec.transfers data in
  UsbDevice.write true data (repeat Usb.Complete (length ts) ++ rest)
  = (Ok (Engine.len data), ts) /\
  concat ts = data /\
  Forall (fun c => Engine.len c <= 65536) ts /\
  (65536 < Engine.len data -> Forall (fun c => 0 < Engine.len c) ts).
Proof.
  intros ts. subst ts. unfold UsbDevice.write, UsbSpec.transfers. cbn [negb].
  destruct (Z.gtb_spec (Engine.len data) 65536) as [Hbig | Hsmall].
  - pose proof (writeChunks_complete UsbSpec.CHUNK CHUNK_value data rest
                  (S (length data)) 0 0 [] ltac:(lia) ltac:(lia)) as H.
    cbn [skipn app] in H. change (Z.of_nat 0) with 0 in H. rewrite H.
    destruct (cut_spec UsbSpec.CHUNK 65536 CHUNK_value eq_refl (length data) data
                (Nat.le_refl _)) as [Hc Hf].
    split; [reflexivity|]. split; [exact Hc|]. split.
    + eapply Forall_impl; [|exact Hf]. cbv beta. intros c Hc'. lia.
    + intros _. eapply Forall_impl; [|exact Hf]. cbv beta. intros c Hc'. lia.
  - cbn [length repeat app UsbDevice.transferOut concat].
    split; [reflexivity|]. split; [apply app_nil_r|]. split.
    + constructor; [lia | constructor].
    + intros H. lia.
Qed.

(** A write that is cut short.  When the link takes [j] chunks of a
    large write whole and of the next one a number of bytes that is not
    its length, [write] does not throw: it hands over no further chunk
    and returns the bytes written so far, which is less than the data
    when fewer bytes than the chunk were taken. *)
Theorem usb_write_cut_short (data : list byte) (j : nat) (n : Z)
        (rest : list Usb.WriteOutcome) :
  65536 < Engine.len data ->
  (j < length (UsbSpec.transfers data))%nat ->
  n <> Engine.len (nth j (UsbSpec.transfers data) []) ->
  UsbDevice.write true data (repeat Usb.Complete j ++ Usb.Partial n :: rest)
  = (Ok (Engine.len (concat (firstn j (UsbSpec.transfers data))) + n),
     firstn (S j) (UsbSpec.transfers data)).
Proof.
  unfold UsbDevice.write, UsbSpec.transfers. cbn [negb].
  intros Hbig. destruct (Z.gtb_spec (Engine.len data) 65536) as [_ | Hsmall]; [|lia].
  intros Hj Hn.
  pose proof (writeChunks_partial UsbSpec.CHUNK CHUNK_value data n rest
                (S (length data)) j 0 0 [] ltac:(lia) ltac:(lia)) as H.
  cbn [skipn app] in H. change (Z.of_nat 0) with 0 in H.
  rewrite (H Hj Hn). reflexivity.
Qed.

Lemma usb_write_cut_short_witness :
  let data := repeat Byte.xaa (Z.to_nat 70000) in
  UsbDevice.write true data [Usb.Complete; Usb.Partial 100]
  = (Ok (Engine.len (concat (firstn 1 (UsbSpec.transfers data))) + 100),
     firstn 2 (UsbSpec.transfers data)) /\
  Engine.len (concat (firstn 1 (UsbSpec.transfers data))) + 100 = 65636 /\
  Engine.len data = 70000.
Proof.
  split; [|split; vm_compute; reflexivity].
  apply (usb_write_cut_short (repeat Byte.xaa (Z.to_nat 70000)) 1 100 []).
  - vm_compute. reflexivity.
  - vm_compute. apply le_n.
  - vm_compute. discriminate.
Defined.
(** ** Hexadecimal text *)

Section HexText.
Import Utils Hex.

(** One byte as text, and back. *)
Lemma byte_hex (b : byte) :
  exists c1 c2,
    padStart2 (toString16 (byte.unsigned b)) = String c1 (String c2 EmptyString) /\
    hexDigit c1 = Some (byte.unsigned b / 16) /\
    digitChar (byte.unsigned b / 16) = c1 /\
    hexDigit c2 = Some (byte.unsigned b mod 16) /\
    digitChar (byte.unsigned b mod 16) = c2 /\
    parseInt16 (String c1 (String c2 EmptyString)) = Some (byte.unsigned b).
Proof.
  destruct b; do 2 eexists; (split; [reflexivity|]); repeat split; reflexivity.
Qed.

End HexText.

(** Bytes written as hexadecimal text are read back: [bytesToHex] gives
    two characters for each byte, all of them digits or letters [a] to
    [f] in lower case, and [hexToBytes] turns the text into the bytes
    again. *)
Theorem hexToBytes_bytesToHex (bytes : list byte) :
  Hex.hexToBytes (Hex.bytesToHex bytes) = bytes /\
  String.length (Hex.bytesToHex bytes) = (2 * length bytes)%nat /\
  Forall (fun c => exists d, Hex.hexDigit c = Some d /\ Hex.digitChar d = c)
         (list_ascii_of_string (Hex.bytesToHex bytes)).
Proof.
  induction bytes as [|b bytes (IH1 & IH2 & IH3)].
  - repeat split. constructor.
  - destruct (byte_hex b) as (c1 & c2 & E & H1 & D1 & H2 & D2 & P).
    cbn [Hex.bytesToHex]. rewrite E. cbn [String.append Hex.hexToBytes].
    rewrite P, IH1. cbn [Hex.toUint8]. rewrite byte.of_Z_unsigned.
    split; [reflexivity|]. split; [cbn [String.length length]; lia|].
    cbn [list_ascii_of_string].
    constructor; [eauto|]. constructor; [eauto | exact IH3].
Qed.
